(** * An immutable radix tree: nodes, read operations and iterators

    Shallow embedding of [node.go], [iter.go] and the reverse iterator of the
    go-immutable-radix repository, followed by the properties of its
    specification.

    Conventions of the embedding.
    - A Go byte is a [Byte.byte]; byte comparisons go through [Byte.to_nat].
    - A slice is the list of its visible elements; [s[a:]] is [drop a s] and
      [s[:b]] is [take b s].  A [nil] slice that the code tests with [== nil]
      is an [option] around the list.
    - A [*Node] is a [Node] value carrying its address in the field [addr];
      the only code that looks at the address is the reverse iterator, whose
      [expandedParents] map is keyed by it.
    - A loop that follows child pointers is a [Fixpoint] on a fuel argument;
      the entry point supplies the height of the tree, and an unfolding lemma
      shows that the fuel is never the reason for the result. *)

From stdpp Require Import base list sorting gmap sets strings.
From Stdlib Require Import Strings.Byte ZArith Lia.

Local Open Scope nat_scope.

(** ** Bytes and the [bytes] package *)

#[global] Instance byte_eq_decision : EqDecision byte := Byte.byte_eq_dec.

Definition byte_lt (a b : byte) : Prop := Byte.to_nat a < Byte.to_nat b.
Definition byte_ltb (a b : byte) : bool := Byte.to_nat a <? Byte.to_nat b.
(** [a >= b] on bytes. *)
Definition byte_geb (a b : byte) : bool := Byte.to_nat b <=? Byte.to_nat a.

(** [bytes.Compare]: -1, 0 or 1 by unsigned lexicographic order. *)
Fixpoint bytes_Compare (a b : list byte) : Z :=
  match a, b with
  | [], [] => 0
  | [], _ :: _ => -1
  | _ :: _, [] => 1
  | x :: a', y :: b' =>
      if byte_ltb x y then -1
      else if byte_ltb y x then 1
      else bytes_Compare a' b'
  end%Z.

(** [bytes.HasPrefix s p]. *)
Fixpoint bytes_HasPrefix (s p : list byte) {struct p} : bool :=
  match p, s with
  | [], _ => true
  | _ :: _, [] => false
  | y :: p', x :: s' => Byte.eqb x y && bytes_HasPrefix s' p'
  end.

(** [bytes.Equal]. *)
Fixpoint bytes_Equal (a b : list byte) : bool :=
  match a, b with
  | [], [] => true
  | x :: a', y :: b' => Byte.eqb x y && bytes_Equal a' b'
  | _, _ => false
  end.

(** Unsigned lexicographic order on keys, as the specification words it. *)
Inductive key_lt : list byte → list byte → Prop :=
  | key_lt_nil b y : key_lt [] (b :: y)
  | key_lt_head a b x y : byte_lt a b → key_lt (a :: x) (b :: y)
  | key_lt_tail a x y : key_lt x y → key_lt (a :: x) (a :: y).

Definition key_le (x y : list byte) : Prop := x = y ∨ key_lt x y.

(** [x <= y] decided with [bytes.Compare]. *)
Definition key_leb (x y : list byte) : bool := (bytes_Compare x y <=? 0)%Z.

(** ** [sort.Search]

    The binary search of Go's [sort] package: the loop
    [for i < j { h := (i+j)/2; if !f(h) { i = h+1 } else { j = h } }].
    Every round shrinks [j - i], so [n] rounds are enough for [Search(n, f)]. *)
Fixpoint sort_Search_loop (fuel : nat) (f : nat → bool) (i j : nat) : nat :=
  match fuel with
  | 0 => i
  | S fuel' =>
      if i <? j then
        let h := (i + j) / 2 in
        if negb (f h) then sort_Search_loop fuel' f (h + 1) j
        else sort_Search_loop fuel' f i h
      else i
  end.

Definition sort_Search (n : nat) (f : nat → bool) : nat :=
  sort_Search_loop n f 0 n.

(** [copy(dst[off:], src)]: overwrites [min (len dst - off) (len src)]
    elements of [dst] from index [off]; [src] is read before anything is
    written (memmove). *)
Definition slice_copy {A} (dst : list A) (off : nat) (src : list A) : list A :=
  let n := min (length dst - off) (length src) in
  take off dst ++ take n src ++ drop (off + n) dst.

(** The outcome of a call that may hit a run-time panic. *)
Inductive outcome (A : Type) : Type :=
  | Returns (a : A)
  | Panics
  | NoFuel.
Arguments Returns {A} a.
Arguments Panics {A}.
Arguments NoFuel {A}.

(** ** Nodes *)

Record edge (N : Type) : Type := mkEdge { label : byte; node : N }.
Arguments mkEdge {N} label node.
Arguments label {N} e.
Arguments node {N} e.

Section Radix.

Context {T : Type}.
(** The zero value of [T], returned with [ok = false]. *)
Variable zero : T.

Record leafNode : Type := mkLeaf { key : list byte; val : T }.

#[local] Unset Elimination Schemes.
Inductive Node : Type :=
  mkNode (addr : nat) (leaf : option leafNode) (prefix : list byte)
         (edges : list (edge Node)).
#[local] Set Elimination Schemes.

Definition addr (n : Node) : nat := match n with mkNode a _ _ _ => a end.
Definition leaf (n : Node) : option leafNode :=
  match n with mkNode _ l _ _ => l end.
Definition prefix (n : Node) : list byte :=
  match n with mkNode _ _ p _ => p end.
Definition edges (n : Node) : list (edge Node) :=
  match n with mkNode _ _ _ es => es end.

Definition set_edges (n : Node) (es : list (edge Node)) : Node :=
  mkNode (addr n) (leaf n) (prefix n) es.

Definition isLeaf (n : Node) : bool := bool_decide (is_Some (leaf n)).

(** The predicate [n.edges[i].label >= l] that every edge operation hands to
    [sort.Search]; the search only probes indices below [len(n.edges)]. *)
Definition label_ge_at (es : list (edge Node)) (l : byte) (i : nat) : bool :=
  match es !! i with
  | Some e => byte_geb (label e) l
  | None => false
  end.

Definition addEdge (n : Node) (e : edge Node) : Node :=
  let num := length (edges n) in
  let idx := sort_Search num (label_ge_at (edges n) (label e)) in
  let es := edges n ++ [e] in
  if bool_decide (idx ≠ num) then
    let es := slice_copy es (idx + 1) (take (num - idx) (drop idx es)) in
    set_edges n (<[idx := e]> es)
  else set_edges n es.

(** [replaceEdge] overwrites the [node] field of the edge it finds and
    panics when there is none. *)
Definition replaceEdge (n : Node) (e : edge Node) : outcome Node :=
  let num := length (edges n) in
  let idx := sort_Search num (label_ge_at (edges n) (label e)) in
  match edges n !! idx with
  | Some e' =>
      if Byte.eqb (label e') (label e)
      then Returns (set_edges n (<[idx := mkEdge (label e') (node e)]> (edges n)))
      else Panics
  | None => Panics
  end.

(** [getEdge] returns [(-1, nil)] when no edge carries the label. *)
Definition getEdge (n : Node) (l : byte) : Z * option Node :=
  let num := length (edges n) in
  let idx := sort_Search num (label_ge_at (edges n) l) in
  match edges n !! idx with
  | Some e =>
      if Byte.eqb (label e) l then (Z.of_nat idx, Some (node e))
      else ((-1)%Z, None)
  | None => ((-1)%Z, None)
  end.

Definition getLowerBoundEdge (n : Node) (l : byte) : Z * option Node :=
  let num := length (edges n) in
  let idx := sort_Search num (label_ge_at (edges n) l) in
  match edges n !! idx with
  | Some e => (Z.of_nat idx, Some (node e))
  | None => ((-1)%Z, None)
  end.

(** [delEdge] shifts the tail of the slice one slot to the left and cuts the
    last slot off; the zero edge it stores in that slot first is not part of
    the resulting slice. *)
Definition delEdge (n : Node) (l : byte) : Node :=
  let num := length (edges n) in
  let idx := sort_Search num (label_ge_at (edges n) l) in
  match edges n !! idx with
  | Some e =>
      if Byte.eqb (label e) l then
        let es := slice_copy (edges n) idx (drop (idx + 1) (edges n)) in
        set_edges n (take (length es - 1) es)
      else n
  | None => n
  end.

(** The longest chain of edges below a node, the fuel of the descents. *)
Fixpoint height (n : Node) : nat :=
  match n with
  | mkNode _ _ _ es => S (foldr (λ e m, max (height (node e)) m) 0 es)
  end.

(** ** Lookups *)

(** The loop of [GetWatch] without the watch channel, which [Get] drops. *)
Fixpoint GetWatch_loop (fuel : nat) (n : Node) (search : list byte) : T * bool :=
  match fuel with
  | 0 => (zero, false)
  | S fuel' =>
      match search with
      | [] =>
          match leaf n with
          | Some l => (val l, true)
          | None => (zero, false)
          end
      | b :: _ =>
          match (getEdge n b).2 with
          | None => (zero, false)
          | Some n' =>
              if bytes_HasPrefix search (prefix n')
              then GetWatch_loop fuel' n' (drop (length (prefix n')) search)
              else (zero, false)
          end
      end
  end.

Definition Get (n : Node) (k : list byte) : T * bool :=
  GetWatch_loop (height n) n k.

(** [(nil, zero, false)] of the source is [([], zero, false)] here. *)
Definition leaf_result (last : option leafNode) : list byte * T * bool :=
  match last with
  | Some l => (key l, val l, true)
  | None => ([], zero, false)
  end.

Fixpoint LongestPrefix_loop (fuel : nat) (last : option leafNode) (n : Node)
    (search : list byte) : option leafNode :=
  match fuel with
  | 0 => last
  | S fuel' =>
      let last := match leaf n with Some l => Some l | None => last end in
      match search with
      | [] => last
      | b :: _ =>
          match (getEdge n b).2 with
          | None => last
          | Some n' =>
              if bytes_HasPrefix search (prefix n')
              then LongestPrefix_loop fuel' last n' (drop (length (prefix n')) search)
              else last
          end
      end
  end.

Definition LongestPrefix (n : Node) (k : list byte) : list byte * T * bool :=
  leaf_result (LongestPrefix_loop (height n) None n k).

Fixpoint Minimum_loop (n : Node) : option leafNode :=
  match leaf n with
  | Some l => Some l
  | None =>
      match edges n with
      | e :: _ => Minimum_loop (node e)
      | [] => None
      end
  end.

Definition Minimum (n : Node) : list byte * T * bool :=
  leaf_result (Minimum_loop n).

Fixpoint Maximum_loop (fuel : nat) (n : Node) : option leafNode :=
  match fuel with
  | 0 => None
  | S fuel' =>
      match last (edges n) with
      | Some e => Maximum_loop fuel' (node e)
      | None => leaf n
      end
  end.

Definition Maximum (n : Node) : list byte * T * bool :=
  leaf_result (Maximum_loop (height n) n).

(** ** Walks

    A walk is observed through the calls it makes to its callback: the
    result pairs the list of [(key, value)] arguments, in call order, with the
    boolean the walk returns (true when the callback asked to stop). *)
Definition WalkFn : Type := list byte → T → bool.

Fixpoint recursiveWalk (n : Node) (fn : WalkFn) : list (list byte * T) * bool :=
  match n with
  | mkNode _ lf _ es =>
      let children :=
        (fix range (es : list (edge Node)) : list (list byte * T) * bool :=
           match es with
           | [] => ([], false)
           | e :: es' =>
               let '(tr, stop) := recursiveWalk (node e) fn in
               if stop then (tr, true)
               else let '(tr', stop') := range es' in (tr ++ tr', stop')
           end) es in
      match lf with
      | Some l =>
          if fn (key l) (val l) then ([(key l, val l)], true)
          else ((key l, val l) :: children.1, children.2)
      | None => children
      end
  end.

(** The loop [for i := len(n.edges) - 1; i >= 0; i--] reaches the edges of
    higher index first: the inner recursion runs on the tail of the list
    before it visits the head. *)
Fixpoint reverseRecursiveWalk (n : Node) (fn : WalkFn) : list (list byte * T) * bool :=
  match n with
  | mkNode _ lf _ es =>
      let children :=
        (fix range (es : list (edge Node)) : list (list byte * T) * bool :=
           match es with
           | [] => ([], false)
           | e :: es' =>
               let '(tr', stop') := range es' in
               if stop' then (tr', true)
               else let '(tr, stop) := reverseRecursiveWalk (node e) fn in
                    (tr' ++ tr, stop)
           end) es in
      match lf with
      | Some l =>
          if fn (key l) (val l) then ([(key l, val l)], true)
          else ((key l, val l) :: children.1, children.2)
      | None => children
      end
  end.

Definition Walk (n : Node) (fn : WalkFn) : list (list byte * T) :=
  (recursiveWalk n fn).1.

Definition WalkBackwards (n : Node) (fn : WalkFn) : list (list byte * T) :=
  (reverseRecursiveWalk n fn).1.

(** ** The forward iterator

    [iter.go] reads [n.edges] as a slice of nodes; [nodes] projects the edge
    list of [node.go] on its [node] component.  The stack is [nil] until the
    first [append]. *)
Definition nodes (es : list (edge Node)) : list Node := node <$> es.

Record Iterator : Type := mkIterator {
  i_node : option Node;
  i_stack : option (list (list Node))
}.

Definition stack_append (s : option (list (list Node))) (x : list Node)
    : option (list (list Node)) :=
  Some (default [] s ++ [x]).

(** [recurseMin] threads the iterator's stack and returns the node with the
    smallest key below [n], if any. *)
Fixpoint recurseMin (s : option (list (list Node))) (n : Node)
    : option (list (list Node)) * option Node :=
  match leaf n with
  | Some _ => (s, Some n)
  | None =>
      let nChildren := length (edges n) in
      let s := if 1 <? nChildren then stack_append s (drop 1 (nodes (edges n))) else s in
      match edges n with
      | e :: _ => recurseMin s (node e)
      | [] => (s, None)
      end
  end.

(** The closures [found] and [findMin] of [SeekLowerBound]. *)
Definition found (s : option (list (list Node))) (n : Node)
    : option (list (list Node)) :=
  stack_append s [n].

Definition findMin (s : option (list (list Node))) (n : Node)
    : option (list (list Node)) :=
  match recurseMin s n with
  | (s, Some m) => found s m
  | (s, None) => s
  end.

(** The comparison both seeks start their loop body with. *)
Definition prefixCmp (n : Node) (search : list byte) : Z :=
  if length (prefix n) <? length search
  then bytes_Compare (prefix n) (take (length (prefix n)) search)
  else bytes_Compare (prefix n) search.

Fixpoint SeekLowerBound_loop (fuel : nat) (key0 : list byte)
    (s : option (list (list Node))) (n : Node) (search : list byte)
    : option (list (list Node)) :=
  match fuel with
  | 0 => s
  | S fuel' =>
      let c := prefixCmp n search in
      if (0 <? c)%Z then findMin s n
      else if (c <? 0)%Z then s
      else if match leaf n with
              | Some l => bytes_Equal (key l) key0
              | None => false
              end
      then found s n
      else
        let search := drop (length (prefix n)) search in
        match search with
        | [] => findMin s n
        | b :: _ =>
            match getLowerBoundEdge n b with
            | (_, None) => s
            | (idx, Some lbNode) =>
                let s :=
                  if (idx + 1 <? Z.of_nat (length (edges n)))%Z
                  then stack_append s (drop (Z.to_nat (idx + 1)) (nodes (edges n)))
                  else s in
                SeekLowerBound_loop fuel' key0 s lbNode search
            end
        end
  end.

(** [SeekLowerBound] dereferences [i.node]: on an iterator whose node is
    [nil] it panics. *)
Definition SeekLowerBound (i : Iterator) (key0 : list byte) : outcome Iterator :=
  match i_node i with
  | None => Panics
  | Some n =>
      Returns (mkIterator None (SeekLowerBound_loop (height n) key0 None n key0))
  end.

(** Number of nodes of a tree, and of the trees on a stack. *)
Fixpoint size (n : Node) : nat :=
  match n with
  | mkNode _ _ _ es => S (foldr (λ e m, size (node e) + m) 0 es)
  end.

Definition stack_weight (st : list (list Node)) : nat :=
  foldr (λ sl m, foldr (λ n k, size n + k) 0 sl + m) 0 st.

(** The [for len(i.stack) > 0] loop of [Next]; [last[0]] panics on an empty
    slice. *)
Fixpoint Next_loop (fuel : nat) (i : Iterator)
    : outcome (Iterator * (list byte * T * bool)) :=
  match fuel with
  | 0 => NoFuel
  | S fuel' =>
      let st := default [] (i_stack i) in
      match last st with
      | None => Returns (i, ([], zero, false))
      | Some lst =>
          match lst with
          | [] => Panics
          | elem :: _ =>
              let n := length st in
              let st := if 1 <? length lst then <[n - 1 := drop 1 lst]> st
                        else take (n - 1) st in
              let st := if 0 <? length (edges elem) then st ++ [nodes (edges elem)]
                        else st in
              let i := mkIterator (i_node i) (Some st) in
              match leaf elem with
              | Some l => Returns (i, (key l, val l, true))
              | None => Next_loop fuel' i
              end
          end
      end
  end.

Definition Next (i : Iterator) : outcome (Iterator * (list byte * T * bool)) :=
  let i :=
    match i_stack i, i_node i with
    | None, Some n => mkIterator (i_node i) (stack_append (i_stack i) [n])
    | _, _ => i
    end in
  Next_loop (S (stack_weight (default [] (i_stack i)))) i.

(** Calling [Next] until it reports [false], at most [calls] times: the
    pairs it returned, and whether the last call reported [false]. *)
Fixpoint drain (calls : nat) (i : Iterator) : list (list byte * T) * bool :=
  match calls with
  | 0 => ([], false)
  | S calls' =>
      match Next i with
      | Returns (i', (k, v, true)) =>
          let '(out, fin) := drain calls' i' in ((k, v) :: out, fin)
      | Returns (_, (_, _, false)) => ([], true)
      | _ => ([], false)
      end
  end.

(** ** The reverse iterator

    [expandedParents] is a Go map used as a set of node addresses; it is
    [nil] until [SeekReverseLowerBound] or [Previous] makes it.  The field
    [children] of the source is the edge list ([nodes (edges n)]). *)
Record ReverseIterator : Type := mkReverseIterator {
  ri_i : Iterator;
  expandedParents : option (gset nat)
}.

Definition NewReverseIterator (n : Node) : ReverseIterator :=
  mkReverseIterator (mkIterator (Some n) None) None.

Fixpoint SeekReverseLowerBound_loop (fuel : nat) (key0 : list byte)
    (s : option (list (list Node))) (E : gset nat) (n : Node)
    (search : list byte) : option (list (list Node)) * gset nat :=
  match fuel with
  | 0 => (s, E)
  | S fuel' =>
      let c := prefixCmp n search in
      if (c <? 0)%Z then (stack_append s [n], E)
      else if (0 <? c)%Z then (s, E)
      else
        let '(s, E, ret) :=
          match leaf n with
          | Some l =>
              if bytes_Equal (key l) key0
              then (stack_append s [n], {[addr n]} ∪ E, true)
              else if length (edges n) =? 0
              then (stack_append s [n], {[addr n]} ∪ E, true)
              else (stack_append s [n], {[addr n]} ∪ E, false)
          | None => (s, E, false)
          end in
        if ret : bool then (s, E)
        else
          let search := drop (length (prefix n)) search in
          match search with
          | [] => (s, E)
          | b :: _ =>
              let '(idx, lbNode) := getLowerBoundEdge n b in
              let idx := if (idx =? -1)%Z then Z.of_nat (length (edges n)) else idx in
              let s := if (0 <? idx)%Z
                       then stack_append s (take (Z.to_nat idx) (nodes (edges n)))
                       else s in
              match lbNode with
              | None => (s, E)
              | Some lb => SeekReverseLowerBound_loop fuel' key0 s E lb search
              end
          end
  end.

Definition SeekReverseLowerBound (ri : ReverseIterator) (key0 : list byte)
    : outcome ReverseIterator :=
  match i_node (ri_i ri) with
  | None => Panics
  | Some n =>
      let E := default ∅ (expandedParents ri) in
      let '(s, E) := SeekReverseLowerBound_loop (height n) key0 None E n key0 in
      Returns (mkReverseIterator (mkIterator None s) (Some E))
  end.

(** The [for len(ri.i.stack) > 0] loop of [Previous]. *)
Fixpoint Previous_loop (fuel : nat) (ri : ReverseIterator)
    : outcome (ReverseIterator * (list byte * T * bool)) :=
  match fuel with
  | 0 => NoFuel
  | S fuel' =>
      let st := default [] (i_stack (ri_i ri)) in
      match last st with
      | None => Returns (ri, ([], zero, false))
      | Some top =>
          match last top with
          | None => Panics
          | Some elem =>
              let n := length st in
              let m := length top in
              let st := if 1 <? m then <[n - 1 := take (m - 1) top]> st
                        else take (n - 1) st in
              let E := default ∅ (expandedParents ri) in
              let alreadyExpanded := bool_decide (addr elem ∈ E) in
              if (0 <? length (edges elem)) && negb alreadyExpanded then
                Previous_loop fuel'
                  (mkReverseIterator
                     (mkIterator (i_node (ri_i ri))
                        (Some ((st ++ [[elem]]) ++ [nodes (edges elem)])))
                     (Some ({[addr elem]} ∪ E)))
              else
                let E := if alreadyExpanded then E ∖ {[addr elem]} else E in
                let ri := mkReverseIterator
                            (mkIterator (i_node (ri_i ri)) (Some st)) (Some E) in
                match leaf elem with
                | Some l => Returns (ri, (key l, val l, true))
                | None => Previous_loop fuel' ri
                end
          end
      end
  end.

Definition Previous (ri : ReverseIterator)
    : outcome (ReverseIterator * (list byte * T * bool)) :=
  let i :=
    match i_stack (ri_i ri), i_node (ri_i ri) with
    | None, Some n => mkIterator (i_node (ri_i ri)) (stack_append None [n])
    | _, _ => ri_i ri
    end in
  let E := match expandedParents ri with None => Some ∅ | Some E => Some E end in
  Previous_loop (S (2 * stack_weight (default [] (i_stack i))))
    (mkReverseIterator i E).

Fixpoint rdrain (calls : nat) (ri : ReverseIterator) : list (list byte * T) * bool :=
  match calls with
  | 0 => ([], false)
  | S calls' =>
      match Previous ri with
      | Returns (ri', (k, v, true)) =>
          let '(out, fin) := rdrain calls' ri' in ((k, v) :: out, fin)
      | Returns (_, (_, _, false)) => ([], true)
      | _ => ([], false)
      end
  end.

(** ** The structural invariants of a tree

    [wf_node path n]: [path] is the concatenation of the prefixes from the
    root down to and including [n]; a leaf stores [path] as its key, the edge
    labels ascend strictly, and every child has a non-empty prefix that
    starts with its label. *)
Definition sorted_edges (es : list (edge Node)) : Prop :=
  StronglySorted (λ a b, byte_lt (label a) (label b)) es.

Fixpoint wf_node (path : list byte) (n : Node) : Prop :=
  match n with
  | mkNode _ lf _ es =>
      (∀ l, lf = Some l → key l = path) ∧
      sorted_edges es ∧
      (fix all (es : list (edge Node)) : Prop :=
         match es with
         | [] => True
         | e :: es' =>
             ((∃ rest, prefix (node e) = label e :: rest) ∧
              wf_node (path ++ prefix (node e)) (node e)) ∧ all es'
         end) es
  end.

(** A tree: a root with an empty prefix over well-formed nodes. *)
Definition valid_tree (root : Node) : Prop :=
  prefix root = [] ∧ wf_node [] root.

(** The leaf records of a tree, listed parent before children and children
    by ascending index. *)
Fixpoint leaves (n : Node) : list leafNode :=
  match n with
  | mkNode _ lf _ es => option_list lf ++ flat_map (λ e, leaves (node e)) es
  end.

(** [has_leaf n k v]: some node of the tree below [n] carries the leaf
    [(k, v)]. *)
Inductive has_leaf : Node → list byte → T → Prop :=
  | has_leaf_here n l : leaf n = Some l → has_leaf n (key l) (val l)
  | has_leaf_below n e k v :
      e ∈ edges n → has_leaf (node e) k v → has_leaf n k v.

Definition pair_of (l : leafNode) : list byte * T := (key l, val l).

(** Addresses of the nodes of a tree; in a tree no node occurs twice. *)
Fixpoint addrs (n : Node) : list nat :=
  match n with
  | mkNode a _ _ es => a :: flat_map (λ e, addrs (node e)) es
  end.

Definition distinct_nodes (root : Node) : Prop := NoDup (addrs root).

(** Below the root every node has a leaf or a child: deletion removes a
    node that is left with neither. *)
Fixpoint live (n : Node) : Prop :=
  match n with
  | mkNode _ lf _ es =>
      (is_Some lf ∨ es ≠ []) ∧
      (fix all (es : list (edge Node)) : Prop :=
         match es with
         | [] => True
         | e :: es' => live (node e) ∧ all es'
         end) es
  end.

Definition no_dead_end (root : Node) : Prop :=
  Forall (λ e, live (node e)) (edges root).

(** No node that carries a leaf has children. *)
Fixpoint leaves_at_tips (n : Node) : Prop :=
  match n with
  | mkNode _ lf _ es =>
      (is_Some lf → es = []) ∧
      (fix all (es : list (edge Node)) : Prop :=
         match es with
         | [] => True
         | e :: es' => leaves_at_tips (node e) ∧ all es'
         end) es
  end.

(** The callback that never asks to stop. *)
Definition never_stop : WalkFn := λ _ _, false.

(** [l] is a longest leaf of [n] whose key is a prefix of [k]. *)
Definition longest_prefix_leaf (n : Node) (k : list byte) (l : leafNode) : Prop :=
  l ∈ leaves n ∧ key l `prefix_of` k ∧
  ∀ l', l' ∈ leaves n → key l' `prefix_of` k → length (key l') ≤ length (key l).

(** ** What an iterator still has to yield

    The forward stack is read from its top: the last slice first, each
    slice from its first node, each node with its whole subtree. *)
Definition stack_leaves (st : list (list Node)) : list leafNode :=
  flat_map (flat_map leaves) (reverse st).

Definition stack_of (i : Iterator) : list (list Node) := default [] (i_stack i).

(** The stack after [Next] has taken [elem] off the top slice
    [elem :: rest] and pushed its edges. *)
Definition popped_stack (st : list (list Node)) (elem : Node) (rest : list Node)
    : list (list Node) :=
  let st1 := if 1 <? length (elem :: rest)
             then <[length (st ++ [elem :: rest]) - 1 := drop 1 (elem :: rest)]>
                    (st ++ [elem :: rest])
             else take (length (st ++ [elem :: rest]) - 1) (st ++ [elem :: rest]) in
  if 0 <? length (edges elem) then st1 ++ [nodes (edges elem)] else st1.

(** No slice on the stack is empty, so [last[0]] is in range. *)
Definition slices_nonempty (st : list (list Node)) : Prop :=
  Forall (λ sl, sl ≠ []) st.

(** [Next] will not push [i.node] again. *)
Definition started (i : Iterator) : Prop :=
  i_node i = None ∨ is_Some (i_stack i).

(** The reverse stack is read from the end of its last slice.  A node whose
    address is in [expandedParents] only has its own leaf left to yield; any
    other node yields its whole subtree, greatest key first. *)
Definition entry_leaves (E : gset nat) (n : Node) : list leafNode :=
  if decide (addr n ∈ E) then option_list (leaf n) else reverse (leaves n).

Definition rstack_leaves (E : gset nat) (st : list (list Node)) : list leafNode :=
  flat_map (entry_leaves E) (reverse (concat st)).

(** The addresses a stack entry stands for. *)
Definition entry_addrs (E : gset nat) (n : Node) : list nat :=
  if decide (addr n ∈ E) then [addr n] else addrs n.

(** The reverse stack holds no node twice, and [expandedParents] marks
    nodes of the stack only. *)
Definition rstack_inv (E : gset nat) (st : list (list Node)) : Prop :=
  slices_nonempty st ∧
  NoDup (flat_map (entry_addrs E) (concat st)) ∧
  ∀ a, a ∈ E → ∃ n, n ∈ concat st ∧ addr n = a.

(** Rounds of the loop of [Previous] a stack can still take: one for a
    marked node, two for every node below an unmarked one. *)
Definition entry_weight (E : gset nat) (n : Node) : nat :=
  if decide (addr n ∈ E) then 1 else 2 * size n.

Definition rweight (E : gset nat) (st : list (list Node)) : nat :=
  foldr (λ x m, entry_weight E x + m) 0 (concat st).

Definition rstack_of (ri : ReverseIterator) : list (list Node) := stack_of (ri_i ri).

Definition expanded_of (ri : ReverseIterator) : gset nat :=
  default ∅ (expandedParents ri).

(** The stack of [Previous] without the node at the end of its last slice. *)
Definition rpopped (st : list (list Node)) (rest : list Node) : list (list Node) :=
  match rest with [] => st | _ :: _ => st ++ [rest] end.

End Radix.

(** * More of [node.go] and [iter.go]: prefix walks and prefix seeks *)
Section Prefixes.

Context {T : Type}.
Variable zero : T.

(** The loop of [WalkPrefix]: the descent of [Get], which hands the node it
    ends at to [recursiveWalk]; it also ends at a child whose prefix
    continues the rest of the search. *)
Fixpoint WalkPrefix_loop (fuel : nat) (n : @Node T) (search : list byte)
    (fn : @WalkFn T) : list (list byte * T) :=
  match fuel with
  | 0 => []
  | S fuel' =>
      match search with
      | [] => (recursiveWalk n fn).1
      | b :: _ =>
          match (getEdge n b).2 with
          | None => []
          | Some n' =>
              if bytes_HasPrefix search (prefix n')
              then WalkPrefix_loop fuel' n' (drop (length (prefix n')) search) fn
              else if bytes_HasPrefix (prefix n') search
              then (recursiveWalk n' fn).1
              else []
          end
      end
  end.

Definition WalkPrefix (n : @Node T) (prefix : list byte) (fn : @WalkFn T)
    : list (list byte * T) :=
  WalkPrefix_loop (height n) n prefix fn.

(** The loop of [SeekPrefixWatch], giving the node it stores in [i.node].
    The watch channel it returns is dropped by [SeekPrefix]. *)
Fixpoint SeekPrefixWatch_loop (fuel : nat) (n : @Node T) (search : list byte)
    : option (@Node T) :=
  match fuel with
  | 0 => None
  | S fuel' =>
      match search with
      | [] => Some n
      | b :: _ =>
          match (getEdge n b).2 with
          | None => None
          | Some child =>
              if bytes_HasPrefix search (prefix child)
              then SeekPrefixWatch_loop fuel' child
                     (drop (length (prefix child)) search)
              else if bytes_HasPrefix (prefix child) search
              then Some child
              else None
          end
      end
  end.

(** [SeekPrefix] wipes the stack and reads [n.mutateCh] of [i.node] before
    the loop: on an iterator whose node is [nil] it panics. *)
Definition SeekPrefix (i : @Iterator T) (prefix : list byte) : outcome (@Iterator T) :=
  match i_node i with
  | None => Panics
  | Some n => Returns (mkIterator (SeekPrefixWatch_loop (height n) n prefix) None)
  end.

(** [ReverseIterator.SeekPrefix] seeks the inner iterator and leaves
    [expandedParents] as it is. *)
Definition ReverseIterator_SeekPrefix (ri : @ReverseIterator T) (prefix : list byte)
    : outcome (@ReverseIterator T) :=
  match SeekPrefix (ri_i ri) prefix with
  | Returns i => Returns (mkReverseIterator i (expandedParents ri))
  | Panics => Panics
  | NoFuel => NoFuel
  end.

(** [subnode m n]: [m] is [n] or a node below it. *)
Inductive subnode : @Node T → @Node T → Prop :=
  | subnode_refl n : subnode n n
  | subnode_child m n e : e ∈ edges n → subnode m (node e) → subnode m n.

(** What a walk over the pairs [kvs] shows of a callback: the pairs up to
    and including the first one the callback stops at, and whether it
    stopped. *)
Fixpoint visit_until (fn : @WalkFn T) (kvs : list (list byte * T))
    : list (list byte * T) * bool :=
  match kvs with
  | [] => ([], false)
  | kv :: kvs' =>
      if fn kv.1 kv.2 then ([kv], true)
      else let '(tr, stop) := visit_until fn kvs' in (kv :: tr, stop)
  end.

(** The keys that start with [p]. *)
Definition under_prefix (p : list byte) (kvs : list (list byte * T))
    : list (list byte * T) :=
  List.filter (λ kv, bytes_HasPrefix kv.1 p) kvs.

(** The result triple of [Next] and [Previous] for a pair. *)
Definition pair_result (o : option (list byte * T)) : list byte * T * bool :=
  match o with
  | Some (k, v) => (k, v, true)
  | None => ([], zero, false)
  end.

End Prefixes.

(** * Nodes in memory: [clone]

    [clone] is about pointers: which records the copy shares with the
    original and which are new.  Here a node lives in a heap at an address,
    a leaf likewise, a channel is an identifier handed out by [make], and a
    byte slice names its backing array.  One goroutine runs the code, so the
    compare-and-swap of [getMutateCh] succeeds. *)
Module Heap.

(** [int64] addition. *)
Definition wrap64 (z : Z) : Z := ((z + 2 ^ 63) mod 2 ^ 64 - 2 ^ 63)%Z.

(** A byte slice: its backing array and the bytes it shows. *)
Record slice : Type := mkSlice { arr : nat; bytes : list byte }.

Section Heap.

Context {T : Type}.
Variable zero : T.

(** [mutateCh] is an [atomic.Pointer[chan struct{}]]: [None] is the nil
    pointer, [Some None] points to a nil channel, [Some (Some c)] to the
    channel [c]. *)
Record leafNode : Type := mkLeaf {
  l_mutateCh : option (option nat);
  key : option slice;
  val : T;
  l_refCount : Z
}.

Record Node : Type := mkNode {
  refCount : Z;
  lazyRefCount : Z;
  mutateCh : option (option nat);
  leaf : option nat;
  prefix : option slice;
  edges : list (edge (option nat))
}.

Record heap : Type := mkHeap {
  nodes : gmap nat Node;
  leafs : gmap nat leafNode;
  next_addr : nat;
  next_chan : nat;
  next_arr : nat
}.

(** Code that reads and writes the heap and may panic. *)
Definition M (A : Type) : Type := heap → outcome (A * heap).

Definition ret {A} (a : A) : M A := λ h, Returns (a, h).

Definition bind {A B} (m : M A) (k : A → M B) : M B :=
  λ h, match m h with
       | Returns (a, h') => k a h'
       | Panics => Panics
       | NoFuel => NoFuel
       end.

#[local] Notation "'let*' x := m 'in' k" := (bind m (λ x, k))
  (at level 10, x binder, m at level 200, k at level 200).

(** Dereferencing an address that holds no node panics. *)
Definition load_node (p : nat) : M Node :=
  λ h, match nodes h !! p with
       | Some n => Returns (n, h)
       | None => Panics
       end.

Definition store_node (p : nat) (n : Node) : M unit :=
  λ h, Returns (tt, mkHeap (<[p := n]> (nodes h)) (leafs h)
                      (next_addr h) (next_chan h) (next_arr h)).

Definition update_node (p : nat) (f : Node → Node) : M unit :=
  let* n := load_node p in store_node p (f n).

Definition load_leaf (p : nat) : M leafNode :=
  λ h, match leafs h !! p with
       | Some l => Returns (l, h)
       | None => Panics
       end.

Definition store_leaf (p : nat) (l : leafNode) : M unit :=
  λ h, Returns (tt, mkHeap (nodes h) (<[p := l]> (leafs h))
                      (next_addr h) (next_chan h) (next_arr h)).

Definition update_leaf (p : nat) (f : leafNode → leafNode) : M unit :=
  let* l := load_leaf p in store_leaf p (f l).

(** [make(chan struct{})]. *)
Definition new_chan : M nat :=
  λ h, Returns (next_chan h, mkHeap (nodes h) (leafs h)
                               (next_addr h) (S (next_chan h)) (next_arr h)).

(** [make([]byte, len)]: a new backing array. *)
Definition new_arr : M nat :=
  λ h, Returns (next_arr h, mkHeap (nodes h) (leafs h)
                              (next_addr h) (next_chan h) (S (next_arr h))).

(** [new(Node[T])]: a node with zero fields at a new address. *)
Definition new_node : M nat :=
  λ h, Returns (next_addr h,
                mkHeap (<[next_addr h := mkNode 0 0 None None None []]> (nodes h))
                  (leafs h) (S (next_addr h)) (next_chan h) (next_arr h)).

(** [&leafNode[T]{}]. *)
Definition new_leaf : M nat :=
  λ h, Returns (next_addr h,
                mkHeap (nodes h)
                  (<[next_addr h := mkLeaf None None zero 0]> (leafs h))
                  (S (next_addr h)) (next_chan h) (next_arr h)).

Definition set_refCount (z : Z) (n : Node) : Node :=
  mkNode z (lazyRefCount n) (mutateCh n) (leaf n) (prefix n) (edges n).
Definition set_lazyRefCount (z : Z) (n : Node) : Node :=
  mkNode (refCount n) z (mutateCh n) (leaf n) (prefix n) (edges n).
Definition set_mutateCh (c : option (option nat)) (n : Node) : Node :=
  mkNode (refCount n) (lazyRefCount n) c (leaf n) (prefix n) (edges n).
Definition set_leaf (l : option nat) (n : Node) : Node :=
  mkNode (refCount n) (lazyRefCount n) (mutateCh n) l (prefix n) (edges n).
Definition set_prefix (s : option slice) (n : Node) : Node :=
  mkNode (refCount n) (lazyRefCount n) (mutateCh n) (leaf n) s (edges n).
Definition set_edges (es : list (edge (option nat))) (n : Node) : Node :=
  mkNode (refCount n) (lazyRefCount n) (mutateCh n) (leaf n) (prefix n) es.

Definition set_l_mutateCh (c : option (option nat)) (l : leafNode) : leafNode :=
  mkLeaf c (key l) (val l) (l_refCount l).
Definition set_key (s : option slice) (l : leafNode) : leafNode :=
  mkLeaf (l_mutateCh l) s (val l) (l_refCount l).
Definition set_val (v : T) (l : leafNode) : leafNode :=
  mkLeaf (l_mutateCh l) (key l) v (l_refCount l).
Definition set_l_refCount (z : Z) (l : leafNode) : leafNode :=
  mkLeaf (l_mutateCh l) (key l) (val l) z.

(** [n.getMutateCh()]: the channel of the node, made on first use. *)
Definition getMutateCh (p : nat) : M nat :=
  let* n := load_node p in
  match mutateCh n with
  | Some (Some c) => ret c
  | _ =>
      let* newCh := new_chan in
      let* _ := update_node p (set_mutateCh (Some (Some newCh))) in
      ret newCh
  end.

Definition setMutateCh (p : nat) (ch : option nat) : M unit :=
  update_node p (set_mutateCh (Some ch)).

Definition leaf_getMutateCh (p : nat) : M nat :=
  let* l := load_leaf p in
  match l_mutateCh l with
  | Some (Some c) => ret c
  | _ =>
      let* newCh := new_chan in
      let* _ := update_leaf p (set_l_mutateCh (Some (Some newCh))) in
      ret newCh
  end.

Definition leaf_setMutateCh (p : nat) (ch : option nat) : M unit :=
  update_leaf p (set_l_mutateCh (Some ch)).

Definition slice_bytes (s : option slice) : list byte :=
  match s with Some s => bytes s | None => [] end.

(** [leafNode.clone]. *)
Definition leaf_clone (p : nat) : M nat :=
  let* nn := new_leaf in
  let* n := load_leaf p in
  let* a := new_arr in
  let* _ := update_leaf nn (set_key (Some (mkSlice a (slice_bytes (key n))))) in
  let* n := load_leaf p in
  let* _ := update_leaf nn (set_val (val n)) in
  let* ch := leaf_getMutateCh p in
  let* _ := leaf_setMutateCh nn (Some ch) in
  let* n := load_leaf p in
  let* _ := update_leaf nn (set_l_refCount (l_refCount n)) in
  ret nn.

(** [for idx, x := range xs { body }]. *)
Fixpoint for_range {A} (xs : list A) (idx : nat) (body : nat → A → M unit) : M unit :=
  match xs with
  | [] => ret tt
  | x :: xs' => let* _ := body idx x in for_range xs' (S idx) body
  end.

(** Dereferencing a nil child pointer panics. *)
Definition deref (c : option nat) : M nat :=
  λ h, match c with Some p => Returns (p, h) | None => Panics end.

Definition processLazyRefCount (p : nat) : M unit :=
  let* n := load_node p in
  if (lazyRefCount n =? 0)%Z then ret tt
  else
    let* _ := update_node p
                (λ n, set_refCount (wrap64 (refCount n + lazyRefCount n)) n) in
    let* n := load_node p in
    let* _ := match leaf n with
              | Some lp =>
                  update_leaf lp
                    (λ l, set_l_refCount (wrap64 (l_refCount l + lazyRefCount n)) l)
              | None => ret tt
              end in
    let* n := load_node p in
    let* _ := for_range (edges n) 0 (λ _ ed,
                let* c := deref (node ed) in
                let* n := load_node p in
                update_node c
                  (λ m, set_lazyRefCount (wrap64 (lazyRefCount m + lazyRefCount n)) m)) in
    update_node p (set_lazyRefCount 0).

Definition set_edge_label (idx : nat) (b : byte) (n : Node) : Node :=
  set_edges (alter (λ e, mkEdge b (node e)) idx (edges n)) n.
Definition set_edge_node (idx : nat) (c : option nat) (n : Node) : Node :=
  set_edges (alter (λ e, mkEdge (label e) c) idx (edges n)) n.

(** [Node.clone]; the deep copy recurses through the child pointers. *)
Fixpoint clone (fuel : nat) (deep : bool) (p : nat) : M nat :=
  match fuel with
  | 0 => λ _, NoFuel
  | S fuel' =>
      let* _ := processLazyRefCount p in
      let* nn := new_node in
      let* n := load_node p in
      let* _ := update_node nn (set_refCount (refCount n)) in
      let* _ := getMutateCh p in
      let* ch := getMutateCh p in
      let* _ := setMutateCh nn (Some ch) in
      let* n := load_node p in
      let* _ := match prefix n with
                | Some s =>
                    let* a := new_arr in
                    update_node nn (set_prefix (Some (mkSlice a (bytes s))))
                | None => ret tt
                end in
      let* n := load_node p in
      let* _ := match leaf n with
                | Some lp =>
                    if deep then
                      let* lp' := leaf_clone lp in
                      update_node nn (set_leaf (Some lp'))
                    else update_node nn (set_leaf (Some lp))
                | None => ret tt
                end in
      let* n := load_node p in
      let* _ := if bool_decide (length (edges n) ≠ 0) then
                  let* _ := update_node nn
                              (set_edges (replicate (length (edges n))
                                            (mkEdge "000"%byte None))) in
                  for_range (edges n) 0 (λ idx ed,
                    let* _ := update_node nn (set_edge_label idx (label ed)) in
                    if deep then
                      let* c := deref (node ed) in
                      let* c' := clone fuel' deep c in
                      update_node nn (set_edge_node idx (Some c'))
                    else update_node nn (set_edge_node idx (node ed)))
                else ret tt in
      ret nn
  end.

(** Addresses, channels and arrays in use lie below the allocation
    counters. *)
Definition heap_ok (h : heap) : Prop :=
  (∀ a n, nodes h !! a = Some n →
     a < next_addr h ∧
     (∀ c, mutateCh n = Some (Some c) → c < next_chan h) ∧
     (∀ s, prefix n = Some s → arr s < next_arr h)) ∧
  (∀ a l, leafs h !! a = Some l → a < next_addr h).

(** The arrays of the leaf keys lie below the allocation counter as
    well. *)
Definition leaf_keys_ok (h : heap) : Prop :=
  ∀ a l s, leafs h !! a = Some l → key l = Some s → arr s < next_arr h.

(** The records a node points to are there. *)
Definition node_ok (h : heap) (n : Node) : Prop :=
  (∀ lp, leaf n = Some lp → is_Some (leafs h !! lp)) ∧
  Forall (λ e, ∃ c, node e = Some c ∧ is_Some (nodes h !! c)) (edges n).

(** What [clone] reads of a node: everything but the two counts. *)
Definition shape (n : Node)
    : option (option nat) * option nat * option slice * list (edge (option nat)) :=
  (mutateCh n, leaf n, prefix n, edges n).

(** [h'] holds the nodes of [h] with the same shapes, and the same
    allocation counters. *)
Definition same_shapes (h h' : heap) : Prop :=
  next_addr h' = next_addr h ∧ next_chan h' = next_chan h ∧
  next_arr h' = next_arr h ∧
  (∀ q, shape <$> (nodes h' !! q) = shape <$> (nodes h !! q)) ∧
  (∀ q, is_Some (leafs h' !! q) ↔ is_Some (leafs h !! q)).

(** [h'] differs from [h] at most in the node at [q] and in the channel
    counter. *)
Definition only_node_changed (q : nat) (h h' : heap) : Prop :=
  (∀ r, r ≠ q → nodes h' !! r = nodes h !! r) ∧
  leafs h' = leafs h ∧ next_addr h' = next_addr h ∧ next_arr h' = next_arr h.

(** The prefix of a clone: the same bytes in the array [a]. *)
Definition copy_slice (a : nat) (s : option slice) : option slice :=
  match s with
  | Some s => Some (mkSlice a (bytes s))
  | None => None
  end.

End Heap.
End Heap.

(** * Example trees and heaps

    Trees as insertion builds them, used to run the operations and to show
    that the hypotheses of the theorems below can be met. *)
Module Examples.

Definition bytes_of (s : String.string) : list byte := String.list_byte_of_string s.

Definition ex_leaf (s : String.string) (v : nat) : option (@leafNode nat) :=
  Some (mkLeaf (bytes_of s) v).

(** An edge carries the first byte of the prefix of its child. *)
Definition ex_edge (n : @Node nat) : edge (@Node nat) :=
  mkEdge (match prefix n with b :: _ => b | [] => "000"%byte end) n.

Definition ex_node (a : nat) (lf : option (@leafNode nat)) (p : String.string)
    (children : list (@Node nat)) : @Node nat :=
  mkNode a lf (bytes_of p) (ex_edge <$> children).

(** Keys foo, foobar, foozip. *)
Definition tree_foo : @Node nat :=
  ex_node 0 None ""
    [ex_node 1 (ex_leaf "foo" 1) "foo"
       [ex_node 2 (ex_leaf "foobar" 2) "bar" [];
        ex_node 3 (ex_leaf "foozip" 3) "zip" []]].

(** Keys "", a, ab, abc. *)
Definition tree_abc : @Node nat :=
  ex_node 0 (ex_leaf "" 0) ""
    [ex_node 1 (ex_leaf "a" 1) "a"
       [ex_node 2 (ex_leaf "ab" 2) "b"
          [ex_node 3 (ex_leaf "abc" 3) "c" []]]].

(** Keys a, ab, ac, acd, b, bab. *)
Definition tree_mixed : @Node nat :=
  ex_node 0 None ""
    [ex_node 1 (ex_leaf "a" 1) "a"
       [ex_node 2 (ex_leaf "ab" 2) "b" [];
        ex_node 3 (ex_leaf "ac" 3) "c" [ex_node 6 (ex_leaf "acd" 7) "d" []]];
     ex_node 4 (ex_leaf "b" 4) "b" [ex_node 5 (ex_leaf "bab" 5) "ab" []]].

(** Keys x, y: no node with a leaf has children. *)
Definition tree_tips : @Node nat :=
  ex_node 0 None ""
    [ex_node 1 (ex_leaf "x" 1) "x" []; ex_node 2 (ex_leaf "y" 2) "y" []].



(** An edge to add to the root of [tree_mixed]. *)
Definition edge_c : edge (@Node nat) := ex_edge (ex_node 9 (ex_leaf "c" 9) "c" []).

(** A heap with a node at 0 that has a channel, a child at 1 and a leaf at
    2. *)
Definition heap_ex : @Heap.heap nat :=
  Heap.mkHeap
    {[ 0 := Heap.mkNode 1 2 (Some (Some 4)) (Some 2)
              (Some (Heap.mkSlice 0 (bytes_of "a"))) [mkEdge "b"%byte (Some 1)];
       1 := Heap.mkNode 1 0 None None
              (Some (Heap.mkSlice 1 (bytes_of "b"))) [] ]}
    {[ 2 := Heap.mkLeaf None (Some (Heap.mkSlice 2 (bytes_of "a"))) 7 1 ]}
    3 5 3.

Definition node_ex : @Heap.Node :=
  Heap.mkNode 1 2 (Some (Some 4)) (Some 2)
    (Some (Heap.mkSlice 0 (bytes_of "a"))) [mkEdge "b"%byte (Some 1)].

End Examples.

(** * Trees in memory

    The lookups and iterators above read a tree as a value; [GetWatch] and
    the deep [clone] also read and write the records behind it.  Here a
    tree value is tied to the heap that holds it: the field [addr] of a node
    is the address of its record. *)
Module HeapTree.

Section HeapTree.
Context {T : Type}.
Variable zero : T.

#[local] Notation "'let*' x := m 'in' k" := (Heap.bind m (λ x, k))
  (at level 10, x binder, m at level 200, k at level 200).

(** [leaf_at h lf lp]: the leaf pointer [lp] of a record stands for the
    leaf [lf]. *)
Definition leaf_at (h : @Heap.heap T) (lf : option (@leafNode T)) (lp : option nat)
    : Prop :=
  match lf, lp with
  | Some l, Some q =>
      ∃ l', Heap.leafs h !! q = Some l' ∧
            Heap.slice_bytes (Heap.key l') = key l ∧ Heap.val l' = val l
  | None, None => True
  | _, _ => False
  end.

(** [repr h t]: the heap [h] holds the tree [t], every node at its
    address, with the bytes of its prefix, its leaf and its edges, whose
    child pointers are the addresses of the children. *)
Fixpoint repr (h : @Heap.heap T) (t : @Node T) : Prop :=
  match t with
  | mkNode a lf p es =>
      ∃ n, Heap.nodes h !! a = Some n ∧
           Heap.slice_bytes (Heap.prefix n) = p ∧
           leaf_at h lf (Heap.leaf n) ∧
           (fix all (es : list (edge (@Node T))) (hes : list (edge (option nat)))
              : Prop :=
              match es, hes with
              | [], [] => True
              | e :: es', he :: hes' =>
                  (label he = label e ∧ node he = Some (addr (node e)) ∧
                   repr h (node e)) ∧ all es' hes'
              | _, _ => False
              end) es (Heap.edges n)
  end.

(** An edge of a tree against an edge of its record. *)
Definition edge_at (h : @Heap.heap T) (e : edge (@Node T)) (he : edge (option nat))
    : Prop :=
  label he = label e ∧ node he = Some (addr (node e)) ∧ repr h (node e).

(** A tree without its addresses. *)
Fixpoint strip (t : @Node T) : @Node T :=
  match t with
  | mkNode _ lf p es =>
      mkNode 0 lf p (map (λ e, mkEdge (label e) (strip (node e))) es)
  end.

(** [heap_le h h']: [h'] holds every record of [h], each with the leaf
    pointer, prefix and edges, and each leaf with the key and value, that it
    has in [h]; the allocation counters have not gone back. *)
Definition heap_le (h h' : @Heap.heap T) : Prop :=
  Heap.next_addr h ≤ Heap.next_addr h' ∧
  Heap.next_chan h ≤ Heap.next_chan h' ∧
  Heap.next_arr h ≤ Heap.next_arr h' ∧
  (∀ q n, Heap.nodes h !! q = Some n →
     ∃ n', Heap.nodes h' !! q = Some n' ∧ Heap.leaf n' = Heap.leaf n ∧
           Heap.prefix n' = Heap.prefix n ∧ Heap.edges n' = Heap.edges n) ∧
  (∀ q l, Heap.leafs h !! q = Some l →
     ∃ l', Heap.leafs h' !! q = Some l' ∧ Heap.key l' = Heap.key l ∧
           Heap.val l' = Heap.val l).

(** The node whose channel [GetWatch] holds in [watch] when its loop
    ends: the last node it reached through an edge, or the root. *)
Fixpoint GetWatch_node (fuel : nat) (n : @Node T) (search : list byte) : @Node T :=
  match fuel with
  | 0 => n
  | S fuel' =>
      match search with
      | [] => n
      | b :: _ =>
          match (getEdge n b).2 with
          | None => n
          | Some n' =>
              if bytes_HasPrefix search (prefix n')
              then GetWatch_node fuel' n' (drop (length (prefix n')) search)
              else n'
          end
      end
  end.

(** The predicate [n.edges[i].label >= l] on the edges of a record. *)
Definition label_ge_at (es : list (edge (option nat))) (l : byte) (i : nat) : bool :=
  match es !! i with
  | Some e => byte_geb (label e) l
  | None => false
  end.

(** [n.getEdge] on a record. *)
Definition getEdge (n : @Heap.Node) (l : byte) : Z * option nat :=
  let num := length (Heap.edges n) in
  let idx := sort_Search num (label_ge_at (Heap.edges n) l) in
  match Heap.edges n !! idx with
  | Some e =>
      if Byte.eqb (label e) l then (Z.of_nat idx, node e) else ((-1)%Z, None)
  | None => ((-1)%Z, None)
  end.

(** The loop of [GetWatch] with its watch channel.  The node [n] of the
    source is the address [p]; a step follows a child pointer, so the loop
    runs on fuel. *)
Fixpoint GetWatch_loop (fuel : nat) (p : nat) (search : list byte) (watch : nat)
    : @Heap.M T (nat * T * bool) :=
  match fuel with
  | 0 => λ _, NoFuel
  | S fuel' =>
      match search with
      | [] =>
          let* n := Heap.load_node p in
          match Heap.leaf n with
          | Some lp =>
              let* ch := Heap.leaf_getMutateCh lp in
              let* l := Heap.load_leaf lp in
              Heap.ret (ch, Heap.val l, true)
          | None => Heap.ret (watch, zero, false)
          end
      | b :: _ =>
          let* n := Heap.load_node p in
          match (getEdge n b).2 with
          | None => Heap.ret (watch, zero, false)
          | Some c =>
              let* watch := Heap.getMutateCh c in
              let* m := Heap.load_node c in
              if bytes_HasPrefix search (Heap.slice_bytes (Heap.prefix m))
              then GetWatch_loop fuel' c
                     (drop (length (Heap.slice_bytes (Heap.prefix m))) search) watch
              else Heap.ret (watch, zero, false)
          end
      end
  end.

Definition GetWatch (fuel : nat) (p : nat) (k : list byte)
    : @Heap.M T (nat * T * bool) :=
  let* watch := Heap.getMutateCh p in
  GetWatch_loop fuel p k watch.

(** [heap_le_but nn h h']: as [heap_le], but for the record at [nn],
    which is still being filled in. *)
Definition heap_le_but (nn : nat) (h h' : @Heap.heap T) : Prop :=
  Heap.next_addr h ≤ Heap.next_addr h' ∧
  Heap.next_chan h ≤ Heap.next_chan h' ∧
  Heap.next_arr h ≤ Heap.next_arr h' ∧
  (∀ q n, q ≠ nn → Heap.nodes h !! q = Some n →
     ∃ n', Heap.nodes h' !! q = Some n' ∧ Heap.leaf n' = Heap.leaf n ∧
           Heap.prefix n' = Heap.prefix n ∧ Heap.edges n' = Heap.edges n) ∧
  (∀ q l, Heap.leafs h !! q = Some l →
     ∃ l', Heap.leafs h' !! q = Some l' ∧ Heap.key l' = Heap.key l ∧
           Heap.val l' = Heap.val l).

(** [fresh_from B h t]: the records of the nodes of [t], and the records
    of their leaves, were all made at or after the address [B]. *)
Definition fresh_from (B : nat) (h : @Heap.heap T) (t : @Node T) : Prop :=
  ∀ a, a ∈ addrs t →
    B ≤ a ∧ ∀ n lp, Heap.nodes h !! a = Some n → Heap.leaf n = Some lp → B ≤ lp.

(** The edge of a record that stands for an edge of a tree. *)
Definition edge_rec (e : edge (@Node T)) : edge (option nat) :=
  mkEdge (label e) (Some (addr (node e))).

(** The same label and, addresses apart, the same child. *)
Definition same_edge (e e' : edge (@Node T)) : Prop :=
  label e' = label e ∧ strip (node e') = strip (node e).

(** The deep [clone] of the tree [t] at fuel [fuel]: it returns a tree
    with the content of [t], made of new records, and keeps what the heap
    held. *)
Definition deep_clone_ok (fuel : nat) (t : @Node T) : Prop :=
  ∀ h, Heap.heap_ok h → repr h t → height t ≤ fuel →
  ∃ nn h' t',
    Heap.clone zero fuel true (addr t) h = Returns (nn, h') ∧
    heap_le h h' ∧ Heap.heap_ok h' ∧ repr h' t' ∧ addr t' = nn ∧
    strip t' = strip t ∧ fresh_from (Heap.next_addr h) h' t'.

(** [cloning nn h0 hc L P E]: while [clone] fills in the new record at
    [nn], the heap [hc] keeps what [h0] held apart from that record, whose
    leaf pointer, prefix and edges are [L], [P] and [E]. *)
Definition cloning (nn : nat) (h0 hc : @Heap.heap T)
    (L : option nat) (P : option Heap.slice) (E : list (edge (option nat))) : Prop :=
  heap_le_but nn h0 hc ∧ Heap.heap_ok hc ∧
  ∃ x, Heap.nodes hc !! nn = Some x ∧
       Heap.leaf x = L ∧ Heap.prefix x = P ∧ Heap.edges x = E.

End HeapTree.
End HeapTree.

(** * More example trees *)
Module MoreExamples.
Import Examples.

(** A new child for the edge [b] of the root of [tree_mixed], and the
    tree with that child in place. *)
Definition edge_b9 : edge (@Node nat) := mkEdge "b"%byte (node edge_c).

Definition tree_mixed_b9 : @Node nat :=
  set_edges tree_mixed (<[1 := edge_b9]> (edges tree_mixed)).

(** The edge [x] of [tree_tips], and a second edge with the same label. *)
Definition edge_x : edge (@Node nat) := ex_edge (ex_node 1 (ex_leaf "x" 1) "x" []).
Definition edge_x9 : edge (@Node nat) := mkEdge "x"%byte (node edge_c).

(** A callback that stops at the key ab. *)
Definition stop_at_ab : @WalkFn nat := λ k _, bytes_Equal k (bytes_of "ab").

(** A tree without keys. *)
Definition tree_empty : @Node nat := ex_node 0 None "" [].

(** The reverse iterator over [tree_mixed] after one call of [Previous],
    and the same iterator after a [SeekPrefix] with the empty prefix. *)
Definition ri_after_one : @ReverseIterator nat :=
  match Previous 0 (NewReverseIterator tree_mixed) with
  | Returns (ri, _) => ri
  | _ => NewReverseIterator tree_mixed
  end.

Definition ri_reseeked : @ReverseIterator nat :=
  match ReverseIterator_SeekPrefix ri_after_one [] with
  | Returns ri => ri
  | _ => ri_after_one
  end.

(** The leaf of [heap_ex]. *)
Definition leaf_ex : @Heap.leafNode nat :=
  Heap.mkLeaf None (Some (Heap.mkSlice 2 (bytes_of "a"))) 7 1.

(** The tree that [heap_ex] holds: the key a at the root record, and a
    child without a leaf. *)
Definition tree_in_heap_ex : @Node nat :=
  mkNode 0 (Some (mkLeaf (bytes_of "a") 7)) (bytes_of "a")
    [mkEdge "b"%byte (mkNode 1 None (bytes_of "b") [])].

End MoreExamples.

(** * Properties *)

(** ** Lists *)

Lemma elem_of_flat_map {A B} (f : A → list B) (l : list A) (x : B) :
  x ∈ flat_map f l ↔ ∃ y, y ∈ l ∧ x ∈ f y.
Proof.
  induction l as [|a l IH]; simpl.
  - split; [intros []%elem_of_nil | intros (y & []%elem_of_nil & _)].
  - rewrite elem_of_app, IH. split.
    + intros [?|(y & ? & ?)]; [exists a | exists y]; set_solver.
    + intros (y & [->|?]%elem_of_cons & ?); eauto.
Qed.

Lemma flat_map_snoc {A B} (f : A → list B) (l : list A) (x : A) :
  flat_map f (l ++ [x]) = flat_map f l ++ f x.
Proof. by rewrite flat_map_app; simpl; rewrite app_nil_r. Qed.

(** ** Bytes and keys *)

Lemma byte_to_nat_inj a b : Byte.to_nat a = Byte.to_nat b → a = b.
Proof.
  intros H. pose proof (Byte.of_to_nat a) as Ha.
  rewrite H, Byte.of_to_nat in Ha. congruence.
Qed.

Lemma byte_eqb_true a b : Byte.eqb a b = true ↔ a = b.
Proof. split; [apply Byte.byte_dec_bl | apply Byte.byte_dec_lb]. Qed.

Lemma byte_eqb_refl a : Byte.eqb a a = true.
Proof. by apply byte_eqb_true. Qed.

Lemma byte_ltb_lt a b : byte_ltb a b = true ↔ byte_lt a b.
Proof. unfold byte_ltb, byte_lt. apply Nat.ltb_lt. Qed.

Lemma byte_ltb_nlt a b : byte_ltb a b = false ↔ ¬ byte_lt a b.
Proof. unfold byte_ltb, byte_lt. rewrite Nat.ltb_ge. lia. Qed.

Lemma byte_geb_nlt a b : byte_geb a b = true ↔ ¬ byte_lt a b.
Proof. unfold byte_geb, byte_lt. rewrite Nat.leb_le. lia. Qed.

Lemma byte_lt_irrefl a : ¬ byte_lt a a.
Proof. unfold byte_lt. lia. Qed.

Lemma byte_lt_trans a b c : byte_lt a b → byte_lt b c → byte_lt a c.
Proof. unfold byte_lt. lia. Qed.

Lemma byte_trichotomy a b : byte_lt a b ∨ a = b ∨ byte_lt b a.
Proof.
  destruct (lt_eq_lt_dec (Byte.to_nat a) (Byte.to_nat b)) as [[?|?]|?];
    unfold byte_lt; auto using byte_to_nat_inj.
Qed.

Lemma bytes_HasPrefix_spec s p :
  bytes_HasPrefix s p = true ↔ ∃ r, s = p ++ r.
Proof.
  revert s. induction p as [|y p IH]; intros s; simpl.
  - split; [intros _; by exists s | done].
  - destruct s as [|x s].
    + split; [done | intros [r Hr]; done].
    + rewrite andb_true_iff, byte_eqb_true, IH. split.
      * intros [-> [r ->]]. eauto.
      * intros [r [= -> ->]]. eauto.
Qed.

Lemma bytes_Equal_spec a b : bytes_Equal a b = true ↔ a = b.
Proof.
  revert b. induction a as [|x a IH]; intros [|y b]; simpl; try done.
  rewrite andb_true_iff, byte_eqb_true, IH. naive_solver.
Qed.

Lemma key_lt_irrefl x : ¬ key_lt x x.
Proof.
  induction x as [|a x IH]; inversion 1; subst; auto.
  by eapply byte_lt_irrefl.
Qed.

Lemma key_lt_trans x y z : key_lt x y → key_lt y z → key_lt x z.
Proof.
  intros H. revert z. induction H; intros z Hz; inversion Hz; subst;
    eauto using key_lt, byte_lt_trans.
Qed.

Lemma key_lt_app_l p x y : key_lt (p ++ x) (p ++ y) ↔ key_lt x y.
Proof.
  induction p as [|a p IH]; simpl; [done|]. split.
  - inversion 1; subst; [by edestruct byte_lt_irrefl | by apply IH].
  - intros. apply key_lt_tail. by apply IH.
Qed.

Lemma key_lt_app_nonempty p b r : key_lt p (p ++ b :: r).
Proof.
  rewrite <- (app_nil_r p) at 1. apply key_lt_app_l. constructor.
Qed.

Lemma key_lt_asym x y : key_lt x y → ¬ key_lt y x.
Proof. intros H1 H2. eapply key_lt_irrefl, key_lt_trans; eauto. Qed.

Lemma bytes_Compare_cases a b :
  (bytes_Compare a b = (-1)%Z ∧ key_lt a b) ∨
  (bytes_Compare a b = 0%Z ∧ a = b) ∨
  (bytes_Compare a b = 1%Z ∧ key_lt b a).
Proof.
  revert b. induction a as [|x a IH]; intros [|y b]; simpl;
    eauto using key_lt.
  destruct (byte_ltb x y) eqn:Hxy.
  { apply byte_ltb_lt in Hxy. eauto using key_lt. }
  destruct (byte_ltb y x) eqn:Hyx.
  { apply byte_ltb_lt in Hyx. eauto 6 using key_lt. }
  apply byte_ltb_nlt in Hxy, Hyx.
  assert (x = y) as -> by (destruct (byte_trichotomy x y) as [?|[?|?]]; done).
  destruct (IH b) as [[-> ?]|[[-> ->]|[-> ?]]]; eauto 6 using key_lt.
Qed.

Lemma bytes_Compare_lt a b : bytes_Compare a b = (-1)%Z ↔ key_lt a b.
Proof.
  destruct (bytes_Compare_cases a b) as [[-> ?]|[[-> ->]|[-> ?]]];
    split; try done; intros Hk.
  - by apply key_lt_irrefl in Hk.
  - by edestruct key_lt_asym.
Qed.

Lemma bytes_Compare_eq a b : bytes_Compare a b = 0%Z ↔ a = b.
Proof.
  destruct (bytes_Compare_cases a b) as [[-> ?]|[[-> ->]|[-> ?]]];
    split; try done; intros ->; by edestruct key_lt_irrefl.
Qed.

Lemma bytes_Compare_gt a b : bytes_Compare a b = 1%Z ↔ key_lt b a.
Proof.
  destruct (bytes_Compare_cases a b) as [[-> ?]|[[-> ->]|[-> ?]]];
    split; try done; intros Hk.
  - by edestruct key_lt_asym.
  - by apply key_lt_irrefl in Hk.
Qed.

Lemma key_trichotomy a b : key_lt a b ∨ a = b ∨ key_lt b a.
Proof. destruct (bytes_Compare_cases a b); naive_solver. Qed.

(** ** Binary search *)

Lemma sort_Search_loop_spec (f : nat → bool) n fuel i j :
  (∀ a b, a ≤ b → b < n → f a = true → f b = true) →
  j - i ≤ fuel → i ≤ j → j ≤ n →
  (∀ a, a < i → f a = false) →
  (∀ a, j ≤ a → a < n → f a = true) →
  let r := sort_Search_loop fuel f i j in
  r ≤ n ∧ (∀ a, a < r → f a = false) ∧ (∀ a, r ≤ a → a < n → f a = true).
Proof.
  intros Hmono. revert i j.
  induction fuel as [|fuel IH]; intros i j Hfuel Hij Hjn Hlo Hhi;
    cbn [sort_Search_loop].
  - assert (i = j) as -> by lia. auto.
  - destruct (Nat.ltb_spec i j) as [Hlt|Hge].
    + pose proof (Nat.div_mod_eq (i + j) 2) as Hd.
      pose proof (Nat.mod_upper_bound (i + j) 2) as Hm.
      set (h := (i + j) / 2) in *.
      assert (i ≤ h ∧ h < j) as [Hih Hhj] by lia.
      destruct (f h) eqn:Hfh; cbn [negb].
      * apply IH; try lia; auto.
        intros a Ha Han. destruct (decide (a < j)); [|apply Hhi; lia].
        eapply Hmono; [exact Ha | lia | done].
      * apply IH; try lia; auto.
        intros a Ha. destruct (f a) eqn:Hfa; [|done].
        rewrite <- Hfh. symmetry. eapply Hmono; [|lia|exact Hfa]. lia.
    + assert (i = j) as -> by lia. auto.
Qed.

Lemma sort_Search_spec (f : nat → bool) n :
  (∀ a b, a ≤ b → b < n → f a = true → f b = true) →
  let r := sort_Search n f in
  r ≤ n ∧ (∀ a, a < r → f a = false) ∧ (∀ a, r ≤ a → a < n → f a = true).
Proof.
  intros Hmono. unfold sort_Search.
  apply sort_Search_loop_spec; auto; try lia.
Qed.

Section Edges.
Context {T : Type}.
Implicit Types (n : @Node T) (es : list (edge (@Node T))) (e : edge (@Node T)).

Lemma sorted_edges_lookup es i j ei ej :
  sorted_edges es → es !! i = Some ei → es !! j = Some ej → i < j →
  byte_lt (label ei) (label ej).
Proof.
  intros Hs Hi Hj Hij.
  rewrite <- (take_drop j es) in Hs.
  eapply (StronglySorted_app_1_elem_of _ _ _ ei ej) in Hs; [done| |].
  - apply list_elem_of_lookup. exists i. by rewrite lookup_take_lt.
  - apply list_elem_of_lookup. exists 0. rewrite lookup_drop.
    by rewrite Nat.add_0_r.
Qed.

(** On a sorted edge list the search splits the list at the first label
    that is not below the one searched for. *)
Lemma edge_search_split es l :
  sorted_edges es →
  ∃ l1 l2, es = l1 ++ l2 ∧
    sort_Search (length es) (label_ge_at es l) = length l1 ∧
    Forall (λ e, byte_lt (label e) l) l1 ∧
    Forall (λ e, ¬ byte_lt (label e) l) l2.
Proof.
  intros Hs.
  destruct (sort_Search_spec (label_ge_at es l) (length es)) as (Hr & Hlo & Hhi).
  { intros a b Hab Hb. unfold label_ge_at.
    destruct (lookup_lt_is_Some_2 es b Hb) as [eb Heb].
    destruct (lookup_lt_is_Some_2 es a ltac:(lia)) as [ea Hea].
    rewrite Hea, Heb, !byte_geb_nlt. intros Hge Hlt.
    destruct (decide (a = b)) as [->|]; [naive_solver|].
    apply Hge. eapply byte_lt_trans; [|done].
    eapply sorted_edges_lookup; eauto. lia. }
  set (r := sort_Search (length es) (label_ge_at es l)) in *.
  exists (take r es), (drop r es). split_and!.
  - by rewrite take_drop.
  - rewrite length_take. lia.
  - apply Forall_lookup. intros i e Hi.
    apply lookup_take_Some in Hi as [Hi Hir].
    specialize (Hlo i Hir). unfold label_ge_at in Hlo. rewrite Hi in Hlo.
    destruct (byte_geb (label e) l) eqn:Hg; [done|].
    destruct (byte_ltb (label e) l) eqn:Hl; [by apply byte_ltb_lt|].
    apply byte_ltb_nlt, byte_geb_nlt in Hl. congruence.
  - apply Forall_lookup. intros i e Hi. rewrite lookup_drop in Hi.
    specialize (Hhi (r + i) ltac:(lia) (lookup_lt_Some _ _ _ Hi)).
    unfold label_ge_at in Hhi. rewrite Hi in Hhi. by apply byte_geb_nlt.
Qed.

Lemma sorted_edges_app l1 l2 :
  sorted_edges (l1 ++ l2) ↔
  sorted_edges l1 ∧ sorted_edges l2 ∧
  ∀ e1 e2, e1 ∈ l1 → e2 ∈ l2 → byte_lt (label e1) (label e2).
Proof. unfold sorted_edges. rewrite StronglySorted_app. naive_solver. Qed.

Lemma sorted_edges_cons e l2 :
  sorted_edges (e :: l2) ↔
  sorted_edges l2 ∧ Forall (λ e2, byte_lt (label e) (label e2)) l2.
Proof. unfold sorted_edges. rewrite StronglySorted_cons. naive_solver. Qed.

(** What the search finds, by cases on the edge at the split. *)
Lemma edge_search_cases es l :
  sorted_edges es →
  ∃ l1 l2, es = l1 ++ l2 ∧
    sort_Search (length es) (label_ge_at es l) = length l1 ∧
    Forall (λ e, byte_lt (label e) l) l1 ∧
    (l2 = [] ∨
     ∃ e l2', l2 = e :: l2' ∧ (label e = l ∨ byte_lt l (label e)) ∧
       Forall (λ e', byte_lt l (label e')) l2').
Proof.
  intros Hs. destruct (edge_search_split es l Hs) as (l1 & l2 & -> & Hi & H1 & H2).
  exists l1, l2. split_and!; try done.
  destruct l2 as [|e l2']; [by left|right].
  exists e, l2'. split; [done|].
  apply sorted_edges_app in Hs as (_ & Hs & _).
  apply sorted_edges_cons in Hs as [_ Hs].
  apply Forall_cons in H2 as [He _].
  assert (label e = l ∨ byte_lt l (label e)) as Hel
    by (destruct (byte_trichotomy (label e) l) as [?|[?|?]]; naive_solver).
  split; [done|].
  eapply Forall_impl; [exact Hs|]. intros e' He'. simpl in He'.
  destruct Hel as [<-|?]; eauto using byte_lt_trans.
Qed.

Lemma edges_set_edges n es : edges (set_edges n es) = es.
Proof. done. Qed.

(** The edge list [addEdge] builds: the new edge sits at the search index. *)
Lemma addEdge_edges n e l1 l2 :
  edges n = l1 ++ l2 →
  sort_Search (length (edges n)) (label_ge_at (edges n) (label e)) = length l1 →
  edges (addEdge n e) = l1 ++ e :: l2.
Proof.
  intros Hes Hidx. unfold addEdge. rewrite Hidx, Hes.
  case_bool_decide as Hne; rewrite edges_set_edges.
  - destruct l2 as [|x l2].
    { rewrite app_nil_r in Hne. done. }
    unfold slice_copy.
    rewrite <- !app_assoc, drop_app_length.
    assert (take (length (l1 ++ x :: l2) - length l1) ((x :: l2) ++ [e]) = x :: l2)
      as ->.
    { rewrite length_app, Nat.add_comm, Nat.add_sub. apply take_app_length. }
    assert (length (l1 ++ (x :: l2) ++ [e]) - (length l1 + 1) = length (x :: l2))
      as -> by (rewrite !length_app; simpl; lia).
    rewrite Nat.min_id, firstn_all.
    assert (take (length l1 + 1) (l1 ++ (x :: l2) ++ [e]) = l1 ++ [x]) as ->.
    { change (l1 ++ (x :: l2) ++ [e]) with (l1 ++ [x] ++ l2 ++ [e]).
      rewrite app_assoc. apply take_app_length'. rewrite length_app. simpl. lia. }
    rewrite drop_ge, app_nil_r by (rewrite !length_app; simpl; lia).
    rewrite <- app_assoc. simpl.
    rewrite (insert_app_r_alt l1) by lia.
    by rewrite Nat.sub_diag.
  - assert (l2 = []) as ->; [|by rewrite app_nil_r].
    rewrite length_app in Hne. destruct l2; [done|simpl in Hne; lia].
Qed.

(** The edge list [delEdge] builds when it finds the label at [idx]. *)
Lemma delEdge_edges_found n l l1 e l2 :
  edges n = l1 ++ e :: l2 →
  sort_Search (length (edges n)) (label_ge_at (edges n) l) = length l1 →
  label e = l →
  edges (delEdge n l) = l1 ++ l2.
Proof.
  intros Hes Hidx Hl. unfold delEdge. rewrite Hidx, Hes.
  rewrite list_lookup_middle by done. rewrite Hl, byte_eqb_refl.
  rewrite edges_set_edges. unfold slice_copy.
  rewrite take_app_length.
  assert (drop (length l1 + 1) (l1 ++ e :: l2) = l2) as ->.
  { change (l1 ++ e :: l2) with (l1 ++ [e] ++ l2).
    rewrite app_assoc. apply drop_app_length'. rewrite length_app. simpl. lia. }
  assert (length (l1 ++ e :: l2) - length l1 = S (length l2)) as ->
    by (rewrite length_app; simpl; lia).
  rewrite Nat.min_r by lia. rewrite firstn_all.
  assert (drop (length l1 + length l2) (l1 ++ e :: l2) = drop (length l2) (e :: l2))
    as -> by apply drop_app_add.
  rewrite app_assoc.
  assert (length ((l1 ++ l2) ++ drop (length l2) (e :: l2)) - 1 = length (l1 ++ l2))
    as ->.
  { rewrite !length_app, length_drop. simpl. lia. }
  by rewrite take_app_length.
Qed.

Lemma byte_lt_ne a b : byte_lt a b → a ≠ b.
Proof. intros H ->. by eapply byte_lt_irrefl. Qed.

Lemma filter_label_below (l : byte) (l1 : list (edge (@Node T))) :
  Forall (λ e, byte_lt (label e) l) l1 →
  filter (λ e', label e' ≠ l) l1 = l1.
Proof.
  induction 1 as [|e l1 He _ IH]; [done|].
  rewrite filter_cons_True by by apply byte_lt_ne. by rewrite IH.
Qed.

Lemma filter_label_above (l : byte) (l2 : list (edge (@Node T))) :
  Forall (λ e, byte_lt l (label e)) l2 →
  filter (λ e', label e' ≠ l) l2 = l2.
Proof.
  induction 1 as [|e l2 He _ IH]; [done|].
  rewrite filter_cons_True by (by apply not_eq_sym, byte_lt_ne). by rewrite IH.
Qed.

(** C8. On a node whose edge list ascends strictly by label: [addEdge] with
    a label that is not present gives a list that still ascends strictly and
    holds the new edge next to the old ones; [delEdge] gives the list
    without the edge of that label, still ascending, and returns the node as
    it was when no edge carries the label. *)
Theorem edges_stay_sorted n e l :
  sorted_edges (edges n) →
  ((∀ e', e' ∈ edges n → label e' ≠ label e) →
     sorted_edges (edges (addEdge n e)) ∧
     e ∈ edges (addEdge n e) ∧
     edges (addEdge n e) ≡ₚ e :: edges n ∧
     leaf (addEdge n e) = leaf n ∧ prefix (addEdge n e) = prefix n) ∧
  sorted_edges (edges (delEdge n l)) ∧
  edges (delEdge n l) = filter (λ e', label e' ≠ l) (edges n) ∧
  leaf (delEdge n l) = leaf n ∧ prefix (delEdge n l) = prefix n ∧
  ((∀ e', e' ∈ edges n → label e' ≠ l) → delEdge n l = n).
Proof.
  intros Hs. split.
  - intros Hfresh.
    destruct (edge_search_cases (edges n) (label e) Hs)
      as (l1 & l2 & Hes & Hidx & H1 & H2).
    rewrite (addEdge_edges n e l1 l2 Hes Hidx).
    assert (Forall (λ e', byte_lt (label e) (label e')) l2) as H2'.
    { destruct H2 as [->|(e2 & l2' & -> & [Heq|Hlt] & Hall)]; [done| |by constructor].
      exfalso. apply (Hfresh e2); [|done]. rewrite Hes. set_solver. }
    split_and!.
    + rewrite Hes in Hs. apply sorted_edges_app in Hs as (Hs1 & Hs2 & H12).
      apply sorted_edges_app. split_and!; [done| |].
      * apply sorted_edges_cons. done.
      * intros e1 e2 He1 [->|He2]%elem_of_cons.
        -- by eapply Forall_forall in H1.
        -- by apply H12.
    + set_solver.
    + rewrite Hes. by rewrite Permutation_middle.
    + by unfold addEdge; case_bool_decide.
    + by unfold addEdge; case_bool_decide.
  - destruct (edge_search_cases (edges n) l Hs)
      as (l1 & l2 & Hes & Hidx & H1 & H2).
    assert (filter (λ e', label e' ≠ l) l1 = l1) as Hf1 by by apply filter_label_below.
    destruct H2 as [->|(e2 & l2' & -> & [Heq|Hlt] & Hall)].
    + (* the search runs off the end *)
      assert (delEdge n l = n) as ->.
      { unfold delEdge. rewrite Hidx, Hes, app_nil_r.
        by rewrite lookup_ge_None_2. }
      rewrite Hes, app_nil_r, Hf1. rewrite app_nil_r in Hes.
      rewrite <- Hes. done.
    + (* the edge is there *)
      rewrite (delEdge_edges_found n l l1 e2 l2' Hes Hidx Heq).
      split_and!.
      * rewrite Hes in Hs. apply sorted_edges_app in Hs as (Hs1 & Hs2 & H12).
        apply sorted_edges_cons in Hs2 as [Hs2 _].
        apply sorted_edges_app. split_and!; try done.
        intros e1 e3 He1 He3. apply H12; set_solver.
      * rewrite Hes, filter_app, Hf1, filter_cons_False by naive_solver.
        by rewrite filter_label_above.
      * unfold delEdge. by repeat case_match.
      * unfold delEdge. by repeat case_match.
      * intros Hno. exfalso. apply (Hno e2); [|done]. rewrite Hes. set_solver.
    + (* the search stops at a greater label *)
      assert (delEdge n l = n) as ->.
      { unfold delEdge. rewrite Hidx, Hes, list_lookup_middle by done.
        destruct (Byte.eqb (label e2) l) eqn:Heq; [|done].
        apply byte_eqb_true in Heq. by apply byte_lt_ne in Hlt. }
      split_and!; try done.
      rewrite Hes, filter_app, Hf1.
      by rewrite (filter_label_above l (e2 :: l2')) by by constructor.
Qed.

(** C9. On a node whose edge list ascends strictly by label, [replaceEdge]
    panics exactly when no edge carries the label of its argument; otherwise
    it returns the node with the child of that one edge replaced and every
    label, every other edge, the leaf and the prefix as before. *)
Theorem replaceEdge_panics_iff_missing n e :
  sorted_edges (edges n) →
  (replaceEdge n e = Panics ↔ ∀ e', e' ∈ edges n → label e' ≠ label e) ∧
  replaceEdge n e ≠ NoFuel ∧
  (∀ n', replaceEdge n e = Returns n' →
     addr n' = addr n ∧ leaf n' = leaf n ∧ prefix n' = prefix n ∧
     label <$> edges n' = label <$> edges n ∧
     ∀ i e', edges n !! i = Some e' →
       edges n' !! i =
         Some (if decide (label e' = label e) then mkEdge (label e') (node e)
               else e')).
Proof.
  intros Hs.
  destruct (edge_search_cases (edges n) (label e) Hs)
    as (l1 & l2 & Hes & Hidx & H1 & H2).
  unfold replaceEdge. rewrite Hidx.
  assert (∀ i e', l1 !! i = Some e' →
            (if decide (label e' = label e) then mkEdge (label e') (node e) else e') = e')
    as Hl1.
  { intros i e' Hi. eapply Forall_lookup in H1; [|done].
    rewrite decide_False; [done|]. by apply byte_lt_ne. }
  destruct H2 as [->|(e2 & l2' & -> & [Heq|Hlt] & Hall)].
  - rewrite Hes, app_nil_r, lookup_ge_None_2 by done.
    split_and!; try done. split; [|done]. intros _ e' He' Heq.
    eapply Forall_forall in H1; [|done].
    rewrite Heq in H1. by eapply byte_lt_irrefl.
  - rewrite Hes, list_lookup_middle by done.
    rewrite Heq, byte_eqb_refl. split_and!; try done.
    + split; [done|]. intros Hno. destruct (Hno e2); [set_solver|done].
    + intros n' [= <-]. rewrite edges_set_edges.
      rewrite insert_app_r_alt, Nat.sub_diag by done. simpl.
      split_and!; try done.
      * rewrite !fmap_app, !fmap_cons. simpl. by rewrite Heq.
      * intros i e' Hi. apply lookup_app_Some in Hi as [Hi|[Hge Hi]].
        { rewrite lookup_app_l by by eapply lookup_lt_Some.
          rewrite Hi. f_equal. symmetry. by eapply Hl1. }
        rewrite lookup_app_r by done.
        destruct (i - length l1) as [|j] eqn:Hj; simpl in *.
        { injection Hi as <-. rewrite decide_True by done. by rewrite Heq. }
        rewrite Hi. f_equal.
        eapply Forall_lookup in Hall; [|done].
        rewrite decide_False; [done|]. by apply not_eq_sym, byte_lt_ne.
  - rewrite Hes, list_lookup_middle by done.
    destruct (Byte.eqb (label e2) (label e)) eqn:Heq.
    { apply byte_eqb_true in Heq. by apply byte_lt_ne in Hlt. }
    split_and!; try done. split; [|done]. intros _ e' He' Heq'.
    apply elem_of_app in He' as [He'|He'].
    + eapply Forall_forall in H1; [|done]. rewrite Heq' in H1.
      by eapply byte_lt_irrefl.
    + assert (byte_lt (label e) (label e')) as Hlt'.
      { apply elem_of_cons in He' as [->|He']; [done|].
        by eapply Forall_forall in Hall. }
      rewrite Heq' in Hlt'. by eapply byte_lt_irrefl.
Qed.

End Edges.

Section Trees.
Context {T : Type} (zero : T).
Implicit Types (n t : @Node T) (es : list (edge (@Node T))) (e : edge (@Node T)).
Implicit Types (l : @leafNode T) (k path search : list byte).

(** ** Induction on trees *)

Lemma Node_ind' (P : @Node T → Prop) :
  (∀ a lf p es, Forall (λ e, P (node e)) es → P (mkNode a lf p es)) →
  ∀ n, P n.
Proof.
  intros H. fix IH 1. intros [a lf p es]. apply H.
  induction es as [|e es IHes]; constructor; [apply IH | exact IHes].
Qed.

Lemma wf_node_unfold path n :
  wf_node path n ↔
  (∀ l, leaf n = Some l → key l = path) ∧
  sorted_edges (edges n) ∧
  Forall (λ e, (∃ rest, prefix (node e) = label e :: rest) ∧
               wf_node (path ++ prefix (node e)) (node e)) (edges n).
Proof.
  destruct n as [a lf p es]. simpl.
  assert (∀ es',
    (fix all (es : list (edge Node)) : Prop :=
       match es with
       | [] => True
       | e :: es' =>
           ((∃ rest, prefix (node e) = label e :: rest) ∧
            wf_node (path ++ prefix (node e)) (node e)) ∧ all es'
       end) es' ↔
    Forall (λ e, (∃ rest, prefix (node e) = label e :: rest) ∧
                 wf_node (path ++ prefix (node e)) (node e)) es') as Hall.
  { induction es' as [|e es' IH]; [by split|].
    rewrite Forall_cons, <- IH. done. }
  by rewrite Hall.
Qed.

Lemma wf_node_child path n e :
  wf_node path n → e ∈ edges n →
  (∃ rest, prefix (node e) = label e :: rest) ∧
  wf_node (path ++ prefix (node e)) (node e).
Proof.
  intros (_ & _ & Hall)%wf_node_unfold He.
  by eapply Forall_forall in Hall.
Qed.

Lemma wf_node_sorted path n : wf_node path n → sorted_edges (edges n).
Proof. by intros (_ & ? & _)%wf_node_unfold. Qed.

Lemma wf_node_leaf path n l : wf_node path n → leaf n = Some l → key l = path.
Proof. intros (H & _ & _)%wf_node_unfold. apply H. Qed.

Lemma live_unfold n :
  live n ↔ (is_Some (leaf n) ∨ edges n ≠ []) ∧ Forall (λ e, live (node e)) (edges n).
Proof.
  destruct n as [a lf p es]. simpl.
  assert (∀ es',
    (fix all (es : list (edge Node)) : Prop :=
       match es with
       | [] => True
       | e :: es' => live (node e) ∧ all es'
       end) es' ↔ Forall (λ e, live (node e)) es') as Hall.
  { induction es' as [|e es' IH]; [by split|].
    rewrite Forall_cons, <- IH. done. }
  by rewrite Hall.
Qed.

Lemma height_unfold n :
  height n = S (foldr (λ e m, max (height (node e)) m) 0 (edges n)).
Proof. by destruct n. Qed.

Lemma height_child n e : e ∈ edges n → height (node e) < height n.
Proof.
  rewrite (height_unfold n). generalize (edges n). intros es.
  induction 1 as [e es|e e' es _ IH]; cbn [foldr]; lia.
Qed.

Lemma size_unfold n :
  size n = S (foldr (λ e m, size (node e) + m) 0 (edges n)).
Proof. by destruct n. Qed.

Lemma leaves_unfold n :
  leaves n = option_list (leaf n) ++ flat_map (λ e, leaves (node e)) (edges n).
Proof. by destruct n. Qed.

Lemma addrs_unfold n :
  addrs n = addr n :: flat_map (λ e, addrs (node e)) (edges n).
Proof. by destruct n. Qed.

(** ** Edge lookups *)

Lemma sorted_edges_label_inj es e e' :
  sorted_edges es → e ∈ es → e' ∈ es → label e = label e' → e = e'.
Proof.
  intros Hs [i Hi]%list_elem_of_lookup [j Hj]%list_elem_of_lookup Heq.
  destruct (lt_eq_lt_dec i j) as [[Hlt| ->]|Hlt].
  - pose proof (sorted_edges_lookup es i j e e' Hs Hi Hj Hlt) as H.
    rewrite Heq in H. by apply byte_lt_irrefl in H.
  - congruence.
  - pose proof (sorted_edges_lookup es j i e' e Hs Hj Hi Hlt) as H.
    rewrite Heq in H. by apply byte_lt_irrefl in H.
Qed.

Lemma getEdge_Some n b c :
  (getEdge n b).2 = Some c → ∃ e, e ∈ edges n ∧ label e = b ∧ node e = c.
Proof.
  unfold getEdge.
  destruct (edges n !! _) as [e|] eqn:He; [|done].
  destruct (Byte.eqb (label e) b) eqn:Hb; [|done].
  intros [= <-]. exists e. split_and!; [|by apply byte_eqb_true|done].
  by eapply list_elem_of_lookup_2.
Qed.

Lemma getEdge_None n b :
  sorted_edges (edges n) → (getEdge n b).2 = None →
  ∀ e, e ∈ edges n → label e ≠ b.
Proof.
  intros Hs. unfold getEdge.
  destruct (edge_search_cases (edges n) b Hs) as (l1 & l2 & Hes & -> & H1 & H2).
  rewrite Hes. intros Hnone e He Hl.
  apply elem_of_app in He as [He|He].
  { eapply Forall_forall in H1; [|done]. rewrite Hl in H1.
    by apply byte_lt_irrefl in H1. }
  destruct H2 as [->|(e2 & l2' & -> & Hcase & Hall)]; [set_solver|].
  rewrite list_lookup_middle in Hnone by done.
  destruct Hcase as [Heq|Hlt].
  { by rewrite Heq, byte_eqb_refl in Hnone. }
  apply elem_of_cons in He as [->|He].
  - rewrite Hl in Hlt. by apply byte_lt_irrefl in Hlt.
  - eapply Forall_forall in Hall; [|done]. rewrite Hl in Hall.
    by apply byte_lt_irrefl in Hall.
Qed.

Lemma getLowerBoundEdge_Some n b idx c :
  getLowerBoundEdge n b = (idx, Some c) →
  ∃ e, e ∈ edges n ∧ node e = c.
Proof.
  unfold getLowerBoundEdge.
  destruct (edges n !! _) as [e|] eqn:He; [|done].
  intros [= _ <-]. exists e. split; [|done].
  by eapply list_elem_of_lookup_2.
Qed.

(** ** Keys below a node *)

Lemma has_leaf_leaves n k v :
  has_leaf n k v ↔ ∃ l, l ∈ leaves n ∧ key l = k ∧ val l = v.
Proof.
  split.
  - induction 1 as [n l Hl|n e k v He _ (l & Hl & Hk & Hv)].
    + exists l. rewrite leaves_unfold, Hl. set_solver.
    + exists l. rewrite leaves_unfold. split; [|done].
      apply elem_of_app. right. apply elem_of_flat_map. eauto.
  - revert k v. induction n as [a lf p es IH] using Node_ind'.
    intros k v (l & Hl & <- & <-). simpl in Hl.
    apply elem_of_app in Hl as [Hl|Hl].
    + destruct lf as [l'|]; [|set_solver].
      apply list_elem_of_singleton in Hl as ->. by constructor.
    + apply elem_of_flat_map in Hl as (e & He & Hl).
      eapply has_leaf_below; [exact He|].
      eapply Forall_forall in IH; [|done]. apply IH. eauto.
Qed.

Lemma has_leaf_inv n k v :
  has_leaf n k v ↔
  (∃ l, leaf n = Some l ∧ key l = k ∧ val l = v) ∨
  (∃ e, e ∈ edges n ∧ has_leaf (node e) k v).
Proof.
  split.
  - inversion 1; subst; eauto.
  - intros [(l & Hl & <- & <-)|(e & He & H)]; eauto using has_leaf.
Qed.

Lemma has_leaf_path path n k v :
  wf_node path n → has_leaf n k v → ∃ r, k = path ++ r.
Proof.
  intros Hwf H. revert path Hwf.
  induction H as [n l Hl|n e k v He _ IH]; intros path Hwf.
  - exists []. rewrite app_nil_r. by eapply wf_node_leaf.
  - destruct (wf_node_child path n e Hwf He) as [_ Hc].
    destruct (IH _ Hc) as [r ->]. rewrite <- app_assoc. eauto.
Qed.

Lemma has_leaf_child_path path n e k v :
  wf_node path n → e ∈ edges n → has_leaf (node e) k v →
  ∃ r, k = path ++ label e :: r.
Proof.
  intros Hwf He H.
  destruct (wf_node_child path n e Hwf He) as [[rest Hp] Hc].
  destruct (has_leaf_path _ _ _ _ Hc H) as [r ->].
  rewrite Hp, <- app_assoc. simpl. eauto.
Qed.

End Trees.

Section Lookups.
Context {T : Type} (zero : T).
Implicit Types (n t : @Node T) (es : list (edge (@Node T))) (e : edge (@Node T)).
Implicit Types (l : @leafNode T) (k path search : list byte).

Lemma elem_of_leaves n l :
  l ∈ leaves n ↔ leaf n = Some l ∨ ∃ e, e ∈ edges n ∧ l ∈ leaves (node e).
Proof.
  rewrite leaves_unfold, elem_of_app, elem_of_flat_map.
  destruct (leaf n); simpl; set_solver.
Qed.

Lemma leaves_path path n l :
  wf_node path n → l ∈ leaves n → ∃ r, key l = path ++ r.
Proof.
  intros Hwf Hl. eapply (has_leaf_path path n (key l) (val l)); [done|].
  apply has_leaf_leaves. eauto.
Qed.

Lemma leaves_child_path path n e l :
  wf_node path n → e ∈ edges n → l ∈ leaves (node e) →
  ∃ r, key l = path ++ label e :: r.
Proof.
  intros Hwf He Hl.
  eapply (has_leaf_child_path path n e (key l) (val l)); [done..|].
  apply has_leaf_leaves. eauto.
Qed.

(** ** [Get] *)

Lemma height_pos n : 0 < height n.
Proof. rewrite height_unfold. lia. Qed.

Lemma GetWatch_loop_fuel f1 f2 n search :
  height n ≤ f1 → height n ≤ f2 →
  GetWatch_loop zero f1 n search = GetWatch_loop zero f2 n search.
Proof.
  revert f2 n search.
  induction f1 as [|f1 IH]; intros [|f2] n search H1 H2;
    try (pose proof (height_pos n); lia).
  simpl. destruct search as [|b s]; [done|].
  destruct (getEdge n b).2 as [n'|] eqn:He; [|done].
  destruct (bytes_HasPrefix _ _); [|done].
  apply getEdge_Some in He as (e & He & _ & <-).
  apply height_child in He. apply IH; lia.
Qed.

(** The loop of [GetWatch], with the fuel gone. *)
Lemma Get_unfold n search :
  Get zero n search =
    match search with
    | [] =>
        match leaf n with
        | Some l => (val l, true)
        | None => (zero, false)
        end
    | b :: _ =>
        match (getEdge n b).2 with
        | None => (zero, false)
        | Some n' =>
            if bytes_HasPrefix search (prefix n')
            then Get zero n' (drop (length (prefix n')) search)
            else (zero, false)
        end
    end.
Proof.
  unfold Get. pose proof (height_pos n).
  destruct (height n) as [|h] eqn:Hh; [lia|]. simpl.
  destruct search as [|b s]; [done|].
  destruct (getEdge n b).2 as [n'|] eqn:He; [|done].
  destruct (bytes_HasPrefix _ _); [|done].
  apply getEdge_Some in He as (e & He & _ & <-).
  apply height_child in He. apply GetWatch_loop_fuel; lia.
Qed.

Lemma Get_wf path n search v :
  wf_node path n →
  Get zero n search = (v, true) ↔ has_leaf n (path ++ search) v.
Proof.
  revert path search.
  induction n as [a lf p es IH] using Node_ind'. intros path search Hwf.
  set (n := mkNode a lf p es) in *.
  assert (∀ e r v', e ∈ edges n → has_leaf (node e) (path ++ r) v' →
            ∃ r', r = label e :: r') as Hbelow.
  { intros e r v' He Hl.
    destruct (has_leaf_child_path _ _ _ _ _ Hwf He Hl) as [r' Hr'].
    apply app_inv_head in Hr'. eauto. }
  rewrite Get_unfold, has_leaf_inv.
  destruct search as [|b s].
  - rewrite app_nil_r. split.
    + destruct (leaf n) as [l|] eqn:Hl; [|done]. intros [= <-]. left.
      exists l. split_and!; try done. by eapply wf_node_leaf.
    + intros [(l & -> & _ & <-)|(e & He & Hl)]; [done|].
      rewrite <- (app_nil_r path) in Hl.
      by destruct (Hbelow _ _ _ He Hl).
  - assert (∀ l, leaf n = Some l → key l ≠ path ++ b :: s) as Hhere.
    { intros l Hl Hk. erewrite wf_node_leaf in Hk by done.
      rewrite <- (app_nil_r path) in Hk at 1. by apply app_inv_head in Hk. }
    destruct (getEdge n b).2 as [n'|] eqn:He.
    + apply getEdge_Some in He as (e & He & Hb & <-).
      assert (∀ e', e' ∈ edges n → has_leaf (node e') (path ++ b :: s) v →
                e' = e) as Huniq.
      { intros e' He' Hl. destruct (Hbelow _ _ _ He' Hl) as [r' [= -> _]].
        eapply sorted_edges_label_inj; eauto using wf_node_sorted. }
      destruct (wf_node_child _ _ _ Hwf He) as [_ Hc].
      destruct (bytes_HasPrefix (b :: s) (prefix (node e))) eqn:Hp.
      * apply bytes_HasPrefix_spec in Hp as [r Hr]. rewrite Hr.
        rewrite drop_app_length.
        eapply Forall_forall in IH; [|exact He].
        rewrite (IH (path ++ prefix (node e)) r Hc), <- app_assoc. split.
        -- intros Hl. right. eauto.
        -- intros [(l & Hl & Hk & _)|(e' & He' & Hl)].
           ++ rewrite <- Hr in Hk. by apply Hhere in Hk.
           ++ rewrite <- Hr in Hl. pose proof (Huniq e' He' Hl) as ->.
              by rewrite Hr in Hl.
      * split; [done|].
        intros [(l & Hl & Hk & _)|(e' & He' & Hl)]; [by apply Hhere in Hk|].
        rewrite (Huniq e' He' Hl) in Hl.
        destruct (has_leaf_path _ _ _ _ Hc Hl) as [r Hr].
        rewrite <- app_assoc in Hr. apply app_inv_head in Hr.
        assert (bytes_HasPrefix (b :: s) (prefix (node e)) = true)
          by (apply bytes_HasPrefix_spec; eauto).
        congruence.
    + split; [done|].
      intros [(l & Hl & Hk & _)|(e' & He' & Hl)]; [by apply Hhere in Hk|].
      destruct (Hbelow _ _ _ He' Hl) as [r' [= Hb _]].
      by destruct (getEdge_None n b (wf_node_sorted _ _ Hwf) He e').
Qed.

Lemma Get_result n search :
  Get zero n search = (zero, false) ∨ ∃ v, Get zero n search = (v, true).
Proof.
  revert search. induction n as [a lf p es IH] using Node_ind'. intros search.
  set (n := mkNode a lf p es) in *.
  rewrite Get_unfold. destruct search as [|b s].
  - destruct (leaf n); eauto.
  - destruct (getEdge n b).2 as [n'|] eqn:He; [|by left].
    destruct (bytes_HasPrefix _ _); [|by left].
    apply getEdge_Some in He as (e & He & _ & <-).
    eapply Forall_forall in IH; [|exact He]. apply IH.
Qed.

(** C1. In a tree whose nodes satisfy the structural invariants (labels
    ascending, child prefixes non-empty and starting with their label, leaf
    keys equal to the path), [Get k] returns
    [(v, true)] exactly when some node carries the leaf [(k, v)], and
    [(zero, false)] when no leaf has the key [k]; the descent never looks at
    the key stored in the leaf. *)
Theorem Get_finds_exactly_the_leaves t k :
  wf_node [] t →
  (∀ v, Get zero t k = (v, true) ↔ has_leaf t k v) ∧
  ((∀ v, ¬ has_leaf t k v) → Get zero t k = (zero, false)).
Proof.
  intros Hwf.
  assert (∀ v, Get zero t k = (v, true) ↔ has_leaf t k v) as Hiff
    by (intros v; apply (Get_wf [] t k v Hwf)).
  split; [done|]. intros Hno.
  destruct (Get_result t k) as [?|[v Hv]]; [done|].
  apply Hiff in Hv. by apply Hno in Hv.
Qed.

End Lookups.

Section LongestPrefix.
Context {T : Type} (zero : T).
Implicit Types (n t : @Node T) (es : list (edge (@Node T))) (e : edge (@Node T)).
Implicit Types (l : @leafNode T) (k path search : list byte).

(** ** [LongestPrefix] *)

Lemma LongestPrefix_loop_fuel f1 f2 last n search :
  height n ≤ f1 → height n ≤ f2 →
  LongestPrefix_loop f1 last n search = LongestPrefix_loop f2 last n search.
Proof.
  revert f2 last n search.
  induction f1 as [|f1 IH]; intros [|f2] last n search H1 H2;
    try (pose proof (height_pos n); lia).
  simpl. destruct search as [|b s]; [done|].
  destruct (getEdge n b).2 as [n'|] eqn:He; [|done].
  destruct (bytes_HasPrefix _ _); [|done].
  apply getEdge_Some in He as (e & He & _ & <-).
  apply height_child in He. apply IH; lia.
Qed.

Lemma LongestPrefix_loop_unfold last n search :
  LongestPrefix_loop (height n) last n search =
    let last := match leaf n with Some l => Some l | None => last end in
    match search with
    | [] => last
    | b :: _ =>
        match (getEdge n b).2 with
        | None => last
        | Some n' =>
            if bytes_HasPrefix search (prefix n')
            then LongestPrefix_loop (height n') last n'
                   (drop (length (prefix n')) search)
            else last
        end
    end.
Proof.
  pose proof (height_pos n).
  destruct (height n) as [|h] eqn:Hh; [lia|]. simpl.
  destruct search as [|b s]; [done|].
  destruct (getEdge n b).2 as [n'|] eqn:He; [|done].
  destruct (bytes_HasPrefix _ _); [|done].
  apply getEdge_Some in He as (e & He & _ & <-).
  apply height_child in He. apply LongestPrefix_loop_fuel; lia.
Qed.

Lemma LongestPrefix_own path n k last :
  wf_node path n → path `prefix_of` k →
  (∀ e l', e ∈ edges n → l' ∈ leaves (node e) → ¬ key l' `prefix_of` k) →
  let r := match leaf n with Some l => Some l | None => last end in
  ((∀ l, l ∈ leaves n → ¬ key l `prefix_of` k) ∧ r = last) ∨
  (∃ l, r = Some l ∧ longest_prefix_leaf n k l).
Proof.
  intros Hwf Hpath Hno. simpl.
  destruct (leaf n) as [l|] eqn:Hl.
  - right. exists l. split; [done|].
    pose proof (wf_node_leaf _ _ _ Hwf Hl) as Hk.
    split_and!.
    + apply elem_of_leaves. by left.
    + by rewrite Hk.
    + intros l' [Hl'|(e & He & Hl')]%elem_of_leaves Hp.
      * rewrite Hl in Hl'. by injection Hl' as ->.
      * by destruct (Hno e l' He Hl').
  - left. split; [|done].
    intros l [Hl'|(e & He & Hl')]%elem_of_leaves; [congruence|].
    by eapply Hno.
Qed.

Lemma LongestPrefix_loop_spec path n last search :
  wf_node path n →
  let r := LongestPrefix_loop (height n) last n search in
  ((∀ l, l ∈ leaves n → ¬ key l `prefix_of` (path ++ search)) ∧ r = last) ∨
  (∃ l, r = Some l ∧ longest_prefix_leaf n (path ++ search) l).
Proof.
  revert path last search.
  induction n as [a lf p es IH] using Node_ind'. intros path last search Hwf.
  set (n := mkNode a lf p es) in *.
  assert (path `prefix_of` path ++ search) as Hpath by (by eexists).
  assert (∀ e l', e ∈ edges n → l' ∈ leaves (node e) →
            key l' `prefix_of` (path ++ search) →
            ∃ s, search = label e :: s) as Hbelow.
  { intros e l' He Hl' [x Hx].
    destruct (leaves_child_path _ _ _ _ Hwf He Hl') as [r' Hr'].
    rewrite Hr', <- app_assoc in Hx. apply app_inv_head in Hx. simpl in Hx. eauto. }
  rewrite LongestPrefix_loop_unfold.
  destruct search as [|b s].
  { apply (LongestPrefix_own path); [done..|].
    intros e l' He Hl' Hp. by destruct (Hbelow e l' He Hl' Hp). }
  cbn zeta.
  destruct (getEdge n b).2 as [n'|] eqn:He.
  2:{ apply (LongestPrefix_own path); [done..|].
      intros e l' He' Hl' Hp. destruct (Hbelow e l' He' Hl' Hp) as [s' [= Hb _]].
      by destruct (getEdge_None n b (wf_node_sorted _ _ Hwf) He e). }
  apply getEdge_Some in He as (e & He & Hb & <-).
  assert (∀ e' l', e' ∈ edges n → l' ∈ leaves (node e') →
            key l' `prefix_of` (path ++ b :: s) → e' = e) as Huniq.
  { intros e' l' He' Hl' Hp. destruct (Hbelow e' l' He' Hl' Hp) as [s' [= -> _]].
    eapply sorted_edges_label_inj; eauto using wf_node_sorted. }
  destruct (wf_node_child _ _ _ Hwf He) as [[rest Hrest] Hc].
  destruct (bytes_HasPrefix (b :: s) (prefix (node e))) eqn:Hp.
  2:{ apply (LongestPrefix_own path); [done..|].
      intros e' l' He' Hl' Hpre. pose proof (Huniq e' l' He' Hl' Hpre) as ->.
      destruct (leaves_path _ _ _ Hc Hl') as [r Hr].
      destruct Hpre as [x Hx]. rewrite Hr, <- !app_assoc in Hx.
      apply app_inv_head in Hx.
      assert (bytes_HasPrefix (b :: s) (prefix (node e)) = true)
        by (apply bytes_HasPrefix_spec; eauto).
      congruence. }
  apply bytes_HasPrefix_spec in Hp as [r Hr]. rewrite Hr, drop_app_length.
  eapply Forall_forall in IH; [|exact He].
  specialize (IH (path ++ prefix (node e))
                 (match leaf n with Some l => Some l | None => last end) r Hc).
  rewrite <- app_assoc in IH.
  destruct IH as [[Hnone ->]|(l & -> & Hin & Hpre & Hmax)].
  - rewrite <- Hr. apply (LongestPrefix_own path); [done..|].
    intros e' l' He' Hl' Hpre. pose proof (Huniq e' l' He' Hl' Hpre) as ->.
    rewrite Hr in Hpre. by apply (Hnone l').
  - right. exists l. split; [done|]. split_and!; [|done|].
    + apply elem_of_leaves. right. eauto.
    + intros l' [Hl'|(e' & He' & Hl')]%elem_of_leaves Hpre'.
      * rewrite (wf_node_leaf _ _ _ Hwf Hl').
        destruct (leaves_path _ _ _ Hc Hin) as [x ->].
        rewrite !length_app. lia.
      * rewrite <- Hr in Hpre'.
        pose proof (Huniq e' l' He' Hl' Hpre') as ->.
        rewrite Hr in Hpre'. by apply Hmax.
Qed.

(** C6. In a valid tree [LongestPrefix k] returns [(k', v, true)] exactly
    for the leaf [(k', v)] whose key is the longest key of the tree that is
    a prefix of [k], and returns [(nil, zero, false)] exactly when no key of
    the tree is a prefix of [k]. *)
Theorem LongestPrefix_returns_longest t k :
  valid_tree t →
  (∀ k' v, LongestPrefix zero t k = (k', v, true) ↔
     has_leaf t k' v ∧ k' `prefix_of` k ∧
     ∀ k'' v'', has_leaf t k'' v'' → k'' `prefix_of` k → length k'' ≤ length k') ∧
  (LongestPrefix zero t k = ([], zero, false) ↔
     ∀ k' v, has_leaf t k' v → ¬ k' `prefix_of` k).
Proof.
  intros [_ Hwf]. unfold LongestPrefix.
  destruct (LongestPrefix_loop_spec [] t None k Hwf)
    as [[Hnone ->]|(l & -> & Hin & Hpre & Hmax)]; simpl in *.
  - split.
    + intros k' v. split; [done|]. intros (Hl & Hp & _).
      apply has_leaf_leaves in Hl as (l & Hl & <- & <-).
      by destruct (Hnone l).
    + split; [|done]. intros _ k' v (l & Hl & <- & <-)%has_leaf_leaves.
      by apply Hnone.
  - split.
    + intros k' v. split.
      * intros [= <- <-]. split_and!; [|done|].
        -- apply has_leaf_leaves. eauto.
        -- intros k'' v'' (l' & Hl' & <- & <-)%has_leaf_leaves. apply Hmax, Hl'.
      * intros ((l' & Hl' & <- & <-)%has_leaf_leaves & Hp & Hm).
        assert (key l' = key l) as Hk.
        { assert (length (key l') = length (key l)) as Hlen.
          { apply Nat.le_antisymm; [by apply Hmax|].
            apply (Hm (key l) (val l)); [|done].
            apply has_leaf_leaves. eauto. }
          destruct Hp as [x Hx], Hpre as [y Hy].
          rewrite Hx in Hy. apply app_inj_1 in Hy; [by destruct Hy | done]. }
        assert (has_leaf t (key l) (val l')) as H1.
        { rewrite <- Hk. apply has_leaf_leaves. eauto. }
        assert (has_leaf t (key l) (val l)) as H2
          by (apply has_leaf_leaves; eauto).
        apply (Get_wf zero [] t (key l) _ Hwf) in H1, H2.
        rewrite Hk. congruence.
    + split; [done|]. intros Hno. destruct (Hno (key l) (val l)); [|done].
      apply has_leaf_leaves. eauto.
Qed.

End LongestPrefix.

Section Order.
Context {T : Type} (zero : T).
Implicit Types (n t : @Node T) (es : list (edge (@Node T))) (e : edge (@Node T)).
Implicit Types (l : @leafNode T) (k path search : list byte).

(** ** Walks *)

Lemma recursiveWalk_never n :
  recursiveWalk n never_stop = (pair_of <$> leaves n, false).
Proof.
  induction n as [a lf p es IH] using Node_ind'. simpl.
  assert ((fix range (es : list (edge Node)) : list (list byte * T) * bool :=
             match es with
             | [] => ([], false)
             | e :: es' =>
                 let '(tr, stop) := recursiveWalk (node e) never_stop in
                 if stop then (tr, true)
                 else let '(tr', stop') := range es' in (tr ++ tr', stop')
             end) es
          = (pair_of <$> flat_map (λ e, leaves (node e)) es, false)) as ->.
  { induction IH as [|e es He _ IHes]; [done|].
    rewrite He, IHes. simpl. by rewrite fmap_app. }
  rewrite fmap_app. by destruct lf.
Qed.

Lemma reverseRecursiveWalk_never_stops n :
  (reverseRecursiveWalk n never_stop).2 = false.
Proof.
  induction n as [a lf p es IH] using Node_ind'. simpl.
  assert (((fix range (es : list (edge Node)) : list (list byte * T) * bool :=
             match es with
             | [] => ([], false)
             | e :: es' =>
                 let '(tr', stop') := range es' in
                 if stop' then (tr', true)
                 else let '(tr, stop) := reverseRecursiveWalk (node e) never_stop in
                      (tr' ++ tr, stop)
             end) es).2 = false) as Hr.
  { induction IH as [|e es He _ IHes]; [done|].
    destruct ((fix range (es : list (edge Node)) := _) es) as [tr' stop'].
    simpl in IHes. subst stop'.
    destruct (reverseRecursiveWalk (node e) never_stop) as [tr stop].
    done. }
  by destruct lf.
Qed.

(** What [reverseRecursiveWalk] visits when it is never stopped: the leaf
    of the node, then the subtrees of the edges from the last to the first. *)
Lemma reverseRecursiveWalk_never n :
  reverseRecursiveWalk n never_stop =
    ((pair_of <$> option_list (leaf n)) ++
     concat (reverse ((λ e, (reverseRecursiveWalk (node e) never_stop).1) <$> edges n)),
     false).
Proof.
  destruct n as [a lf p es]. simpl.
  assert ((fix range (es : list (edge Node)) : list (list byte * T) * bool :=
             match es with
             | [] => ([], false)
             | e :: es' =>
                 let '(tr', stop') := range es' in
                 if stop' then (tr', true)
                 else let '(tr, stop) := reverseRecursiveWalk (node e) never_stop in
                      (tr' ++ tr, stop)
             end) es
          = (concat (reverse ((λ e, (reverseRecursiveWalk (node e) never_stop).1) <$> es)),
             false)) as ->.
  { induction es as [|e es IHes]; [done|].
    rewrite IHes. simpl.
    pose proof (reverseRecursiveWalk_never_stops (node e)) as Hf.
    destruct (reverseRecursiveWalk (node e) never_stop) as [tr stop].
    simpl in *. subst stop.
    by rewrite reverse_cons, concat_app; simpl; rewrite app_nil_r. }
  by destruct lf.
Qed.

Lemma leaves_at_tips_unfold n :
  leaves_at_tips n ↔
  (is_Some (leaf n) → edges n = []) ∧ Forall (λ e, leaves_at_tips (node e)) (edges n).
Proof.
  destruct n as [a lf p es]. simpl.
  assert (∀ es',
    (fix all (es : list (edge Node)) : Prop :=
       match es with
       | [] => True
       | e :: es' => leaves_at_tips (node e) ∧ all es'
       end) es' ↔ Forall (λ e, leaves_at_tips (node e)) es') as Hall.
  { induction es' as [|e es' IH]; [by split|].
    rewrite Forall_cons, <- IH. done. }
  by rewrite Hall.
Qed.

Lemma WalkBackwards_perm n :
  WalkBackwards n never_stop ≡ₚ Walk n never_stop.
Proof.
  unfold WalkBackwards, Walk.
  induction n as [a lf p es IH] using Node_ind'.
  rewrite reverseRecursiveWalk_never, recursiveWalk_never. simpl.
  rewrite fmap_app. apply Permutation_app; [done|].
  rewrite reverse_Permutation.
  induction IH as [|e es He _ IHes]; [done|]. simpl.
  rewrite fmap_app. apply Permutation_app; [|done].
  by rewrite He, recursiveWalk_never.
Qed.

Lemma WalkBackwards_reverse n :
  leaves_at_tips n →
  WalkBackwards n never_stop = reverse (Walk n never_stop).
Proof.
  unfold WalkBackwards, Walk.
  induction n as [a lf p es IH] using Node_ind'.
  intros [Htip Hall]%leaves_at_tips_unfold. simpl in Htip, Hall.
  rewrite reverseRecursiveWalk_never, recursiveWalk_never. simpl.
  assert (concat (reverse ((λ e, (reverseRecursiveWalk (node e) never_stop).1) <$> es))
          = reverse (pair_of <$> flat_map (λ e, leaves (node e)) es)) as Hch.
  { clear Htip. induction IH as [|e es He _ IHes]; [done|].
    apply Forall_cons in Hall as [He' Hall].
    cbn [fmap list_fmap flat_map].
    rewrite reverse_cons, concat_app, fmap_app, reverse_app.
    cbn [concat]. rewrite app_nil_r, <- IHes by done. f_equal.
    rewrite He by done. by rewrite recursiveWalk_never. }
  destruct lf as [l|]; simpl.
  - rewrite Htip by done. done.
  - by rewrite Hch.
Qed.

(** ** The order of the leaves *)

Lemma child_leaf_key path e l :
  (∃ rest, prefix (node e) = label e :: rest) →
  wf_node (path ++ prefix (node e)) (node e) →
  l ∈ leaves (node e) → ∃ r, key l = path ++ label e :: r.
Proof.
  intros [rest Hp] Hc Hl. destruct (leaves_path _ _ _ Hc Hl) as [r ->].
  rewrite Hp, <- app_assoc. simpl. eauto.
Qed.

Lemma children_sorted path es :
  sorted_edges es →
  Forall (λ e, (∃ rest, prefix (node e) = label e :: rest) ∧
               wf_node (path ++ prefix (node e)) (node e)) es →
  Forall (λ e, ∀ path, wf_node path (node e) →
               StronglySorted key_lt (key <$> leaves (node e))) es →
  StronglySorted key_lt (key <$> flat_map (λ e, leaves (node e)) es).
Proof.
  intros Hs Hwf IH. induction IH as [|e es He _ IHes]; [constructor|].
  apply sorted_edges_cons in Hs as [Hs Hlt].
  apply Forall_cons in Hwf as [[Hp Hc] Hwf].
  simpl. rewrite fmap_app. apply StronglySorted_app. split_and!.
  - intros k1 k2 (l1 & -> & Hl1)%list_elem_of_fmap (l2 & -> & Hl2)%list_elem_of_fmap.
    apply elem_of_flat_map in Hl2 as (e2 & He2 & Hl2).
    destruct (child_leaf_key path e l1 Hp Hc Hl1) as [r1 ->].
    eapply Forall_forall in Hwf as [Hp2 Hc2]; [|exact He2].
    destruct (child_leaf_key path e2 l2 Hp2 Hc2 Hl2) as [r2 ->].
    apply key_lt_app_l, key_lt_head.
    by eapply Forall_forall in Hlt.
  - by eapply He.
  - by apply IHes.
Qed.

Lemma leaves_sorted path n :
  wf_node path n → StronglySorted key_lt (key <$> leaves n).
Proof.
  revert path. induction n as [a lf p es IH] using Node_ind'. intros path Hwf.
  set (n := mkNode a lf p es) in *.
  pose proof Hwf as (_ & Hs & Hall)%wf_node_unfold. simpl in Hs, Hall.
  pose proof (children_sorted path es Hs Hall IH) as Hch.
  simpl. rewrite fmap_app.
  destruct lf as [l|]; [|done]. simpl. constructor; [done|].
  apply Forall_forall. intros k (l' & -> & Hl')%list_elem_of_fmap.
  apply elem_of_flat_map in Hl' as (e & He & Hl').
  destruct (leaves_child_path path n e l' Hwf He Hl') as [r ->].
  rewrite (wf_node_leaf path n l Hwf) by done.
  apply key_lt_app_nonempty.
Qed.

Lemma live_leaves n : live n → leaves n ≠ [].
Proof.
  induction n as [a lf p es IH] using Node_ind'.
  intros [Hne Hall]%live_unfold. simpl in *.
  destruct lf as [l|]; [done|]. simpl.
  destruct Hne as [[? [=]]|Hne].
  destruct es as [|e es]; [done|].
  apply Forall_cons in IH as [IH _]. apply Forall_cons in Hall as [Hall _].
  simpl. intros [H _]%app_eq_nil. by apply IH.
Qed.

(** ** [Minimum] and [Maximum] *)

Lemma Minimum_loop_unfold n :
  Minimum_loop n =
    match leaf n with
    | Some l => Some l
    | None =>
        match edges n with
        | e :: _ => Minimum_loop (node e)
        | [] => None
        end
    end.
Proof. by destruct n. Qed.

Lemma Maximum_loop_fuel f1 f2 n :
  height n ≤ f1 → height n ≤ f2 → Maximum_loop f1 n = Maximum_loop f2 n.
Proof.
  revert f2 n.
  induction f1 as [|f1 IH]; intros [|f2] n H1 H2;
    try (pose proof (height_pos n); lia).
  simpl. destruct (last (edges n)) as [e|] eqn:He; [|done].
  apply last_Some_elem_of, height_child in He. apply IH; lia.
Qed.

(** [Maximum] looks at the leaf of a node only when the node has no edge. *)
Lemma Maximum_loop_unfold n :
  Maximum_loop (height n) n =
    match last (edges n) with
    | Some e => Maximum_loop (height (node e)) (node e)
    | None => leaf n
    end.
Proof.
  pose proof (height_pos n).
  destruct (height n) as [|h] eqn:Hh; [lia|]. simpl.
  destruct (last (edges n)) as [e|] eqn:He; [|done].
  apply last_Some_elem_of, height_child in He.
  apply Maximum_loop_fuel; lia.
Qed.

Lemma Minimum_loop_head n :
  Forall (λ e, live (node e)) (edges n) → Minimum_loop n = head (leaves n).
Proof.
  induction n as [a lf p es IH] using Node_ind'. intros Hlive.
  rewrite Minimum_loop_unfold. simpl in *.
  destruct lf as [l|]; [done|]. simpl.
  destruct es as [|e es]; [done|].
  apply Forall_cons in IH as [IH _]. apply Forall_cons in Hlive as [Hl _].
  rewrite IH by by apply live_unfold in Hl as [_ ?].
  simpl. apply live_leaves in Hl.
  by destruct (leaves (node e)).
Qed.

Lemma Maximum_loop_last n :
  Forall (λ e, live (node e)) (edges n) →
  Maximum_loop (height n) n = last (leaves n).
Proof.
  induction n as [a lf p es IH] using Node_ind'. intros Hlive.
  rewrite Maximum_loop_unfold. simpl in *.
  destruct (last es) as [e|] eqn:He.
  - apply last_Some in He as [es' ->].
    apply Forall_app in IH as [_ [IH _]%Forall_cons].
    apply Forall_app in Hlive as [_ [Hl _]%Forall_cons].
    rewrite IH by by apply live_unfold in Hl as [_ ?].
    rewrite flat_map_snoc, !app_assoc.
    apply live_leaves in Hl.
    destruct (leaves (node e)) as [|x xs _] using rev_ind; [done|].
    by rewrite !app_assoc, !last_snoc.
  - apply last_None in He as ->. simpl. rewrite app_nil_r. by destruct lf.
Qed.

End Order.

Section Forward.
Context {T : Type} (zero : T).
Implicit Types (n t : @Node T) (es : list (edge (@Node T))) (e : edge (@Node T)).
Implicit Types (l : @leafNode T) (k path search : list byte).
Implicit Types (st : list (list (@Node T))) (i : @Iterator T).

(** ** The forward stack *)

Lemma stack_leaves_nil : stack_leaves ([] : list (list (@Node T))) = [].
Proof. done. Qed.

Lemma stack_leaves_snoc st (sl : list Node) :
  stack_leaves (st ++ [sl]) = flat_map leaves sl ++ stack_leaves st.
Proof. unfold stack_leaves. by rewrite reverse_snoc. Qed.

Lemma stack_weight_snoc st (sl : list Node) :
  stack_weight (st ++ [sl]) = foldr (λ x m, size x + m) 0 sl + stack_weight st.
Proof.
  unfold stack_weight. induction st as [|x st IH]; simpl; [lia|].
  rewrite IH. lia.
Qed.

Lemma flat_map_leaves_nodes es :
  flat_map leaves (nodes es) = flat_map (λ e, leaves (node e)) es.
Proof.
  unfold nodes. induction es as [|e es IH]; [done|].
  cbn [fmap list_fmap flat_map]. by rewrite <- IH.
Qed.

Lemma weight_nodes es :
  foldr (λ x m, size x + m) 0 (nodes es) = foldr (λ e m, size (node e) + m) 0 es.
Proof.
  unfold nodes. induction es as [|e es IH]; [done|].
  cbn [fmap list_fmap foldr]. by rewrite <- IH.
Qed.

Lemma slices_nonempty_snoc st (sl : list Node) :
  slices_nonempty (st ++ [sl]) ↔ slices_nonempty st ∧ sl ≠ [].
Proof. unfold slices_nonempty. rewrite Forall_app, Forall_singleton. done. Qed.

Lemma popped_stack_spec st elem rest :
  slices_nonempty st →
  stack_leaves (st ++ [elem :: rest]) =
    option_list (leaf elem) ++ stack_leaves (popped_stack st elem rest) ∧
  stack_weight (st ++ [elem :: rest]) = S (stack_weight (popped_stack st elem rest)) ∧
  slices_nonempty (popped_stack st elem rest).
Proof.
  intros Hne. unfold popped_stack.
  assert (length (st ++ [elem :: rest]) - 1 = length st) as ->
    by (rewrite length_app; simpl; lia).
  set (st1 := if 1 <? length (elem :: rest) then _ else _).
  assert (stack_leaves st1 = flat_map leaves rest ++ stack_leaves st ∧
          stack_weight st1 = foldr (λ x m, size x + m) 0 rest + stack_weight st ∧
          slices_nonempty st1) as (Hl1 & Hw1 & Hn1).
  { subst st1. destruct rest as [|x rest]; simpl.
    - by rewrite take_app_length.
    - rewrite insert_app_r_alt, Nat.sub_diag by done. simpl.
      rewrite stack_leaves_snoc, stack_weight_snoc.
      split_and!; try done. by apply slices_nonempty_snoc. }
  rewrite stack_leaves_snoc, stack_weight_snoc. simpl.
  rewrite (leaves_unfold elem), (size_unfold elem), <- !app_assoc.
  destruct (edges elem) as [|e es] eqn:Hes.
  - simpl. rewrite Hl1, Hw1. split_and!; [done|lia|done].
  - cbn [length Nat.ltb Nat.leb].
    rewrite stack_leaves_snoc, stack_weight_snoc, flat_map_leaves_nodes, weight_nodes.
    rewrite Hl1, Hw1. split_and!; [done|simpl; lia|].
    by apply slices_nonempty_snoc.
Qed.

Lemma Next_loop_step fuel i st elem rest :
  stack_of i = st ++ [elem :: rest] →
  Next_loop zero (S fuel) i =
    let i' := mkIterator (i_node i) (Some (popped_stack st elem rest)) in
    match leaf elem with
    | Some l => Returns (i', (key l, val l, true))
    | None => Next_loop zero fuel i'
    end.
Proof.
  unfold stack_of. intros Hst. cbn [Next_loop]. rewrite Hst, last_snoc. done.
Qed.

Lemma stack_of_Some (nd : option Node) st : stack_of (mkIterator nd (Some st)) = st.
Proof. done. Qed.

Lemma Next_loop_empty fuel i :
  stack_of i = [] → Next_loop zero (S fuel) i = Returns (i, ([], zero, false)).
Proof. unfold stack_of. intros Hst. cbn [Next_loop]. by rewrite Hst. Qed.

Lemma Next_loop_spec fuel i :
  stack_weight (stack_of i) < fuel → slices_nonempty (stack_of i) →
  ∃ i', Next_loop zero fuel i =
          Returns (i', leaf_result zero (head (stack_leaves (stack_of i)))) ∧
        stack_leaves (stack_of i') = tail (stack_leaves (stack_of i)) ∧
        slices_nonempty (stack_of i') ∧
        i_node i' = i_node i ∧ (started i → started i').
Proof.
  revert i. induction fuel as [|fuel IH]; intros i Hw Hne; [lia|].
  destruct (stack_of i) as [|sl st _] eqn:Hst using rev_ind.
  { exists i. rewrite Next_loop_empty by done. by rewrite Hst. }
  apply slices_nonempty_snoc in Hne as [Hne Hsl].
  destruct sl as [|elem rest]; [done|].
  rewrite (Next_loop_step fuel i st elem rest Hst). cbn zeta.
  destruct (popped_stack_spec st elem rest Hne) as (Hl & Hwt & Hn).
  rewrite Hl. destruct (leaf elem) as [l|] eqn:Hleaf; simpl.
  - eexists. split; [done|]. rewrite stack_of_Some. split_and!; try done.
    intros _. by right.
  - destruct (IH (mkIterator (i_node i) (Some (popped_stack st elem rest))))
      as (i' & Hr & Hl' & Hn' & Hnode & Hstarted);
      [rewrite stack_of_Some; lia|done|].
    rewrite stack_of_Some in Hl'.
    exists i'. split_and!; try done.
    intros _. apply Hstarted. by right.
Qed.

Lemma Next_started i :
  started i → Next zero i = Next_loop zero (S (stack_weight (stack_of i))) i.
Proof.
  unfold Next, started. intros [Hn|[st Hst]].
  - rewrite Hn. by destruct (i_stack i).
  - by rewrite Hst.
Qed.

(** Draining an iterator yields what its stack holds, and ends with a call
    that reports [false]. *)
Lemma drain_spec calls i :
  started i → slices_nonempty (stack_of i) →
  length (stack_leaves (stack_of i)) < calls →
  drain zero calls i = (pair_of <$> stack_leaves (stack_of i), true).
Proof.
  revert i. induction calls as [|calls IH]; intros i Hs Hne Hlen; [lia|].
  cbn [drain]. rewrite Next_started by done.
  destruct (Next_loop_spec (S (stack_weight (stack_of i))) i)
    as (i' & -> & Hl & Hne' & _ & Hs'); [lia|done|].
  destruct (stack_leaves (stack_of i)) as [|l ls]; simpl in *; [done|].
  rewrite IH; [|by auto|done|rewrite Hl; lia]. by rewrite Hl.
Qed.

Lemma Next_fresh t :
  Next zero (mkIterator (Some t) None) = Next zero (mkIterator (Some t) (Some [[t]])).
Proof. done. Qed.

Lemma drain_fresh calls t :
  size t < calls →
  drain zero calls (mkIterator (Some t) None) = (pair_of <$> leaves t, true).
Proof.
  intros Hc.
  assert (drain zero calls (mkIterator (Some t) None)
          = drain zero calls (mkIterator (Some t) (Some [[t]]))) as ->.
  { destruct calls; [done|]. cbn [drain]. by rewrite Next_fresh. }
  assert (length (leaves t) ≤ size t) as Hlen.
  { clear. induction t as [a lf p es IH] using Node_ind'. simpl.
    rewrite length_app.
    assert (length (flat_map (λ e, leaves (node e)) es)
            ≤ foldr (λ e m, size (node e) + m) 0 es).
    { induction IH as [|e es He _ IHes]; simpl; [done|].
      rewrite length_app. lia. }
    destruct lf; simpl; lia. }
  rewrite drain_spec.
  - unfold stack_of, stack_leaves. simpl. by rewrite !app_nil_r.
  - right. done.
  - by repeat constructor.
  - unfold stack_of, stack_leaves. simpl. rewrite !app_nil_r. lia.
Qed.

End Forward.

(** ** Keys against a node prefix *)

Lemma key_leb_le x y : key_leb x y = true ↔ key_le x y.
Proof.
  unfold key_leb, key_le. rewrite Z.leb_le.
  destruct (bytes_Compare_cases x y) as [[-> ?]|[[-> ->]|[-> H]]].
  - split; [auto | lia].
  - split; [auto | lia].
  - split; [lia|]. intros [->|H']; [by apply key_lt_irrefl in H|].
    by destruct (key_lt_asym _ _ H).
Qed.

Lemma key_leb_gt x y : key_leb x y = false ↔ key_lt y x.
Proof.
  unfold key_leb. rewrite Z.leb_gt.
  destruct (bytes_Compare_cases x y) as [[-> H]|[[-> ->]|[-> H]]].
  - split; [lia|]. intros H'. by destruct (key_lt_asym _ _ H).
  - split; [lia|]. intros H'. by apply key_lt_irrefl in H'.
  - split; [done|lia].
Qed.

Lemma key_lt_same_length x y r r' :
  length x = length y → key_lt x y → key_lt (x ++ r) (y ++ r').
Proof.
  intros Hlen H. induction H; simpl in *; try done.
  - by apply key_lt_head.
  - apply key_lt_tail, IHkey_lt. lia.
Qed.

Lemma key_lt_app_r x y r : key_lt x y → key_lt x (y ++ r).
Proof. induction 1; simpl; eauto using key_lt. Qed.

Lemma key_lt_app_longer x y r :
  length y ≤ length x → key_lt x y → key_lt (x ++ r) y.
Proof.
  intros Hlen H. induction H; simpl in *; try lia.
  - by apply key_lt_head.
  - apply key_lt_tail, IHkey_lt. lia.
Qed.

Lemma filter_all {A} (f : A → bool) (l : list A) :
  (∀ x, x ∈ l → f x = true) → List.filter f l = l.
Proof.
  induction l as [|a l IH]; intros H; simpl; [done|].
  rewrite H by set_solver. rewrite IH; [done|]. intros x Hx. apply H. set_solver.
Qed.

Lemma filter_none {A} (f : A → bool) (l : list A) :
  (∀ x, x ∈ l → f x = false) → List.filter f l = [].
Proof.
  induction l as [|a l IH]; intros H; simpl; [done|].
  rewrite H by set_solver. apply IH. intros x Hx. apply H. set_solver.
Qed.

Lemma elem_of_List_filter {A} (f : A → bool) (l : list A) x :
  x ∈ List.filter f l ↔ x ∈ l ∧ f x = true.
Proof.
  induction l as [|a l IH]; simpl.
  - split; [intros []%elem_of_nil | intros [[]%elem_of_nil _]].
  - destruct (f a) eqn:Hfa.
    + rewrite !elem_of_cons, IH. split.
      * intros [->|[? ?]]; auto.
      * intros [[->|?] ?]; auto.
    + rewrite elem_of_cons, IH. split.
      * intros [? ?]; auto.
      * intros [[->|?] ?]; [congruence|auto].
Qed.

Lemma StronglySorted_fmap_filter {A B} (R : relation B) (g : A → B)
    (f : A → bool) (l : list A) :
  StronglySorted R (g <$> l) → StronglySorted R (g <$> List.filter f l).
Proof.
  induction l as [|a l IH]; simpl; [done|].
  intros [Hs Hall]%StronglySorted_inv.
  destruct (f a); [|by apply IH]. simpl. constructor; [by apply IH|].
  apply Forall_forall. intros y (x & -> & Hx%elem_of_List_filter)%list_elem_of_fmap.
  eapply Forall_forall in Hall; [done|].
  apply list_elem_of_fmap. exists x. by destruct Hx.
Qed.

Lemma StronglySorted_key_lt_NoDup (ks : list (list byte)) :
  StronglySorted key_lt ks → NoDup ks.
Proof.
  induction 1 as [|k ks _ IH Hall]; constructor; [|done].
  intros Hin. eapply Forall_forall in Hall; [|done].
  by apply key_lt_irrefl in Hall.
Qed.


Section Seek.
Context {T : Type} (zero : T).
Implicit Types (n t : @Node T) (es : list (edge (@Node T))) (e : edge (@Node T)).
Implicit Types (l : @leafNode T) (k path search : list byte).
Implicit Types (st : list (list (@Node T))) (i : @Iterator T).
Implicit Types (s : option (list (list (@Node T)))).

(** What [prefixCmp] tells about every key that starts with the prefix. *)
Lemma prefixCmp_cases n search :
  ((0 < prefixCmp n search)%Z ∧ ∀ r, key_lt search (prefix n ++ r)) ∨
  ((prefixCmp n search < 0)%Z ∧ ∀ r, key_lt (prefix n ++ r) search) ∨
  (prefixCmp n search = 0%Z ∧ ∃ rest, search = prefix n ++ rest).
Proof.
  unfold prefixCmp. destruct (Nat.ltb_spec (length (prefix n)) (length search)) as [Hlt|Hge].
  - assert (length (take (length (prefix n)) search) = length (prefix n)) as Hlen
      by (rewrite length_take; lia).
    destruct (bytes_Compare_cases (prefix n) (take (length (prefix n)) search))
      as [[-> H]|[[-> H]|[-> H]]].
    + right; left. split; [lia|]. intros r.
      assert (search = take (length (prefix n)) search
                         ++ drop (length (prefix n)) search) as Hsplit
        by (by rewrite take_drop).
      rewrite Hsplit. by apply key_lt_same_length.
    + right; right. split; [done|]. exists (drop (length (prefix n)) search).
      rewrite <- (take_drop (length (prefix n)) search) at 1. by rewrite <- H.
    + left. split; [lia|]. intros r.
      assert (search = take (length (prefix n)) search
                         ++ drop (length (prefix n)) search) as Hsplit
        by (by rewrite take_drop).
      rewrite Hsplit. by apply key_lt_same_length.
  - destruct (bytes_Compare_cases (prefix n) search) as [[-> H]|[[-> H]|[-> H]]].
    + right; left. split; [lia|]. intros r. by apply key_lt_app_longer.
    + right; right. split; [done|]. exists []. by rewrite app_nil_r.
    + left. split; [lia|]. intros r. by apply key_lt_app_r.
Qed.

(** ** [recurseMin] and [findMin] *)

Lemma default_stack_append s (x : list Node) :
  default [] (stack_append s x) = default [] s ++ [x].
Proof. done. Qed.

Lemma recurseMin_unfold s n :
  recurseMin s n =
    match leaf n with
    | Some _ => (s, Some n)
    | None =>
        let s := if 1 <? length (edges n)
                 then stack_append s (drop 1 (nodes (edges n))) else s in
        match edges n with
        | e :: _ => recurseMin s (node e)
        | [] => (s, None)
        end
    end.
Proof. by destruct n. Qed.

Lemma recurseMin_spec n s :
  slices_nonempty (default [] s) →
  flat_map leaves (option_list (recurseMin s n).2)
     ++ stack_leaves (default [] (recurseMin s n).1)
  = leaves n ++ stack_leaves (default [] s) ∧
  slices_nonempty (default [] (recurseMin s n).1).
Proof.
  revert s. induction n as [a lf p es IH] using Node_ind'. intros s Hne.
  rewrite recurseMin_unfold. simpl leaf. simpl edges.
  destruct lf as [l|].
  { simpl. by rewrite app_nil_r. }
  destruct es as [|e es]; [done|].
  apply Forall_cons in IH as [IH _]. cbn zeta.
  destruct es as [|e' es].
  - simpl. destruct (IH s Hne) as [-> ?]. by rewrite app_nil_r.
  - cbn [length Nat.ltb Nat.leb].
    destruct (IH (stack_append s (drop 1 (nodes (e :: e' :: es))))) as [-> ?].
    { simpl. by apply slices_nonempty_snoc. }
    split; [|done]. simpl default. rewrite stack_leaves_snoc.
    change (node e' :: nodes es) with (nodes (e' :: es)).
    rewrite flat_map_leaves_nodes. simpl. by rewrite <- !app_assoc.
Qed.

Lemma findMin_spec n s :
  slices_nonempty (default [] s) →
  stack_leaves (default [] (findMin s n)) = leaves n ++ stack_leaves (default [] s) ∧
  slices_nonempty (default [] (findMin s n)).
Proof.
  intros Hne. unfold findMin, found.
  destruct (recurseMin_spec n s Hne) as [Hl Hn].
  destruct (recurseMin s n) as [s' [m|]]; simpl in *.
  - rewrite stack_leaves_snoc. simpl. rewrite <- Hl.
    split; [done|]. by apply slices_nonempty_snoc.
  - by rewrite <- Hl.
Qed.

(** ** [SeekLowerBound] *)

Lemma getLowerBoundEdge_cases n b :
  sorted_edges (edges n) →
  ∃ (l1 l2 : list (edge Node)), edges n = l1 ++ l2 ∧
    Forall (λ e, byte_lt (label e) b) l1 ∧
    ((l2 = [] ∧ getLowerBoundEdge n b = ((-1)%Z, None)) ∨
     ∃ e (l2' : list (edge Node)), l2 = e :: l2' ∧
       getLowerBoundEdge n b = (Z.of_nat (length l1), Some (node e)) ∧
       (label e = b ∨ byte_lt b (label e)) ∧
       Forall (λ e', byte_lt b (label e')) l2').
Proof.
  intros Hs. unfold getLowerBoundEdge.
  destruct (edge_search_cases (edges n) b Hs) as (l1 & l2 & Hes & -> & H1 & H2).
  exists l1, l2. split_and!; [done..|].
  destruct H2 as [->|(e & l2' & -> & Hcase & Hall)].
  - left. split; [done|]. by rewrite Hes, app_nil_r, lookup_ge_None_2.
  - right. exists e, l2'. split_and!; try done.
    by rewrite Hes, list_lookup_middle.
Qed.

Lemma SeekLowerBound_loop_spec key0 fuel n consumed search s :
  height n ≤ fuel →
  key0 = consumed ++ search →
  wf_node (consumed ++ prefix n) n →
  slices_nonempty (default [] s) →
  let s' := SeekLowerBound_loop fuel key0 s n search in
  stack_leaves (default [] s') =
    List.filter (λ l, key_leb key0 (key l)) (leaves n) ++ stack_leaves (default [] s) ∧
  slices_nonempty (default [] s').
Proof.
  revert n consumed search s.
  induction fuel as [|fuel IH]; intros n consumed search s Hh Hkey Hwf Hne;
    [pose proof (height_pos n); lia|].
  cbn [SeekLowerBound_loop]. cbn zeta.
  assert (∀ l, l ∈ leaves n → ∃ r, key l = consumed ++ prefix n ++ r) as Hkeys.
  { intros l Hl. destruct (leaves_path _ _ _ Hwf Hl) as [r ->].
    rewrite <- app_assoc. eauto. }
  assert ((∀ l, l ∈ leaves n → key_le key0 (key l)) →
          stack_leaves (default [] (findMin s n)) =
            List.filter (λ l, key_leb key0 (key l)) (leaves n)
              ++ stack_leaves (default [] s) ∧
          slices_nonempty (default [] (findMin s n))) as Hmin.
  { intros Hall. destruct (findMin_spec n s Hne) as [-> ?]. split; [|done].
    rewrite filter_all; [done|]. intros l Hl. by apply key_leb_le, Hall. }
  destruct (prefixCmp_cases n search) as [[Hc Hgt]|[[Hc Hlt]|[Hc [rest Hrest]]]].
  - (* the prefix is above the search key: the whole subtree follows *)
    destruct (Z.ltb_spec 0 (prefixCmp n search)); [|lia].
    apply Hmin. intros l Hl. destruct (Hkeys l Hl) as [r ->]. right.
    rewrite Hkey. apply key_lt_app_l, Hgt.
  - (* the prefix is below the search key: nothing here *)
    destruct (Z.ltb_spec 0 (prefixCmp n search)); [lia|].
    destruct (Z.ltb_spec (prefixCmp n search) 0); [|lia].
    split; [|done]. rewrite filter_none; [done|].
    intros l Hl. destruct (Hkeys l Hl) as [r ->].
    apply key_leb_gt. rewrite Hkey. apply key_lt_app_l, Hlt.
  - rewrite Hc. cbn [Z.ltb Z.compare].
    assert (rest = [] → ∀ l, l ∈ leaves n → key_le key0 (key l)) as Hall.
    { intros -> l Hl. destruct (Hkeys l Hl) as [r ->].
      rewrite Hkey, Hrest, app_nil_r. destruct r as [|b r].
      - left. by rewrite !app_nil_r.
      - right. rewrite app_assoc. apply key_lt_app_nonempty. }
    destruct (match leaf n with
              | Some l => bytes_Equal (key l) key0
              | None => false
              end) eqn:Heq.
    { (* exact match *)
      destruct (leaf n) as [l|] eqn:Hleaf; [|done].
      apply bytes_Equal_spec in Heq.
      rewrite (wf_node_leaf _ _ _ Hwf Hleaf), Hkey, Hrest in Heq.
      apply app_inv_head in Heq. rewrite <- (app_nil_r (prefix n)) in Heq at 1.
      apply app_inv_head in Heq. symmetry in Heq.
      unfold found, stack_append. simpl default.
      rewrite stack_leaves_snoc. simpl. rewrite app_nil_r.
      split; [|by apply slices_nonempty_snoc].
      rewrite filter_all; [done|]. intros l' Hl'. by apply key_leb_le, Hall. }
    rewrite Hrest, drop_app_length.
    destruct rest as [|b rest'].
    { (* the search key ends here: the whole subtree follows *)
      by apply Hmin, Hall. }
    (* keys of this node against the search key *)
    assert (∀ l, leaf n = Some l → key_leb key0 (key l) = false) as Hown.
    { intros l Hl. apply key_leb_gt.
      rewrite (wf_node_leaf _ _ _ Hwf Hl), Hkey, Hrest, app_assoc.
      apply key_lt_app_nonempty. }
    assert (∀ e l, e ∈ edges n → l ∈ leaves (node e) →
              ∃ r, key l = (consumed ++ prefix n) ++ label e :: r) as Hchild.
    { intros e l He Hl. by eapply leaves_child_path. }
    assert (∀ e l, e ∈ edges n → l ∈ leaves (node e) → byte_lt (label e) b →
              key_leb key0 (key l) = false) as Hbelow.
    { intros e l He Hl Hlt. destruct (Hchild e l He Hl) as [r ->].
      apply key_leb_gt. rewrite Hkey, Hrest, app_assoc.
      apply key_lt_app_l. by constructor. }
    assert (∀ e l, e ∈ edges n → l ∈ leaves (node e) → byte_lt b (label e) →
              key_leb key0 (key l) = true) as Habove.
    { intros e l He Hl Hlt. destruct (Hchild e l He Hl) as [r ->].
      apply key_leb_le. right. rewrite Hkey, Hrest, app_assoc.
      apply key_lt_app_l. by constructor. }
    destruct (getLowerBoundEdge_cases n b (wf_node_sorted _ _ Hwf))
      as (l1 & l2 & Hes & H1 & Hcase).
    assert (List.filter (λ l, key_leb key0 (key l)) (leaves n) =
            List.filter (λ l, key_leb key0 (key l))
              (flat_map (λ e, leaves (node e)) l2)) as Hfilter.
    { rewrite leaves_unfold, Hes, flat_map_app, !List.filter_app.
      rewrite (filter_none _ (option_list (leaf n))).
      2:{ intros l Hl. apply Hown. destruct (leaf n); set_solver. }
      rewrite (filter_none _ (flat_map _ l1)); [done|].
      intros l (e & He & Hl)%elem_of_flat_map.
      apply (Hbelow e l); [rewrite Hes; set_solver|done|].
      by eapply Forall_forall in H1. }
    rewrite Hfilter.
    destruct Hcase as [[-> ->]|(e & l2' & -> & -> & Hlab & H2)]; [done|].
    assert (e ∈ edges n) as He by (rewrite Hes; set_solver).
    destruct (wf_node_child _ _ _ Hwf He) as [_ Hc'].
    set (s1 := if (Z.of_nat (length l1) + 1 <? Z.of_nat (length (edges n)))%Z
               then stack_append s (drop (Z.to_nat (Z.of_nat (length l1) + 1))
                                         (nodes (edges n)))
               else s).
    assert (stack_leaves (default [] s1) =
              flat_map (λ e, leaves (node e)) l2' ++ stack_leaves (default [] s) ∧
            slices_nonempty (default [] s1)) as [Hs1 Hn1].
    { subst s1. rewrite Hes, length_app.
      destruct l2' as [|e2 l2']; cbn [length].
      - destruct (Z.ltb_spec (Z.of_nat (length l1) + 1)
                    (Z.of_nat (length l1 + 1))); [lia|by split].
      - destruct (Z.ltb_spec (Z.of_nat (length l1) + 1)
                    (Z.of_nat (length l1 + S (S (length l2'))))); [|lia].
        assert (drop (Z.to_nat (Z.of_nat (length l1) + 1))
                     (nodes (l1 ++ e :: e2 :: l2')) = nodes (e2 :: l2')) as ->.
        { unfold nodes. rewrite (cons_middle e), app_assoc, fmap_app.
          apply drop_app_length'. rewrite length_fmap, length_app. simpl. lia. }
        rewrite default_stack_append, stack_leaves_snoc, flat_map_leaves_nodes.
        split; [done|]. by apply slices_nonempty_snoc. }
    destruct (IH (node e) (consumed ++ prefix n) (b :: rest') s1) as [-> Hn'].
    + apply height_child in He. lia.
    + by rewrite Hkey, Hrest, app_assoc.
    + done.
    + done.
    + split; [|done]. rewrite Hs1, app_assoc. f_equal.
      simpl. rewrite List.filter_app. f_equal.
      symmetry. apply filter_all.
      intros l (e' & He' & Hl)%elem_of_flat_map.
      apply (Habove e' l); [rewrite Hes; set_solver|done|].
      by eapply Forall_forall in H2.
Qed.

Lemma SeekLowerBound_loop_fuel key0 f1 f2 s n search :
  height n ≤ f1 → height n ≤ f2 →
  SeekLowerBound_loop f1 key0 s n search = SeekLowerBound_loop f2 key0 s n search.
Proof.
  revert f2 s n search.
  induction f1 as [|f1 IH]; intros [|f2] s n search H1 H2;
    try (pose proof (height_pos n); lia).
  cbn [SeekLowerBound_loop]. cbn zeta.
  repeat (case_match; try done);
    match goal with H : getLowerBoundEdge _ _ = _ |- _ =>
      apply getLowerBoundEdge_Some in H as (e & He & <-) end;
    apply height_child in He; apply IH; lia.
Qed.

Lemma length_leaves_size n : length (leaves n) ≤ size n.
Proof.
  induction n as [a lf p es IH] using Node_ind'. simpl.
  rewrite length_app.
  assert (length (flat_map (λ e, leaves (node e)) es)
          ≤ foldr (λ e m, size (node e) + m) 0 es).
  { induction IH as [|e es He _ IHes]; simpl; [done|].
    rewrite length_app. lia. }
  destruct lf; simpl; lia.
Qed.

Lemma elem_of_pair_leaves t k v (ls : list leafNode) :
  (k, v) ∈ pair_of <$> ls ↔ ∃ l, l ∈ ls ∧ key l = k ∧ val l = v.
Proof.
  rewrite list_elem_of_fmap. unfold pair_of. split.
  - intros (l & [= -> ->] & Hl). eauto.
  - intros (l & Hl & <- & <-). eauto.
Qed.

Lemma fst_pair_leaves (ls : list (@leafNode T)) : (pair_of <$> ls).*1 = key <$> ls.
Proof. rewrite <- list_fmap_compose. done. Qed.


(** C4. On a valid tree, a fresh forward iterator drained by [Next], and
    likewise [Walk] with a callback that never stops, visits the leaves of
    the tree, each once, by strictly ascending key. *)
Theorem forward_iteration_ascending t :
  valid_tree t →
  (∀ calls, size t < calls →
     drain zero calls (mkIterator (Some t) None) = (Walk t never_stop, true)) ∧
  Walk t never_stop = pair_of <$> leaves t ∧
  (∀ k v, (k, v) ∈ Walk t never_stop ↔ has_leaf t k v) ∧
  StronglySorted key_lt ((Walk t never_stop).*1) ∧
  NoDup ((Walk t never_stop).*1).
Proof.
  intros [Hroot Hwf].
  assert (Walk t never_stop = pair_of <$> leaves t) as HW
    by (unfold Walk; by rewrite recursiveWalk_never).
  assert (StronglySorted key_lt ((Walk t never_stop).*1)) as Hs.
  { rewrite HW, fst_pair_leaves. by eapply leaves_sorted. }
  rewrite HW in *. split_and!; try done.
  - intros calls Hc. by apply drain_fresh.
  - intros k v. by rewrite (elem_of_pair_leaves t), has_leaf_leaves.
  - by apply StronglySorted_key_lt_NoDup.
Qed.

End Seek.

Section Extremes.
Context {T : Type} (zero : T).
Implicit Types (n t : @Node T) (es : list (edge (@Node T))) (e : edge (@Node T)).
Implicit Types (l : @leafNode T) (k path search : list byte).

Lemma sorted_head_least (ks : list (list byte)) k0 k :
  StronglySorted key_lt ks → head ks = Some k0 → k ∈ ks → key_le k0 k.
Proof.
  intros Hs Hh Hk. destruct ks as [|k1 ks]; [done|]. injection Hh as ->.
  apply StronglySorted_inv in Hs as [_ Hall].
  apply elem_of_cons in Hk as [->|Hk]; [by left|right].
  by eapply Forall_forall in Hall.
Qed.

Lemma sorted_last_greatest (ks : list (list byte)) k0 k :
  StronglySorted key_lt ks → last ks = Some k0 → k ∈ ks → key_le k k0.
Proof.
  intros Hs [ks' ->]%last_Some Hk.
  apply elem_of_app in Hk as [Hk|Hk].
  - right. eapply (StronglySorted_app_1_elem_of _ ks' [k0]); [done..|set_solver].
  - left. set_solver.
Qed.


End Extremes.

Lemma flat_map_ext_elem {A B} (f g : A → list B) (l : list A) :
  (∀ x, x ∈ l → f x = g x) → flat_map f l = flat_map g l.
Proof.
  induction l as [|a l IH]; intros H; simpl; [done|].
  rewrite H by set_solver. rewrite IH; [done|]. intros x Hx. apply H. set_solver.
Qed.

Lemma reverse_flat_map {A B} (f : A → list B) (l : list A) :
  reverse (flat_map f l) = flat_map (λ x, reverse (f x)) (reverse l).
Proof.
  induction l as [|a l IH]; simpl; [done|].
  by rewrite reverse_app, reverse_cons, flat_map_snoc, IH.
Qed.

Lemma reverse_option_list {A} (o : option A) :
  reverse (option_list o) = option_list o.
Proof. by destruct o. Qed.

Section Reverse.
Context {T : Type} (zero : T).
Implicit Types (n t elem : @Node T) (es : list (edge (@Node T))) (e : edge (@Node T)).
Implicit Types (l : @leafNode T) (k path search : list byte).
Implicit Types (st : list (list (@Node T))) (xs rest : list (@Node T)).
Implicit Types (ri : @ReverseIterator T) (E : gset nat).

(** ** Entries of the reverse stack *)

Lemma addr_in_addrs n : addr n ∈ addrs n.
Proof. rewrite addrs_unfold. set_solver. Qed.

Lemma addr_in_entry_addrs E n : addr n ∈ entry_addrs E n.
Proof.
  unfold entry_addrs. case_decide; [set_solver | apply addr_in_addrs].
Qed.

Lemma entry_leaves_ext E E' n :
  (addr n ∈ E' ↔ addr n ∈ E) → entry_leaves E' n = entry_leaves E n.
Proof. unfold entry_leaves. intros H. by repeat case_decide; try tauto. Qed.

Lemma entry_addrs_ext E E' n :
  (addr n ∈ E' ↔ addr n ∈ E) → entry_addrs E' n = entry_addrs E n.
Proof. unfold entry_addrs. intros H. by repeat case_decide; try tauto. Qed.

Lemma concat_snoc_snoc st rest elem :
  concat (st ++ [rest ++ [elem]]) = (concat st ++ rest) ++ [elem].
Proof. rewrite concat_app. simpl. by rewrite app_nil_r, app_assoc. Qed.

Lemma concat_rpopped st rest : concat (rpopped st rest) = concat st ++ rest.
Proof.
  destruct rest as [|x rest]; simpl; [by rewrite app_nil_r|].
  rewrite concat_app. simpl. by rewrite app_nil_r.
Qed.

Lemma slices_nonempty_rpopped st rest :
  slices_nonempty st → slices_nonempty (rpopped st rest).
Proof.
  intros H. destruct rest as [|x rest]; [done|].
  by apply slices_nonempty_snoc.
Qed.

Lemma rstack_leaves_concat E st :
  rstack_leaves E st = flat_map (entry_leaves E) (reverse (concat st)).
Proof. done. Qed.

Lemma addrs_nodes n :
  addrs n = addr n :: flat_map addrs (nodes (edges n)).
Proof.
  rewrite addrs_unfold. f_equal. unfold nodes.
  induction (edges n) as [|e es IH]; [done|].
  cbn [fmap list_fmap flat_map]. by rewrite IH.
Qed.

Lemma size_nodes n :
  size n = S (foldr (λ x m, size x + m) 0 (nodes (edges n))).
Proof. by rewrite size_unfold, weight_nodes. Qed.

Lemma leaves_nodes n :
  leaves n = option_list (leaf n) ++ flat_map leaves (nodes (edges n)).
Proof. by rewrite leaves_unfold, flat_map_leaves_nodes. Qed.

Lemma size_pos n : 0 < size n.
Proof. rewrite size_unfold. lia. Qed.

Lemma entry_weight_ext E E' n :
  (addr n ∈ E' ↔ addr n ∈ E) → entry_weight E' n = entry_weight E n.
Proof. unfold entry_weight. intros H. by repeat case_decide; try tauto. Qed.

Lemma entry_weight_le E n : 0 < entry_weight E n ≤ 2 * size n.
Proof. unfold entry_weight. pose proof (size_pos n). case_decide; lia. Qed.

Lemma rweight_app E (xs ys : list (@Node T)) :
  foldr (λ x m, entry_weight E x + m) 0 (xs ++ ys)
  = foldr (λ x m, entry_weight E x + m) 0 xs
    + foldr (λ x m, entry_weight E x + m) 0 ys.
Proof. induction xs as [|x xs IH]; cbn [foldr app]; [done|]. rewrite IH. lia. Qed.

Lemma rweight_ext E E' (xs : list (@Node T)) :
  (∀ x, x ∈ xs → (addr x ∈ E' ↔ addr x ∈ E)) →
  foldr (λ x m, entry_weight E' x + m) 0 xs
  = foldr (λ x m, entry_weight E x + m) 0 xs.
Proof.
  induction xs as [|x xs IH]; intros H; cbn [foldr]; [done|].
  rewrite IH by (intros y Hy; apply H; set_solver).
  by rewrite (entry_weight_ext E E' x) by (apply H; set_solver).
Qed.

Lemma rweight_unmarked E (xs : list (@Node T)) :
  (∀ x, x ∈ xs → addr x ∉ E) →
  foldr (λ x m, entry_weight E x + m) 0 xs
  = 2 * foldr (λ x m, size x + m) 0 xs.
Proof.
  induction xs as [|x xs IH]; intros H; cbn [foldr]; [done|].
  rewrite IH by (intros y Hy; apply H; set_solver).
  unfold entry_weight. rewrite decide_False by (apply H; set_solver). lia.
Qed.

Lemma rweight_le E st : rweight E st ≤ 2 * stack_weight st.
Proof.
  unfold rweight, stack_weight.
  induction st as [|sl st IH]; cbn [foldr concat]; [done|].
  rewrite rweight_app.
  assert (foldr (λ x m, entry_weight E x + m) 0 sl
          ≤ 2 * foldr (λ x m, size x + m) 0 sl).
  { clear. induction sl as [|x sl IH]; cbn [foldr]; [done|].
    pose proof (entry_weight_le E x). lia. }
  lia.
Qed.

(** The entries below the top one keep their marks when the mark of the
    top entry changes. *)
Lemma below_top_addr E xs elem x :
  NoDup (flat_map (entry_addrs E) (xs ++ [elem])) →
  x ∈ xs → addr x ∉ entry_addrs E elem.
Proof.
  rewrite flat_map_snoc. intros [_ [Hdis _]]%NoDup_app Hx.
  apply Hdis. apply elem_of_flat_map. exists x. split; [done|].
  apply addr_in_entry_addrs.
Qed.

Lemma below_top_ne E xs elem x :
  NoDup (flat_map (entry_addrs E) (xs ++ [elem])) →
  x ∈ xs → addr x ≠ addr elem.
Proof.
  intros Hnd Hx Heq. apply (below_top_addr E xs elem x Hnd Hx).
  rewrite Heq. apply addr_in_entry_addrs.
Qed.

(** ** One round of [Previous] *)

Lemma previous_expand E st rest elem :
  rstack_inv E (st ++ [rest ++ [elem]]) →
  edges elem ≠ [] → addr elem ∉ E →
  let E' := {[addr elem]} ∪ E in
  let st' := (rpopped st rest ++ [[elem]]) ++ [nodes (edges elem)] in
  rstack_leaves E' st' = rstack_leaves E (st ++ [rest ++ [elem]]) ∧
  rstack_inv E' st' ∧
  S (rweight E' st') = rweight E (st ++ [rest ++ [elem]]).
Proof.
  intros (Hne & Hnd & HE) Hedges Hun E' st'.
  apply slices_nonempty_snoc in Hne as [Hne _].
  rewrite concat_snoc_snoc in Hnd, HE.
  set (xs := concat st ++ rest) in *.
  set (cs := nodes (edges elem)).
  assert (concat st' = (xs ++ [elem]) ++ cs) as Hst'.
  { unfold st'. rewrite !concat_app, concat_rpopped. simpl.
    by rewrite !app_nil_r. }
  assert (entry_addrs E elem = addrs elem) as Helem
    by (unfold entry_addrs; by rewrite decide_False).
  assert (∀ x, x ∈ xs → (addr x ∈ E' ↔ addr x ∈ E)) as Hxs.
  { intros x Hx. pose proof (below_top_ne E xs elem x Hnd Hx). set_solver. }
  assert (NoDup (addrs elem)) as Hnde.
  { rewrite flat_map_snoc, Helem in Hnd. by apply NoDup_app in Hnd as (_ & _ & ?). }
  assert (∀ c, c ∈ cs → addr c ∉ E') as Hcs.
  { intros c Hc.
    assert (addr c ∈ flat_map addrs cs) as Hin.
    { apply elem_of_flat_map. exists c. split; [done|apply addr_in_addrs]. }
    rewrite addrs_nodes in Hnde. fold cs in Hnde.
    apply NoDup_cons in Hnde as [Hhd _].
    assert (addr c ≠ addr elem) as Hne' by (intros Heq; by rewrite Heq in Hin).
    assert (addr c ∉ E); [|set_solver].
    intros HinE. destruct (HE _ HinE) as (x & Hx & Hax).
    apply elem_of_app in Hx as [Hx|Hx]; [|set_solver].
    apply (below_top_addr E xs elem x Hnd Hx).
    rewrite Helem, addrs_nodes, Hax. fold cs. set_solver. }
  assert (entry_leaves E' elem = option_list (leaf elem)) as Hle.
  { unfold entry_leaves. rewrite decide_True; [done|set_solver]. }
  split_and!.
  - unfold rstack_leaves. rewrite Hst', concat_snoc_snoc. fold xs.
    rewrite !reverse_app, !flat_map_app. simpl. rewrite !app_nil_r, Hle.
    rewrite (flat_map_ext_elem (entry_leaves E') (entry_leaves E) (reverse xs)).
    2:{ intros x Hx; rewrite elem_of_reverse in Hx. by apply entry_leaves_ext, Hxs. }
    rewrite app_assoc. f_equal.
    unfold entry_leaves at 2. rewrite decide_False by done.
    rewrite leaves_nodes, reverse_app, reverse_option_list. fold cs. f_equal.
    rewrite reverse_flat_map. apply flat_map_ext_elem.
    intros c Hc; rewrite elem_of_reverse in Hc. unfold entry_leaves.
    by rewrite decide_False by by apply Hcs.
  - split_and!.
    + unfold st'. apply slices_nonempty_snoc. split.
      * apply slices_nonempty_snoc. split; [|done].
        by apply slices_nonempty_rpopped.
      * unfold nodes. by destruct (edges elem).
    + rewrite Hst'. rewrite !flat_map_app.
      rewrite (flat_map_ext_elem (entry_addrs E') (entry_addrs E) xs).
      2:{ intros x Hx. by apply entry_addrs_ext, Hxs. }
      rewrite (flat_map_ext_elem (entry_addrs E') addrs cs).
      2:{ intros c Hc. unfold entry_addrs. by rewrite decide_False by by apply Hcs. }
      simpl. rewrite app_nil_r. unfold entry_addrs at 2.
      rewrite decide_True by set_solver.
      rewrite flat_map_snoc, Helem, addrs_nodes in Hnd. fold cs in Hnd.
      by rewrite <- app_assoc.
    + intros a Ha. rewrite Hst'.
      apply elem_of_union in Ha as [->%elem_of_singleton|Ha].
      * exists elem. set_solver.
      * destruct (HE a Ha) as (x & Hx & Hax). exists x. set_solver.
  - unfold rweight. rewrite Hst', concat_snoc_snoc. fold xs.
    rewrite !rweight_app. cbn [foldr].
    rewrite (rweight_ext E E' xs) by done.
    rewrite (rweight_unmarked E' cs) by done.
    unfold entry_weight.
    rewrite decide_True by set_solver. rewrite decide_False by done.
    rewrite (size_nodes elem). fold cs. lia.
Qed.

Lemma previous_pop E st rest elem :
  rstack_inv E (st ++ [rest ++ [elem]]) →
  edges elem = [] ∨ addr elem ∈ E →
  let E' := if bool_decide (addr elem ∈ E) then E ∖ {[addr elem]} else E in
  let st' := rpopped st rest in
  rstack_leaves E (st ++ [rest ++ [elem]]) =
    option_list (leaf elem) ++ rstack_leaves E' st' ∧
  rstack_inv E' st' ∧
  rweight E' st' < rweight E (st ++ [rest ++ [elem]]).
Proof.
  intros (Hne & Hnd & HE) Hcase E' st'.
  apply slices_nonempty_snoc in Hne as [Hne _].
  rewrite concat_snoc_snoc in Hnd, HE.
  set (xs := concat st ++ rest) in *.
  assert (concat st' = xs) as Hst' by apply concat_rpopped.
  assert (∀ x, x ∈ xs → (addr x ∈ E' ↔ addr x ∈ E)) as Hxs.
  { intros x Hx. pose proof (below_top_ne E xs elem x Hnd Hx).
    unfold E'. case_bool_decide; set_solver. }
  assert (entry_leaves E elem = option_list (leaf elem)) as Hle.
  { unfold entry_leaves. case_decide; [done|].
    destruct Hcase as [Hnil|?]; [|done].
    rewrite leaves_unfold, Hnil. simpl.
    by rewrite app_nil_r, reverse_option_list. }
  split_and!.
  - unfold rstack_leaves. rewrite Hst', concat_snoc_snoc. fold xs.
    rewrite reverse_app. simpl. rewrite Hle. f_equal.
    apply flat_map_ext_elem.
    intros x Hx; rewrite elem_of_reverse in Hx. symmetry. by apply entry_leaves_ext, Hxs.
  - split_and!.
    + by apply slices_nonempty_rpopped.
    + rewrite Hst'.
      rewrite (flat_map_ext_elem (entry_addrs E') (entry_addrs E) xs).
      2:{ intros x Hx. by apply entry_addrs_ext, Hxs. }
      rewrite flat_map_snoc in Hnd. by apply NoDup_app in Hnd as (? & _ & _).
    + intros a Ha. rewrite Hst'.
      assert (a ∈ E ∧ (addr elem ∈ E → a ≠ addr elem)) as [HaE Hane].
      { unfold E' in Ha. case_bool_decide; set_solver. }
      destruct (HE a HaE) as (x & Hx & Hax).
      apply elem_of_app in Hx as [Hx|Hx]; [by exists x|].
      apply list_elem_of_singleton in Hx as ->.
      rewrite <- Hax in Hane. rewrite Hax in Hane. subst a.
      destruct Hane; [done|done].
  - unfold rweight. rewrite Hst', concat_snoc_snoc. fold xs.
    rewrite rweight_app. cbn [foldr].
    rewrite (rweight_ext E E' xs) by done.
    pose proof (entry_weight_le E elem). lia.
Qed.

End Reverse.

Section Previous.
Context {T : Type} (zero : T).
Implicit Types (n t elem : @Node T) (es : list (edge (@Node T))) (e : edge (@Node T)).
Implicit Types (l : @leafNode T) (k path search : list byte).
Implicit Types (st : list (list (@Node T))) (xs rest cs : list (@Node T)).
Implicit Types (ri : @ReverseIterator T) (E : gset nat).

(** ** [Previous] *)

Lemma pop_last_slice st rest elem :
  (if 1 <? length (rest ++ [elem])
   then <[length (st ++ [rest ++ [elem]]) - 1
            := take (length (rest ++ [elem]) - 1) (rest ++ [elem])]>
          (st ++ [rest ++ [elem]])
   else take (length (st ++ [rest ++ [elem]]) - 1) (st ++ [rest ++ [elem]]))
  = rpopped st rest.
Proof.
  assert (length (st ++ [rest ++ [elem]]) - 1 = length st) as ->
    by (rewrite length_app; simpl; lia).
  assert (length (rest ++ [elem]) - 1 = length rest) as ->
    by (rewrite length_app; simpl; lia).
  assert (take (length rest) (rest ++ [elem]) = rest) as ->
    by apply take_app_length.
  destruct rest as [|x rest]; cbn [rpopped].
  - simpl. by rewrite take_app_length.
  - destruct (Nat.ltb_spec 1 (length ((x :: rest) ++ [elem]))) as [_|Hlen].
    2:{ rewrite length_app in Hlen. simpl in Hlen. lia. }
    rewrite insert_app_r_alt, Nat.sub_diag by done. done.
Qed.

Lemma Previous_loop_empty fuel ri :
  rstack_of ri = [] →
  Previous_loop zero (S fuel) ri = Returns (ri, ([], zero, false)).
Proof.
  unfold rstack_of, stack_of. intros Hst. cbn [Previous_loop]. by rewrite Hst.
Qed.

Lemma Previous_loop_step fuel ri st rest elem :
  rstack_of ri = st ++ [rest ++ [elem]] →
  Previous_loop zero (S fuel) ri =
    let E := expanded_of ri in
    let st1 := rpopped st rest in
    if (0 <? length (edges elem)) && negb (bool_decide (addr elem ∈ E)) then
      Previous_loop zero fuel
        (mkReverseIterator
           (mkIterator (i_node (ri_i ri))
              (Some ((st1 ++ [[elem]]) ++ [nodes (edges elem)])))
           (Some ({[addr elem]} ∪ E)))
    else
      let E' := if bool_decide (addr elem ∈ E) then E ∖ {[addr elem]} else E in
      let ri' := mkReverseIterator (mkIterator (i_node (ri_i ri)) (Some st1))
                   (Some E') in
      match leaf elem with
      | Some l => Returns (ri', (key l, val l, true))
      | None => Previous_loop zero fuel ri'
      end.
Proof.
  unfold rstack_of, stack_of, expanded_of. intros Hst.
  cbn [Previous_loop]. rewrite Hst, !last_snoc. cbn zeta.
  by rewrite pop_last_slice.
Qed.

Lemma rstack_of_Some (nd : option (@Node T)) st (oE : option (gset nat)) :
  rstack_of (mkReverseIterator (mkIterator nd (Some st)) oE) = st.
Proof. done. Qed.

Lemma expanded_of_Some (i : @Iterator T) E :
  expanded_of (mkReverseIterator i (Some E)) = E.
Proof. done. Qed.

Lemma Previous_loop_spec fuel ri :
  rweight (expanded_of ri) (rstack_of ri) < fuel →
  rstack_inv (expanded_of ri) (rstack_of ri) →
  ∃ ri',
    Previous_loop zero fuel ri =
      Returns (ri', leaf_result zero
                      (head (rstack_leaves (expanded_of ri) (rstack_of ri)))) ∧
    rstack_leaves (expanded_of ri') (rstack_of ri') =
      tail (rstack_leaves (expanded_of ri) (rstack_of ri)) ∧
    rstack_inv (expanded_of ri') (rstack_of ri') ∧
    i_node (ri_i ri') = i_node (ri_i ri) ∧
    (started (ri_i ri) → started (ri_i ri')).
Proof.
  revert ri. induction fuel as [|fuel IH]; intros ri Hw Hinv; [lia|].
  destruct (rstack_of ri) as [|top st _] eqn:Hst using rev_ind.
  { exists ri. rewrite Previous_loop_empty by done. by rewrite Hst. }
  pose proof Hinv as ([_ Htop]%slices_nonempty_snoc & _ & _).
  destruct top as [|elem rest _] using rev_ind; [done|].
  rewrite (Previous_loop_step fuel ri st rest elem Hst). cbn zeta.
  set (E := expanded_of ri) in *.
  destruct ((0 <? length (edges elem)) && negb (bool_decide (addr elem ∈ E)))
    eqn:Hexp.
  - (* first visit of a node with children *)
    apply andb_true_iff in Hexp as [Hlen Hun].
    apply Nat.ltb_lt in Hlen. apply negb_true_iff, bool_decide_eq_false in Hun.
    assert (edges elem ≠ []) as Hedges by (destruct (edges elem); [simpl in *; lia|done]).
    destruct (previous_expand E st rest elem Hinv Hedges Hun) as (Hl & Hinv' & Hwt).
    cbn zeta in *.
    destruct (IH (mkReverseIterator
                    (mkIterator (i_node (ri_i ri))
                       (Some ((rpopped st rest ++ [[elem]]) ++ [nodes (edges elem)])))
                    (Some ({[addr elem]} ∪ E))))
      as (ri' & Hr & Hl' & Hinv'' & Hnode & Hstarted).
    { rewrite rstack_of_Some, expanded_of_Some. lia. }
    { by rewrite rstack_of_Some, expanded_of_Some. }
    rewrite rstack_of_Some, expanded_of_Some, Hl in Hr, Hl'.
    exists ri'. split_and!; try done.
    intros _. apply Hstarted. by right.
  - (* the node is done: its leaf, if any, is next *)
    assert (edges elem = [] ∨ addr elem ∈ E) as Hcase.
    { apply andb_false_iff in Hexp as [Hlen|Hin].
      - left. apply Nat.ltb_ge in Hlen. destruct (edges elem); [done|simpl in *; lia].
      - right. by apply negb_false_iff, bool_decide_eq_true in Hin. }
    destruct (previous_pop E st rest elem Hinv Hcase) as (Hl & Hinv' & Hwt).
    cbn zeta in *. rewrite Hl.
    destruct (leaf elem) as [l|] eqn:Hleaf; simpl.
    + eexists. split; [done|].
      rewrite rstack_of_Some, expanded_of_Some. split_and!; try done.
      intros _. by right.
    + destruct (IH (mkReverseIterator
                      (mkIterator (i_node (ri_i ri)) (Some (rpopped st rest)))
                      (Some (if bool_decide (addr elem ∈ E)
                             then E ∖ {[addr elem]} else E))))
        as (ri' & Hr & Hl' & Hinv'' & Hnode & Hstarted).
      { rewrite rstack_of_Some, expanded_of_Some. lia. }
      { by rewrite rstack_of_Some, expanded_of_Some. }
      rewrite rstack_of_Some, expanded_of_Some in Hr, Hl'.
      exists ri'. split_and!; try done.
      intros _. apply Hstarted. by right.
Qed.

Lemma Previous_started ri :
  started (ri_i ri) →
  Previous zero ri =
    Previous_loop zero (S (2 * stack_weight (rstack_of ri)))
      (mkReverseIterator (ri_i ri) (Some (expanded_of ri))).
Proof.
  unfold Previous, started, rstack_of, stack_of, expanded_of.
  intros [Hn|[st Hst]].
  - rewrite Hn.
    destruct (i_stack (ri_i ri)) eqn:Hs, (expandedParents ri); by rewrite ?Hs.
  - rewrite Hst. cbn beta iota zeta. rewrite Hst.
    by destruct (expandedParents ri).
Qed.

(** Draining a reverse iterator yields what its stack holds, and ends with
    a call that reports [false]. *)
Lemma rdrain_spec calls ri :
  started (ri_i ri) →
  rstack_inv (expanded_of ri) (rstack_of ri) →
  length (rstack_leaves (expanded_of ri) (rstack_of ri)) < calls →
  rdrain zero calls ri =
    (pair_of <$> rstack_leaves (expanded_of ri) (rstack_of ri), true).
Proof.
  revert ri. induction calls as [|calls IH]; intros ri Hs Hinv Hlen; [lia|].
  cbn [rdrain]. rewrite Previous_started by done.
  destruct (Previous_loop_spec (S (2 * stack_weight (rstack_of ri)))
              (mkReverseIterator (ri_i ri) (Some (expanded_of ri))))
    as (ri' & -> & Hl & Hinv' & _ & Hs').
  { rewrite expanded_of_Some.
    pose proof (rweight_le (expanded_of ri) (rstack_of ri)).
    change (rstack_of (mkReverseIterator (ri_i ri) (Some (expanded_of ri))))
      with (rstack_of ri). lia. }
  { done. }
  change (rstack_of (mkReverseIterator (ri_i ri) (Some (expanded_of ri))))
    with (rstack_of ri) in *.
  rewrite expanded_of_Some in *.
  destruct (rstack_leaves (expanded_of ri) (rstack_of ri)) as [|l ls];
    simpl in *; [done|].
  rewrite IH; [|by auto|done|rewrite Hl; lia]. by rewrite Hl.
Qed.

End Previous.

Section SeekReverse.
Context {T : Type} (zero : T).
Implicit Types (n t elem : @Node T) (es : list (edge (@Node T))) (e : edge (@Node T)).
Implicit Types (l : @leafNode T) (k path search : list byte).
Implicit Types (st : list (list (@Node T))) (xs rest cs : list (@Node T)).
Implicit Types (ri : @ReverseIterator T) (E : gset nat).
Implicit Types (s : option (list (list (@Node T)))).

Local Notation footprint E st := (flat_map (entry_addrs E) (concat st)).

(** ** Pushing on the reverse stack *)

Lemma rstack_leaves_snoc E st cs :
  rstack_leaves E (st ++ [cs]) =
    flat_map (entry_leaves E) (reverse cs) ++ rstack_leaves E st.
Proof.
  unfold rstack_leaves. rewrite concat_app. simpl.
  by rewrite app_nil_r, reverse_app, flat_map_app.
Qed.

Lemma footprint_snoc E st cs :
  footprint E (st ++ [cs]) = footprint E st ++ flat_map (entry_addrs E) cs.
Proof. rewrite concat_app. simpl. by rewrite app_nil_r, flat_map_app. Qed.

Lemma marks_below E st (more : list nat) a :
  NoDup (footprint E st ++ more) →
  (∀ a, a ∈ E → ∃ x, x ∈ concat st ∧ addr x = a) →
  a ∈ more → a ∉ E.
Proof.
  intros [_ [Hdis _]]%NoDup_app HE Ha HaE.
  destruct (HE a HaE) as (x & Hx & <-).
  apply (Hdis (addr x)); [|done].
  apply elem_of_flat_map. exists x. split; [done|apply addr_in_entry_addrs].
Qed.

(** A slice of nodes that are not marked: each will yield its subtree. *)
Lemma push_unmarked E st cs (more : list nat) :
  NoDup (footprint E st ++ flat_map addrs cs ++ more) →
  (∀ a, a ∈ E → ∃ x, x ∈ concat st ∧ addr x = a) →
  rstack_leaves E (st ++ [cs]) =
    reverse (flat_map leaves cs) ++ rstack_leaves E st ∧
  footprint E (st ++ [cs]) = footprint E st ++ flat_map addrs cs.
Proof.
  intros Hnd HE.
  assert (∀ c, c ∈ cs → addr c ∉ E) as Hcs.
  { intros c Hc. eapply marks_below; [exact Hnd|exact HE|].
    apply elem_of_app. left. apply elem_of_flat_map.
    exists c. split; [done|apply addr_in_addrs]. }
  rewrite rstack_leaves_snoc, footprint_snoc. split; f_equal.
  - rewrite reverse_flat_map. apply flat_map_ext_elem.
    intros c Hc. rewrite elem_of_reverse in Hc. unfold entry_leaves.
    by rewrite decide_False by by apply Hcs.
  - apply flat_map_ext_elem. intros c Hc. unfold entry_addrs.
    by rewrite decide_False by by apply Hcs.
Qed.

(** A node pushed with its mark: only its leaf is left to yield. *)
Lemma push_marked E st n (more : list nat) :
  NoDup (footprint E st ++ addr n :: more) →
  (∀ a, a ∈ E → ∃ x, x ∈ concat st ∧ addr x = a) →
  let E' := {[addr n]} ∪ E in
  rstack_leaves E' (st ++ [[n]]) = option_list (leaf n) ++ rstack_leaves E st ∧
  footprint E' (st ++ [[n]]) = footprint E st ++ [addr n] ∧
  (∀ a, a ∈ E' → ∃ x, x ∈ concat (st ++ [[n]]) ∧ addr x = a).
Proof.
  intros Hnd HE E'.
  assert (∀ x, x ∈ concat st → (addr x ∈ E' ↔ addr x ∈ E)) as Hxs.
  { intros x Hx. assert (addr x ≠ addr n); [|set_solver].
    apply NoDup_app in Hnd as (_ & Hdis & _). intros Heq.
    apply (Hdis (addr x)); [|set_solver].
    apply elem_of_flat_map. exists x. split; [done|apply addr_in_entry_addrs]. }
  rewrite rstack_leaves_snoc, footprint_snoc. simpl. rewrite !app_nil_r.
  unfold entry_leaves at 1, entry_addrs at 2.
  rewrite !decide_True by set_solver.
  split_and!.
  - f_equal. unfold rstack_leaves. apply flat_map_ext_elem.
    intros x Hx. rewrite elem_of_reverse in Hx. by apply entry_leaves_ext, Hxs.
  - f_equal. apply flat_map_ext_elem.
    intros x Hx. by apply entry_addrs_ext, Hxs.
  - intros a [->%elem_of_singleton|Ha]%elem_of_union.
    + exists n. rewrite concat_app. set_solver.
    + destruct (HE a Ha) as (x & Hx & Hax). exists x.
      rewrite concat_app. set_solver.
Qed.

Lemma flat_map_addrs_nodes (l1 l2 : list (edge (@Node T))) :
  flat_map addrs (nodes (l1 ++ l2)) =
    flat_map addrs (nodes l1) ++ flat_map addrs (nodes l2).
Proof. unfold nodes. by rewrite fmap_app, flat_map_app. Qed.

End SeekReverse.

Section SeekReverseLoop.
Context {T : Type} (zero : T).
Implicit Types (n t elem : @Node T) (es : list (edge (@Node T))) (e : edge (@Node T)).
Implicit Types (l : @leafNode T) (k path search : list byte).
Implicit Types (st : list (list (@Node T))) (xs rest cs : list (@Node T)).
Implicit Types (ri : @ReverseIterator T) (E : gset nat).
Implicit Types (s : option (list (list (@Node T)))).

Local Notation footprint E st := (flat_map (entry_addrs E) (concat st)).

(** ** [SeekReverseLowerBound] *)

Lemma SeekReverseLowerBound_loop_spec key0 fuel n consumed search s E :
  height n ≤ fuel →
  key0 = consumed ++ search →
  wf_node (consumed ++ prefix n) n →
  slices_nonempty (default [] s) →
  NoDup (footprint E (default [] s) ++ addrs n) →
  (∀ a, a ∈ E → ∃ x, x ∈ concat (default [] s) ∧ addr x = a) →
  let r := SeekReverseLowerBound_loop fuel key0 s E n search in
  rstack_leaves r.2 (default [] r.1) =
    reverse (List.filter (λ l, key_leb (key l) key0) (leaves n))
      ++ rstack_leaves E (default [] s) ∧
  rstack_inv r.2 (default [] r.1).
Proof.
  revert n consumed search s E.
  induction fuel as [|fuel IH]; intros n consumed search s E Hh Hkey Hwf Hne Hnd HE;
    [pose proof (height_pos n); lia|].
  cbn [SeekReverseLowerBound_loop]. cbn zeta.
  set (f := λ l : leafNode, key_leb (key l) key0).
  assert (∀ l, l ∈ leaves n → ∃ r, key l = consumed ++ prefix n ++ r) as Hkeys.
  { intros l Hl. destruct (leaves_path _ _ _ Hwf Hl) as [r ->].
    rewrite <- app_assoc. eauto. }
  assert (rstack_inv E (default [] s)) as Hinv.
  { split_and!; [done| |done]. by apply NoDup_app in Hnd as (? & _ & _). }
  assert (rstack_leaves E (default [] (stack_append s [n])) =
            reverse (leaves n) ++ rstack_leaves E (default [] s) ∧
          rstack_inv E (default [] (stack_append s [n]))) as [Hpush Hpushinv].
  { rewrite default_stack_append.
    destruct (push_unmarked E (default [] s) [n] []) as [Hl Hf]; [|done|].
    { simpl. by rewrite !app_nil_r. }
    simpl in Hl, Hf. rewrite app_nil_r in Hl, Hf. split; [done|].
    split_and!.
    - by apply slices_nonempty_snoc.
    - by rewrite Hf.
    - intros a Ha. destruct (HE a Ha) as (x & Hx & Hax). exists x.
      rewrite concat_app. set_solver. }
  assert (rstack_leaves ({[addr n]} ∪ E) (default [] (stack_append s [n])) =
            option_list (leaf n) ++ rstack_leaves E (default [] s) ∧
          rstack_inv ({[addr n]} ∪ E) (default [] (stack_append s [n])))
    as [Hmark Hmarkinv].
  { rewrite default_stack_append.
    destruct (push_marked E (default [] s) n
                (flat_map addrs (nodes (edges n)))) as (Hl & Hf & HE'); [|done|].
    { by rewrite <- addrs_nodes. }
    split; [done|]. split_and!.
    - by apply slices_nonempty_snoc.
    - rewrite Hf. rewrite addrs_nodes in Hnd.
      rewrite (cons_middle (addr n)), app_assoc in Hnd.
      by apply NoDup_app in Hnd as (? & _ & _).
    - done. }
  destruct (prefixCmp_cases n search) as [[Hc Hgt]|[[Hc Hlt]|[Hc [rest Hrest]]]].
  - (* the prefix is above the search key: nothing here *)
    destruct (Z.ltb_spec (prefixCmp n search) 0); [lia|].
    destruct (Z.ltb_spec 0 (prefixCmp n search)); [|lia].
    split; [|done]. cbn [fst snd]. rewrite filter_none; [done|].
    intros l Hl. unfold f. destruct (Hkeys l Hl) as [r ->].
    apply key_leb_gt. rewrite Hkey. apply key_lt_app_l, Hgt.
  - (* the prefix is below the search key: the whole subtree *)
    destruct (Z.ltb_spec (prefixCmp n search) 0); [|lia].
    cbn [fst snd]. split; [|done]. rewrite Hpush. f_equal. f_equal.
    symmetry. apply filter_all.
    intros l Hl. unfold f. destruct (Hkeys l Hl) as [r ->].
    apply key_leb_le. right. rewrite Hkey. apply key_lt_app_l, Hlt.
  - rewrite Hc. cbn [Z.ltb Z.compare].
    rewrite Hrest, drop_app_length.
    (* keys of the children against the search key *)
    assert (∀ e l, e ∈ edges n → l ∈ leaves (node e) →
              ∃ r, key l = (consumed ++ prefix n) ++ label e :: r) as Hchild.
    { intros e l He Hl. by eapply leaves_child_path. }
    assert (key0 = (consumed ++ prefix n) ++ rest) as Hkey'
      by (by rewrite Hkey, Hrest, app_assoc).
    destruct rest as [|b rest'].
    + (* the search key ends at this node *)
      rewrite app_nil_r in Hkey'.
      assert (List.filter f (leaves n) = option_list (leaf n)) as Hfilter.
      { rewrite leaves_unfold, List.filter_app.
        rewrite (filter_none f (flat_map _ _)), app_nil_r.
        2:{ intros l (e & He & Hl)%elem_of_flat_map. unfold f.
            destruct (Hchild e l He Hl) as [r ->].
            apply key_leb_gt. rewrite Hkey'. apply key_lt_app_nonempty. }
        apply filter_all. intros l Hl. unfold f. apply key_leb_le. left.
        destruct (leaf n) as [l'|] eqn:Hleaf; [|set_solver].
        apply list_elem_of_singleton in Hl as ->.
        by rewrite (wf_node_leaf _ _ _ Hwf Hleaf). }
      rewrite Hfilter, reverse_option_list.
      destruct (leaf n) as [l|] eqn:Hleaf; [|done].
      assert (bytes_Equal (key l) key0 = true) as ->.
      { apply bytes_Equal_spec. by rewrite (wf_node_leaf _ _ _ Hwf Hleaf). }
      done.
    + (* the search key goes on with [b] *)
      assert (∀ l, leaf n = Some l → f l = true ∧ bytes_Equal (key l) key0 = false)
        as Hown.
      { intros l Hl. unfold f. rewrite (wf_node_leaf _ _ _ Hwf Hl). split.
        - apply key_leb_le. right. rewrite Hkey'. apply key_lt_app_nonempty.
        - destruct (bytes_Equal _ _) eqn:Heq; [|done].
          apply bytes_Equal_spec in Heq. rewrite Hkey' in Heq.
          rewrite <- (app_nil_r (consumed ++ prefix n)) in Heq at 1.
          by apply app_inv_head in Heq. }
      assert (List.filter f (leaves n) =
              option_list (leaf n) ++
              List.filter f (flat_map (λ e, leaves (node e)) (edges n))) as Hfilter.
      { rewrite leaves_unfold, List.filter_app. f_equal.
        apply filter_all. intros l Hl. apply Hown.
        destruct (leaf n); set_solver. }
      assert (∀ e l, e ∈ edges n → l ∈ leaves (node e) → byte_lt (label e) b →
                f l = true) as Hbelow.
      { intros e l He Hl Hlt. unfold f. destruct (Hchild e l He Hl) as [r ->].
        apply key_leb_le. right. rewrite Hkey'. apply key_lt_app_l. by constructor. }
      assert (∀ e l, e ∈ edges n → l ∈ leaves (node e) → byte_lt b (label e) →
                f l = false) as Habove.
      { intros e l He Hl Hlt. unfold f. destruct (Hchild e l He Hl) as [r ->].
        apply key_leb_gt. rewrite Hkey'. apply key_lt_app_l. by constructor. }
      (* the part of the loop body after the leaf *)
      assert (∀ s1 E1,
        slices_nonempty (default [] s1) →
        NoDup (footprint E1 (default [] s1) ++ flat_map addrs (nodes (edges n))) →
        (∀ a, a ∈ E1 → ∃ x, x ∈ concat (default [] s1) ∧ addr x = a) →
        let r :=
          let '(idx, lbNode) := getLowerBoundEdge n b in
          let idx := if (idx =? -1)%Z then Z.of_nat (length (edges n)) else idx in
          let s2 := if (0 <? idx)%Z
                    then stack_append s1 (take (Z.to_nat idx) (nodes (edges n)))
                    else s1 in
          match lbNode with
          | None => (s2, E1)
          | Some lb => SeekReverseLowerBound_loop fuel key0 s2 E1 lb (b :: rest')
          end in
        rstack_leaves r.2 (default [] r.1) =
          reverse (List.filter f (flat_map (λ e, leaves (node e)) (edges n)))
            ++ rstack_leaves E1 (default [] s1) ∧
        rstack_inv r.2 (default [] r.1)) as Hcont.
      { intros s1 E1 Hne1 Hnd1 HE1.
        destruct (getLowerBoundEdge_cases n b (wf_node_sorted _ _ Hwf))
          as (l1 & l2 & Hes & H1 & Hcase).
        (* the slice of the edges below [b] *)
        set (s2 := if (0 <? Z.of_nat (length l1))%Z
                   then stack_append s1 (nodes l1) else s1).
        assert (∀ more, NoDup (footprint E1 (default [] s1)
                                  ++ flat_map addrs (nodes l1) ++ more) →
                  rstack_leaves E1 (default [] s2) =
                    reverse (flat_map (λ e, leaves (node e)) l1)
                      ++ rstack_leaves E1 (default [] s1) ∧
                  footprint E1 (default [] s2) =
                    footprint E1 (default [] s1) ++ flat_map addrs (nodes l1) ∧
                  slices_nonempty (default [] s2) ∧
                  (∀ a, a ∈ E1 → ∃ x, x ∈ concat (default [] s2) ∧ addr x = a))
          as Hs2.
        { intros more Hndm. subst s2. destruct l1 as [|e1 l1].
          - simpl. by rewrite app_nil_r.
          - cbn [length]. destruct (Z.ltb_spec 0 (Z.of_nat (S (length l1)))); [|lia].
            rewrite default_stack_append.
            destruct (push_unmarked E1 (default [] s1) (nodes (e1 :: l1)) more)
              as [Hl Hf]; [done..|].
            rewrite flat_map_leaves_nodes in Hl. split_and!; try done.
            + by apply slices_nonempty_snoc.
            + intros a Ha. destruct (HE1 a Ha) as (x & Hx & Hax). exists x.
              rewrite concat_app. set_solver. }
        assert (List.filter f (flat_map (λ e, leaves (node e)) l1) =
                flat_map (λ e, leaves (node e)) l1) as Hf1.
        { apply filter_all. intros l (e & He & Hl)%elem_of_flat_map.
          apply (Hbelow e l); [rewrite Hes; set_solver|done|].
          by eapply Forall_forall in H1. }
        destruct Hcase as [[-> Hlb]|(e & l2' & -> & Hlb & Hlab & H2)].
        - (* no edge at or above [b] *)
          rewrite Hlb. cbn beta iota zeta. rewrite Z.eqb_refl.
          rewrite app_nil_r in Hes. rewrite Hes, Nat2Z.id.
          assert (take (length l1) (nodes l1) = nodes l1) as ->
            by (apply take_ge; unfold nodes; by rewrite length_fmap).
          fold s2. cbn [fst snd].
          rewrite Hes in Hnd1.
          destruct (Hs2 []) as (Hl & Hf & Hn2 & HE2); [by rewrite app_nil_r|].
          rewrite Hf1. split; [done|]. split_and!; [done| |done].
          by rewrite Hf.
        - (* descend into the edge found *)
          rewrite Hlb. cbn beta iota zeta.
          assert ((Z.of_nat (length l1) =? -1)%Z = false) as ->
            by (apply Z.eqb_neq; lia).
          rewrite Nat2Z.id.
          assert (take (length l1) (nodes (edges n)) = nodes l1) as ->.
          { rewrite Hes. unfold nodes. rewrite fmap_app.
            apply take_app_length'. by rewrite length_fmap. }
          fold s2.
          assert (e ∈ edges n) as He by (rewrite Hes; set_solver).
          destruct (wf_node_child _ _ _ Hwf He) as [_ Hc'].
          rewrite Hes, flat_map_addrs_nodes in Hnd1.
          change (nodes (e :: l2')) with (node e :: nodes l2') in Hnd1.
          cbn [flat_map] in Hnd1.
          destruct (Hs2 (addrs (node e) ++ flat_map addrs (nodes l2')))
            as (Hl & Hf & Hn2 & HE2); [done|].
          destruct (IH (node e) (consumed ++ prefix n) (b :: rest') s2 E1)
            as [Hr Hinvr]; try done.
          + apply height_child in He. lia.
          + rewrite Hf. rewrite !app_assoc in Hnd1.
            by apply NoDup_app in Hnd1 as (Hnd1 & _ & _).
          + split; [|done]. rewrite Hr, Hl, app_assoc. f_equal.
            rewrite Hes, flat_map_app, List.filter_app, Hf1, reverse_app. f_equal.
            cbn [flat_map]. rewrite List.filter_app.
            rewrite (filter_none f (flat_map _ l2')); [by rewrite app_nil_r|].
            intros l (e' & He' & Hl')%elem_of_flat_map.
            apply (Habove e' l); [rewrite Hes; set_solver|done|].
            by eapply Forall_forall in H2. }
      destruct (leaf n) as [l|] eqn:Hleaf.
      * destruct (Hown l eq_refl) as [Hfl ->].
        destruct (length (edges n) =? 0) eqn:Hlen.
        -- (* a leaf without children *)
           apply Nat.eqb_eq in Hlen.
           destruct (edges n) as [|? ?] eqn:Hes; [|done].
           cbn [fst snd]. split; [|done].
           by rewrite Hmark, Hfilter.
        -- (* a leaf with children: marked, then the children below [b] *)
           destruct (Hcont (stack_append s [n]) ({[addr n]} ∪ E)) as [Hr Hinvr].
           { by destruct Hmarkinv. }
           { destruct (push_marked E (default [] s) n
                         (flat_map addrs (nodes (edges n)))) as (_ & Hf & _);
               [by rewrite <- addrs_nodes|done|].
             rewrite default_stack_append, Hf, <- app_assoc.
             rewrite addrs_nodes in Hnd. exact Hnd. }
           { by destruct Hmarkinv as (_ & _ & ?). }
           split; [|exact Hinvr]. etrans; [exact Hr|].
           rewrite Hmark, Hfilter, reverse_app.
           by rewrite reverse_option_list, app_assoc.
      * destruct (Hcont s E) as [Hr Hinvr]; [done| |done|].
        { rewrite addrs_nodes in Hnd.
          apply NoDup_app in Hnd as (? & Hdis & Hnd').
          apply NoDup_cons in Hnd' as [_ Hnd'].
          apply NoDup_app. split_and!; [done| |done].
          intros a Ha Hin. apply (Hdis a Ha). set_solver. }
        split; [|exact Hinvr]. etrans; [exact Hr|]. by rewrite Hfilter.
Qed.

End SeekReverseLoop.

Lemma StronglySorted_reverse_flip {A} (R : relation A) (l : list A) :
  StronglySorted R l → StronglySorted (flip R) (reverse l).
Proof.
  induction 1 as [|x l Hs IH Hall]; [constructor|].
  rewrite reverse_cons. apply StronglySorted_app. split_and!.
  - intros y z Hy Hz. rewrite elem_of_reverse in Hy.
    apply list_elem_of_singleton in Hz as ->. unfold flip.
    by eapply Forall_forall in Hall.
  - done.
  - repeat constructor.
Qed.

Section SeekReverseTheorem.
Context {T : Type} (zero : T).
Implicit Types (n t : @Node T) (k : list byte).

Lemma SeekReverseLowerBound_loop_fuel key0 f1 f2 s E n search :
  height n ≤ f1 → height n ≤ f2 →
  SeekReverseLowerBound_loop f1 key0 s E n search =
  SeekReverseLowerBound_loop f2 key0 s E n search.
Proof.
  revert f2 s E n search.
  induction f1 as [|f1 IH]; intros [|f2] s E n search H1 H2;
    try (pose proof (height_pos n); lia).
  cbn [SeekReverseLowerBound_loop]. cbn zeta.
  repeat (case_match; try done); simplify_eq;
    match goal with H : getLowerBoundEdge _ _ = _ |- _ =>
      apply getLowerBoundEdge_Some in H as (e & He & <-) end;
    apply height_child in He; apply IH; lia.
Qed.


End SeekReverseTheorem.

Section Backwards.
Context {T : Type}.
Implicit Types (n t : @Node T).

(** C5, as the code has it.  [WalkBackwards] with a callback that never
    stops visits the same pairs as [Walk], each once; at every node it
    visits the leaf of the node first and then the subtrees of the edges
    from the last to the first.  When no node with a leaf has children it
    is the reverse of [Walk], and on a valid tree the keys then come
    strictly descending. *)
Theorem WalkBackwards_leaf_first t :
  WalkBackwards t never_stop ≡ₚ Walk t never_stop ∧
  WalkBackwards t never_stop =
    (pair_of <$> option_list (leaf t)) ++
    concat (reverse ((λ e, WalkBackwards (node e) never_stop) <$> edges t)) ∧
  (leaves_at_tips t →
   WalkBackwards t never_stop = reverse (Walk t never_stop) ∧
   (valid_tree t →
    StronglySorted (flip key_lt) ((WalkBackwards t never_stop).*1))).
Proof.
  split_and!.
  - apply WalkBackwards_perm.
  - unfold WalkBackwards. by rewrite reverseRecursiveWalk_never.
  - intros Htips.
    assert (WalkBackwards t never_stop = reverse (Walk t never_stop)) as Hrev
      by by apply WalkBackwards_reverse.
    split; [done|]. intros [_ Hwf]. rewrite Hrev, fmap_reverse.
    apply StronglySorted_reverse_flip.
    assert (Walk t never_stop = pair_of <$> leaves t) as ->
      by (unfold Walk; by rewrite recursiveWalk_never).
    rewrite fst_pair_leaves. by eapply leaves_sorted.
Qed.

End Backwards.

(** * [clone] *)
Module CloneProofs.
Import Heap.

Section CloneProofs.
Context {T : Type} (zero : T).
Implicit Types (h : @heap T) (n : Node) (p q nn : nat).

Notation "'let*' x := m 'in' k" := (bind m (λ x, k))
  (at level 10, x binder, m at level 200, k at level 200).

(** ** Running heap code *)

Lemma bind_Returns {A B} (m : @M T A) (k : A → @M T B) h a h' :
  m h = Returns (a, h') → bind m k h = k a h'.
Proof. unfold bind. by intros ->. Qed.

Ltac run H := rewrite (bind_Returns _ _ _ _ _ H); cbn beta.

Lemma load_node_Some h p n :
  nodes h !! p = Some n → load_node p h = Returns (n, h).
Proof. unfold load_node. by intros ->. Qed.

Lemma update_node_Some h p n f :
  nodes h !! p = Some n →
  update_node p f h =
    Returns (tt, mkHeap (<[p := f n]> (nodes h)) (leafs h)
                   (next_addr h) (next_chan h) (next_arr h)).
Proof.
  intros Hp. unfold update_node.
  by rewrite (bind_Returns _ _ h n h (load_node_Some h p n Hp)).
Qed.

Lemma update_leaf_Some h p (l : leafNode) f :
  leafs h !! p = Some l →
  update_leaf p f h =
    Returns (tt, mkHeap (nodes h) (<[p := f l]> (leafs h))
                   (next_addr h) (next_chan h) (next_arr h)).
Proof.
  intros Hp. unfold update_leaf, bind, load_leaf. by rewrite Hp.
Qed.

Lemma same_shapes_refl h : same_shapes h h.
Proof. by repeat split. Qed.

Lemma same_shapes_update h0 h p f :
  same_shapes h0 h → (∀ n, shape (f n) = shape n) → is_Some (nodes h !! p) →
  ∃ h', update_node p f h = Returns (tt, h') ∧ same_shapes h0 h'.
Proof.
  intros (Ha & Hc & Hr & Hs & Hl) Hf [n Hn].
  eexists. split; [by apply update_node_Some|].
  split_and!; try done. intros q. simpl.
  destruct (decide (p = q)) as [->|Hne].
  - rewrite lookup_insert_eq, <- Hs, Hn. simpl. by rewrite Hf.
  - rewrite lookup_insert_ne by done. apply Hs.
Qed.

Lemma for_range_inv {A} (I : @heap T → Prop) (xs : list A) idx
    (body : nat → A → @M T unit) h :
  (∀ i x h, x ∈ xs → I h → ∃ h', body i x h = Returns (tt, h') ∧ I h') →
  I h → ∃ h', for_range xs idx body h = Returns (tt, h') ∧ I h'.
Proof.
  revert idx h. induction xs as [|x xs IH]; intros idx h Hbody HI; simpl.
  - by exists h.
  - destruct (Hbody idx x h) as (h1 & Hb & HI1); [set_solver|done|].
    run Hb.
    apply IH; [|done]. intros i y h2 Hy. apply Hbody. set_solver.
Qed.

Lemma processLazyRefCount_spec h p n :
  nodes h !! p = Some n → node_ok h n →
  ∃ h', processLazyRefCount p h = Returns (tt, h') ∧ same_shapes h h'.
Proof.
  intros Hp [Hleaf Hedges]. unfold processLazyRefCount.
  run (load_node_Some h p n Hp).
  destruct (lazyRefCount n =? 0)%Z.
  { exists h. split; [done|apply same_shapes_refl]. }
  (* n.refCount += n.lazyRefCount *)
  destruct (same_shapes_update h h p
              (λ n, set_refCount (wrap64 (refCount n + lazyRefCount n)) n))
    as (h1 & Hu1 & Hs1); [apply same_shapes_refl|done|by rewrite Hp|].
  run Hu1.
  assert (∀ h', same_shapes h h' →
            ∃ n', nodes h' !! p = Some n' ∧ shape n' = shape n) as Hnode.
  { intros h' (_ & _ & _ & Hs & _). specialize (Hs p). rewrite Hp in Hs.
    destruct (nodes h' !! p) as [n'|]; [|done]. exists n'. split; [done|].
    change (Some (shape n') = Some (shape n)) in Hs. congruence. }
  destruct (Hnode h1 Hs1) as (n1 & Hn1 & Hsh1).
  run (load_node_Some h1 p n1 Hn1).
  (* n.leaf.refCount += n.lazyRefCount *)
  assert (∃ h2, (match leaf n1 with
                 | Some lp =>
                     update_leaf lp
                       (λ l, set_l_refCount (wrap64 (l_refCount l + lazyRefCount n1)) l)
                 | None => ret tt
                 end) h1 = Returns (tt, h2) ∧ same_shapes h h2) as (h2 & Hu2 & Hs2).
  { assert (leaf n1 = leaf n) as -> by (by injection Hsh1).
    destruct (leaf n) as [lp|] eqn:Hlp; [|by exists h1].
    destruct Hs1 as (Ha & Hc & Hr & Hs & Hl).
    destruct (proj2 (Hl lp) (Hleaf lp eq_refl)) as [l Hl1].
    eexists. split; [by eapply update_leaf_Some|].
    split_and!; try done. intros q. simpl. rewrite <- Hl.
    destruct (decide (lp = q)) as [->|Hne].
    - rewrite lookup_insert_eq, Hl1. by split; eauto.
    - by rewrite lookup_insert_ne. }
  run Hu2.
  destruct (Hnode h2 Hs2) as (n2 & Hn2 & Hsh2).
  run (load_node_Some h2 p n2 Hn2).
  (* the children *)
  assert (edges n2 = edges n) as Hes by (by injection Hsh2).
  destruct (for_range_inv (same_shapes h) (edges n2) 0
              (λ _ ed,
                 let* c := deref (node ed) in
                 let* n := load_node p in
                 update_node c
                   (λ m, set_lazyRefCount (wrap64 (lazyRefCount m + lazyRefCount n)) m))
              h2) as (h3 & Hu3 & Hs3); [|done|].
  { intros _ ed h' Hed Hs'. rewrite Hes in Hed.
    eapply Forall_forall in Hedges as (c & Hc & Hin); [|done].
    unfold bind at 1, deref. rewrite Hc.
    destruct (Hnode h' Hs') as (n' & Hn' & _).
    run (load_node_Some h' p n' Hn').
    apply same_shapes_update; [done|done|].
    destruct Hs' as (_ & _ & _ & Hs & _). specialize (Hs c).
    destruct Hin as [m Hm]. rewrite Hm in Hs.
    by destruct (nodes h' !! c). }
  run Hu3.
  apply same_shapes_update; [done|done|].
  destruct (Hnode h3 Hs3) as (n3 & Hn3 & _). by rewrite Hn3.
Qed.

Lemma update_node_spec h q x f :
  nodes h !! q = Some x →
  ∃ h', update_node q f h = Returns (tt, h') ∧
        nodes h' !! q = Some (f x) ∧ only_node_changed q h h' ∧
        next_chan h' = next_chan h.
Proof.
  intros Hq. eexists. split; [by apply update_node_Some|].
  split_and!; try done.
  - apply lookup_insert_eq.
  - split_and!; try done. intros r Hr. by apply lookup_insert_ne.
Qed.

Lemma set_mutateCh_id n c : mutateCh n = c → set_mutateCh c n = n.
Proof. intros <-. by destruct n. Qed.

Lemma getMutateCh_spec h p n :
  nodes h !! p = Some n →
  ∃ c h', getMutateCh p h = Returns (c, h') ∧
          nodes h' !! p = Some (set_mutateCh (Some (Some c)) n) ∧
          only_node_changed p h h' ∧
          (∀ c0, mutateCh n = Some (Some c0) → c = c0) ∧
          ((∀ c0, mutateCh n ≠ Some (Some c0)) → c = next_chan h).
Proof.
  intros Hp. unfold getMutateCh. run (load_node_Some h p n Hp).
  assert ((∀ c0, mutateCh n ≠ Some (Some c0)) →
    ∃ h',
      (let* newCh := new_chan in
       let* _ := update_node p (set_mutateCh (Some (Some newCh))) in
       ret newCh) h = Returns (next_chan h, h') ∧
      nodes h' !! p = Some (set_mutateCh (Some (Some (next_chan h))) n) ∧
      only_node_changed p h h') as Hnew.
  { intros Hno. unfold bind at 1, new_chan.
    destruct (update_node_spec
                (mkHeap (nodes h) (leafs h) (next_addr h) (S (next_chan h)) (next_arr h))
                p n (set_mutateCh (Some (Some (next_chan h)))) Hp)
      as (h' & Hu & Hp' & Honly & _).
    run Hu. by exists h'. }
  destruct (mutateCh n) as [[c|]|] eqn:Hch.
  - exists c, h. split_and!.
    + done.
    + by rewrite set_mutateCh_id.
    + by repeat split.
    + by intros c0 [= ->].
    + intros Hno. by destruct (Hno c).
  - destruct Hnew as (h' & Hrun & Hp' & Honly); [done|].
    exists (next_chan h), h'. by split_and!.
  - destruct Hnew as (h' & Hrun & Hp' & Honly); [done|].
    exists (next_chan h), h'. by split_and!.
Qed.

Lemma edge_eta (e : edge (option nat)) : mkEdge (label e) (node e) = e.
Proof. by destruct e. Qed.

(** The loop that fills the edges of the shallow clone. *)
Lemma copy_edges_spec nn (todo : list (edge (option nat))) :
  ∀ (done : list (edge (option nat))) h x,
  nodes h !! nn = Some x →
  edges x = done ++ replicate (length todo) (mkEdge "000"%byte None) →
  ∃ h',
    for_range todo (length done) (λ idx ed,
      let* _ := update_node nn (set_edge_label idx (label ed)) in
      update_node nn (set_edge_node idx (node ed))) h = Returns (tt, h') ∧
    nodes h' !! nn = Some (set_edges (done ++ todo) x) ∧
    only_node_changed nn h h'.
Proof.
  induction todo as [|ed todo IH]; intros done h x Hnn Hes; simpl.
  - exists h. split_and!; [done| |by repeat split].
    rewrite Hnn. f_equal. simpl in Hes. destruct x. simpl in *. by rewrite Hes.
  - destruct (update_node_spec h nn x (set_edge_label (length done) (label ed)) Hnn)
      as (h1 & Hu1 & Hnn1 & Ho1 & _).
    unfold bind at 1. unfold bind at 1. rewrite Hu1.
    destruct (update_node_spec h1 nn _ (set_edge_node (length done) (node ed)) Hnn1)
      as (h2 & Hu2 & Hnn2 & Ho2 & _).
    rewrite Hu2.
    destruct (IH (done ++ [ed]) h2 _ Hnn2) as (h3 & Hu3 & Hnn3 & Ho3).
    { simpl. rewrite Hes. simpl.
      rewrite !alter_app_r_alt, !Nat.sub_diag by done. simpl.
      by rewrite <- app_assoc, edge_eta. }
    rewrite length_app in Hu3. simpl in Hu3.
    rewrite Nat.add_1_r in Hu3.
    exists h3. split_and!; [done| |].
    + rewrite Hnn3. f_equal. by rewrite <- app_assoc.
    + destruct Ho1 as (Ha1 & Hb1 & Hc1 & Hd1), Ho2 as (Ha2 & Hb2 & Hc2 & Hd2),
        Ho3 as (Ha3 & Hb3 & Hc3 & Hd3).
      split_and!; try congruence.
      intros r Hr. by rewrite Ha3, Ha2, Ha1.
Qed.

(** C10, as the code has it.  The shallow clone of a node is a new node
    whose prefix holds the same bytes in a new array, whose leaf pointer and
    edge list (labels and child pointers) are those of the original, and
    whose watch channel is the channel of the original: the one the
    original had, or the one [getMutateCh] makes for it on the way. *)
Theorem shallow_clone_shares_watch h p n fuel :
  heap_ok h → nodes h !! p = Some n → node_ok h n →
  ∃ nn h' c nn_rec n',
    clone zero (S fuel) false p h = Returns (nn, h') ∧
    nodes h !! nn = None ∧
    nodes h' !! nn = Some nn_rec ∧ nodes h' !! p = Some n' ∧
    prefix nn_rec = copy_slice (next_arr h) (prefix n) ∧
    (∀ a m s, nodes h !! a = Some m → prefix m = Some s → arr s ≠ next_arr h) ∧
    leaf nn_rec = leaf n ∧ edges nn_rec = edges n ∧
    mutateCh nn_rec = Some (Some c) ∧ mutateCh n' = Some (Some c) ∧
    (∀ c0, mutateCh n = Some (Some c0) → c = c0) ∧
    leaf n' = leaf n ∧ prefix n' = prefix n ∧ edges n' = edges n.
Proof.
  intros [Hok _] Hp Hnok. cbn [clone].
  (* n.processLazyRefCount() *)
  destruct (processLazyRefCount_spec h p n Hp Hnok) as (h1 & Hrun1 & Hs1).
  run Hrun1.
  destruct Hs1 as (Haddr1 & Hchan1 & Harr1 & Hshape1 & _).
  assert (∃ n1, nodes h1 !! p = Some n1 ∧ shape n1 = shape n) as (n1 & Hp1 & Hsh1).
  { specialize (Hshape1 p). rewrite Hp in Hshape1.
    destruct (nodes h1 !! p) as [n1|]; [|done]. exists n1. split; [done|].
    change (Some (shape n1) = Some (shape n)) in Hshape1. congruence. }
  injection Hsh1 as Hch1 Hleaf1 Hpre1 Hes1.
  (* nn := new(Node[T]) *)
  set (nn := next_addr h1).
  assert (p ≠ nn) as Hpnn.
  { destruct (Hok p n Hp) as [Hlt _]. unfold nn. lia. }
  assert (nodes h !! nn = None) as Hfresh.
  { destruct (nodes h !! nn) as [m|] eqn:Hm; [|done].
    destruct (Hok nn m Hm) as [Hlt _]. unfold nn in Hlt. lia. }
  unfold bind at 1, new_node. fold nn.
  set (h2 := mkHeap (<[nn := mkNode 0 0 None None None []]> (nodes h1)) (leafs h1)
               (S nn) (next_chan h1) (next_arr h1)).
  assert (nodes h2 !! p = Some n1) as Hp2
    by (unfold h2; simpl; by rewrite lookup_insert_ne).
  assert (nodes h2 !! nn = Some (mkNode 0 0 None None None [])) as Hnn2
    by (unfold h2; simpl; by rewrite lookup_insert_eq).
  (* nn.refCount = n.refCount *)
  run (load_node_Some h2 p n1 Hp2).
  destruct (update_node_spec h2 nn _ (set_refCount (refCount n1)) Hnn2)
    as (h3 & Hrun3 & Hnn3 & (Ho3 & _ & _ & Harr3) & _).
  run Hrun3.
  assert (nodes h3 !! p = Some n1) as Hp3 by (by rewrite Ho3).
  (* n.getMutateCh(), twice *)
  destruct (getMutateCh_spec h3 p n1 Hp3)
    as (c & h4 & Hrun4 & Hp4 & (Ho4 & _ & _ & Harr4) & Hc4 & _).
  run Hrun4.
  destruct (getMutateCh_spec h4 p _ Hp4)
    as (c' & h5 & Hrun5 & Hp5 & (Ho5 & _ & _ & Harr5) & Hc5 & _).
  run Hrun5.
  assert (c' = c) as -> by (by apply Hc5).
  (* nn.setMutateCh(ch) *)
  assert (nodes h5 !! nn = Some (set_refCount (refCount n1) (mkNode 0 0 None None None [])))
    as Hnn5 by (by rewrite Ho5, Ho4).
  unfold setMutateCh.
  destruct (update_node_spec h5 nn _ (set_mutateCh (Some (Some c))) Hnn5)
    as (h6 & Hrun6 & Hnn6 & (Ho6 & _ & _ & Harr6) & _).
  run Hrun6.
  assert (nodes h6 !! p = Some (set_mutateCh (Some (Some c))
                                  (set_mutateCh (Some (Some c)) n1))) as Hp6
    by (by rewrite Ho6).
  set (np := set_mutateCh (Some (Some c)) (set_mutateCh (Some (Some c)) n1)) in *.
  assert (next_arr h2 = next_arr h1) as Harr2 by done.
  assert (next_arr h6 = next_arr h) as Harr6' by congruence.
  (* the prefix *)
  run (load_node_Some h6 p np Hp6).
  assert (∃ h7 r7,
    (match prefix np with
     | Some s =>
         let* a := new_arr in
         update_node nn (set_prefix (Some (mkSlice a (bytes s))))
     | None => ret tt
     end) h6 = Returns (tt, h7) ∧
    nodes h7 !! nn = Some r7 ∧ nodes h7 !! p = Some np ∧
    prefix r7 = copy_slice (next_arr h) (prefix n) ∧
    mutateCh r7 = Some (Some c) ∧ leaf r7 = None ∧ edges r7 = [])
    as (h7 & r7 & Hrun7 & Hnn7 & Hp7 & Hpre7 & Hch7 & Hleaf7 & Hes7).
  { change (prefix np) with (prefix n1). rewrite Hpre1.
    destruct (prefix n) as [s|].
    - unfold bind at 1, new_arr. rewrite Harr6'.
      set (h6' := mkHeap (nodes h6) (leafs h6) (next_addr h6) (next_chan h6)
                    (S (next_arr h))).
      destruct (update_node_spec h6' nn _
                  (set_prefix (Some (mkSlice (next_arr h) (bytes s)))) Hnn6)
        as (h7 & Hrun7 & Hnn7 & (Ho7 & _) & _).
      exists h7. eexists. split_and!; [exact Hrun7|exact Hnn7| |done..].
      by rewrite Ho7.
    - exists h6. eexists. by split_and!. }
  run Hrun7.
  (* the leaf *)
  run (load_node_Some h7 p np Hp7).
  assert (∃ h8 r8,
    (match leaf np with
     | Some lp => update_node nn (set_leaf (Some lp))
     | None => ret tt
     end) h7 = Returns (tt, h8) ∧
    nodes h8 !! nn = Some r8 ∧ nodes h8 !! p = Some np ∧
    prefix r8 = copy_slice (next_arr h) (prefix n) ∧
    mutateCh r8 = Some (Some c) ∧ leaf r8 = leaf n ∧ edges r8 = [])
    as (h8 & r8 & Hrun8 & Hnn8 & Hp8 & Hpre8 & Hch8 & Hleaf8 & Hes8).
  { change (leaf np) with (leaf n1). rewrite Hleaf1.
    destruct (leaf n) as [lp|].
    - destruct (update_node_spec h7 nn _ (set_leaf (Some lp)) Hnn7)
        as (h8 & Hrun8 & Hnn8 & (Ho8 & _) & _).
      exists h8. eexists. split_and!; [exact Hrun8|exact Hnn8| |done..].
      by rewrite Ho8.
    - exists h7, r7. by split_and!. }
  change (if false then _ else _) with
    (match leaf np with
     | Some lp => update_node nn (set_leaf (Some lp))
     | None => @ret T unit tt
     end) in Hrun8.
  assert ((match leaf np with
           | Some lp =>
               if false then
                 let* lp' := leaf_clone zero lp in
                 update_node nn (set_leaf (Some lp'))
               else update_node nn (set_leaf (Some lp))
           | None => ret tt
           end) h7 = Returns (tt, h8)) as Hrun8'
    by (by destruct (leaf np)).
  run Hrun8'.
  (* the edges *)
  run (load_node_Some h8 p np Hp8).
  assert (∃ h9 r9,
    (if bool_decide (length (edges np) ≠ 0) then
       let* _ := update_node nn
                   (set_edges (replicate (length (edges np))
                                 (mkEdge "000"%byte None))) in
       for_range (edges np) 0 (λ idx ed,
         let* _ := update_node nn (set_edge_label idx (label ed)) in
         update_node nn (set_edge_node idx (node ed)))
     else ret tt) h8 = Returns (tt, h9) ∧
    nodes h9 !! nn = Some r9 ∧ nodes h9 !! p = Some np ∧
    prefix r9 = copy_slice (next_arr h) (prefix n) ∧
    mutateCh r9 = Some (Some c) ∧ leaf r9 = leaf n ∧ edges r9 = edges n)
    as (h9 & r9 & Hrun9 & Hnn9 & Hp9 & Hpre9 & Hch9 & Hleaf9 & Hes9).
  { change (edges np) with (edges n1). rewrite Hes1.
    case_bool_decide as Hlen.
    - destruct (update_node_spec h8 nn _
                  (set_edges (replicate (length (edges n)) (mkEdge "000"%byte None)))
                  Hnn8) as (h8' & Hrun8'' & Hnn8' & (Ho8' & _) & _).
      run Hrun8''.
      destruct (copy_edges_spec nn (edges n) [] h8' _ Hnn8') as (h9 & Hrun9 & Hnn9 & (Ho9 & _));
        [done|].
      exists h9. eexists. split_and!; [exact Hrun9|exact Hnn9|..].
      1: by rewrite Ho9, Ho8'.
      all: unfold set_edges; cbn [prefix mutateCh leaf edges app]. all: done.
    - exists h8, r8. split_and!; try done.
      rewrite Hes8. destruct (edges n); [done|]. simpl in Hlen. lia. }
  run Hrun9.
  exists nn, h9, c, r9, np. split_and!; try done.
  - intros a m s Ha Hs. destruct (Hok a m Ha) as (_ & _ & Harr).
    specialize (Harr s Hs). lia.
  - intros c0 Hc0. apply Hc4. by rewrite Hch1.
Qed.

End CloneProofs.
End CloneProofs.

(** * The theorems at work *)

Import Examples.

Ltac solve_byte_lt := unfold byte_lt; vm_compute; lia.

Ltac solve_sorted :=
  unfold sorted_edges; cbn;
  repeat first [apply SSorted_nil | apply SSorted_cons | apply Forall_nil
               | apply Forall_cons; split | solve_byte_lt].

Ltac solve_wf :=
  repeat first
    [ split
    | exact I
    | (intros ? [= <-]; reflexivity)
    | (eexists; reflexivity)
    | solve_sorted
    | (intros ? [=]) ].

Ltac solve_valid := split; [reflexivity | simpl; solve_wf].

(** The scenarios of the specification. *)
Example scenario_foo :
  LongestPrefix 0 tree_foo (bytes_of "foozap") = (bytes_of "foo", 1, true) ∧
  Minimum 0 tree_foo = (bytes_of "foo", 1, true) ∧
  Maximum 0 tree_foo = (bytes_of "foozip", 3, true).
Proof. by vm_compute. Qed.

Example scenario_abc :
  drain 0 5 (mkIterator (Some tree_abc) None)
    = ([(bytes_of "", 0); (bytes_of "a", 1); (bytes_of "ab", 2); (bytes_of "abc", 3)],
       true) ∧
  ∃ i, SeekLowerBound (mkIterator (Some tree_abc) None) (bytes_of "aa") = Returns i ∧
       drain 0 5 i = ([(bytes_of "ab", 2); (bytes_of "abc", 3)], true).
Proof. split; [by vm_compute|]. eexists. split; [reflexivity|]. by vm_compute. Qed.

Example scenario_reverse :
  ∃ ri, SeekReverseLowerBound (NewReverseIterator tree_mixed) (bytes_of "ad") = Returns ri ∧
        rdrain 0 8 ri =
          ([(bytes_of "acd", 7); (bytes_of "ac", 3); (bytes_of "ab", 2);
            (bytes_of "a", 1)], true).
Proof. eexists. split; [reflexivity|]. by vm_compute. Qed.

Lemma Get_finds_exactly_the_leaves_witness :
  wf_node [] tree_mixed ∧
  ((∀ v, Get 0 tree_mixed (bytes_of "ac") = (v, true)
         ↔ has_leaf tree_mixed (bytes_of "ac") v) ∧
   ((∀ v, ¬ has_leaf tree_mixed (bytes_of "ac") v) →
    Get 0 tree_mixed (bytes_of "ac") = (0, false))).
Proof.
  split; [simpl; solve_wf|].
  apply (Get_finds_exactly_the_leaves 0 tree_mixed (bytes_of "ac")).
  simpl. solve_wf.
Defined.



Lemma forward_iteration_ascending_witness :
  valid_tree tree_mixed ∧
  (∀ calls, size tree_mixed < calls →
     drain 0 calls (mkIterator (Some tree_mixed) None)
       = (Walk tree_mixed never_stop, true)) ∧
  Walk tree_mixed never_stop = pair_of <$> leaves tree_mixed ∧
  (∀ k v, (k, v) ∈ Walk tree_mixed never_stop ↔ has_leaf tree_mixed k v) ∧
  StronglySorted key_lt ((Walk tree_mixed never_stop).*1) ∧
  NoDup ((Walk tree_mixed never_stop).*1).
Proof.
  split; [solve_valid|].
  apply (forward_iteration_ascending 0 tree_mixed). solve_valid.
Defined.

(** C5 fails on the code: on the chain of the keys "", a, ab, abc
    [WalkBackwards] visits the keys in the order of [Walk], the smallest
    first, not in the reverse order. *)
Lemma WalkBackwards_not_reverse_counterexample :
  valid_tree tree_abc ∧
  WalkBackwards tree_abc never_stop = Walk tree_abc never_stop ∧
  WalkBackwards tree_abc never_stop ≠ reverse (Walk tree_abc never_stop) ∧
  ¬ StronglySorted (flip key_lt) ((WalkBackwards tree_abc never_stop).*1).
Proof.
  split; [solve_valid|]. split; [by vm_compute|]. split.
  - intros H. vm_compute in H. discriminate H.
  - intros H. vm_compute in H.
    apply StronglySorted_inv in H as [_ H].
    apply Forall_cons in H as [H _]. inversion H.
Qed.

Lemma WalkBackwards_leaf_first_witness :
  leaves_at_tips tree_tips ∧ valid_tree tree_tips ∧
  WalkBackwards tree_tips never_stop = reverse (Walk tree_tips never_stop) ∧
  StronglySorted (flip key_lt) ((WalkBackwards tree_tips never_stop).*1).
Proof.
  assert (leaves_at_tips tree_tips) as Htips.
  { simpl. repeat split; intros [? [=]]. }
  assert (valid_tree tree_tips) as Hv by solve_valid.
  destruct (WalkBackwards_leaf_first tree_tips) as (_ & _ & H).
  destruct (H Htips) as [Hrev Hdesc]. by split_and!; [..|apply Hdesc].
Defined.

Lemma LongestPrefix_returns_longest_witness :
  valid_tree tree_foo ∧
  (∀ k' v, LongestPrefix 0 tree_foo (bytes_of "foozap") = (k', v, true) ↔
     has_leaf tree_foo k' v ∧ k' `prefix_of` bytes_of "foozap" ∧
     ∀ k'' v'', has_leaf tree_foo k'' v'' → k'' `prefix_of` bytes_of "foozap" →
                length k'' ≤ length k') ∧
  (LongestPrefix 0 tree_foo (bytes_of "foozap") = ([], 0, false) ↔
     ∀ k' v, has_leaf tree_foo k' v → ¬ k' `prefix_of` bytes_of "foozap").
Proof.
  split; [solve_valid|].
  apply (LongestPrefix_returns_longest 0 tree_foo (bytes_of "foozap")). solve_valid.
Defined.



Lemma edges_stay_sorted_witness :
  sorted_edges (edges tree_mixed) ∧
  (∀ e', e' ∈ edges tree_mixed → label e' ≠ label edge_c) ∧
  sorted_edges (edges (addEdge tree_mixed edge_c)) ∧
  edge_c ∈ edges (addEdge tree_mixed edge_c) ∧
  sorted_edges (edges (delEdge tree_mixed "a"%byte)) ∧
  edges (delEdge tree_mixed "a"%byte)
    = filter (λ e', label e' ≠ "a"%byte) (edges tree_mixed).
Proof.
  assert (sorted_edges (edges tree_mixed)) as Hs by solve_sorted.
  assert (∀ e', e' ∈ edges tree_mixed → label e' ≠ label edge_c) as Hfresh.
  { simpl. intros e' He'. repeat (apply elem_of_cons in He' as [->|He']); try done.
    by apply elem_of_nil in He'. }
  destruct (edges_stay_sorted tree_mixed edge_c "a"%byte Hs)
    as (Hadd & Hdel & Hfilter & _).
  destruct (Hadd Hfresh) as (Hadd1 & Hadd2 & _).
  by split_and!.
Defined.

Lemma replaceEdge_panics_iff_missing_witness :
  sorted_edges (edges tree_mixed) ∧
  replaceEdge tree_mixed edge_c = Panics ∧
  (replaceEdge tree_mixed edge_c = Panics ↔
   ∀ e', e' ∈ edges tree_mixed → label e' ≠ label edge_c).
Proof.
  assert (sorted_edges (edges tree_mixed)) as Hs by solve_sorted.
  split; [exact Hs|]. split; [by vm_compute|].
  by destruct (replaceEdge_panics_iff_missing tree_mixed edge_c Hs) as [H _].
Defined.

(** C10 fails on the code: the shallow clone of the node at 0, whose
    channel is 4, is the new node at 3, and its channel is 4 as well. *)
Lemma clone_watch_not_fresh_counterexample :
  ∃ h', Heap.clone 0 1 false 0 heap_ex = Returns (3, h') ∧
        Heap.mutateCh <$> (Heap.nodes heap_ex !! 0) = Some (Some (Some 4)) ∧
        Heap.mutateCh <$> (Heap.nodes h' !! 0) = Some (Some (Some 4)) ∧
        Heap.mutateCh <$> (Heap.nodes h' !! 3) = Some (Some (Some 4)).
Proof. eexists. split; [by vm_compute|]. by vm_compute. Qed.

Lemma shallow_clone_shares_watch_witness :
  Heap.heap_ok heap_ex ∧ Heap.nodes heap_ex !! 0 = Some node_ex ∧
  Heap.node_ok heap_ex node_ex ∧
  ∃ nn h' c nn_rec n',
    Heap.clone 0 1 false 0 heap_ex = Returns (nn, h') ∧
    Heap.nodes heap_ex !! nn = None ∧
    Heap.nodes h' !! nn = Some nn_rec ∧ Heap.nodes h' !! 0 = Some n' ∧
    Heap.prefix nn_rec = Heap.copy_slice (Heap.next_arr heap_ex) (Heap.prefix node_ex) ∧
    (∀ a m s, Heap.nodes heap_ex !! a = Some m → Heap.prefix m = Some s →
              Heap.arr s ≠ Heap.next_arr heap_ex) ∧
    Heap.leaf nn_rec = Heap.leaf node_ex ∧ Heap.edges nn_rec = Heap.edges node_ex ∧
    Heap.mutateCh nn_rec = Some (Some c) ∧ Heap.mutateCh n' = Some (Some c) ∧
    (∀ c0, Heap.mutateCh node_ex = Some (Some c0) → c = c0) ∧
    Heap.leaf n' = Heap.leaf node_ex ∧ Heap.prefix n' = Heap.prefix node_ex ∧
    Heap.edges n' = Heap.edges node_ex.
Proof.
  assert (Heap.heap_ok heap_ex) as Hok.
  { split.
    - intros a n Ha. unfold heap_ex in Ha. simpl in Ha.
      apply lookup_insert_Some in Ha as [[<- <-]|[_ Ha]].
      { simpl. split_and!; [lia| |]; intros ? [= <-]; simpl; lia. }
      apply lookup_singleton_Some in Ha as [<- <-].
      simpl. split_and!; [lia| |]; intros ? [=]; subst; simpl; lia.
    - intros a l Ha. unfold heap_ex in Ha. simpl in Ha.
      apply lookup_singleton_Some in Ha as [<- <-]. simpl; lia. }
  assert (Heap.nodes heap_ex !! 0 = Some node_ex) as Hp by (by vm_compute).
  assert (Heap.node_ok heap_ex node_ex) as Hn.
  { split.
    - intros lp [= <-]. eexists. reflexivity.
    - repeat constructor. exists 1. split; [done|]. eexists. reflexivity. }
  split; [exact Hok|]. split; [exact Hp|]. split; [exact Hn|].
  exact (CloneProofs.shallow_clone_shares_watch 0 heap_ex 0 node_ex 0 Hok Hp Hn).
Defined.

(** * Further properties *)

(** ** The edge list as a map from labels to children *)
Section EdgeMap.
Context {T : Type}.
Implicit Types (n : @Node T) (e : edge (@Node T)) (b : byte).
Implicit Types (es : list (edge (@Node T))).

(** The index [sort.Search] returns is determined by the labels. *)
Lemma edge_search_unique es (l1 l2 : list (edge (@Node T))) (l : byte) :
  sorted_edges es → es = l1 ++ l2 →
  Forall (λ e, byte_lt (label e) l) l1 →
  Forall (λ e, ¬ byte_lt (label e) l) l2 →
  sort_Search (length es) (label_ge_at es l) = length l1.
Proof.
  intros Hs Hes H1 H2.
  destruct (edge_search_split es l Hs) as (k1 & k2 & Hk & -> & K1 & K2).
  destruct (decide (length k1 = length l1)) as [|Hne]; [done|exfalso].
  destruct (decide (length k1 < length l1)) as [Hlt|Hge].
  - destruct (lookup_lt_is_Some_2 l1 (length k1) Hlt) as [x Hx].
    assert (es !! length k1 = Some x) as Hx'
      by (rewrite Hes; by apply lookup_app_l_Some).
    rewrite Hk, lookup_app_r, Nat.sub_diag in Hx' by lia.
    destruct k2 as [|y k2]; [done|]. injection Hx' as ->.
    apply Forall_cons in K2 as [K2 _]. apply K2.
    eapply Forall_forall in H1; [done|]. by eapply list_elem_of_lookup_2.
  - assert (length l1 < length k1) as Hlt by lia.
    destruct (lookup_lt_is_Some_2 k1 (length l1) Hlt) as [x Hx].
    assert (es !! length l1 = Some x) as Hx'
      by (rewrite Hk; by apply lookup_app_l_Some).
    rewrite Hes, lookup_app_r, Nat.sub_diag in Hx' by lia.
    destruct l2 as [|y l2]; [done|]. injection Hx' as ->.
    apply Forall_cons in H2 as [H2 _]. apply H2.
    eapply Forall_forall in K1; [done|]. by eapply list_elem_of_lookup_2.
Qed.

Lemma sorted_edges_middle (l1 : list (edge (@Node T))) e l2 :
  sorted_edges (l1 ++ e :: l2) →
  Forall (λ e', byte_lt (label e') (label e)) l1 ∧
  Forall (λ e', byte_lt (label e) (label e')) l2.
Proof.
  intros (_ & H2 & H12)%sorted_edges_app.
  apply sorted_edges_cons in H2 as [_ H2]. split; [|done].
  apply Forall_forall. intros x Hx. apply H12; [done|set_solver].
Qed.

Lemma not_lt_of_gt (l : byte) (l2 : list (edge (@Node T))) :
  Forall (λ e', byte_lt l (label e')) l2 →
  Forall (λ e', ¬ byte_lt (label e') l) l2.
Proof.
  intros H. eapply Forall_impl; [exact H|]. intros x Hx Hx'.
  by eapply byte_lt_irrefl, byte_lt_trans.
Qed.

(** [getEdge] at the label of an edge of the list. *)
Lemma getEdge_at n (l1 : list (edge (@Node T))) e l2 :
  sorted_edges (edges n) → edges n = l1 ++ e :: l2 →
  getEdge n (label e) = (Z.of_nat (length l1), Some (node e)).
Proof.
  intros Hs Hes. unfold getEdge.
  pose proof Hs as Hs'. rewrite Hes in Hs'.
  apply sorted_edges_middle in Hs' as [H1 H2].
  rewrite (edge_search_unique (edges n) l1 (e :: l2) (label e) Hs Hes H1).
  2:{ apply Forall_cons. split; [apply byte_lt_irrefl|by apply not_lt_of_gt]. }
  rewrite Hes, list_lookup_middle by done. by rewrite byte_eqb_refl.
Qed.

(** [getEdge] at a label that no edge carries. *)
Lemma getEdge_absent n (l : byte) :
  sorted_edges (edges n) → (∀ e, e ∈ edges n → label e ≠ l) →
  getEdge n l = ((-1)%Z, None).
Proof.
  intros Hs Hno. unfold getEdge.
  destruct (edge_search_cases (edges n) l Hs) as (l1 & l2 & Hes & -> & H1 & H2).
  destruct H2 as [->|(e2 & l2' & -> & Hcase & Hall)].
  { rewrite Hes, lookup_app_r, Nat.sub_diag by lia. done. }
  rewrite Hes, list_lookup_middle by done.
  destruct (Byte.eqb (label e2) l) eqn:Heq; [|done].
  apply byte_eqb_true in Heq. destruct (Hno e2); [|done].
  rewrite Hes. set_solver.
Qed.

Lemma edge_eta' e : mkEdge (label e) (node e) = e.
Proof. by destruct e. Qed.

Lemma sorted_edges_index es i j ei ej :
  sorted_edges es → es !! i = Some ei → es !! j = Some ej →
  label ei = label ej → i = j.
Proof.
  intros Hs Hi Hj Hl.
  destruct (Nat.lt_trichotomy i j) as [Hlt|[->|Hlt]]; [|done|].
  - pose proof (sorted_edges_lookup es i j ei ej Hs Hi Hj Hlt) as H.
    rewrite Hl in H. by apply byte_lt_irrefl in H.
  - pose proof (sorted_edges_lookup es j i ej ei Hs Hj Hi Hlt) as H.
    rewrite Hl in H. by apply byte_lt_irrefl in H.
Qed.

Lemma getEdge_lookup n i e :
  sorted_edges (edges n) → edges n !! i = Some e →
  getEdge n (label e) = (Z.of_nat i, Some (node e)).
Proof.
  intros Hs Hi.
  destruct (list_elem_of_split_length _ _ _ Hi) as (l1 & l2 & Hes & ->).
  by eapply getEdge_at.
Qed.

(** X1. [getEdge]: on an edge list that ascends strictly by label,
    [getEdge l] returns the index and the child of the edge labelled [l],
    and [(-1, nil)] exactly when no edge carries [l]. *)
Theorem getEdge_finds_the_label n (l : byte) :
  sorted_edges (edges n) →
  (∀ i c, getEdge n l = (Z.of_nat i, Some c) ↔ edges n !! i = Some (mkEdge l c)) ∧
  (getEdge n l = ((-1)%Z, None) ↔ ∀ e, e ∈ edges n → label e ≠ l) ∧
  ((∃ i c, getEdge n l = (Z.of_nat i, Some c)) ∨ getEdge n l = ((-1)%Z, None)).
Proof.
  intros Hs.
  assert (∀ i c, edges n !! i = Some (mkEdge l c) →
                 getEdge n l = (Z.of_nat i, Some c)) as Hfound.
  { intros i c Hi.
    destruct (list_elem_of_split_length _ _ _ Hi) as (l1 & l2 & Hes & ->).
    exact (getEdge_at n l1 (mkEdge l c) l2 Hs Hes). }
  split_and!.
  - intros i c. split; [|apply Hfound].
    intros Hg. assert ((getEdge n l).2 = Some c) as Hc by by rewrite Hg.
    apply getEdge_Some in Hc as (e & He & <- & <-).
    apply list_elem_of_lookup_1 in He as [j Hj].
    rewrite <- (edge_eta' e) in Hj. pose proof (Hfound j _ Hj) as Hg'.
    rewrite Hg in Hg'. injection Hg' as Hij. apply Nat2Z.inj in Hij as ->.
    done.
  - split; [|by apply getEdge_absent].
    intros Hg. apply getEdge_None; [done|by rewrite Hg].
  - destruct ((getEdge n l).2) as [c|] eqn:Hc.
    + left. apply getEdge_Some in Hc as (e & He & <- & <-).
      apply list_elem_of_lookup_1 in He as [j Hj].
      rewrite <- (edge_eta' e) in Hj. exists j, (node e). by apply Hfound.
    + right. apply getEdge_absent; [done|]. by apply getEdge_None.
Qed.

Lemma getEdge_elem n e :
  sorted_edges (edges n) → e ∈ edges n →
  ∃ i, getEdge n (label e) = (Z.of_nat i, Some (node e)) ∧ edges n !! i = Some e.
Proof.
  intros Hs (l1 & l2 & Hes)%list_elem_of_split. exists (length l1).
  split; [by eapply getEdge_at|]. rewrite Hes. by apply list_lookup_middle.
Qed.

(** Two sorted lists with the same edges of label [l] answer [getEdge l]
    with the same child. *)
Lemma getEdge_same_child n n' (l : byte) :
  sorted_edges (edges n) → sorted_edges (edges n') →
  (∀ e, label e = l → e ∈ edges n' ↔ e ∈ edges n) →
  (getEdge n' l).2 = (getEdge n l).2.
Proof.
  intros Hs Hs' Hsame.
  destruct ((getEdge n l).2) as [c|] eqn:Hc.
  - apply getEdge_Some in Hc as (e & He & <- & <-).
    apply Hsame in He; [|done].
    destruct (getEdge_elem n' e Hs' He) as (i & -> & _). done.
  - rewrite getEdge_absent; [done..|].
    intros e He Hl. eapply getEdge_None in Hc; [by apply Hc|done|].
    by apply Hsame.
Qed.

(** The edge lists [addEdge] works on and gives, for a new label. *)
Lemma addEdge_split n e :
  sorted_edges (edges n) → (∀ e', e' ∈ edges n → label e' ≠ label e) →
  ∃ (l1 l2 : list (edge (@Node T))),
    edges n = l1 ++ l2 ∧ edges (addEdge n e) = l1 ++ e :: l2 ∧
    sort_Search (length (edges n)) (label_ge_at (edges n) (label e)) = length l1 ∧
    sorted_edges (l1 ++ e :: l2).
Proof.
  intros Hs Hfresh.
  destruct (edge_search_cases (edges n) (label e) Hs)
    as (l1 & l2 & Hes & Hidx & H1 & H2).
  exists l1, l2. split_and!; [done|by apply addEdge_edges|done|].
  assert (Forall (λ e', byte_lt (label e) (label e')) l2) as H2'.
  { destruct H2 as [->|(e2 & l2' & -> & [Heq|Hlt] & Hall)]; [done| |by constructor].
    exfalso. apply (Hfresh e2); [|done]. rewrite Hes. set_solver. }
  rewrite Hes in Hs. apply sorted_edges_app in Hs as (Hs1 & Hs2 & H12).
  apply sorted_edges_app. split_and!; [done| |].
  - by apply sorted_edges_cons.
  - intros e1 e2 He1 [->|He2]%elem_of_cons.
    + by eapply Forall_forall in H1.
    + by apply H12.
Qed.

Lemma delEdge_edges n (l : byte) :
  sorted_edges (edges n) →
  edges (delEdge n l) = filter (λ e', label e' ≠ l) (edges n) ∧
  sorted_edges (edges (delEdge n l)).
Proof.
  intros Hs.
  destruct (edge_search_cases (edges n) l Hs) as (l1 & l2 & Hes & Hidx & H1 & H2).
  assert (filter (λ e', label e' ≠ l) l1 = l1) as Hf1 by by apply filter_label_below.
  destruct H2 as [->|(e2 & l2' & -> & [Heq|Hlt] & Hall)].
  - assert (delEdge n l = n) as ->.
    { unfold delEdge. rewrite Hidx, Hes, app_nil_r. by rewrite lookup_ge_None_2. }
    split; [|done]. rewrite Hes, app_nil_r, Hf1. by rewrite app_nil_r in Hes.
  - rewrite (delEdge_edges_found n l l1 e2 l2' Hes Hidx Heq). split.
    + rewrite Hes, filter_app, Hf1, filter_cons_False by naive_solver.
      by rewrite filter_label_above.
    + rewrite Hes in Hs. apply sorted_edges_app in Hs as (Hs1 & Hs2 & H12).
      apply sorted_edges_cons in Hs2 as [Hs2 _].
      apply sorted_edges_app. split_and!; try done.
      intros e1 e3 He1 He3. apply H12; set_solver.
  - assert (delEdge n l = n) as ->.
    { unfold delEdge. rewrite Hidx, Hes, list_lookup_middle by done.
      destruct (Byte.eqb (label e2) l) eqn:Heq; [|done].
      apply byte_eqb_true in Heq. by apply byte_lt_ne in Hlt. }
    split; [|done]. rewrite Hes, filter_app, Hf1.
    by rewrite (filter_label_above l (e2 :: l2')) by by constructor.
Qed.

Lemma set_edges_same n : set_edges n (edges n) = n.
Proof. by destruct n. Qed.

Lemma set_edges_eq n n' es :
  addr n' = addr n → leaf n' = leaf n → prefix n' = prefix n → edges n' = es →
  n' = set_edges n es.
Proof. destruct n, n'. simpl. by intros -> -> -> ->. Qed.

Lemma addEdge_fields n e :
  addr (addEdge n e) = addr n ∧ leaf (addEdge n e) = leaf n ∧
  prefix (addEdge n e) = prefix n.
Proof. unfold addEdge. by case_bool_decide. Qed.

Lemma delEdge_fields n (l : byte) :
  addr (delEdge n l) = addr n ∧ leaf (delEdge n l) = leaf n ∧
  prefix (delEdge n l) = prefix n.
Proof. unfold delEdge. by repeat case_match. Qed.

(** X2. [getLowerBoundEdge]: on a sorted edge list [getLowerBoundEdge l]
    returns the first edge whose label is not below [l], with its index,
    and [(-1, nil)] exactly when every label is below [l]. *)
Theorem getLowerBoundEdge_first_not_below n (l : byte) :
  sorted_edges (edges n) →
  (∀ i c, getLowerBoundEdge n l = (Z.of_nat i, Some c) ↔
     ∃ e, edges n !! i = Some e ∧ node e = c ∧ ¬ byte_lt (label e) l ∧
          ∀ j e', j < i → edges n !! j = Some e' → byte_lt (label e') l) ∧
  (getLowerBoundEdge n l = ((-1)%Z, None) ↔
     ∀ e, e ∈ edges n → byte_lt (label e) l) ∧
  ((∃ i c, getLowerBoundEdge n l = (Z.of_nat i, Some c)) ∨
   getLowerBoundEdge n l = ((-1)%Z, None)).
Proof.
  intros Hs.
  destruct (getLowerBoundEdge_cases n l Hs) as (l1 & l2 & Hes & H1 & Hcase).
  assert (∀ e2 l2', l2 = e2 :: l2' → ¬ byte_lt (label e2) l) as Hnot.
  { intros e2 l2' ->. destruct Hcase as [[? _]|(e & k & [= <- <-] & _ & [<-|Hlt] & _)].
    - done.
    - apply byte_lt_irrefl.
    - intros Hlt'. by eapply byte_lt_irrefl, byte_lt_trans. }
  split_and!.
  - intros i c. split.
    + intros Hg. destruct Hcase as [[_ Hg']|(e & k & -> & Hg' & _ & _)];
        rewrite Hg in Hg'; [done|].
      injection Hg' as Hi ->. apply Nat2Z.inj in Hi as ->.
      exists e. split_and!; [by rewrite Hes, list_lookup_middle|done|by eapply Hnot|].
      intros j e' Hj He'. rewrite Hes, lookup_app_l in He' by done.
      eapply Forall_lookup in H1; [|done]. done.
    + intros (e & Hi & <- & Hnlt & Hbelow).
      destruct (decide (i < length l1)) as [Hlt|Hge].
      { rewrite Hes, lookup_app_l in Hi by done.
        eapply Forall_lookup in H1; [|done]. done. }
      destruct Hcase as [[-> _]|(e2 & k & -> & -> & _ & _)].
      { rewrite Hes, app_nil_r in Hi. apply lookup_lt_Some in Hi. lia. }
      destruct (decide (i = length l1)) as [->|Hne].
      { rewrite Hes, list_lookup_middle in Hi by done. by injection Hi as ->. }
      exfalso. apply (Hnot e2 k eq_refl). apply (Hbelow (length l1)); [lia|].
      by rewrite Hes, list_lookup_middle.
  - split.
    + intros Hg. destruct Hcase as [[-> _]|(e & k & -> & Hg' & _ & _)].
      * rewrite Hes, app_nil_r. by apply Forall_forall.
      * by rewrite Hg in Hg'.
    + intros Hall. destruct Hcase as [[_ ->]|(e & k & -> & _ & _ & _)]; [done|].
      exfalso. apply (Hnot e k eq_refl). apply Hall. rewrite Hes. set_solver.
  - destruct Hcase as [[_ ->]|(e & k & -> & -> & _ & _)]; [by right|left; eauto].
Qed.

(** X3. [addEdge] then [getEdge]: after adding an edge with a new label to
    a sorted list, [getEdge] finds its child at the index where it was put,
    and answers every other label as before. *)
Theorem getEdge_after_addEdge n e :
  sorted_edges (edges n) → (∀ e', e' ∈ edges n → label e' ≠ label e) →
  (∃ i, getEdge (addEdge n e) (label e) = (Z.of_nat i, Some (node e)) ∧
        edges (addEdge n e) !! i = Some e) ∧
  (∀ l : byte, l ≠ label e → (getEdge (addEdge n e) l).2 = (getEdge n l).2).
Proof.
  intros Hs Hfresh.
  destruct (addEdge_split n e Hs Hfresh) as (l1 & l2 & Hes & Hadd & _ & Hs').
  split.
  - apply getEdge_elem; rewrite Hadd; [done|set_solver].
  - intros l Hl. apply getEdge_same_child; [done|by rewrite Hadd|].
    intros e' He'. rewrite Hadd, Hes. set_solver.
Qed.

(** X4. [delEdge] then [getEdge]: after [delEdge l] on a sorted list,
    [getEdge l] finds nothing and every other label is answered as
    before. *)
Theorem getEdge_after_delEdge n (l : byte) :
  sorted_edges (edges n) →
  getEdge (delEdge n l) l = ((-1)%Z, None) ∧
  (∀ l' : byte, l' ≠ l → (getEdge (delEdge n l) l').2 = (getEdge n l').2).
Proof.
  intros Hs. destruct (delEdge_edges n l Hs) as [Hdel Hs']. split.
  - apply getEdge_absent; [done|]. intros e. rewrite Hdel, list_elem_of_filter.
    tauto.
  - intros l' Hl'. apply getEdge_same_child; [done..|].
    intros e He. rewrite Hdel, list_elem_of_filter. naive_solver.
Qed.

(** X5. [addEdge] and [delEdge] undo each other on a sorted list: deleting
    the label of an edge just added, or adding back an edge just deleted,
    gives the node as it was. *)
Theorem addEdge_delEdge_inverse n e :
  sorted_edges (edges n) →
  ((∀ e', e' ∈ edges n → label e' ≠ label e) →
     delEdge (addEdge n e) (label e) = n) ∧
  (e ∈ edges n → addEdge (delEdge n (label e)) e = n).
Proof.
  intros Hs. split.
  - intros Hfresh.
    destruct (addEdge_split n e Hs Hfresh) as (l1 & l2 & Hes & Hadd & _ & Hs').
    etrans; [|apply (set_edges_same n)].
    destruct (addEdge_fields n e) as (Ha & Hl & Hp).
    destruct (delEdge_fields (addEdge n e) (label e)) as (Ha' & Hl' & Hp').
    apply set_edges_eq; [congruence..|]. rewrite Hes.
    apply (delEdge_edges_found _ _ l1 e l2); [done| |done].
    rewrite Hadd. apply edge_search_unique with (l2 := e :: l2);
      [done..| |].
    + by apply sorted_edges_middle in Hs' as [? _].
    + apply sorted_edges_middle in Hs' as [_ ?].
      apply Forall_cons. split; [apply byte_lt_irrefl|by apply not_lt_of_gt].
  - intros (l1 & l2 & Hes)%list_elem_of_split.
    pose proof Hs as Hs'. rewrite Hes in Hs'.
    apply sorted_edges_middle in Hs' as [H1 H2].
    assert (sort_Search (length (edges n)) (label_ge_at (edges n) (label e))
            = length l1) as Hidx.
    { apply edge_search_unique with (l2 := e :: l2); [done..|].
      apply Forall_cons. split; [apply byte_lt_irrefl|by apply not_lt_of_gt]. }
    pose proof (delEdge_edges_found n (label e) l1 e l2 Hes Hidx eq_refl) as Hdel.
    etrans; [|apply (set_edges_same n)].
    destruct (delEdge_fields n (label e)) as (Ha & Hl & Hp).
    destruct (addEdge_fields (delEdge n (label e)) e) as (Ha' & Hl' & Hp').
    apply set_edges_eq; [congruence..|].
    rewrite Hes. apply addEdge_edges; [done|]. rewrite Hdel.
    apply edge_search_unique with (l2 := l2); [|done..|by apply not_lt_of_gt].
    destruct (delEdge_edges n (label e) Hs) as [_ Hsd]. by rewrite Hdel in Hsd.
Qed.

(** X6. [replaceEdge] then [getEdge]: when [replaceEdge e] returns, the
    edge list is still sorted, [getEdge] finds the new child under the
    label of [e] at the index the old child had, and every other label is
    answered as before. *)
Theorem getEdge_after_replaceEdge n e n' :
  sorted_edges (edges n) → replaceEdge n e = Returns n' →
  sorted_edges (edges n') ∧
  getEdge n' (label e) = ((getEdge n (label e)).1, Some (node e)) ∧
  (∀ l : byte, l ≠ label e → getEdge n' l = getEdge n l).
Proof.
  intros Hs Hr.
  destruct (edge_search_cases (edges n) (label e) Hs)
    as (l1 & l2 & Hes & Hidx & H1 & H2).
  unfold replaceEdge in Hr. rewrite Hidx in Hr.
  destruct (edges n !! length l1) as [e0|] eqn:He0; [|done].
  destruct (Byte.eqb (label e0) (label e)) eqn:Heq; [|done].
  apply byte_eqb_true in Heq. injection Hr as <-.
  rewrite Hes, lookup_app_r, Nat.sub_diag in He0 by lia.
  destruct l2 as [|e2 l2]; [done|]. injection He0 as ->.
  assert (edges (set_edges n (<[length l1 := mkEdge (label e0) (node e)]> (edges n)))
          = l1 ++ mkEdge (label e) (node e) :: l2) as Hes'.
  { rewrite edges_set_edges, Hes, insert_app_r_alt, Nat.sub_diag by done.
    simpl. by rewrite Heq. }
  set (n' := set_edges n _) in *.
  assert (sorted_edges (edges n')) as Hs'.
  { rewrite Hes'. rewrite Hes in Hs.
    apply sorted_edges_app in Hs as (Hs1 & Hs2 & H12).
    apply sorted_edges_cons in Hs2 as [Hs2 Hall].
    apply sorted_edges_app. split_and!; [done| |].
    - apply sorted_edges_cons. split; [done|]. simpl. by rewrite <- Heq.
    - intros x y Hx [->|Hy]%elem_of_cons.
      + simpl. rewrite <- Heq. apply H12; [done|set_solver].
      + apply H12; [done|set_solver]. }
  split_and!; [done| |].
  - pose proof (getEdge_at n' l1 (mkEdge (label e) (node e)) l2 Hs' Hes') as Hg'.
    pose proof (getEdge_at n l1 e0 l2 Hs Hes) as Hg. rewrite Heq in Hg.
    simpl in Hg'. by rewrite Hg', Hg.
  - intros l Hl.
    destruct ((getEdge n l).2) as [c|] eqn:Hc.
    + apply getEdge_Some in Hc as (x & Hx & <- & <-).
      apply list_elem_of_lookup_1 in Hx as [i Hi].
      rewrite (getEdge_lookup n i x Hs Hi).
      apply getEdge_lookup; [done|].
      unfold n'. rewrite edges_set_edges, list_lookup_insert_ne; [done|].
      intros <-. rewrite Hes, list_lookup_middle in Hi by done.
      injection Hi as ->. congruence.
    + assert (∀ x, x ∈ edges n → label x ≠ l) as Hno by by apply getEdge_None.
      rewrite (getEdge_absent n l Hs Hno). apply getEdge_absent; [done|].
      intros x. rewrite Hes'. intros Hx Hlx.
      apply elem_of_app in Hx as [Hx|[->|Hx]%elem_of_cons].
      * apply (Hno x); [rewrite Hes; set_solver|done].
      * done.
      * apply (Hno x); [rewrite Hes; set_solver|done].
Qed.

(** X7. [addEdge] does not look for the label: adding an edge whose label
    is already in the sorted list puts it right before the edge that has
    the label, and the list no longer ascends strictly. *)
Theorem addEdge_keeps_duplicate n e e' :
  sorted_edges (edges n) → e' ∈ edges n → label e' = label e →
  ∃ (l1 l2 : list (edge (@Node T))),
    edges n = l1 ++ e' :: l2 ∧
    edges (addEdge n e) = l1 ++ e :: e' :: l2 ∧
    ¬ sorted_edges (edges (addEdge n e)).
Proof.
  intros Hs (l1 & l2 & Hes)%list_elem_of_split Hl.
  pose proof Hs as Hs'. rewrite Hes in Hs'.
  apply sorted_edges_middle in Hs' as [H1 H2].
  assert (sort_Search (length (edges n)) (label_ge_at (edges n) (label e))
          = length l1) as Hidx.
  { rewrite <- Hl. apply edge_search_unique with (l2 := e' :: l2); [done..|].
    apply Forall_cons. split; [apply byte_lt_irrefl|by apply not_lt_of_gt]. }
  exists l1, l2. split; [done|].
  rewrite (addEdge_edges n e l1 (e' :: l2) Hes Hidx). split; [done|].
  intros (_ & Hbad & _)%sorted_edges_app.
  apply sorted_edges_cons in Hbad as [_ Hbad].
  apply Forall_cons in Hbad as [Hbad _]. rewrite Hl in Hbad.
  by apply byte_lt_irrefl in Hbad.
Qed.

End EdgeMap.

(** ** Walks that are stopped, and walks under a prefix *)

Lemma List_filter_fmap {A B} (g : A → B) (f : B → bool) (l : list A) :
  List.filter f (g <$> l) = g <$> List.filter (λ x, f (g x)) l.
Proof.
  induction l as [|x l IH]; [done|]. rewrite fmap_cons. cbn [List.filter].
  rewrite IH. by destruct (f (g x)).
Qed.

Lemma List_filter_flat_map {A B} (g : A → list B) (f : B → bool) (l : list A) :
  List.filter f (flat_map g l) = flat_map (λ x, List.filter f (g x)) l.
Proof.
  induction l as [|x l IH]; [done|]. simpl. by rewrite List.filter_app, IH.
Qed.

Lemma flat_map_nil {A B} (g : A → list B) (l : list A) :
  (∀ x, x ∈ l → g x = []) → flat_map g l = [].
Proof.
  induction l as [|x l IH]; [done|]. intros H. simpl.
  rewrite H, IH; [done| |]; set_solver.
Qed.

Lemma flat_map_only {A B} (g : A → list B) (l : list A) x :
  x ∈ l → (∀ y, y ∈ l → y ≠ x → g y = []) → NoDup l → flat_map g l = g x.
Proof.
  intros (l1 & l2 & ->)%list_elem_of_split Hnil Hnd.
  apply NoDup_app in Hnd as (_ & Hx & [Hx2 _]%NoDup_cons).
  rewrite flat_map_app. simpl.
  rewrite !flat_map_nil, app_nil_r; [done| |].
  - intros y Hy. apply Hnil; [set_solver|]. intros ->. done.
  - intros y Hy. apply Hnil; [set_solver|]. intros ->. by apply (Hx x); set_solver.
Qed.

Section Walks.
Context {T : Type}.
Implicit Types (n t : @Node T) (fn : @WalkFn T) (e : edge (@Node T)).
Implicit Types (kvs : list (list byte * T)).

Lemma visit_until_app fn kvs kvs' :
  visit_until fn (kvs ++ kvs') =
    let '(tr, stop) := visit_until fn kvs in
    if stop then (tr, true)
    else let '(tr', stop') := visit_until fn kvs' in (tr ++ tr', stop').
Proof.
  induction kvs as [|kv kvs IH]; simpl.
  - by destruct (visit_until fn kvs').
  - destruct (fn kv.1 kv.2); [done|]. rewrite IH.
    destruct (visit_until fn kvs) as [tr [|]]; [done|].
    by destruct (visit_until fn kvs').
Qed.

Lemma visit_until_never kvs : visit_until (@never_stop T) kvs = (kvs, false).
Proof. induction kvs as [|kv kvs IH]; [done|]. simpl. by rewrite IH. Qed.

Lemma recursiveWalk_visit n fn :
  recursiveWalk n fn = visit_until fn (pair_of <$> leaves n).
Proof.
  induction n as [a lf p es IH] using Node_ind'. simpl.
  assert ((fix range (es : list (edge Node)) : list (list byte * T) * bool :=
             match es with
             | [] => ([], false)
             | e :: es' =>
                 let '(tr, stop) := recursiveWalk (node e) fn in
                 if stop then (tr, true)
                 else let '(tr', stop') := range es' in (tr ++ tr', stop')
             end) es
          = visit_until fn (pair_of <$> flat_map (λ e, leaves (node e)) es)) as ->.
  { induction IH as [|e es He _ IHes]; [done|].
    rewrite He, IHes. simpl. by rewrite fmap_app, visit_until_app. }
  rewrite fmap_app. destruct lf as [l|]; simpl; [|done].
  destruct (fn (key l) (val l)); [done|].
  by destruct (visit_until fn _).
Qed.

Lemma reverseRecursiveWalk_visit n fn :
  reverseRecursiveWalk n fn =
    visit_until fn (reverseRecursiveWalk n never_stop).1.
Proof.
  induction n as [a lf p es IH] using Node_ind'.
  rewrite (reverseRecursiveWalk_never (mkNode a lf p es)). simpl.
  assert ((fix range (es : list (edge Node)) : list (list byte * T) * bool :=
             match es with
             | [] => ([], false)
             | e :: es' =>
                 let '(tr', stop') := range es' in
                 if stop' then (tr', true)
                 else let '(tr, stop) := reverseRecursiveWalk (node e) fn in
                      (tr' ++ tr, stop)
             end) es
          = visit_until fn
              (concat (reverse ((λ e, (reverseRecursiveWalk (node e) never_stop).1)
                                  <$> es)))) as ->.
  { induction IH as [|e es He _ IHes]; [done|].
    rewrite IHes, He, fmap_cons, reverse_cons, concat_app, visit_until_app.
    simpl. rewrite app_nil_r. by destruct (visit_until fn (concat _)) as [? [|]]. }
  destruct lf as [l|]; simpl; [|done].
  destruct (fn (key l) (val l)); [done|].
  by destruct (visit_until fn _).
Qed.

(** X8. A walk that is stopped: [Walk] and [WalkBackwards] call the
    callback on the pairs they would visit if never stopped, in that order,
    up to and including the first pair on which it returns [true], and on
    nothing after it; [recursiveWalk] and [reverseRecursiveWalk] return
    whether it did. *)
Theorem walks_stop_at_first_true n fn :
  recursiveWalk n fn = visit_until fn (Walk n never_stop) ∧
  reverseRecursiveWalk n fn = visit_until fn (WalkBackwards n never_stop) ∧
  (∀ kv, kv ∈ Walk n fn → kv ∈ Walk n never_stop) ∧
  (∀ visited kv later,
     Walk n never_stop = visited ++ kv :: later →
     Forall (λ kv', fn kv'.1 kv'.2 = false) visited → fn kv.1 kv.2 = true →
     recursiveWalk n fn = (visited ++ [kv], true)) ∧
  (Forall (λ kv', fn kv'.1 kv'.2 = false) (Walk n never_stop) →
     recursiveWalk n fn = (Walk n never_stop, false)).
Proof.
  assert (∀ kvs, Forall (λ kv', fn kv'.1 kv'.2 = false) kvs →
                 visit_until fn kvs = (kvs, false)) as Hnone.
  { induction 1 as [|kv kvs Hkv _ IH]; [done|]. simpl. by rewrite Hkv, IH. }
  assert (Walk n never_stop = pair_of <$> leaves n) as HW
    by (unfold Walk; by rewrite recursiveWalk_never).
  split_and!.
  - by rewrite HW, recursiveWalk_visit.
  - apply reverseRecursiveWalk_visit.
  - unfold Walk at 1. rewrite recursiveWalk_visit, <- HW.
    generalize (Walk n never_stop). intros kvs kv.
    induction kvs as [|kv' kvs IH]; simpl; [done|].
    destruct (fn kv'.1 kv'.2); simpl; [set_solver|].
    destruct (visit_until fn kvs) as [tr stop]. simpl in *. set_solver.
  - intros visited kv later Heq Hvis Hkv.
    rewrite recursiveWalk_visit, <- HW, Heq, visit_until_app, (Hnone _ Hvis).
    simpl. by rewrite Hkv.
  - intros Hall. by rewrite recursiveWalk_visit, <- HW, Hnone.
Qed.

End Walks.

Section PrefixSeek.
Context {T : Type} (zero : T).
Implicit Types (n t m : @Node T) (fn : @WalkFn T) (e : edge (@Node T)).
Implicit Types (path search p k : list byte).

Lemma bytes_HasPrefix_prefix_of k p :
  bytes_HasPrefix k p = true ↔ p `prefix_of` k.
Proof. rewrite bytes_HasPrefix_spec. done. Qed.

Lemma sorted_edges_NoDup (es : list (edge (@Node T))) : sorted_edges es → NoDup es.
Proof.
  induction 1 as [|e es _ IH Hall]; constructor; [|done].
  intros He. eapply Forall_forall in Hall; [|done]. by apply byte_lt_irrefl in Hall.
Qed.

Lemma WalkPrefix_loop_seek fuel n search fn :
  WalkPrefix_loop fuel n search fn =
    match SeekPrefixWatch_loop fuel n search with
    | Some m => (recursiveWalk m fn).1
    | None => []
    end.
Proof.
  revert n search. induction fuel as [|fuel IH]; intros n search; [done|].
  simpl. destruct search as [|b s]; [done|].
  destruct ((getEdge n b).2) as [c|]; [|done].
  destruct (bytes_HasPrefix (b :: s) (prefix c)); [apply IH|].
  by destruct (bytes_HasPrefix (prefix c) (b :: s)).
Qed.

Lemma subnode_size m n : subnode m n → size m ≤ size n.
Proof.
  induction 1 as [|m n e He _ IH]; [done|].
  rewrite (size_unfold n). apply list_elem_of_split in He as (l1 & l2 & ->).
  rewrite foldr_app. simpl.
  assert (∀ (l : list (edge (@Node T))) x,
            x ≤ foldr (λ e acc, size (node e) + acc) x l) as Hmono.
  { induction l as [|y l IHl]; simpl; [done|]. intros x. specialize (IHl x). lia. }
  pose proof (Hmono l1 (size (node e) + foldr (λ e acc, size (node e) + acc) 0 l2)). lia.
Qed.

Lemma subnode_distinct m n : subnode m n → distinct_nodes n → distinct_nodes m.
Proof.
  unfold distinct_nodes. induction 1 as [|m n e He _ IH]; [done|].
  rewrite (addrs_unfold n). intros [_ Hnd]%NoDup_cons. apply IH.
  apply list_elem_of_split in He as (l1 & l2 & Hes).
  rewrite Hes, flat_map_app in Hnd. simpl in Hnd.
  by apply NoDup_app in Hnd as (_ & _ & (Hnd & _ & _)%NoDup_app).
Qed.

Lemma subnode_leaves m n l : subnode m n → l ∈ leaves m → l ∈ leaves n.
Proof.
  induction 1 as [|m n e He _ IH]; [done|]. intros Hl.
  apply elem_of_leaves. right. eauto.
Qed.

(** What the loop of [SeekPrefixWatch] finds: the node whose leaves are the
    leaves of the tree whose key starts with the prefix sought. *)
Lemma SeekPrefixWatch_loop_spec fuel path n search :
  wf_node path n → height n ≤ fuel →
  match SeekPrefixWatch_loop fuel n search with
  | Some m =>
      subnode m n ∧
      List.filter (λ l, bytes_HasPrefix (key l) (path ++ search)) (leaves n) = leaves m
  | None =>
      List.filter (λ l, bytes_HasPrefix (key l) (path ++ search)) (leaves n) = []
  end.
Proof.
  revert path n search. induction fuel as [|fuel IH]; intros path n search Hwf Hfuel.
  { pose proof (height_pos n). lia. }
  cbn [SeekPrefixWatch_loop]. destruct search as [|b s].
  { split; [constructor|]. apply filter_all. intros l Hl.
    apply bytes_HasPrefix_spec. rewrite app_nil_r. by eapply leaves_path. }
  (* no key of another child, and not the key of the node, starts with the
     prefix *)
  assert (∀ e l, e ∈ edges n → label e ≠ b → l ∈ leaves (node e) →
                 bytes_HasPrefix (key l) (path ++ b :: s) = false) as Hother.
  { intros e l He Hb Hl. apply not_true_is_false.
    intros [r Hr]%bytes_HasPrefix_spec.
    destruct (leaves_child_path path n e l Hwf He Hl) as [r' Hr'].
    rewrite Hr', <- app_assoc in Hr. apply app_inv_head in Hr.
    simpl in Hr. congruence. }
  assert (List.filter (λ l, bytes_HasPrefix (key l) (path ++ b :: s))
            (option_list (leaf n)) = []) as Hown.
  { destruct (leaf n) as [l|] eqn:Hl; [|done]. simpl.
    rewrite (wf_node_leaf path n l Hwf Hl).
    destruct (bytes_HasPrefix path (path ++ b :: s)) eqn:Hp; [|done].
    apply bytes_HasPrefix_spec in Hp as [r Hr].
    apply (f_equal length) in Hr. rewrite !length_app in Hr. simpl in Hr. lia. }
  rewrite (leaves_unfold n), List.filter_app, Hown, List_filter_flat_map, app_nil_l.
  destruct ((getEdge n b).2) as [c|] eqn:Hc.
  2:{ apply flat_map_nil. intros e He. apply filter_none. intros l Hl.
      eapply Hother; [done| |done]. by eapply getEdge_None; [eapply wf_node_sorted|..]. }
  apply getEdge_Some in Hc as (e & He & <- & <-).
  rewrite (flat_map_only _ (edges n) e He).
  2:{ intros e' He' Hne. apply filter_none. intros l Hl.
      eapply Hother; [done| |done]. intros Heq. apply Hne.
      eapply sorted_edges_label_inj; [by eapply wf_node_sorted|done..]. }
  2:{ by eapply sorted_edges_NoDup, wf_node_sorted. }
  destruct (wf_node_child path n e Hwf He) as [[rest Hrest] Hwfc].
  pose proof (height_child n e He) as Hh.
  destruct (bytes_HasPrefix (label e :: s) (prefix (node e))) eqn:Hp1.
  - apply bytes_HasPrefix_spec in Hp1 as [r Hr]. rewrite Hr.
    rewrite drop_app_length.
    specialize (IH (path ++ prefix (node e)) (node e) r Hwfc ltac:(lia)).
    rewrite <- app_assoc in IH.
    destruct (SeekPrefixWatch_loop fuel (node e) r) as [m|]; [|done].
    destruct IH as [Hsub IH]. split; [|done]. by econstructor.
  - destruct (bytes_HasPrefix (prefix (node e)) (label e :: s)) eqn:Hp2.
    + split; [econstructor; [done|constructor]|].
      apply filter_all. intros l Hl. apply bytes_HasPrefix_spec.
      apply bytes_HasPrefix_spec in Hp2 as [r Hr].
      destruct (leaves_path _ _ l Hwfc Hl) as [r' Hr'].
      exists (r ++ r'). rewrite Hr', Hr, <- !app_assoc. done.
    + apply filter_none. intros l Hl. apply not_true_is_false.
      intros [r Hr]%bytes_HasPrefix_spec.
      destruct (leaves_path _ _ l Hwfc Hl) as [r' Hr'].
      rewrite Hr', <- !app_assoc in Hr. apply app_inv_head in Hr.
      destruct (prefix_weak_total (prefix (node e)) (label e :: s)
                  (prefix (node e) ++ r')) as [Hpre|Hpre].
      * by apply prefix_app_r.
      * rewrite Hr. by apply prefix_app_r.
      * apply bytes_HasPrefix_prefix_of in Hpre. congruence.
      * apply bytes_HasPrefix_prefix_of in Hpre. congruence.
Qed.

Lemma under_prefix_leaves p (ls : list (@leafNode T)) :
  under_prefix p (pair_of <$> ls)
  = pair_of <$> List.filter (λ l, bytes_HasPrefix (key l) p) ls.
Proof. unfold under_prefix. by rewrite List_filter_fmap. Qed.

Lemma Walk_leaves n : Walk n never_stop = pair_of <$> leaves n.
Proof. unfold Walk. by rewrite recursiveWalk_never. Qed.

(** The pairs under a prefix: those of the tree whose key starts with it,
    by ascending key. *)
Lemma under_prefix_spec t p :
  wf_node [] t →
  (∀ k v, (k, v) ∈ under_prefix p (Walk t never_stop) ↔
          has_leaf t k v ∧ p `prefix_of` k) ∧
  StronglySorted key_lt ((under_prefix p (Walk t never_stop)).*1).
Proof.
  intros Hwf. rewrite Walk_leaves, under_prefix_leaves. split.
  - intros k v. rewrite (elem_of_pair_leaves t), has_leaf_leaves. split.
    + intros (l & (Hl & Hp)%elem_of_List_filter & <- & <-).
      split; [eauto|]. by apply bytes_HasPrefix_prefix_of.
    + intros [(l & Hl & <- & <-) Hp]. exists l. split; [|done].
      apply elem_of_List_filter. split; [done|].
      by apply bytes_HasPrefix_prefix_of.
  - rewrite fst_pair_leaves. apply StronglySorted_fmap_filter.
    by eapply leaves_sorted.
Qed.

Lemma seek_result_leaves t p :
  wf_node [] t →
  match SeekPrefixWatch_loop (height t) t p with
  | Some m => subnode m t ∧ pair_of <$> leaves m = under_prefix p (Walk t never_stop)
  | None => under_prefix p (Walk t never_stop) = []
  end.
Proof.
  intros Hwf. rewrite Walk_leaves, under_prefix_leaves.
  pose proof (SeekPrefixWatch_loop_spec (height t) [] t p Hwf (le_n _)) as H.
  simpl in H. destruct (SeekPrefixWatch_loop (height t) t p) as [m|].
  - destruct H as [Hsub ->]. done.
  - by rewrite H.
Qed.

(** X9. [WalkPrefix]: on a tree that satisfies the invariants,
    [WalkPrefix p] walks exactly the pairs of [Walk] whose key starts with
    [p], by ascending key, and is stopped by its callback as [Walk] is. *)
Theorem WalkPrefix_visits_keys_under_prefix t p fn :
  wf_node [] t →
  WalkPrefix t p fn = (visit_until fn (under_prefix p (Walk t never_stop))).1 ∧
  WalkPrefix t p never_stop = under_prefix p (Walk t never_stop) ∧
  (∀ k v, (k, v) ∈ WalkPrefix t p never_stop ↔ has_leaf t k v ∧ p `prefix_of` k) ∧
  StronglySorted key_lt ((WalkPrefix t p never_stop).*1) ∧
  WalkPrefix t [] fn = Walk t fn.
Proof.
  intros Hwf.
  assert (∀ fn, WalkPrefix t p fn
                = (visit_until fn (under_prefix p (Walk t never_stop))).1) as Hfn.
  { intros fn'. unfold WalkPrefix. rewrite WalkPrefix_loop_seek.
    pose proof (seek_result_leaves t p Hwf) as H.
    destruct (SeekPrefixWatch_loop (height t) t p) as [m|].
    - destruct H as [_ <-]. by rewrite recursiveWalk_visit.
    - by rewrite H. }
  assert (WalkPrefix t p never_stop = under_prefix p (Walk t never_stop)) as Hnever
    by by rewrite Hfn, visit_until_never.
  destruct (under_prefix_spec t p Hwf) as [Hmem Hsorted].
  split_and!; [done|done|by rewrite Hnever|by rewrite Hnever|].
  unfold WalkPrefix, Walk. pose proof (height_pos t).
  destruct (height t); [lia|done].
Qed.

(** X10. [SeekPrefix] then [Next]: on a tree that satisfies the invariants,
    [SeekPrefix p] on a fresh iterator followed by [Next] until it reports
    [false] returns exactly the pairs whose key starts with [p], by
    ascending key: what [WalkPrefix p] visits. *)
Theorem SeekPrefix_then_Next t p :
  wf_node [] t →
  ∃ i out,
    SeekPrefix (mkIterator (Some t) None) p = Returns i ∧
    (∀ calls, size t < calls → drain zero calls i = (out, true)) ∧
    out = WalkPrefix t p never_stop ∧
    (∀ k v, (k, v) ∈ out ↔ has_leaf t k v ∧ p `prefix_of` k) ∧
    StronglySorted key_lt (out.*1).
Proof.
  intros Hwf. unfold SeekPrefix. simpl.
  exists (mkIterator (SeekPrefixWatch_loop (height t) t p) None),
         (under_prefix p (Walk t never_stop)).
  destruct (under_prefix_spec t p Hwf) as [Hmem Hsorted].
  split_and!; [done| | |done|done].
  - intros calls Hcalls. pose proof (seek_result_leaves t p Hwf) as H.
    destruct (SeekPrefixWatch_loop (height t) t p) as [m|].
    + destruct H as [Hsub <-]. apply drain_fresh.
      apply subnode_size in Hsub. lia.
    + rewrite H. destruct calls as [|calls]; [lia|]. done.
  - unfold WalkPrefix. rewrite WalkPrefix_loop_seek.
    pose proof (seek_result_leaves t p Hwf) as H.
    destruct (SeekPrefixWatch_loop (height t) t p) as [m|].
    + destruct H as [_ <-]. by rewrite recursiveWalk_never.
    + done.
Qed.

End PrefixSeek.

(** ** More on the iterators *)
Section Iterators.
Context {T : Type} (zero : T).
Implicit Types (n t m : @Node T) (e : edge (@Node T)).
Implicit Types (path search p k : list byte).
Implicit Types (i : @Iterator T) (ri : @ReverseIterator T).

Lemma drain_take calls i :
  started i → slices_nonempty (stack_of i) →
  drain zero calls i =
    (pair_of <$> take calls (stack_leaves (stack_of i)),
     bool_decide (length (stack_leaves (stack_of i)) < calls)).
Proof.
  revert i. induction calls as [|calls IH]; intros i Hs Hne.
  { cbn [drain rdrain]. rewrite take_0. by f_equal. }
  cbn [drain]. rewrite Next_started by done.
  destruct (Next_loop_spec zero (S (stack_weight (stack_of i))) i)
    as (i' & -> & Hl & Hne' & _ & Hs'); [lia|done|].
  destruct (stack_leaves (stack_of i)) as [|l ls]; simpl in *.
  { by f_equal. }
  rewrite IH by auto. rewrite Hl. f_equal.
  apply bool_decide_ext. lia.
Qed.

Lemma rdrain_take calls ri :
  started (ri_i ri) →
  rstack_inv (expanded_of ri) (rstack_of ri) →
  rdrain zero calls ri =
    (pair_of <$> take calls (rstack_leaves (expanded_of ri) (rstack_of ri)),
     bool_decide (length (rstack_leaves (expanded_of ri) (rstack_of ri)) < calls)).
Proof.
  revert ri. induction calls as [|calls IH]; intros ri Hs Hinv.
  { cbn [drain rdrain]. rewrite take_0. by f_equal. }
  cbn [rdrain]. rewrite Previous_started by done.
  destruct (Previous_loop_spec zero (S (2 * stack_weight (rstack_of ri)))
              (mkReverseIterator (ri_i ri) (Some (expanded_of ri))))
    as (ri' & -> & Hl & Hinv' & _ & Hs').
  { rewrite expanded_of_Some.
    pose proof (rweight_le (expanded_of ri) (rstack_of ri)).
    change (rstack_of (mkReverseIterator (ri_i ri) (Some (expanded_of ri))))
      with (rstack_of ri). lia. }
  { done. }
  change (rstack_of (mkReverseIterator (ri_i ri) (Some (expanded_of ri))))
    with (rstack_of ri) in *.
  rewrite expanded_of_Some in *.
  destruct (rstack_leaves (expanded_of ri) (rstack_of ri)) as [|l ls];
    simpl in *.
  { by f_equal. }
  rewrite IH by auto. rewrite Hl. f_equal.
  apply bool_decide_ext. lia.
Qed.

Lemma Previous_fresh m :
  Previous zero (mkReverseIterator (mkIterator (Some m) None) None) =
  Previous zero (mkReverseIterator (mkIterator (Some m) (Some [[m]])) None).
Proof. done. Qed.

Lemma rdrain_fresh calls m :
  distinct_nodes m → size m < calls →
  rdrain zero calls (mkReverseIterator (mkIterator (Some m) None) None)
  = (reverse (pair_of <$> leaves m), true).
Proof.
  intros Hd Hc.
  assert (rdrain zero calls (mkReverseIterator (mkIterator (Some m) None) None)
          = rdrain zero calls
              (mkReverseIterator (mkIterator (Some m) (Some [[m]])) None)) as ->.
  { destruct calls; [done|]. cbn [rdrain]. by rewrite Previous_fresh. }
  assert (rstack_leaves ∅ [[m]] = reverse (leaves m)) as Hl.
  { unfold rstack_leaves, entry_leaves. simpl.
    rewrite decide_False by set_solver. by rewrite app_nil_r. }
  rewrite rdrain_spec.
  - unfold rstack_of, stack_of, expanded_of. simpl. by rewrite Hl, fmap_reverse.
  - right. done.
  - unfold rstack_of, stack_of, expanded_of. simpl. split_and!.
    + by repeat constructor.
    + simpl. unfold entry_addrs. rewrite decide_False by set_solver.
      by rewrite app_nil_r.
    + set_solver.
  - unfold rstack_of, stack_of, expanded_of. simpl. rewrite Hl, length_reverse.
    pose proof (length_leaves_size m). lia.
Qed.

(** X11. A fresh reverse iterator, call by call: when the nodes of the
    tree are distinct, [calls] calls of [Previous] return the first [calls]
    pairs of the exact reverse of [Walk], one pair per call, and the last
    of them reports [false] exactly when [calls] exceeds the number of
    pairs; on a valid tree the keys descend strictly. *)
Theorem fresh_reverse_iteration_descending t :
  distinct_nodes t →
  (∀ calls,
     rdrain zero calls (NewReverseIterator t)
     = (take calls (reverse (Walk t never_stop)),
        bool_decide (length (Walk t never_stop) < calls))) ∧
  (valid_tree t →
     StronglySorted (flip key_lt) ((reverse (Walk t never_stop)).*1)).
Proof.
  intros Hd. rewrite Walk_leaves. split.
  - intros calls.
    assert (rdrain zero calls (NewReverseIterator t)
            = rdrain zero calls
                (mkReverseIterator (mkIterator (Some t) (Some [[t]])) None)) as ->.
    { destruct calls; [done|]. cbn [rdrain]. unfold NewReverseIterator.
      by rewrite Previous_fresh. }
    assert (rstack_leaves ∅ [[t]] = reverse (leaves t)) as Hl.
    { unfold rstack_leaves, entry_leaves. simpl.
      rewrite decide_False by set_solver. by rewrite app_nil_r. }
    rewrite rdrain_take.
    + unfold rstack_of, stack_of, expanded_of. simpl.
      by rewrite Hl, fmap_take, fmap_reverse, length_reverse, length_fmap.
    + by right.
    + unfold rstack_of, stack_of, expanded_of. simpl. split_and!.
      * by repeat constructor.
      * simpl. unfold entry_addrs. rewrite decide_False by set_solver.
        by rewrite app_nil_r.
      * set_solver.
  - intros [_ Hwf]. rewrite fmap_reverse, fst_pair_leaves.
    apply StronglySorted_reverse_flip. by eapply leaves_sorted.
Qed.

(** X12. [ReverseIterator.SeekPrefix] then [Previous]: on a fresh reverse
    iterator over a tree that satisfies the invariants and has distinct
    nodes, it returns exactly the pairs whose key starts with [p], by
    descending key: the reverse of what [WalkPrefix p] visits. *)
Theorem ReverseIterator_SeekPrefix_then_Previous t p :
  wf_node [] t → distinct_nodes t →
  ∃ ri out,
    ReverseIterator_SeekPrefix (NewReverseIterator t) p = Returns ri ∧
    (∀ calls, size t < calls → rdrain zero calls ri = (out, true)) ∧
    out = reverse (WalkPrefix t p never_stop) ∧
    (∀ k v, (k, v) ∈ out ↔ has_leaf t k v ∧ p `prefix_of` k) ∧
    StronglySorted (flip key_lt) (out.*1).
Proof.
  intros Hwf Hd. unfold ReverseIterator_SeekPrefix, SeekPrefix. simpl.
  exists (mkReverseIterator (mkIterator (SeekPrefixWatch_loop (height t) t p) None) None),
         (reverse (under_prefix p (Walk t never_stop))).
  destruct (under_prefix_spec t p Hwf) as [Hmem Hsorted].
  pose proof (seek_result_leaves t p Hwf) as H.
  split_and!; [done| | | |].
  - intros calls Hcalls.
    destruct (SeekPrefixWatch_loop (height t) t p) as [m|].
    + destruct H as [Hsub <-]. apply rdrain_fresh.
      * by eapply subnode_distinct.
      * apply subnode_size in Hsub. lia.
    + rewrite H. destruct calls as [|calls]; [lia|]. done.
  - unfold WalkPrefix. rewrite WalkPrefix_loop_seek.
    destruct (SeekPrefixWatch_loop (height t) t p) as [m|].
    + destruct H as [_ <-]. by rewrite recursiveWalk_never.
    + by rewrite H.
  - intros k v. rewrite elem_of_reverse. apply Hmem.
  - rewrite fmap_reverse. by apply StronglySorted_reverse_flip.
Qed.

(** *** An exhausted iterator stays exhausted *)

Lemma Next_loop_false fuel i i' k v :
  Next_loop zero fuel i = Returns (i', (k, v, false)) →
  k = [] ∧ v = zero ∧ stack_of i' = [] ∧ (i' = i ∨ is_Some (i_stack i')).
Proof.
  revert i. induction fuel as [|fuel IH]; intros i; [done|]. simpl.
  destruct (last (default [] (i_stack i))) as [lst|] eqn:Hlast.
  2:{ intros [= <- <- <-]. apply last_None in Hlast. split_and!; try done. by left. }
  destruct lst as [|elem rest]; [done|].
  destruct (leaf elem); [done|].
  intros H. apply IH in H as (-> & -> & Hst & [->|Hs]); split_and!; try done.
  all: right; done.
Qed.

Lemma Next_input_started i :
  started (match i_stack i, i_node i with
           | None, Some n => mkIterator (i_node i) (stack_append (i_stack i) [n])
           | _, _ => i
           end).
Proof.
  unfold started. destruct i as [[n|] [st|]]; simpl; eauto.
Qed.

(** X13. Once [Next] has reported [false] it reports [false] on every
    later call, with the iterator left as it is: the iteration does not
    start over. *)
Theorem Next_stays_exhausted i i' k v :
  Next zero i = Returns (i', (k, v, false)) →
  (k, v) = ([], zero) ∧
  Next zero i' = Returns (i', ([], zero, false)) ∧
  ∀ calls, 0 < calls → drain zero calls i' = ([], true).
Proof.
  intros H. unfold Next in H.
  pose proof (Next_input_started i) as Hst.
  apply Next_loop_false in H as (-> & -> & Hempty & Hi').
  assert (started i') as Hst'.
  { destruct Hi' as [->|?]; [done|by right]. }
  assert (Next zero i' = Returns (i', ([], zero, false))) as HN.
  { rewrite Next_started by done. by apply Next_loop_empty. }
  split_and!; [done..|]. intros [|calls] Hc; [lia|]. simpl. by rewrite HN.
Qed.

Lemma Previous_loop_false fuel ri ri' k v :
  Previous_loop zero fuel ri = Returns (ri', (k, v, false)) →
  k = [] ∧ v = zero ∧ rstack_of ri' = [] ∧
  (ri' = ri ∨ (is_Some (i_stack (ri_i ri')) ∧ is_Some (expandedParents ri'))).
Proof.
  revert ri. induction fuel as [|fuel IH]; intros ri; [done|]. simpl.
  destruct (last (default [] (i_stack (ri_i ri)))) as [top|] eqn:Hlast.
  2:{ intros [= <- <- <-]. apply last_None in Hlast. split_and!; try done. by left. }
  destruct (last top) as [elem|]; [|done].
  destruct (_ && _).
  - intros H. apply IH in H as (-> & -> & Hst & [->|Hs]); split_and!; try done.
    all: right; done.
  - destruct (leaf elem); [done|].
    intros H. apply IH in H as (-> & -> & Hst & [->|Hs]); split_and!; try done.
    all: right; done.
Qed.

(** X14. Once [Previous] has reported [false] it reports [false] on every
    later call, with the iterator left as it is. *)
Theorem Previous_stays_exhausted ri ri' k v :
  Previous zero ri = Returns (ri', (k, v, false)) →
  (k, v) = ([], zero) ∧
  Previous zero ri' = Returns (ri', ([], zero, false)) ∧
  ∀ calls, 0 < calls → rdrain zero calls ri' = ([], true).
Proof.
  intros H. unfold Previous in H.
  pose proof (Next_input_started (ri_i ri)) as Hst.
  apply Previous_loop_false in H as (-> & -> & Hempty & Hri').
  assert (started (ri_i ri') ∧ is_Some (expandedParents ri')) as [Hst' [E HE]].
  { destruct Hri' as [->|[? ?]]; [|split; [by right|done]]. simpl. split.
    - destruct ri as [[[n|] [st|]] oE]; simpl in *; unfold started; simpl; eauto.
    - destruct (expandedParents ri); eauto. }
  assert (Previous zero ri' = Returns (ri', ([], zero, false))) as HP.
  { rewrite Previous_started by done.
    rewrite Previous_loop_empty by exact Hempty.
    destruct ri' as [i' oE]. cbn in HE. by subst oE. }
  split_and!; [done..|]. intros [|calls] Hc; [lia|]. simpl. by rewrite HP.
Qed.

End Iterators.

Lemma key_le_antisym x y : key_le x y → key_le y x → x = y.
Proof.
  intros [->|Hxy] [Heq|Hyx]; try done. by apply key_lt_asym in Hxy.
Qed.

Lemma key_le_lt_total x y : key_le x y ∨ key_lt y x.
Proof.
  destruct (key_trichotomy x y) as [?|[->|?]]; [left; by right|left; by left|by right].
Qed.

Lemma key_lt_not_le x y : key_lt x y → ¬ key_le y x.
Proof.
  intros Hlt [->|Hlt']; [by apply key_lt_irrefl in Hlt|by apply key_lt_asym in Hlt].
Qed.

Section Compositions.
Context {T : Type} (zero : T).
Implicit Types (n t m : @Node T) (e : edge (@Node T)).
Implicit Types (path search p k : list byte).
Implicit Types (i : @Iterator T) (ri : @ReverseIterator T).

(** In a tree that satisfies the invariants a key has one leaf. *)
Lemma leaves_key_inj path n (l l' : @leafNode T) :
  wf_node path n → l ∈ leaves n → l' ∈ leaves n → key l = key l' → l = l'.
Proof.
  intros Hwf. pose proof (leaves_sorted path n Hwf) as Hs.
  induction (leaves n) as [|x ls IH]; [set_solver|].
  rewrite fmap_cons in Hs. apply StronglySorted_inv in Hs as [Hs Hall].
  intros [->|Hl]%elem_of_cons [->|Hl']%elem_of_cons Hk; [done| | |by apply IH].
  - eapply Forall_forall in Hall; [|by apply list_elem_of_fmap_2].
    rewrite Hk in Hall. by apply key_lt_irrefl in Hall.
  - eapply Forall_forall in Hall; [|by apply list_elem_of_fmap_2].
    rewrite Hk in Hall. by apply key_lt_irrefl in Hall.
Qed.

Lemma has_leaf_val_inj path n k v v' :
  wf_node path n → has_leaf n k v → has_leaf n k v' → v = v'.
Proof.
  intros Hwf (l & Hl & <- & <-)%has_leaf_leaves (l' & Hl' & Hk & <-)%has_leaf_leaves.
  by rewrite (leaves_key_inj path n l' l Hwf Hl' Hl Hk).
Qed.

(** The head of the leaves selected by a bound, in a sorted list. *)
Lemma head_filter_least path n (f : @leafNode T → bool) :
  wf_node path n →
  match head (List.filter f (leaves n)) with
  | Some l => l ∈ leaves n ∧ f l = true ∧
              ∀ l', l' ∈ leaves n → f l' = true → key_le (key l) (key l')
  | None => ∀ l', l' ∈ leaves n → f l' = false
  end.
Proof.
  intros Hwf.
  pose proof (StronglySorted_fmap_filter key_lt key f (leaves n)
                (leaves_sorted path n Hwf)) as Hs.
  destruct (List.filter f (leaves n)) as [|l ls] eqn:Hsel; simpl.
  - intros l' Hl'. apply not_true_is_false. intros Hf.
    assert (l' ∈ List.filter f (leaves n)) as Hin
      by (apply elem_of_List_filter; done).
    rewrite Hsel in Hin. set_solver.
  - assert (l ∈ List.filter f (leaves n)) as Hin by (rewrite Hsel; set_solver).
    apply elem_of_List_filter in Hin as [Hin Hf]. split_and!; [done..|].
    intros l' Hl' Hf'.
    assert (l' ∈ l :: ls) as Hin'
      by (rewrite <- Hsel; apply elem_of_List_filter; done).
    eapply sorted_head_least; [exact Hs|done|].
    by apply list_elem_of_fmap_2.
Qed.

Lemma head_reverse_filter_greatest path n (f : @leafNode T → bool) :
  wf_node path n →
  match head (reverse (List.filter f (leaves n))) with
  | Some l => l ∈ leaves n ∧ f l = true ∧
              ∀ l', l' ∈ leaves n → f l' = true → key_le (key l') (key l)
  | None => ∀ l', l' ∈ leaves n → f l' = false
  end.
Proof.
  intros Hwf.
  pose proof (StronglySorted_fmap_filter key_lt key f (leaves n)
                (leaves_sorted path n Hwf)) as Hs.
  rewrite head_reverse.
  destruct (last (List.filter f (leaves n))) as [l|] eqn:Hlast.
  - assert (l ∈ List.filter f (leaves n)) as Hin by by eapply last_Some_elem_of.
    apply elem_of_List_filter in Hin as [Hin Hf]. split_and!; [done..|].
    intros l' Hl' Hf'.
    eapply sorted_last_greatest; [exact Hs| |].
    + apply last_Some in Hlast as [ls' ->]. rewrite fmap_app. apply last_snoc.
    + apply list_elem_of_fmap_2, elem_of_List_filter. done.
  - apply last_None in Hlast. intros l' Hl'. apply not_true_is_false. intros Hf.
    assert (l' ∈ List.filter f (leaves n)) as Hin
      by (apply elem_of_List_filter; done).
    rewrite Hlast in Hin. set_solver.
Qed.

(** X15. [SeekLowerBound] sets the iterator to the smallest key that is at
    least [k]: on a valid tree the first [Next] after it returns that key
    with its value, and reports [false] exactly when every key of the tree
    is below [k]. *)
Theorem SeekLowerBound_first_Next t k :
  valid_tree t →
  ∃ i i' r,
    SeekLowerBound (mkIterator (Some t) None) k = Returns i ∧
    Next zero i = Returns (i', r) ∧
    (∀ k' v, r = (k', v, true) ↔
       has_leaf t k' v ∧ key_le k k' ∧
       ∀ k'' v'', has_leaf t k'' v'' → key_le k k'' → key_le k' k'') ∧
    (r = ([], zero, false) ↔ ∀ k' v, has_leaf t k' v → key_lt k' k).
Proof.
  intros [Hroot Hwf].
  destruct (SeekLowerBound_loop_spec k (height t) t [] k None) as [Hl Hn];
    [done|done|by rewrite Hroot|by constructor|].
  simpl in Hl. rewrite stack_leaves_nil, app_nil_r in Hl.
  set (i := mkIterator None (SeekLowerBound_loop (height t) k None t k)).
  assert (started i) as Hst by by left.
  destruct (Next_loop_spec zero (S (stack_weight (stack_of i))) i)
    as (i' & HN & _); [lia|done|].
  rewrite <- Next_started in HN by done.
  exists i, i', (leaf_result zero (head (stack_leaves (stack_of i)))).
  split_and!; [done|done| |].
  all: unfold stack_of, i; cbn [i_stack]; rewrite Hl;
    pose proof (head_filter_least [] t (λ l, key_leb k (key l)) Hwf) as Hhead;
    destruct (head (List.filter _ (leaves t))) as [l|]; simpl.
  - destruct Hhead as (Hin & Hle & Hleast). apply key_leb_le in Hle.
    intros k' v. split.
    + intros [= <- <-]. split_and!; [apply has_leaf_leaves; eauto|done|].
      intros k'' v'' (l'' & Hl'' & <- & <-)%has_leaf_leaves Hle''.
      apply Hleast; [done|]. by apply key_leb_le.
    + intros ((l' & Hl' & <- & <-)%has_leaf_leaves & Hle' & Hmin).
      assert (key l = key l') as Hk.
      { apply key_le_antisym.
        - apply Hleast; [done|]. by apply key_leb_le.
        - apply (Hmin (key l) (val l)); [apply has_leaf_leaves; eauto|done]. }
      by rewrite (leaves_key_inj [] t l l' Hwf Hin Hl' Hk).
  - intros k' v. split; [done|].
    intros ((l' & Hl' & <- & <-)%has_leaf_leaves & Hle' & _).
    apply key_leb_le in Hle'. by rewrite (Hhead l' Hl') in Hle'.
  - split; [done|]. intros Hall. exfalso. destruct Hhead as (Hin & Hle & _).
    apply key_leb_le in Hle. eapply key_lt_not_le; [|exact Hle].
    eapply Hall. apply has_leaf_leaves. eauto.
  - split; [|done]. intros _ k' v (l' & Hl' & <- & <-)%has_leaf_leaves.
    apply key_leb_gt. eauto.
Qed.

(** X16. [SeekReverseLowerBound] sets the iterator to the largest key that
    is at most [k]: on a valid tree with distinct nodes the first
    [Previous] after it returns that key with its value, and reports
    [false] exactly when every key of the tree is above [k]. *)
Theorem SeekReverseLowerBound_first_Previous t k :
  valid_tree t → distinct_nodes t →
  ∃ ri ri' r,
    SeekReverseLowerBound (NewReverseIterator t) k = Returns ri ∧
    Previous zero ri = Returns (ri', r) ∧
    (∀ k' v, r = (k', v, true) ↔
       has_leaf t k' v ∧ key_le k' k ∧
       ∀ k'' v'', has_leaf t k'' v'' → key_le k'' k → key_le k'' k') ∧
    (r = ([], zero, false) ↔ ∀ k' v, has_leaf t k' v → key_lt k k').
Proof.
  intros [Hroot Hwf] Hdist.
  destruct (SeekReverseLowerBound_loop_spec k (height t) t [] k None ∅)
    as [Hl Hinv]; [done|done|by rewrite Hroot|by constructor|done|set_solver|].
  cbn zeta in Hl, Hinv.
  unfold rstack_leaves at 2 in Hl. simpl in Hl. rewrite app_nil_r in Hl.
  unfold SeekReverseLowerBound, NewReverseIterator. simpl.
  destruct (SeekReverseLowerBound_loop (height t) k None ∅ t k) as [s E] eqn:Hloop.
  simpl in Hl, Hinv.
  set (ri := mkReverseIterator (mkIterator None s) (Some E)).
  assert (started (ri_i ri)) as Hst by by left.
  destruct (Previous_loop_spec zero (S (2 * stack_weight (rstack_of ri))) ri)
    as (ri' & HP & _).
  { pose proof (rweight_le (expanded_of ri) (rstack_of ri)). lia. }
  { done. }
  pose proof (Previous_started zero ri Hst) as HPs.
  change (mkReverseIterator (ri_i ri) (Some (expanded_of ri))) with ri in HPs.
  rewrite <- HPs in HP.
  exists ri, ri', (leaf_result zero
                     (head (rstack_leaves (expanded_of ri) (rstack_of ri)))).
  split_and!; [done|done| |].
  all: change (rstack_leaves (expanded_of ri) (rstack_of ri))
         with (rstack_leaves E (default [] s));
    rewrite Hl;
    pose proof (head_reverse_filter_greatest [] t (λ l, key_leb (key l) k) Hwf)
      as Hhead;
    destruct (head (reverse (List.filter _ (leaves t)))) as [l|]; simpl.
  - destruct Hhead as (Hin & Hle & Hmost). apply key_leb_le in Hle.
    intros k' v. split.
    + intros [= <- <-]. split_and!; [apply has_leaf_leaves; eauto|done|].
      intros k'' v'' (l'' & Hl'' & <- & <-)%has_leaf_leaves Hle''.
      apply Hmost; [done|]. by apply key_leb_le.
    + intros ((l' & Hl' & <- & <-)%has_leaf_leaves & Hle' & Hmax).
      assert (key l = key l') as Hk.
      { apply key_le_antisym.
        - apply (Hmax (key l) (val l)); [apply has_leaf_leaves; eauto|done].
        - apply Hmost; [done|]. by apply key_leb_le. }
      by rewrite (leaves_key_inj [] t l l' Hwf Hin Hl' Hk).
  - intros k' v. split; [done|].
    intros ((l' & Hl' & <- & <-)%has_leaf_leaves & Hle' & _).
    apply key_leb_le in Hle'. by rewrite (Hhead l' Hl') in Hle'.
  - split; [done|]. intros Hall. exfalso. destruct Hhead as (Hin & Hle & _).
    apply key_leb_le in Hle. eapply key_lt_not_le; [|exact Hle].
    eapply Hall. apply has_leaf_leaves. eauto.
  - split; [|done]. intros _ k' v (l' & Hl' & <- & <-)%has_leaf_leaves.
    apply key_leb_gt. eauto.
Qed.

(** X17. [Get] and [LongestPrefix] agree: on a valid tree a key that [Get]
    finds is its own longest prefix, and the key [LongestPrefix] returns is
    one that [Get] finds, with the same value. *)
Theorem Get_agrees_with_LongestPrefix t k :
  valid_tree t →
  (∀ v, Get zero t k = (v, true) → LongestPrefix zero t k = (k, v, true)) ∧
  (∀ k' v, LongestPrefix zero t k = (k', v, true) →
     Get zero t k' = (v, true) ∧ k' `prefix_of` k).
Proof.
  intros [Hroot Hwf].
  pose proof (LongestPrefix_loop_spec [] t None k Hwf) as Hspec.
  cbn zeta in Hspec. simpl in Hspec. unfold LongestPrefix. split.
  - intros v Hg. apply (Get_wf zero [] t k v Hwf) in Hg. simpl in Hg.
    apply has_leaf_leaves in Hg as (l & Hl & <- & <-).
    destruct Hspec as [[Hno _]|(l' & -> & Hl' & Hp & Hlong)].
    { by destruct (Hno l Hl). }
    simpl. pose proof (Hlong l Hl ltac:(done)) as Hlen.
    assert (key l' = key l) as Hk.
    { destruct Hp as [r Hr]. apply (f_equal length) in Hr as Hlen'.
      rewrite length_app in Hlen'. destruct r; [by rewrite app_nil_r in Hr|].
      simpl in Hlen'. lia. }
    by rewrite (leaves_key_inj [] t l' l Hwf Hl' Hl Hk).
  - intros k' v Hr.
    destruct Hspec as [[_ Hnone]|(l' & Hsome & Hl' & Hp & _)].
    { by rewrite Hnone in Hr. }
    rewrite Hsome in Hr. simpl in Hr. injection Hr as <- <-. split; [|done].
    apply (Get_wf zero [] t (key l') (val l') Hwf). simpl.
    apply has_leaf_leaves. eauto.
Qed.

(** X18. [Minimum] and [Maximum] against the traversals: on a tree without
    dead ends [Minimum] returns the first pair of [Walk], which is what the
    first [Next] of a fresh iterator returns, and [Maximum] returns the
    last pair of [Walk]. *)
Theorem Minimum_Maximum_ends_of_Walk t :
  no_dead_end t →
  Minimum zero t = pair_result zero (head (Walk t never_stop)) ∧
  Maximum zero t = pair_result zero (last (Walk t never_stop)) ∧
  ∃ i', Next zero (mkIterator (Some t) None) = Returns (i', Minimum zero t).
Proof.
  intros Hlive. rewrite Walk_leaves. unfold Minimum, Maximum.
  rewrite (Minimum_loop_head t Hlive), (Maximum_loop_last t Hlive).
  split_and!.
  - by destruct (leaves t).
  - rewrite fmap_last. by destruct (last (leaves t)).
  - rewrite Next_fresh.
    set (i := mkIterator (Some t) (Some [[t]])).
    assert (started i) as Hst by by right.
    destruct (Next_loop_spec zero (S (stack_weight (stack_of i))) i)
      as (i' & HN & _); [lia|by repeat constructor|].
    rewrite <- Next_started in HN by done. exists i'. rewrite HN.
    unfold stack_of, i, stack_leaves. simpl. by rewrite !app_nil_r.
Qed.

End Compositions.

(** ** Watch channels and reference counts in memory *)
Module HeapProofs.
Import Heap CloneProofs.

Section HeapProofs.
Context {T : Type} (zero : T).
Implicit Types (h : @heap T) (n : Node) (p q nn : nat).

Notation "'let*' x := m 'in' k" := (bind m (λ x, k))
  (at level 10, x binder, m at level 200, k at level 200).

Ltac step H := rewrite (bind_Returns _ _ _ _ _ H); cbn beta.

Lemma load_node_None h p : nodes h !! p = None → load_node p h = Panics.
Proof. unfold load_node. by intros ->. Qed.

Lemma heap_eta h :
  mkHeap (nodes h) (leafs h) (next_addr h) (next_chan h) (next_arr h) = h.
Proof. by destruct h. Qed.

(** X19. [getMutateCh] makes the channel of a node once: it returns the
    channel the node has, leaving memory as it is, or makes a channel no
    node has and stores it in the node; either way a second call returns
    the same channel and changes nothing.  On a [nil] node it panics. *)
Theorem getMutateCh_makes_the_channel_once h p :
  heap_ok h →
  match nodes h !! p with
  | None => getMutateCh p h = Panics
  | Some n =>
      ∃ c h',
        getMutateCh p h = Returns (c, h') ∧
        nodes h' !! p = Some (set_mutateCh (Some (Some c)) n) ∧
        getMutateCh p h' = Returns (c, h') ∧
        (∀ c0, mutateCh n = Some (Some c0) → c = c0 ∧ h' = h) ∧
        ((∀ c0, mutateCh n ≠ Some (Some c0)) →
           (∀ q m, nodes h !! q = Some m → mutateCh m ≠ Some (Some c)) ∧
           next_chan h' = S (next_chan h)) ∧
        (∀ q, q ≠ p → nodes h' !! q = nodes h !! q) ∧ leafs h' = leafs h
  end.
Proof.
  intros [Hok _]. destruct (nodes h !! p) as [n|] eqn:Hp.
  2:{ unfold getMutateCh, bind. by rewrite load_node_None. }
  unfold getMutateCh at 1. step (load_node_Some h p n Hp).
  assert (∀ c h', nodes h' !! p = Some (set_mutateCh (Some (Some c)) n) →
                  getMutateCh p h' = Returns (c, h')) as Hagain.
  { intros c h' Hp'. unfold getMutateCh. by step (load_node_Some h' p _ Hp'). }
  destruct (mutateCh n) as [[c|]|] eqn:Hch.
  - exists c, h.
    assert (nodes h !! p = Some (set_mutateCh (Some (Some c)) n)) as Hp'
      by by rewrite set_mutateCh_id.
    split_and!; try done; [by apply Hagain|by intros c0 [= ->]|].
    intros Hno. by destruct (Hno c).
  - unfold bind at 1, new_chan.
    destruct (update_node_spec
                (mkHeap (nodes h) (leafs h) (next_addr h) (S (next_chan h)) (next_arr h))
                p n (set_mutateCh (Some (Some (next_chan h)))) Hp)
      as (h' & Hu & Hp' & (Hother & Hleafs & _) & Hnc).
    step Hu. exists (next_chan h), h'.
    split_and!; try done; [by apply Hagain|].
    intros _. split; [|done]. intros q m Hq Hm.
    destruct (Hok q m Hq) as (_ & Hc & _). specialize (Hc _ Hm). lia.
  - unfold bind at 1, new_chan.
    destruct (update_node_spec
                (mkHeap (nodes h) (leafs h) (next_addr h) (S (next_chan h)) (next_arr h))
                p n (set_mutateCh (Some (Some (next_chan h)))) Hp)
      as (h' & Hu & Hp' & (Hother & Hleafs & _) & Hnc).
    step Hu. exists (next_chan h), h'.
    split_and!; try done; [by apply Hagain|].
    intros _. split; [|done]. intros q m Hq Hm.
    destruct (Hok q m Hq) as (_ & Hc & _). specialize (Hc _ Hm). lia.
Qed.

(** X20. [setMutateCh] then [getMutateCh]: a channel stored with
    [setMutateCh] is the one [getMutateCh] returns, with nothing made;
    after a [nil] channel is stored, [getMutateCh] makes a new one.  The
    other fields of the node stay. *)
Theorem setMutateCh_then_getMutateCh h p n ch :
  nodes h !! p = Some n →
  ∃ h1,
    setMutateCh p ch h = Returns (tt, h1) ∧
    nodes h1 !! p = Some (set_mutateCh (Some ch) n) ∧
    (∀ c, ch = Some c → getMutateCh p h1 = Returns (c, h1)) ∧
    (ch = None →
       ∃ h2, getMutateCh p h1 = Returns (next_chan h, h2) ∧
             nodes h2 !! p = Some (set_mutateCh (Some (Some (next_chan h))) n)) ∧
    (∀ q, q ≠ p → nodes h1 !! q = nodes h !! q) ∧ leafs h1 = leafs h.
Proof.
  intros Hp. unfold setMutateCh.
  destruct (update_node_spec h p n (set_mutateCh (Some ch)) Hp)
    as (h1 & Hu & Hp1 & (Hother & Hleafs & _) & Hnc).
  exists h1. split_and!; try done.
  - intros c ->. unfold getMutateCh. by step (load_node_Some h1 p _ Hp1).
  - intros ->. unfold getMutateCh. step (load_node_Some h1 p _ Hp1). simpl.
    unfold bind at 1, new_chan.
    destruct (update_node_spec
                (mkHeap (nodes h1) (leafs h1) (next_addr h1) (S (next_chan h1))
                   (next_arr h1))
                p _ (set_mutateCh (Some (Some (next_chan h1)))) Hp1)
      as (h2 & Hu2 & Hp2 & _).
    step Hu2. rewrite Hnc in *. exists h2. split; [done|]. by rewrite Hp2.
Qed.

(** The loop of [processLazyRefCount] over children that are distinct
    nodes, none of them the node itself. *)
Lemma push_lazy_spec p np (todo : list (edge (option nat))) :
  ∀ idx h,
  nodes h !! p = Some np →
  Forall (λ e, ∃ c, node e = Some c ∧ is_Some (nodes h !! c)) todo →
  NoDup (node <$> todo) → Some p ∉ node <$> todo →
  ∃ h',
    for_range todo idx (λ _ ed,
      let* c := deref (node ed) in
      let* n := load_node p in
      update_node c
        (λ m, set_lazyRefCount (wrap64 (lazyRefCount m + lazyRefCount n)) m)) h
      = Returns (tt, h') ∧
    leafs h' = leafs h ∧ next_addr h' = next_addr h ∧
    next_chan h' = next_chan h ∧ next_arr h' = next_arr h ∧
    ∀ q, nodes h' !! q =
         if decide (Some q ∈ node <$> todo)
         then (λ m, set_lazyRefCount (wrap64 (lazyRefCount m + lazyRefCount np)) m)
                <$> nodes h !! q
         else nodes h !! q.
Proof.
  induction todo as [|ed todo IH]; intros idx h Hp Hall Hnd Hnp; simpl.
  { exists h. by split_and!. }
  rewrite fmap_cons in Hnd, Hnp.
  apply Forall_cons in Hall as [(c & Hc & [m Hm]) Hall].
  apply NoDup_cons in Hnd as [Hfresh Hnd].
  apply not_elem_of_cons in Hnp as [Hpc Hnp].
  unfold bind at 1. unfold bind at 1. unfold deref at 1. rewrite Hc.
  step (load_node_Some h p np Hp).
  destruct (update_node_spec h c m
              (λ m, set_lazyRefCount (wrap64 (lazyRefCount m + lazyRefCount np)) m) Hm)
    as (h1 & Hu & Hc1 & (Hother & Hl1 & Ha1 & Hr1) & Hn1).
  rewrite Hu.
  assert (c ≠ p) as Hcp by congruence.
  destruct (IH (S idx) h1) as (h' & Hrun & Hl & Ha & Hn & Hr & Hnodes).
  { by rewrite Hother. }
  { eapply Forall_impl; [exact Hall|]. intros e (c' & Hc' & Hin). exists c'.
    split; [done|]. destruct (decide (c' = c)) as [->|Hne].
    - by rewrite Hc1.
    - by rewrite Hother. }
  { done. }
  { done. }
  exists h'. split_and!; try congruence. intros q. rewrite Hnodes.
  rewrite Hc in Hfresh.
  destruct (decide (Some q ∈ node <$> todo)) as [Hin|Hnin];
    destruct (decide (Some q ∈ _)) as [Hin'|Hnin'].
  - rewrite Hother; [done|]. by intros ->.
  - destruct Hnin'. by apply elem_of_cons; right.
  - apply elem_of_cons in Hin' as [[= ->]|?]; [|done]. by rewrite Hc1, Hm.
  - rewrite Hother; [done|]. intros ->. apply Hnin'. by apply elem_of_cons; left.
Qed.

(** X21. [processLazyRefCount] pushes the pending count of a node one level
    down: when the children are distinct nodes other than the node itself,
    it adds [lazyRefCount] to the node's [refCount], to the [refCount] of
    its leaf and to the [lazyRefCount] of every child, in [int64]
    arithmetic, sets the node's [lazyRefCount] to zero and touches
    nothing else; with a zero [lazyRefCount] it changes nothing, so a
    second call in a row is without effect. *)
Theorem processLazyRefCount_pushes_one_level h p n :
  nodes h !! p = Some n → node_ok h n →
  NoDup (node <$> edges n) → Some p ∉ node <$> edges n →
  ∃ h',
    processLazyRefCount p h = Returns (tt, h') ∧
    (lazyRefCount n = 0%Z → h' = h) ∧
    (lazyRefCount n ≠ 0%Z →
       (∀ q, nodes h' !! q =
          if decide (q = p)
          then Some (set_lazyRefCount 0
                       (set_refCount (wrap64 (refCount n + lazyRefCount n)) n))
          else if decide (Some q ∈ node <$> edges n)
          then (λ m, set_lazyRefCount (wrap64 (lazyRefCount m + lazyRefCount n)) m)
                 <$> nodes h !! q
          else nodes h !! q) ∧
       (∀ q, leafs h' !! q =
          if decide (leaf n = Some q)
          then (λ l, set_l_refCount (wrap64 (l_refCount l + lazyRefCount n)) l)
                 <$> leafs h !! q
          else leafs h !! q)) ∧
    next_addr h' = next_addr h ∧ next_chan h' = next_chan h ∧
    next_arr h' = next_arr h ∧
    processLazyRefCount p h' = Returns (tt, h').
Proof.
  intros Hp [Hleaf Hedges] Hnd Hnp. unfold processLazyRefCount at 1.
  step (load_node_Some h p n Hp).
  destruct (lazyRefCount n =? 0)%Z eqn:Hz.
  { apply Z.eqb_eq in Hz. exists h. split_and!; try done.
    unfold processLazyRefCount. step (load_node_Some h p n Hp).
    by rewrite Hz. }
  apply Z.eqb_neq in Hz.
  set (n1 := set_refCount (wrap64 (refCount n + lazyRefCount n)) n).
  destruct (update_node_spec h p n
              (λ n, set_refCount (wrap64 (refCount n + lazyRefCount n)) n) Hp)
    as (h1 & Hu1 & Hp1 & (Ho1 & Hl1 & Ha1 & Hr1) & Hc1).
  step Hu1. fold n1 in Hp1.
  step (load_node_Some h1 p n1 Hp1).
  (* the leaf *)
  assert (∃ h2, (match leaf n1 with
                 | Some lp =>
                     update_leaf lp
                       (λ l, set_l_refCount (wrap64 (l_refCount l + lazyRefCount n1)) l)
                 | None => ret tt
                 end) h1 = Returns (tt, h2) ∧
                nodes h2 = nodes h1 ∧ next_addr h2 = next_addr h1 ∧
                next_chan h2 = next_chan h1 ∧ next_arr h2 = next_arr h1 ∧
                ∀ q, leafs h2 !! q =
                     if decide (leaf n = Some q)
                     then (λ l, set_l_refCount (wrap64 (l_refCount l + lazyRefCount n)) l)
                            <$> leafs h !! q
                     else leafs h !! q)
    as (h2 & Hu2 & Hn2 & Ha2 & Hc2 & Hr2 & Hl2).
  { change (leaf n1) with (leaf n). change (lazyRefCount n1) with (lazyRefCount n).
    destruct (leaf n) as [lp|] eqn:Hlp.
    - destruct (Hleaf lp eq_refl) as [l Hl]. rewrite <- Hl1 in Hl.
      eexists. split; [by eapply update_leaf_Some|]. simpl.
      split_and!; try done. intros q. rewrite <- Hl1.
      destruct (decide (Some lp = Some q)) as [[= ->]|Hne].
      + by rewrite lookup_insert_eq, Hl.
      + rewrite lookup_insert_ne; [done|congruence].
    - exists h1. split_and!; try done. intros q. by rewrite Hl1. }
  step Hu2.
  assert (nodes h2 !! p = Some n1) as Hp2 by by rewrite Hn2.
  step (load_node_Some h2 p n1 Hp2).
  (* the children *)
  destruct (push_lazy_spec p n1 (edges n1) 0 h2 Hp2)
    as (h3 & Hu3 & Hl3 & Ha3 & Hc3 & Hr3 & Hn3); [|done..|].
  { eapply Forall_impl; [exact Hedges|]. intros e (c & Hc & Hin). exists c.
    split; [done|]. rewrite Hn2. destruct (decide (c = p)) as [->|Hne].
    - by rewrite Hp1.
    - by rewrite Ho1. }
  step Hu3.
  assert (nodes h3 !! p = Some n1) as Hp3.
  { rewrite Hn3, decide_False by done. done. }
  destruct (update_node_spec h3 p n1 (set_lazyRefCount 0) Hp3)
    as (h4 & Hu4 & Hp4 & (Ho4 & Hl4 & Ha4 & Hr4) & Hc4).
  exists h4. split_and!; try congruence.
  - intros _. split.
    + intros q. destruct (decide (q = p)) as [->|Hqp]; [done|].
      rewrite Ho4, Hn3, Hn2, Ho1 by done. done.
    + intros q. by rewrite Hl4, Hl3, Hl2.
  - unfold processLazyRefCount. by step (load_node_Some h4 p _ Hp4).
Qed.

(** [leafNode.clone], step by step. *)
Lemma leaf_clone_run h p (l : leafNode) :
  leafs h !! p = Some l → next_addr h ≠ p →
  ∃ h' c,
    leaf_clone zero p h = Returns (next_addr h, h') ∧
    (∀ q, leafs h' !! q =
       if decide (q = next_addr h)
       then Some (mkLeaf (Some (Some c))
                    (Some (mkSlice (next_arr h) (slice_bytes (key l))))
                    (val l) (l_refCount l))
       else if decide (q = p) then Some (set_l_mutateCh (Some (Some c)) l)
       else leafs h !! q) ∧
    nodes h' = nodes h ∧ next_addr h' = S (next_addr h) ∧
    next_arr h' = S (next_arr h) ∧ next_chan h ≤ next_chan h' ∧
    (∀ c0, l_mutateCh l = Some (Some c0) → c = c0).
Proof.
  intros Hp Hne.
  unfold leaf_clone. unfold bind at 1, new_leaf.
  set (nn := next_addr h).
  set (h1 := mkHeap _ _ _ _ _).
  assert (leafs h1 !! p = Some l) as Hp1.
  { unfold h1. simpl. by rewrite lookup_insert_ne. }
  unfold bind at 1, load_leaf at 1. rewrite Hp1.
  unfold bind at 1, new_arr at 1.
  set (h2 := mkHeap _ _ _ _ _).
  assert (leafs h2 !! nn = Some (mkLeaf None None zero 0)) as Hnn2
    by (unfold h2, h1; simpl; apply lookup_insert_eq).
  rewrite (bind_Returns _ _ _ _ _ (update_leaf_Some h2 nn _ _ Hnn2)). cbn beta.
  set (h3 := mkHeap _ _ _ _ _).
  assert (leafs h3 !! p = Some l) as Hp3.
  { unfold h3. simpl. rewrite lookup_insert_ne by done. exact Hp1. }
  unfold bind at 1, load_leaf at 1. rewrite Hp3.
  assert (leafs h3 !! nn = Some (set_key (Some (mkSlice (next_arr h) (slice_bytes (key l))))
                                   (mkLeaf None None zero 0))) as Hnn3
    by (unfold h3; simpl; apply lookup_insert_eq).
  rewrite (bind_Returns _ _ _ _ _ (update_leaf_Some h3 nn _ _ Hnn3)). cbn beta.
  set (h4 := mkHeap _ _ _ _ _).
  assert (leafs h4 !! p = Some l) as Hp4.
  { unfold h4. simpl. rewrite lookup_insert_ne by done. exact Hp3. }
  (* the channel of the original *)
  assert (∃ c h5, leaf_getMutateCh p h4 = Returns (c, h5) ∧
            leafs h5 = <[p := set_l_mutateCh (Some (Some c)) l]> (leafs h4) ∧
            nodes h5 = nodes h4 ∧
            (∀ c0, l_mutateCh l = Some (Some c0) → c = c0) ∧
            next_addr h5 = next_addr h4 ∧ next_arr h5 = next_arr h4 ∧
            next_chan h4 ≤ next_chan h5)
    as (c & h5 & Hg & Hl5 & Hn5 & Hc5 & Ha5 & Hr5 & Hch5).
  { unfold leaf_getMutateCh. unfold bind at 1, load_leaf at 1. rewrite Hp4.
    assert (∃ h5,
      (let* newCh := new_chan in
       let* _ := update_leaf p (set_l_mutateCh (Some (Some newCh))) in
       ret newCh) h4 = Returns (next_chan h4, h5) ∧
      leafs h5 = <[p := set_l_mutateCh (Some (Some (next_chan h4))) l]> (leafs h4) ∧
      nodes h5 = nodes h4 ∧
      next_addr h5 = next_addr h4 ∧ next_arr h5 = next_arr h4 ∧
      next_chan h4 ≤ next_chan h5) as (h5 & Hrun & Hl5 & Hn5 & Ha5 & Hr5 & Hch5).
    { unfold bind at 1, new_chan.
      set (h4' := mkHeap _ _ _ _ _).
      assert (leafs h4' !! p = Some l) as Hp4' by exact Hp4.
      rewrite (bind_Returns _ _ _ _ _ (update_leaf_Some h4' p _ _ Hp4')).
      eexists. split; [done|]. simpl. split_and!; try done. lia. }
    destruct (l_mutateCh l) as [[c|]|] eqn:Hch.
    - exists c, h4. split_and!; [done| |done|by intros ? [= ->]|done..].
      rewrite insert_id; [done|]. rewrite Hp4. f_equal. destruct l; simpl in *.
      by rewrite Hch.
    - exists (next_chan h4), h5. by split_and!.
    - exists (next_chan h4), h5. by split_and!. }
  step Hg.
  assert (leafs h5 !! nn = leafs h4 !! nn) as Hnn5.
  { rewrite Hl5. by rewrite lookup_insert_ne. }
  assert (leafs h4 !! nn =
            Some (set_val (val l)
                    (set_key (Some (mkSlice (next_arr h) (slice_bytes (key l))))
                       (mkLeaf None None zero 0)))) as Hnn4
    by (unfold h4; simpl; apply lookup_insert_eq).
  rewrite Hnn4 in Hnn5.
  unfold leaf_setMutateCh.
  rewrite (bind_Returns _ _ _ _ _ (update_leaf_Some h5 nn _ _ Hnn5)). cbn beta.
  set (h6 := mkHeap _ _ _ _ _).
  assert (leafs h6 !! p = Some (set_l_mutateCh (Some (Some c)) l)) as Hp6.
  { unfold h6. simpl. rewrite lookup_insert_ne by done. rewrite Hl5.
    apply lookup_insert_eq. }
  unfold bind at 1, load_leaf at 1. rewrite Hp6.
  assert (leafs h6 !! nn = Some (set_l_mutateCh (Some (Some c))
            (set_val (val l)
               (set_key (Some (mkSlice (next_arr h) (slice_bytes (key l))))
                  (mkLeaf None None zero 0))))) as Hnn6
    by (unfold h6; simpl; apply lookup_insert_eq).
  rewrite (bind_Returns _ _ _ _ _ (update_leaf_Some h6 nn _ _ Hnn6)). cbn beta.
  eexists _, c. split; [done|]. simpl.
  split_and!.
  - intros q. destruct (decide (q = nn)) as [->|Hqn].
    { by rewrite lookup_insert_eq. }
    rewrite !lookup_insert_ne by done. rewrite Hl5.
    destruct (decide (q = p)) as [->|Hqp].
    { by rewrite lookup_insert_eq. }
    rewrite lookup_insert_ne by done. unfold h4, h3, h2, h1. simpl.
    by rewrite !lookup_insert_ne.
  - by rewrite Hn5.
  - by rewrite Ha5.
  - by rewrite Hr5.
  - etrans; [|exact Hch5]. done.
  - done.
Qed.

(** X22. [leafNode.clone] in a heap whose arrays were all handed out by
    the allocator: the copy is a new leaf with the same key bytes in a newly
    made array, which no leaf key (that of the original included) and no
    node prefix of the heap uses; it has the same value and reference
    count, and the channel of the original, which [getMutateCh] makes on the
    original when it has none.  Nothing else in memory changes, and the
    arrays and addresses of the new heap are again below its counters. *)
Theorem leaf_clone_copies_key_shares_watch h p (l : leafNode) :
  heap_ok h → leaf_keys_ok h → leafs h !! p = Some l →
  ∃ nn h' c,
    leaf_clone zero p h = Returns (nn, h') ∧
    leafs h !! nn = None ∧ nodes h !! nn = None ∧ nn ≠ p ∧
    leafs h' !! nn =
      Some (mkLeaf (Some (Some c)) (Some (mkSlice (next_arr h) (slice_bytes (key l))))
              (val l) (l_refCount l)) ∧
    leafs h' !! p = Some (set_l_mutateCh (Some (Some c)) l) ∧
    (∀ c0, l_mutateCh l = Some (Some c0) → c = c0) ∧
    (∀ s, key l = Some s → arr s ≠ next_arr h) ∧
    (∀ q l0 s, leafs h !! q = Some l0 → key l0 = Some s → arr s ≠ next_arr h) ∧
    (∀ a m s, nodes h !! a = Some m → prefix m = Some s → arr s ≠ next_arr h) ∧
    nodes h' = nodes h ∧
    (∀ q, q ≠ p → q ≠ nn → leafs h' !! q = leafs h !! q) ∧
    heap_ok h' ∧ leaf_keys_ok h'.
Proof.
  intros [Hnodes Hleafs] Hkeys Hp.
  pose proof (Hleafs p l Hp) as Hlt.
  assert (next_addr h ≠ p) as Hne by lia.
  destruct (leaf_clone_run h p l Hp Hne)
    as (h' & c & Hrun & Hl & Hn & Ea & Er & Ec & Hc).
  exists (next_addr h), h', c. split_and!; try done.
  - destruct (leafs h !! next_addr h) as [l'|] eqn:Hl'; [|done].
    apply Hleafs in Hl'. lia.
  - destruct (nodes h !! next_addr h) as [m|] eqn:Hm; [|done].
    apply Hnodes in Hm as [? _]. lia.
  - rewrite Hl. by rewrite decide_True.
  - rewrite Hl. rewrite decide_False by done. by rewrite decide_True.
  - intros s Hs. specialize (Hkeys p l s Hp Hs). lia.
  - intros q l0 s Hq Hs. specialize (Hkeys q l0 s Hq Hs). lia.
  - intros a m s Ha Hs. destruct (Hnodes a m Ha) as (_ & _ & Harr).
    specialize (Harr s Hs). lia.
  - intros q Hqp Hqn. rewrite Hl. by rewrite !decide_False.
  - split.
    + intros a m. rewrite Hn. intros Ha.
      destruct (Hnodes a m Ha) as (? & Hch & Harr). split_and!; [lia| |].
      * intros c0 Hc0. specialize (Hch c0 Hc0). lia.
      * intros s Hs. specialize (Harr s Hs). lia.
    + intros a x. rewrite Hl.
      destruct (decide (a = next_addr h)) as [->|_]; [lia|].
      destruct (decide (a = p)) as [->|_]; [lia|].
      intros Ha. specialize (Hleafs a x Ha). lia.
  - intros a x s. rewrite Hl.
    destruct (decide (a = next_addr h)) as [->|_].
    { intros [= <-]. simpl. intros [= <-]. simpl. lia. }
    destruct (decide (a = p)) as [->|_].
    { intros [= <-]. simpl. intros Hs. specialize (Hkeys p l s Hp Hs). lia. }
    intros Ha Hs. specialize (Hkeys a x s Ha Hs). lia.
Qed.

End HeapProofs.
End HeapProofs.

(** ** Iterators, call by call *)
Section Steps.
Context {T : Type} (zero : T).
Implicit Types (n t m : @Node T) (e : edge (@Node T)).
Implicit Types (path search p k : list byte).
Implicit Types (i : @Iterator T) (ri : @ReverseIterator T).

(** X23. [Next], call by call: on a fresh iterator over any tree, [calls]
    calls of [Next] return the first [calls] pairs of [Walk], one pair per
    call, and the last of them reports [false] exactly when [calls] exceeds
    the number of pairs. *)
Theorem Next_returns_one_pair_per_call t calls :
  drain zero calls (mkIterator (Some t) None)
    = (take calls (Walk t never_stop),
       bool_decide (length (Walk t never_stop) < calls)).
Proof.
  rewrite Walk_leaves.
  assert (drain zero calls (mkIterator (Some t) None)
          = drain zero calls (mkIterator (Some t) (Some [[t]]))) as ->.
  { destruct calls; [done|]. cbn [drain]. by rewrite Next_fresh. }
  rewrite drain_take; [|by right|by repeat constructor].
  unfold stack_of, stack_leaves. simpl. rewrite !app_nil_r.
  by rewrite fmap_take, length_fmap.
Qed.

(** X24. [recurseMin] makes the descent of [Minimum]: it returns a node
    of the tree whose leaf is what [Minimum] returns, and [nil] exactly
    when [Minimum] reports [false]; the leaves of that node together with
    those of the slices it pushed are the leaves of the tree. *)
Theorem recurseMin_finds_Minimum s n :
  match (recurseMin s n).2 with
  | Some m => subnode m n ∧ is_Some (leaf m) ∧
              Minimum zero n = leaf_result zero (leaf m)
  | None => Minimum zero n = ([], zero, false)
  end ∧
  (slices_nonempty (default [] s) →
   flat_map leaves (option_list (recurseMin s n).2)
     ++ stack_leaves (default [] (recurseMin s n).1)
   = leaves n ++ stack_leaves (default [] s)).
Proof.
  split; [|intros Hne; by apply recurseMin_spec].
  unfold Minimum. revert s.
  induction n as [a lf p es IH] using Node_ind'. intros s.
  rewrite recurseMin_unfold, Minimum_loop_unfold. simpl.
  destruct lf as [l|]; simpl.
  { split_and!; [constructor|by eexists|done]. }
  destruct es as [|e es]; simpl; [done|].
  apply Forall_cons in IH as [IHe _].
  specialize (IHe (if 1 <? S (length es)
                   then stack_append s (drop 1 (nodes (e :: es))) else s)).
  destruct (recurseMin _ (node e)).2 as [m|]; [|done].
  destruct IHe as (Hsub & Hleaf & Hmin). split_and!; [|done..].
  econstructor; [|done]. simpl. set_solver.
Qed.

(** X25. A seek by bound uses the iterator up: [SeekLowerBound] leaves
    [i.node] nil, so a second [SeekLowerBound] or a [SeekPrefix] on the same
    iterator panics, as does any seek on an iterator whose node is nil, for
    instance after a [SeekPrefix] that found nothing; the reverse iterator
    behaves the same way. *)
Theorem seeks_panic_without_a_node i ri k p :
  (∀ i', SeekLowerBound i k = Returns i' →
     i_node i' = None ∧ SeekLowerBound i' p = Panics ∧ SeekPrefix i' p = Panics) ∧
  (∀ i', SeekPrefix i k = Returns i' → i_node i' = None →
     SeekPrefix i' p = Panics ∧ SeekLowerBound i' p = Panics) ∧
  (∀ ri', SeekReverseLowerBound ri k = Returns ri' →
     i_node (ri_i ri') = None ∧ SeekReverseLowerBound ri' p = Panics ∧
     ReverseIterator_SeekPrefix ri' p = Panics) ∧
  (i_node i = None → SeekLowerBound i k = Panics ∧ SeekPrefix i k = Panics) ∧
  (i_node (ri_i ri) = None →
     SeekReverseLowerBound ri k = Panics ∧ ReverseIterator_SeekPrefix ri k = Panics).
Proof.
  unfold SeekLowerBound, SeekReverseLowerBound, ReverseIterator_SeekPrefix, SeekPrefix.
  split_and!.
  - intros i'. destruct (i_node i); [|done]. by intros [= <-].
  - intros i' _ Hnone. by rewrite Hnone.
  - intros ri'. destruct (i_node (ri_i ri)); [|done].
    destruct (SeekReverseLowerBound_loop _ _ _ _ _ _). by intros [= <-].
  - by intros ->.
  - by intros ->.
Qed.

(** X26. [ReverseIterator.SeekPrefix] wipes the stack but keeps
    [expandedParents]: when the node it lands on is still marked there from
    earlier calls of [Previous], the next [Previous] takes the node for
    expanded, returns its own leaf if it has one, and the iteration ends
    without visiting anything below the node. *)
Theorem ReverseIterator_SeekPrefix_keeps_marks ri p ri' m :
  ReverseIterator_SeekPrefix ri p = Returns ri' →
  i_node (ri_i ri') = Some m → addr m ∈ expanded_of ri →
  expandedParents ri' = expandedParents ri ∧
  i_stack (ri_i ri') = None ∧
  ∀ calls, 1 < calls →
    rdrain zero calls ri' = (pair_of <$> option_list (leaf m), true).
Proof.
  unfold ReverseIterator_SeekPrefix, SeekPrefix.
  destruct (i_node (ri_i ri)) as [n|]; [|done].
  intros [= <-]. simpl. intros Hm Hin. split_and!; [done..|].
  rewrite Hm. intros calls Hc.
  destruct calls as [|[|calls]]; [lia..|].
  pose proof (size_pos m) as Hsize.
  cbn [rdrain]. unfold Previous. cbn [ri_i i_stack i_node expandedParents].
  assert (stack_weight (default [] (stack_append None [m])) = size m) as ->
    by (unfold stack_weight; simpl; lia).
  destruct (2 * size m) as [|fuel] eqn:Hfuel; [lia|].
  cbn [Previous_loop]. simpl.
  assert (default ∅ match expandedParents ri with
                    | Some E => Some E
                    | None => Some ∅
                    end = expanded_of ri) as ->.
  { unfold expanded_of. by destruct (expandedParents ri). }
  rewrite bool_decide_true by done. rewrite andb_false_r.
  destruct (leaf m) as [l|]; simpl.
  - unfold Previous. simpl. done.
  - done.
Qed.

End Steps.

(** ** Trees in memory *)
Module HeapTreeProofs.
Import HeapTree.

Section HeapTreeProofs.
Context {T : Type} (zero : T).
Implicit Types (h : @Heap.heap T) (t : @Node T) (p q nn : nat).

Notation "'let*' x := m 'in' k" := (Heap.bind m (λ x, k))
  (at level 10, x binder, m at level 200, k at level 200).

Ltac go H := rewrite (CloneProofs.bind_Returns _ _ _ _ _ H); cbn beta.

Lemma repr_unfold h t :
  repr h t ↔
  ∃ n, Heap.nodes h !! addr t = Some n ∧
       Heap.slice_bytes (Heap.prefix n) = prefix t ∧
       leaf_at h (leaf t) (Heap.leaf n) ∧
       Forall2 (edge_at h) (edges t) (Heap.edges n).
Proof.
  destruct t as [a lf p es]. simpl.
  assert (∀ hes,
    (fix all (es : list (edge (@Node T))) (hes : list (edge (option nat))) : Prop :=
       match es, hes with
       | [], [] => True
       | e :: es', he :: hes' =>
           (label he = label e ∧ node he = Some (addr (node e)) ∧
            repr h (node e)) ∧ all es' hes'
       | _, _ => False
       end) es hes ↔ Forall2 (edge_at h) es hes) as Hall.
  { induction es as [|e es IH]; intros [|he hes]; simpl.
    - split; [constructor|done].
    - split; [done|]. by intros ?%Forall2_nil_cons_inv.
    - split; [done|]. by intros ?%Forall2_cons_nil_inv.
    - rewrite IH, Forall2_cons. done. }
  split; intros (n & ? & ? & ? & ?); exists n; split_and!; try done; by apply Hall.
Qed.

Lemma heap_le_refl h : heap_le h h.
Proof. split_and!; try done; eauto. Qed.

Lemma heap_le_trans h1 h2 h3 : heap_le h1 h2 → heap_le h2 h3 → heap_le h1 h3.
Proof.
  intros (Ha & Hc & Hr & Hn & Hl) (Ha' & Hc' & Hr' & Hn' & Hl').
  split_and!; try lia.
  - intros q n Hq. destruct (Hn q n Hq) as (n' & Hq' & ? & ? & ?).
    destruct (Hn' q n' Hq') as (n'' & ? & ? & ? & ?).
    exists n''. split_and!; congruence.
  - intros q l Hq. destruct (Hl q l Hq) as (l' & Hq' & ? & ?).
    destruct (Hl' q l' Hq') as (l'' & ? & ? & ?).
    exists l''. split_and!; congruence.
Qed.

Lemma leaf_at_le h h' lf lp : heap_le h h' → leaf_at h lf lp → leaf_at h' lf lp.
Proof.
  intros (_ & _ & _ & _ & Hl). destruct lf as [l|], lp as [q|]; simpl; try done.
  intros (l' & Hq & Hk & Hv). destruct (Hl q l' Hq) as (l'' & ? & Hk' & Hv').
  exists l''. split_and!; [done|by rewrite Hk'|by rewrite Hv'].
Qed.

(** A tree that lies in a heap lies in every later heap. *)
Lemma repr_le h h' t : heap_le h h' → repr h t → repr h' t.
Proof.
  intros Hle. induction t as [a lf p es IH] using Node_ind'.
  rewrite !repr_unfold. simpl. intros (n & Hn & Hp & Hlf & Hes).
  pose proof Hle as (_ & _ & _ & Hnodes & _).
  destruct (Hnodes a n Hn) as (n' & Hn' & Hleaf & Hpre & Hedges).
  exists n'. split_and!; [done|by rewrite Hpre| |].
  - rewrite Hleaf. by eapply leaf_at_le.
  - rewrite Hedges. clear -IH Hes.
    induction Hes as [|e he es hes (? & ? & ?) _ IHes]; [constructor|].
    apply Forall_cons in IH as [IHe IH].
    constructor; [|by apply IHes]. split_and!; [done..|by apply IHe].
Qed.

(** The addresses of a tree that lies in a well-formed heap are in use. *)
Lemma repr_addrs h t a :
  Heap.heap_ok h → repr h t → a ∈ addrs t → a < Heap.next_addr h.
Proof.
  intros [Hok _]. induction t as [a0 lf p es IH] using Node_ind'.
  rewrite repr_unfold, addrs_unfold. simpl. intros (n & Hn & _ & _ & Hes).
  intros [->|Hin]%elem_of_cons.
  { by destruct (Hok _ _ Hn). }
  apply elem_of_flat_map in Hin as (e & He & Hin).
  eapply Forall_forall in IH; [|done].
  apply IH; [|done].
  apply list_elem_of_lookup_1 in He as [i Hi].
  destruct (Forall2_lookup_l _ _ _ _ _ Hes Hi) as (he & _ & _ & _ & Hr). done.
Qed.

(** A tree does not see a record that is not one of its nodes. *)
Lemma repr_frame h h' t :
  (∀ a, a ∈ addrs t → Heap.nodes h' !! a = Heap.nodes h !! a) →
  Heap.leafs h' = Heap.leafs h →
  repr h t → repr h' t.
Proof.
  intros Hsame Hleafs. induction t as [a lf p es IH] using Node_ind'.
  rewrite !repr_unfold. simpl. intros (n & Hn & Hp & Hlf & Hes).
  exists n. split_and!; [|done| |].
  - rewrite Hsame; [done|]. rewrite addrs_unfold. set_solver.
  - destruct lf as [l|], (Heap.leaf n) as [lp|]; simpl in *; try done.
    by rewrite Hleafs.
  - assert (∀ e, e ∈ es → ∀ a, a ∈ addrs (node e) →
                 Heap.nodes h' !! a = Heap.nodes h !! a) as Hsub.
    { intros e He a' Ha'. apply Hsame. rewrite addrs_unfold. simpl.
      apply elem_of_cons. right. apply elem_of_flat_map. eauto. }
    clear -IH Hes Hsub.
    induction Hes as [|e he es hes (? & ? & ?) _ IHes]; [constructor|].
    apply Forall_cons in IH as [IHe IH].
    constructor.
    + split_and!; [done..|]. apply IHe; [|done]. apply Hsub. set_solver.
    + apply IHes; [done|]. intros e' He'. apply Hsub. set_solver.
Qed.

(** *** The primitives keep what a heap holds *)

Lemma heap_ok_channel h h' :
  Heap.heap_ok h →
  Heap.nodes h' = Heap.nodes h → Heap.leafs h' = Heap.leafs h →
  Heap.next_addr h' = Heap.next_addr h → Heap.next_arr h' = Heap.next_arr h →
  Heap.next_chan h ≤ Heap.next_chan h' → Heap.heap_ok h'.
Proof.
  intros [Hn Hl] En El Ea Er Hc. split.
  - intros a n. rewrite En, Ea, Er. intros Ha.
    destruct (Hn a n Ha) as (? & Hch & ?). split_and!; [done| |done].
    intros c Hc'. specialize (Hch c Hc'). lia.
  - intros a l. rewrite El, Ea. apply Hl.
Qed.

(** Writing fields of a record that keep its place in the heap. *)
Lemma update_node_ok h p n f :
  Heap.heap_ok h → Heap.nodes h !! p = Some n →
  (∀ c, Heap.mutateCh (f n) = Some (Some c) → c < Heap.next_chan h) →
  (∀ s, Heap.prefix (f n) = Some s → Heap.arr s < Heap.next_arr h) →
  ∃ h', Heap.update_node p f h = Returns (tt, h') ∧ Heap.heap_ok h' ∧
        Heap.nodes h' = <[p := f n]> (Heap.nodes h) ∧
        Heap.leafs h' = Heap.leafs h ∧ Heap.next_addr h' = Heap.next_addr h ∧
        Heap.next_chan h' = Heap.next_chan h ∧ Heap.next_arr h' = Heap.next_arr h.
Proof.
  intros [Hn Hl] Hp Hc Hs. eexists.
  split; [by apply CloneProofs.update_node_Some|]. simpl.
  split_and!; try done. split; [|done]. simpl. intros a m Ha.
  apply lookup_insert_Some in Ha as [[<- <-]|[_ Ha]].
  - destruct (Hn p n Hp) as (? & _ & _). by split_and!.
  - by apply Hn.
Qed.

Lemma insert_node_le h h' p n m :
  Heap.nodes h !! p = Some n →
  Heap.leaf m = Heap.leaf n → Heap.prefix m = Heap.prefix n →
  Heap.edges m = Heap.edges n →
  Heap.nodes h' = <[p := m]> (Heap.nodes h) → Heap.leafs h' = Heap.leafs h →
  Heap.next_addr h ≤ Heap.next_addr h' → Heap.next_chan h ≤ Heap.next_chan h' →
  Heap.next_arr h ≤ Heap.next_arr h' →
  heap_le h h'.
Proof.
  intros Hp Hleaf Hpre Hes En El Ha Hc Hr. split_and!; try done.
  - intros q x Hq. rewrite En. destruct (decide (q = p)) as [->|Hne].
    + rewrite lookup_insert_eq. exists m. rewrite Hp in Hq. injection Hq as <-.
      by split_and!.
    + rewrite lookup_insert_ne by done. eauto.
  - intros q l Hq. rewrite El. eauto.
Qed.

Lemma getMutateCh_le h p n :
  Heap.heap_ok h → Heap.nodes h !! p = Some n →
  ∃ c h',
    Heap.getMutateCh p h = Returns (c, h') ∧ heap_le h h' ∧ Heap.heap_ok h' ∧
    Heap.nodes h' = <[p := Heap.set_mutateCh (Some (Some c)) n]> (Heap.nodes h) ∧
    Heap.leafs h' = Heap.leafs h ∧ Heap.next_addr h' = Heap.next_addr h ∧
    Heap.next_arr h' = Heap.next_arr h ∧
    (∀ c0, Heap.mutateCh n = Some (Some c0) → c = c0).
Proof.
  intros Hok Hp. unfold Heap.getMutateCh.
  go (CloneProofs.load_node_Some h p n Hp).
  assert ((∀ c0, Heap.mutateCh n ≠ Some (Some c0)) →
    ∃ h',
      (let* newCh := Heap.new_chan in
       let* _ := Heap.update_node p (Heap.set_mutateCh (Some (Some newCh))) in
       Heap.ret newCh) h = Returns (Heap.next_chan h, h') ∧
      heap_le h h' ∧ Heap.heap_ok h' ∧
      Heap.nodes h'
        = <[p := Heap.set_mutateCh (Some (Some (Heap.next_chan h))) n]> (Heap.nodes h) ∧
      Heap.leafs h' = Heap.leafs h ∧ Heap.next_addr h' = Heap.next_addr h ∧
      Heap.next_arr h' = Heap.next_arr h) as Hnew.
  { intros Hno. unfold Heap.bind at 1, Heap.new_chan.
    set (h1 := Heap.mkHeap _ _ _ _ _).
    assert (Heap.heap_ok h1) as Hok1.
    { apply (heap_ok_channel h); try done. unfold h1. simpl. lia. }
    destruct (update_node_ok h1 p n
                (Heap.set_mutateCh (Some (Some (Heap.next_chan h)))) Hok1 Hp)
      as (h' & Hu & Hok' & En & El & Ea & Ec & Er).
    { simpl. intros c [= <-]. lia. }
    { simpl. intros s Hs. destruct Hok as [Hn _].
      destruct (Hn p n Hp) as (_ & _ & Harr). by apply Harr. }
    go Hu. exists h'. split_and!; try done.
    eapply (insert_node_le h h' p n
              (Heap.set_mutateCh (Some (Some (Heap.next_chan h))) n));
      try done; unfold h1 in *; simpl in *; lia. }
  destruct (Heap.mutateCh n) as [[c|]|] eqn:Hch.
  - exists c, h. split_and!; try done.
    + apply heap_le_refl.
    + rewrite insert_id; [done|]. rewrite Hp. f_equal.
      by rewrite CloneProofs.set_mutateCh_id.
    + by intros c0 [= ->].
  - destruct Hnew as (h' & ? & ? & ? & ? & ? & ? & ?); [done|].
    exists (Heap.next_chan h), h'. by split_and!.
  - destruct Hnew as (h' & ? & ? & ? & ? & ? & ? & ?); [done|].
    exists (Heap.next_chan h), h'. by split_and!.
Qed.

Lemma leaf_getMutateCh_le h lp (l : @Heap.leafNode T) :
  Heap.heap_ok h → Heap.leafs h !! lp = Some l →
  ∃ c h',
    Heap.leaf_getMutateCh lp h = Returns (c, h') ∧ heap_le h h' ∧ Heap.heap_ok h' ∧
    Heap.leafs h' = <[lp := Heap.set_l_mutateCh (Some (Some c)) l]> (Heap.leafs h) ∧
    Heap.nodes h' = Heap.nodes h ∧ Heap.next_addr h' = Heap.next_addr h ∧
    Heap.next_arr h' = Heap.next_arr h ∧
    (∀ c0, Heap.l_mutateCh l = Some (Some c0) → c = c0).
Proof.
  intros Hok Hp. unfold Heap.leaf_getMutateCh.
  unfold Heap.bind at 1, Heap.load_leaf at 1. rewrite Hp.
  assert (∀ (h1 h2 : @Heap.heap T) c,
    Heap.nodes h2 = Heap.nodes h1 →
    Heap.leafs h2 = <[lp := Heap.set_l_mutateCh (Some (Some c)) l]> (Heap.leafs h1) →
    Heap.leafs h1 !! lp = Some l →
    Heap.next_addr h1 ≤ Heap.next_addr h2 → Heap.next_chan h1 ≤ Heap.next_chan h2 →
    Heap.next_arr h1 ≤ Heap.next_arr h2 → heap_le h1 h2) as Hle.
  { intros h1 h2 c En El Hl1 ? ? ?. split_and!; try done.
    - intros q x Hq. rewrite En. eauto.
    - intros q x Hq. rewrite El. destruct (decide (q = lp)) as [->|Hne].
      + rewrite lookup_insert_eq. rewrite Hl1 in Hq. injection Hq as <-. eauto.
      + rewrite lookup_insert_ne by done. eauto. }
  assert (∃ h',
      (let* newCh := Heap.new_chan in
       let* _ := Heap.update_leaf lp (Heap.set_l_mutateCh (Some (Some newCh))) in
       Heap.ret newCh) h = Returns (Heap.next_chan h, h') ∧
      heap_le h h' ∧ Heap.heap_ok h' ∧
      Heap.leafs h'
        = <[lp := Heap.set_l_mutateCh (Some (Some (Heap.next_chan h))) l]> (Heap.leafs h) ∧
      Heap.nodes h' = Heap.nodes h ∧ Heap.next_addr h' = Heap.next_addr h ∧
      Heap.next_arr h' = Heap.next_arr h) as (h' & Hrun & Hle' & Hok' & El & En & Ea & Er).
  { unfold Heap.bind at 1, Heap.new_chan.
    set (h1 := Heap.mkHeap _ _ _ _ _).
    assert (Heap.leafs h1 !! lp = Some l) as Hp1 by exact Hp.
    rewrite (CloneProofs.bind_Returns _ _ _ _ _
               (CloneProofs.update_leaf_Some h1 lp _ _ Hp1)).
    eexists. split; [done|]. simpl. split_and!; try done.
    - eapply Hle; simpl; try done; lia.
    - destruct Hok as [Hn Hl]. split; simpl.
      + intros a m Ha. destruct (Hn a m Ha) as (? & Hc & ?).
        split_and!; [done| |done]. intros c Hc'. specialize (Hc c Hc'). lia.
      + intros a x [[<- <-]|[_ Ha]]%lookup_insert_Some; eauto. }
  destruct (Heap.l_mutateCh l) as [[c|]|] eqn:Hch.
  - exists c, h. split_and!; try done.
    + apply heap_le_refl.
    + rewrite insert_id; [done|]. rewrite Hp. f_equal. destruct l. simpl in *.
      by rewrite Hch.
    + by intros c0 [= ->].
  - exists (Heap.next_chan h), h'. by split_and!.
  - exists (Heap.next_chan h), h'. by split_and!.
Qed.

End HeapTreeProofs.
End HeapTreeProofs.

Lemma sort_Search_loop_ext (f g : nat → bool) fuel i j :
  (∀ a, f a = g a) → sort_Search_loop fuel f i j = sort_Search_loop fuel g i j.
Proof.
  intros Hfg. revert i j. induction fuel as [|fuel IH]; intros i j; [done|].
  cbn [sort_Search_loop]. rewrite Hfg. destruct (i <? j); [|done].
  by rewrite !IH.
Qed.

(** ** [GetWatch] in memory *)
Module GetWatchProofs.
Import HeapTreeProofs.

Section GetWatchProofs.
Context {T : Type} (zero : T).
Implicit Types (h : @Heap.heap T) (t : @Node T) (p q nn : nat).

Notation "'let*' x := m 'in' k" := (Heap.bind m (λ x, k))
  (at level 10, x binder, m at level 200, k at level 200).

Ltac go H := rewrite (CloneProofs.bind_Returns _ _ _ _ _ H); cbn beta.

(** [getEdge] on a record finds the address of the child that [getEdge]
    finds on the tree. *)
Lemma getEdge_repr h t (n : Heap.Node) b :
  Forall2 (HeapTree.edge_at h) (edges t) (Heap.edges n) →
  match (getEdge t b).2 with
  | Some c => (HeapTree.getEdge n b).2 = Some (addr c) ∧ HeapTree.repr h c ∧
              ∃ e, e ∈ edges t ∧ node e = c
  | None => (HeapTree.getEdge n b).2 = None
  end.
Proof.
  intros Hes. unfold getEdge, HeapTree.getEdge.
  rewrite <- (Forall2_length _ _ _ Hes).
  assert (∀ i, label_ge_at (edges t) b i = HeapTree.label_ge_at (Heap.edges n) b i)
    as Hge.
  { intros i. unfold label_ge_at, HeapTree.label_ge_at.
    pose proof (proj1 (Forall2_lookup _ _ _) Hes i) as Hi.
    destruct Hi as [e he (Hl & _ & _)|]; [by rewrite Hl|done]. }
  unfold sort_Search. rewrite (sort_Search_loop_ext _ _ _ _ _ Hge).
  set (idx := sort_Search_loop _ _ _ _).
  pose proof (proj1 (Forall2_lookup _ _ _) Hes idx) as Hi.
  destruct (edges t !! idx) as [e|] eqn:He, (Heap.edges n !! idx) as [he|] eqn:Hhe;
    inversion Hi as [? ? (Hl & Hn & Hr)|]; subst; [|done]. rewrite Hl.
  destruct (Byte.eqb (label e) b); [|done]. simpl. split_and!; [done..|].
  exists e. split; [|done]. by eapply list_elem_of_lookup_2.
Qed.

Lemma GetWatch_node_fuel f1 f2 t search :
  height t ≤ f1 → height t ≤ f2 →
  HeapTree.GetWatch_node f1 t search = HeapTree.GetWatch_node f2 t search.
Proof.
  revert f2 t search.
  induction f1 as [|f1 IH]; intros [|f2] t search H1 H2;
    try (pose proof (height_pos t); lia).
  simpl. destruct search as [|b s]; [done|].
  destruct (getEdge t b).2 as [n'|] eqn:He; [|done].
  destruct (bytes_HasPrefix _ _); [|done].
  apply getEdge_Some in He as (e & He & _ & <-).
  apply height_child in He. apply IH; lia.
Qed.

Lemma GetWatch_node_unfold t search :
  HeapTree.GetWatch_node (height t) t search =
    match search with
    | [] => t
    | b :: _ =>
        match (getEdge t b).2 with
        | None => t
        | Some n' =>
            if bytes_HasPrefix search (prefix n')
            then HeapTree.GetWatch_node (height n') n'
                   (drop (length (prefix n')) search)
            else n'
        end
    end.
Proof.
  pose proof (height_pos t). destruct (height t) as [|f] eqn:Hh; [lia|].
  simpl. destruct search as [|b s]; [done|].
  destruct (getEdge t b).2 as [n'|] eqn:He; [|done].
  destruct (bytes_HasPrefix _ _); [|done].
  apply getEdge_Some in He as (e & He & _ & <-).
  apply height_child in He. apply GetWatch_node_fuel; lia.
Qed.

(** What the loop of [GetWatch] returns and where its channel comes
    from. *)
Lemma GetWatch_loop_spec fuel :
  ∀ t search h w0,
  Heap.heap_ok h → HeapTree.repr h t → height t ≤ fuel →
  (∃ n0, Heap.nodes h !! addr t = Some n0 ∧ Heap.mutateCh n0 = Some (Some w0)) →
  ∃ c h',
    HeapTree.GetWatch_loop zero fuel (addr t) search w0 h
      = Returns ((c, (Get zero t search).1, (Get zero t search).2), h') ∧
    HeapTree.heap_le h h' ∧ Heap.heap_ok h' ∧
    ∃ n, Heap.nodes h' !! addr (HeapTree.GetWatch_node (height t) t search) = Some n ∧
      if (Get zero t search).2
      then ∃ lp l, Heap.leaf n = Some lp ∧ Heap.leafs h' !! lp = Some l ∧
                   Heap.l_mutateCh l = Some (Some c)
      else Heap.mutateCh n = Some (Some c).
Proof.
  induction fuel as [|fuel IH]; intros t search h w0 Hok Hr Hh (n0 & Hn0 & Hw0).
  { pose proof (height_pos t). lia. }
  pose proof Hr as (n & Hn & Hpre & Hleaf & Hes)%repr_unfold.
  rewrite Hn0 in Hn. injection Hn as <-.
  cbn [HeapTree.GetWatch_loop]. rewrite Get_unfold, GetWatch_node_unfold.
  destruct search as [|b s].
  - (* the search is used up *)
    go (CloneProofs.load_node_Some h _ _ Hn0).
    unfold HeapTree.leaf_at in Hleaf.
    destruct (leaf t) as [l|], (Heap.leaf n0) as [lp|] eqn:Hlp; try done.
    + destruct Hleaf as (l' & Hl' & Hk & Hv).
      destruct (leaf_getMutateCh_le h lp l' Hok Hl')
        as (c & h' & Hg & Hle & Hok' & El & En & _ & _ & _).
      go Hg.
      assert (Heap.leafs h' !! lp = Some (Heap.set_l_mutateCh (Some (Some c)) l'))
        as Hlp' by (rewrite El; apply lookup_insert_eq).
      unfold Heap.bind, Heap.load_leaf. rewrite Hlp'. simpl.
      exists c, h'. rewrite Hv. split_and!; [done..|].
      exists n0. rewrite En. split; [done|]. eauto.
    + exists w0, h. split_and!; [done|apply heap_le_refl|done|]. eauto.
  - go (CloneProofs.load_node_Some h _ _ Hn0).
    pose proof (getEdge_repr h t n0 b Hes) as Hedge.
    destruct (getEdge t b).2 as [child|] eqn:Hchild.
    2:{ rewrite Hedge. exists w0, h.
        split_and!; [done|apply heap_le_refl|done|]. eauto. }
    destruct Hedge as (-> & Hrc & e & He & <-).
    pose proof Hrc as (m & Hm & Hprem & _)%repr_unfold.
    destruct (getMutateCh_le h _ m Hok Hm)
      as (c1 & h1 & Hg & Hle1 & Hok1 & En1 & El1 & _ & _ & _).
    go Hg.
    assert (Heap.nodes h1 !! addr (node e)
            = Some (Heap.set_mutateCh (Some (Some c1)) m)) as Hm1
      by (rewrite En1; apply lookup_insert_eq).
    go (CloneProofs.load_node_Some h1 _ _ Hm1).
    change (Heap.prefix (Heap.set_mutateCh (Some (Some c1)) m)) with (Heap.prefix m).
    rewrite Hprem.
    destruct (bytes_HasPrefix (b :: s) (prefix (node e))) eqn:Hp.
    + destruct (IH (node e) (drop (length (prefix (node e))) (b :: s)) h1 c1)
        as (c & h' & Hrun & Hle & Hok' & Hw); [done|by eapply repr_le| |by eauto|].
      { pose proof (height_child t e He). lia. }
      exists c, h'. split_and!; [done|by eapply heap_le_trans|done..].
    + exists c1, h1. split_and!; [done..|]. eexists. split; [exact Hm1|done].
Qed.

(** [GetWatch] from the root of a tree in memory. *)
Lemma GetWatch_run h t k fuel :
  Heap.heap_ok h → HeapTree.repr h t → height t ≤ fuel →
  ∃ c h',
    HeapTree.GetWatch zero fuel (addr t) k h
      = Returns ((c, (Get zero t k).1, (Get zero t k).2), h') ∧
    HeapTree.heap_le h h' ∧ Heap.heap_ok h' ∧ HeapTree.repr h' t ∧
    ∃ n, Heap.nodes h' !! addr (HeapTree.GetWatch_node (height t) t k) = Some n ∧
      if (Get zero t k).2
      then ∃ lp l, Heap.leaf n = Some lp ∧ Heap.leafs h' !! lp = Some l ∧
                   Heap.l_mutateCh l = Some (Some c)
      else Heap.mutateCh n = Some (Some c).
Proof.
  intros Hok Hr Hh. unfold HeapTree.GetWatch.
  pose proof Hr as (n & Hn & _)%repr_unfold.
  destruct (getMutateCh_le h _ n Hok Hn)
    as (w0 & h1 & Hg & Hle1 & Hok1 & En1 & _).
  go Hg.
  destruct (GetWatch_loop_spec fuel t k h1 w0)
    as (c & h' & Hrun & Hle & Hok' & Hw); [done|by eapply repr_le|done| |].
  { eexists. split; [rewrite En1; apply lookup_insert_eq|done]. }
  exists c, h'. split_and!; [done| |done| |done].
  - by eapply heap_le_trans.
  - eapply repr_le; [|done]. by eapply heap_le_trans.
Qed.

(** X27. [GetWatch] on a tree in memory returns the value and the flag
    that [Get] returns, together with a channel: the channel of the leaf
    when the key is found, and otherwise the channel of the last node the
    descent reached through an edge (the root if it followed none), even
    when the prefix of that node then failed to match.  It makes the
    channels it needs and changes nothing else of the tree. *)
Theorem GetWatch_returns_Get_and_the_watch h t k fuel :
  Heap.heap_ok h → HeapTree.repr h t → height t ≤ fuel →
  ∃ c h',
    HeapTree.GetWatch zero fuel (addr t) k h
      = Returns ((c, (Get zero t k).1, (Get zero t k).2), h') ∧
    HeapTree.heap_le h h' ∧ Heap.heap_ok h' ∧ HeapTree.repr h' t ∧
    ∃ n, Heap.nodes h' !! addr (HeapTree.GetWatch_node (height t) t k) = Some n ∧
      if (Get zero t k).2
      then ∃ lp l, Heap.leaf n = Some lp ∧ Heap.leafs h' !! lp = Some l ∧
                   Heap.l_mutateCh l = Some (Some c)
      else Heap.mutateCh n = Some (Some c).
Proof. apply GetWatch_run. Qed.

End GetWatchProofs.
End GetWatchProofs.

(** ** The deep [clone] *)
Module DeepCloneProofs.
Import HeapTree HeapTreeProofs.

Section DeepCloneProofs.
Context {T : Type} (zero : T).
Implicit Types (h : @Heap.heap T) (t : @Node T) (p q nn : nat).

Notation "'let*' x := m 'in' k" := (Heap.bind m (λ x, k))
  (at level 10, x binder, m at level 200, k at level 200).

Ltac go H := rewrite (CloneProofs.bind_Returns _ _ _ _ _ H); cbn beta.

(** Writing the counts of a record. *)
Lemma update_node_le h q x f :
  Heap.heap_ok h → Heap.nodes h !! q = Some x →
  Heap.leaf (f x) = Heap.leaf x → Heap.prefix (f x) = Heap.prefix x →
  Heap.edges (f x) = Heap.edges x → Heap.mutateCh (f x) = Heap.mutateCh x →
  ∃ h', Heap.update_node q f h = Returns (tt, h') ∧ heap_le h h' ∧ Heap.heap_ok h' ∧
        Heap.nodes h' = <[q := f x]> (Heap.nodes h) ∧
        Heap.leafs h' = Heap.leafs h ∧ Heap.next_addr h' = Heap.next_addr h ∧
        Heap.next_chan h' = Heap.next_chan h ∧ Heap.next_arr h' = Heap.next_arr h.
Proof.
  intros Hok Hq Hl Hp He Hc.
  destruct (update_node_ok h q x f Hok Hq) as (h' & Hu & Hok' & En & El & Ea & Ec & Er).
  { rewrite Hc. destruct Hok as [Hn _]. by destruct (Hn q x Hq) as (_ & ? & _). }
  { rewrite Hp. destruct Hok as [Hn _]. by destruct (Hn q x Hq) as (_ & _ & ?). }
  exists h'. split_and!; try done.
  eapply (insert_node_le h h' q x (f x)); try done; lia.
Qed.

Lemma update_leaf_le h q (l : @Heap.leafNode T) f :
  Heap.heap_ok h → Heap.leafs h !! q = Some l →
  Heap.key (f l) = Heap.key l → Heap.val (f l) = Heap.val l →
  ∃ h', Heap.update_leaf q f h = Returns (tt, h') ∧ heap_le h h' ∧ Heap.heap_ok h' ∧
        Heap.nodes h' = Heap.nodes h ∧
        Heap.leafs h' = <[q := f l]> (Heap.leafs h) ∧
        Heap.next_addr h' = Heap.next_addr h ∧
        Heap.next_chan h' = Heap.next_chan h ∧ Heap.next_arr h' = Heap.next_arr h.
Proof.
  intros [Hn Hl] Hq Hk Hv. eexists.
  split; [by apply CloneProofs.update_leaf_Some|]. simpl.
  split_and!; try done.
  - split_and!; simpl; try done.
    + eauto.
    + intros a x Ha. destruct (decide (a = q)) as [->|Hne].
      * rewrite lookup_insert_eq. rewrite Hq in Ha. injection Ha as <-. eauto.
      * rewrite lookup_insert_ne by done. eauto.
  - split; simpl; [done|].
    intros a x [[<- <-]|[_ Ha]]%lookup_insert_Some; eauto.
Qed.

(** [processLazyRefCount] writes counts only. *)
Lemma processLazyRefCount_le h p n :
  Heap.heap_ok h → Heap.nodes h !! p = Some n → Heap.node_ok h n →
  ∃ h', Heap.processLazyRefCount p h = Returns (tt, h') ∧
        heap_le h h' ∧ Heap.heap_ok h' ∧
        Heap.next_addr h' = Heap.next_addr h.
Proof.
  intros Hok Hp [Hleaf Hedges]. unfold Heap.processLazyRefCount.
  go (CloneProofs.load_node_Some h p n Hp).
  destruct (Heap.lazyRefCount n =? 0)%Z.
  { exists h. split_and!; [done|apply heap_le_refl|done..]. }
  set (I := λ h1 : @Heap.heap T,
         heap_le h h1 ∧ Heap.heap_ok h1 ∧ Heap.next_addr h1 = Heap.next_addr h).
  assert (∀ h1 q f, I h1 → is_Some (Heap.nodes h !! q) →
            (∀ x, Heap.leaf (f x) = Heap.leaf x ∧ Heap.prefix (f x) = Heap.prefix x ∧
                  Heap.edges (f x) = Heap.edges x ∧
                  Heap.mutateCh (f x) = Heap.mutateCh x) →
            ∃ h2, Heap.update_node q f h1 = Returns (tt, h2) ∧ I h2) as Hstep.
  { intros h1 q f (Hle1 & Hok1 & Ea1) [x Hx] Hf.
    pose proof Hle1 as (_ & _ & _ & Hnodes & _).
    destruct (Hnodes q x Hx) as (x1 & Hx1 & _).
    destruct (Hf x1) as (? & ? & ? & ?).
    destruct (update_node_le h1 q x1 f Hok1 Hx1) as (h2 & Hu & Hle2 & Hok2 & _ & _ & Ea2 & _);
      [done..|].
    exists h2. split; [done|]. split_and!; [by eapply heap_le_trans|done|congruence]. }
  assert (I h) as HI0 by (split_and!; [apply heap_le_refl|done..]).
  assert (∀ h1, I h1 → ∃ n1, Heap.nodes h1 !! p = Some n1 ∧
                             Heap.leaf n1 = Heap.leaf n ∧
                             Heap.edges n1 = Heap.edges n) as Hnode.
  { intros h1 ((_ & _ & _ & Hnodes & _) & _).
    destruct (Hnodes p n Hp) as (n1 & ? & ? & _ & ?). eauto. }
  destruct (Hstep h p
              (λ n, Heap.set_refCount
                      (Heap.wrap64 (Heap.refCount n + Heap.lazyRefCount n)) n) HI0)
    as (h1 & Hu1 & HI1); [by rewrite Hp|done|].
  go Hu1.
  destruct (Hnode h1 HI1) as (n1 & Hn1 & Hleaf1 & Hes1).
  go (CloneProofs.load_node_Some h1 p n1 Hn1).
  assert (∃ h2, (match Heap.leaf n1 with
                 | Some lp =>
                     Heap.update_leaf lp
                       (λ l, Heap.set_l_refCount
                               (Heap.wrap64 (Heap.l_refCount l + Heap.lazyRefCount n1)) l)
                 | None => Heap.ret tt
                 end) h1 = Returns (tt, h2) ∧ I h2) as (h2 & Hu2 & HI2).
  { rewrite Hleaf1. destruct (Heap.leaf n) as [lp|] eqn:Hlp; [|by exists h1].
    destruct (Hleaf lp eq_refl) as [l Hl].
    destruct HI1 as (Hle1 & Hok1 & Ea1).
    pose proof Hle1 as (_ & _ & _ & _ & Hleafs).
    destruct (Hleafs lp l Hl) as (l1 & Hl1 & _).
    destruct (update_leaf_le h1 lp l1
                (λ l, Heap.set_l_refCount
                        (Heap.wrap64 (Heap.l_refCount l + Heap.lazyRefCount n1)) l)
                Hok1 Hl1) as (h2 & Hu & Hle2 & Hok2 & _ & _ & Ea2 & _); [done..|].
    exists h2. split; [done|].
    split_and!; [by eapply heap_le_trans|done|congruence]. }
  go Hu2.
  destruct (Hnode h2 HI2) as (n2 & Hn2 & Hleaf2 & Hes2).
  go (CloneProofs.load_node_Some h2 p n2 Hn2).
  destruct (CloneProofs.for_range_inv I (Heap.edges n2) 0
              (λ _ ed,
                 let* c := Heap.deref (node ed) in
                 let* n := Heap.load_node p in
                 Heap.update_node c
                   (λ m, Heap.set_lazyRefCount
                           (Heap.wrap64 (Heap.lazyRefCount m + Heap.lazyRefCount n)) m))
              h2) as (h3 & Hu3 & HI3); [|done|].
  { intros _ ed h' Hed HI'. rewrite Hes2 in Hed.
    eapply Forall_forall in Hedges as (c & Hc & Hin); [|done].
    unfold Heap.bind at 1, Heap.deref. rewrite Hc.
    destruct (Hnode h' HI') as (n' & Hn' & _).
    go (CloneProofs.load_node_Some h' p n' Hn').
    by apply Hstep. }
  go Hu3.
  destruct (Hstep h3 p (Heap.set_lazyRefCount 0) HI3) as (h4 & Hu4 & Hle4 & Hok4 & Ea4);
    [by rewrite Hp|done|].
  exists h4. by split_and!.
Qed.

(** *** Heaps that differ in the record being filled in *)

Lemma heap_le_but_of_le nn h h' : heap_le h h' → heap_le_but nn h h'.
Proof.
  intros (? & ? & ? & Hn & ?). split_and!; try done. intros q n _. apply Hn.
Qed.

Lemma heap_le_but_refl nn h : heap_le_but nn h h.
Proof. apply heap_le_but_of_le, heap_le_refl. Qed.

Lemma heap_le_but_trans nn h1 h2 h3 :
  heap_le_but nn h1 h2 → heap_le_but nn h2 h3 → heap_le_but nn h1 h3.
Proof.
  intros (Ha & Hc & Hr & Hn & Hl) (Ha' & Hc' & Hr' & Hn' & Hl').
  split_and!; try lia.
  - intros q n Hne Hq. destruct (Hn q n Hne Hq) as (n' & Hq' & ? & ? & ?).
    destruct (Hn' q n' Hne Hq') as (n'' & ? & ? & ? & ?).
    exists n''. split_and!; congruence.
  - intros q l Hq. destruct (Hl q l Hq) as (l' & Hq' & ? & ?).
    destruct (Hl' q l' Hq') as (l'' & ? & ? & ?).
    exists l''. split_and!; congruence.
Qed.

(** What lay in the heap before the new record was made is kept. *)
Lemma heap_le_close nn h h1 h2 :
  heap_le h h1 → heap_le_but nn h1 h2 → Heap.nodes h !! nn = None → heap_le h h2.
Proof.
  intros (Ha & Hc & Hr & Hn & Hl) (Ha' & Hc' & Hr' & Hn' & Hl') Hnn.
  split_and!; try lia.
  - intros q n Hq. destruct (Hn q n Hq) as (n' & Hq' & ? & ? & ?).
    assert (q ≠ nn) as Hne by (intros ->; congruence).
    destruct (Hn' q n' Hne Hq') as (n'' & ? & ? & ? & ?).
    exists n''. split_and!; congruence.
  - intros q l Hq. destruct (Hl q l Hq) as (l' & Hq' & ? & ?).
    destruct (Hl' q l' Hq') as (l'' & ? & ? & ?).
    exists l''. split_and!; congruence.
Qed.

Lemma leaf_at_le_but nn h h' lf lp :
  heap_le_but nn h h' → leaf_at h lf lp → leaf_at h' lf lp.
Proof.
  intros (_ & _ & _ & _ & Hl). destruct lf as [l|], lp as [q|]; simpl; try done.
  intros (l' & Hq & Hk & Hv). destruct (Hl q l' Hq) as (l'' & ? & Hk' & Hv').
  exists l''. split_and!; [done|by rewrite Hk'|by rewrite Hv'].
Qed.

Lemma addrs_child t e a : e ∈ edges t → a ∈ addrs (node e) → a ∈ addrs t.
Proof.
  intros He Ha. rewrite (addrs_unfold t). apply elem_of_cons. right.
  apply elem_of_flat_map. eauto.
Qed.

Lemma repr_le_but nn h h' t :
  heap_le_but nn h h' → nn ∉ addrs t → repr h t → repr h' t.
Proof.
  intros Hle. induction t as [a lf p es IH] using Node_ind'.
  intros Hnn. rewrite !repr_unfold. simpl. intros (n & Hn & Hp & Hlf & Hes).
  pose proof Hle as (_ & _ & _ & Hnodes & _).
  destruct (Hnodes a n) as (n' & Hn' & Hleaf & Hpre & Hedges); [|done|].
  { intros ->. apply Hnn. rewrite addrs_unfold. set_solver. }
  exists n'. split_and!; [done|by rewrite Hpre| |].
  - rewrite Hleaf. by eapply leaf_at_le_but.
  - rewrite Hedges.
    assert (∀ e, e ∈ es → nn ∉ addrs (node e)) as Hsub.
    { intros e He Ha. apply Hnn. by eapply (addrs_child (mkNode a lf p es)). }
    clear -IH Hes Hsub.
    induction Hes as [|e he es hes (? & ? & ?) _ IHes]; [constructor|].
    apply Forall_cons in IH as [IHe IH].
    constructor.
    + split_and!; [done..|]. apply IHe; [|done]. apply Hsub. set_solver.
    + apply IHes; [done|]. intros e' He'. apply Hsub. set_solver.
Qed.

(** The nodes of a tree that lies in a heap have records there. *)
Lemma repr_lookup h t a : repr h t → a ∈ addrs t → is_Some (Heap.nodes h !! a).
Proof.
  induction t as [a0 lf p es IH] using Node_ind'.
  rewrite repr_unfold, addrs_unfold. simpl. intros (n & Hn & _ & _ & Hes).
  intros [->|Hin]%elem_of_cons; [by eexists|].
  apply elem_of_flat_map in Hin as (e & He & Hin).
  eapply Forall_forall in IH; [|done].
  apply IH; [|done].
  apply list_elem_of_lookup_1 in He as [i Hi].
  destruct (Forall2_lookup_l _ _ _ _ _ Hes Hi) as (he & _ & _ & _ & Hr). done.
Qed.

Lemma fresh_from_le_but nn B h h' t :
  heap_le_but nn h h' → nn ∉ addrs t → repr h t →
  fresh_from B h t → fresh_from B h' t.
Proof.
  intros (_ & _ & _ & Hnodes & _) Hnn Hrepr Hfresh a Ha.
  destruct (Hfresh a Ha) as [HB Hleaf]. split; [done|].
  intros n' lp Hn' Hlp.
  destruct (repr_lookup h t a Hrepr Ha) as [n Hn].
  destruct (Hnodes a n) as (n'' & Hn'' & Hl & _); [by intros ->|done|].
  rewrite Hn' in Hn''. injection Hn'' as <-.
  apply (Hleaf n lp Hn). congruence.
Qed.

Lemma fresh_from_weaken B B' h t : B' ≤ B → fresh_from B h t → fresh_from B' h t.
Proof.
  intros HB Hfresh a Ha. destruct (Hfresh a Ha) as [? Hleaf].
  split; [lia|]. intros n lp Hn Hlp. specialize (Hleaf n lp Hn Hlp). lia.
Qed.

(** The record of a tree points to records that are there. *)
Lemma repr_node_ok h t n :
  repr h t → Heap.nodes h !! addr t = Some n → Heap.node_ok h n.
Proof.
  rewrite repr_unfold. intros (n' & Hn' & _ & Hlf & Hes) Hn.
  rewrite Hn in Hn'. injection Hn' as <-. split.
  - intros lp Hlp. rewrite Hlp in Hlf. destruct (leaf t); [|done].
    destruct Hlf as (l' & -> & _). by eexists.
  - clear -Hes. induction Hes as [|e he es hes (? & Hc & Hr) _ IH]; constructor; [|done].
    exists (addr (node e)). split; [done|].
    apply (repr_lookup h (node e)); [done|]. rewrite addrs_unfold. set_solver.
Qed.

(** *** Filling in the new record *)

Lemma cloning_upd nn h0 hc L P E f L' P' E' :
  cloning nn h0 hc L P E →
  (∀ x, Heap.nodes hc !! nn = Some x →
        Heap.leaf x = L → Heap.prefix x = P → Heap.edges x = E →
        Heap.leaf (f x) = L' ∧ Heap.prefix (f x) = P' ∧ Heap.edges (f x) = E' ∧
        (∀ c, Heap.mutateCh (f x) = Some (Some c) →
              Heap.mutateCh x = Some (Some c) ∨ c < Heap.next_chan hc) ∧
        (∀ s, Heap.prefix (f x) = Some s →
              Heap.prefix x = Some s ∨ Heap.arr s < Heap.next_arr hc)) →
  ∃ hc', Heap.update_node nn f hc = Returns (tt, hc') ∧
         cloning nn h0 hc' L' P' E' ∧ heap_le_but nn hc hc' ∧
         Heap.leafs hc' = Heap.leafs hc ∧
         (∀ q, q ≠ nn → Heap.nodes hc' !! q = Heap.nodes hc !! q) ∧
         Heap.next_addr hc' = Heap.next_addr hc ∧
         Heap.next_chan hc' = Heap.next_chan hc ∧
         Heap.next_arr hc' = Heap.next_arr hc.
Proof.
  intros (Hle & Hok & x & Hx & HL & HP & HE) Hf.
  destruct (Hf x Hx HL HP HE) as (HL' & HP' & HE' & Hch & Harr).
  pose proof Hok as [Hn _]. destruct (Hn nn x Hx) as (_ & Hchx & Harrx).
  destruct (update_node_ok hc nn x f Hok Hx) as (hc' & Hu & Hok' & En & El & Ea & Ec & Er).
  { intros c Hc. destruct (Hch c Hc); eauto. }
  { intros s0 Hs. destruct (Harr s0 Hs); eauto. }
  assert (heap_le_but nn hc hc') as Hstep.
  { split_and!; try lia.
    - intros q n Hne Hq. rewrite En, lookup_insert_ne by done. eauto.
    - intros q l Hq. rewrite El. eauto. }
  exists hc'. split_and!; try done.
  - split_and!; [by eapply heap_le_but_trans|done|].
    exists (f x). rewrite En, lookup_insert_eq. by split_and!.
  - intros q Hne. by rewrite En, lookup_insert_ne.
Qed.

Lemma cloning_le nn h0 hc hc' L P E :
  cloning nn h0 hc L P E → heap_le hc hc' → Heap.heap_ok hc' →
  cloning nn h0 hc' L P E.
Proof.
  intros (Hle & Hok & x & Hx & HL & HP & HE) Hle' Hok'.
  split_and!; [|done|].
  - eapply heap_le_but_trans; [done|]. by apply heap_le_but_of_le.
  - destruct Hle' as (_ & _ & _ & Hn & _).
    destruct (Hn nn x Hx) as (x' & ? & ? & ? & ?).
    exists x'. split_and!; congruence.
Qed.

Lemma alter_middle {A} (f : A → A) (l1 l2 : list A) x i :
  i = length l1 → alter f i (l1 ++ x :: l2) = l1 ++ f x :: l2.
Proof.
  intros ->. replace (length l1) with (length l1 + 0) by lia.
  by rewrite alter_app_r.
Qed.

(** *** The loop over the edges *)

Local Notation zero_edge := (@mkEdge (option nat) "000"%byte None).

Local Notation clone_edge fuel nn :=
  (λ (idx : nat) (ed : edge (option nat)),
     let* _ := Heap.update_node nn (Heap.set_edge_label idx (label ed)) in
     if true then
       let* c := Heap.deref (node ed) in
       let* c' := Heap.clone zero fuel true c in
       Heap.update_node nn (Heap.set_edge_node idx (Some c'))
     else Heap.update_node nn (Heap.set_edge_node idx (node ed))).

Lemma cloning_addr nn h0 hc L P E : cloning nn h0 hc L P E → nn < Heap.next_addr hc.
Proof.
  intros (_ & [Hn _] & x & Hx & _). by destruct (Hn nn x Hx).
Qed.

(** One turn of the loop: the label is written, the child is cloned and
    the clone is linked. *)
Lemma clone_edge_spec fuel' nn h0 L P (e : edge (@Node T)) he
    (done' : list (edge (@Node T))) k hcur :
  deep_clone_ok zero fuel' (node e) → edge_at hcur e he →
  height (node e) ≤ fuel' → nn ∉ addrs (node e) →
  cloning nn h0 hcur L P ((edge_rec <$> done') ++ replicate (S k) zero_edge) →
  ∃ h' te,
    clone_edge fuel' nn (length done') he hcur = Returns (tt, h') ∧
    cloning nn h0 h' L P
      ((edge_rec <$> (done' ++ [mkEdge (label e) te])) ++ replicate k zero_edge) ∧
    heap_le_but nn hcur h' ∧
    strip te = strip (node e) ∧ repr h' te ∧ fresh_from (S nn) h' te.
Proof.
  intros Hcl (Hlab & Hnode & Hrepr) Hh Hnn Hc.
  destruct (cloning_upd nn h0 hcur L P _
              (Heap.set_edge_label (length done') (label he)) L P
              ((edge_rec <$> done') ++ mkEdge (label he) None :: replicate k zero_edge) Hc)
    as (h1 & Hu1 & Hc1 & Hle1 & _).
  { intros x Hx HL HP HE. simpl. split_and!; [done|done| |by left|by left].
    rewrite HE. cbn [replicate].
    by rewrite alter_middle by (by rewrite length_fmap). }
  cbn beta. go Hu1. cbv iota.
  assert (Heap.deref (node he) h1 = Returns (addr (node e), h1)) as Hd
    by (unfold Heap.deref; by rewrite Hnode).
  go Hd.
  pose proof (cloning_addr _ _ _ _ _ _ Hc1) as Hlt.
  destruct (Hcl h1) as (c' & h2 & te & Hrun & Hle2 & Hok2 & Hrepr2 & Haddr & Hstrip & Hfresh);
    [by destruct Hc1 as (_ & ? & _)|by eapply repr_le_but|done|].
  go Hrun.
  pose proof (cloning_le _ _ _ _ _ _ _ Hc1 Hle2 Hok2) as Hc2.
  destruct (cloning_upd nn h0 h2 L P _
              (Heap.set_edge_node (length done') (Some c')) L P
              ((edge_rec <$> (done' ++ [mkEdge (label e) te])) ++ replicate k zero_edge) Hc2)
    as (h3 & Hu3 & Hc3 & Hle3 & _).
  { intros x Hx HL HP HE. simpl. split_and!; [done|done| |by left|by left].
    rewrite HE, alter_middle by (by rewrite length_fmap).
    rewrite fmap_app, <- app_assoc. simpl. by rewrite <- Haddr, Hlab. }
  assert (nn ∉ addrs te) as Hnte.
  { intros Hin. destruct (Hfresh nn Hin) as [? _]. lia. }
  exists h3, te. split_and!; [done|done| |done| |].
  - eapply heap_le_but_trans; [done|].
    eapply heap_le_but_trans; [by apply heap_le_but_of_le|done].
  - by eapply repr_le_but.
  - eapply fresh_from_le_but; [done..|].
    eapply fresh_from_weaken; [|done]. lia.
Qed.

Lemma edges_at_le_but nn h h' (es : list (edge (@Node T))) hes :
  heap_le_but nn h h' → Forall (λ e, nn ∉ addrs (node e)) es →
  Forall2 (edge_at h) es hes → Forall2 (edge_at h') es hes.
Proof.
  intros Hle Hn H2. induction H2 as [|e he es hes (? & ? & ?) _ IH]; [constructor|].
  apply Forall_cons in Hn as [Hn_e Hn].
  constructor; [|by apply IH]. split_and!; [done..|]. by eapply repr_le_but.
Qed.

Lemma clone_edges_spec fuel' nn h0 L P :
  ∀ (todo : list (edge (@Node T))) (htodo : list (edge (option nat)))
    (done' : list (edge (@Node T))) hcur,
    Forall (λ e, deep_clone_ok zero fuel' (node e)) todo →
    Forall2 (edge_at hcur) todo htodo →
    Forall (λ e, height (node e) ≤ fuel') todo →
    Forall (λ e, nn ∉ addrs (node e)) todo →
    cloning nn h0 hcur L P
      ((edge_rec <$> done') ++ replicate (length htodo) zero_edge) →
    Forall (λ e', repr hcur (node e') ∧ fresh_from (S nn) hcur (node e')) done' →
    ∃ h' es',
      Heap.for_range htodo (length done') (clone_edge fuel' nn) hcur
        = Returns (tt, h') ∧
      cloning nn h0 h' L P (edge_rec <$> (done' ++ es')) ∧
      heap_le_but nn hcur h' ∧
      Forall2 same_edge todo es' ∧
      Forall (λ e', repr h' (node e') ∧ fresh_from (S nn) h' (node e'))
        (done' ++ es').
Proof.
  induction todo as [|e todo IH]; intros htodo done' hcur Hcl H2 Hh Hn Hc Hdone.
  - apply Forall2_nil_inv_l in H2 as ->. simpl in *.
    exists hcur, []. rewrite !app_nil_r in *.
    split_and!; [done|done|apply heap_le_but_refl|constructor|done].
  - apply Forall2_cons_inv_l in H2 as (he & htodo' & Hat & H2 & ->).
    apply Forall_cons in Hcl as [Hcl_e Hcl].
    apply Forall_cons in Hh as [Hh_e Hh].
    apply Forall_cons in Hn as [Hn_e Hn].
    destruct (clone_edge_spec fuel' nn h0 L P e he done' (length htodo') hcur)
      as (h1 & te & Hrun & Hc1 & Hle1 & Hstrip & Hrepr & Hfresh); [done..|].
    cbn [Heap.for_range]. go Hrun.
    assert (nn ∉ addrs te) as Hnte.
    { intros Hin. destruct (Hfresh nn Hin) as [? _]. lia. }
    destruct (IH htodo' (done' ++ [mkEdge (label e) te]) h1)
      as (h' & es' & Hloop & Hc' & Hle' & Hsame & Hall); [done| |done|done|done| |].
    { by eapply edges_at_le_but. }
    { apply Forall_app. split; [|constructor; [by split|constructor]].
      eapply Forall_impl; [done|]. intros e0 [Hr0 Hf0].
      assert (nn ∉ addrs (node e0)) as Hn0.
      { intros Hin. destruct (Hf0 nn Hin) as [? _]. lia. }
      split; [by eapply repr_le_but|by eapply fresh_from_le_but]. }
    rewrite length_app in Hloop. simpl in Hloop. rewrite Nat.add_1_r in Hloop.
    exists h', (mkEdge (label e) te :: es').
    rewrite <- app_assoc in Hc', Hall. simpl in Hc', Hall.
    split_and!; [done|done|by eapply heap_le_but_trans| |done].
    constructor; [by split|done].
Qed.

(** *** The steps before the loop *)

Lemma leaf_clone_le h lp (l : @Heap.leafNode T) :
  Heap.heap_ok h → Heap.leafs h !! lp = Some l →
  ∃ h' l',
    Heap.leaf_clone zero lp h = Returns (Heap.next_addr h, h') ∧
    heap_le h h' ∧ Heap.heap_ok h' ∧
    Heap.leafs h' !! Heap.next_addr h = Some l' ∧
    Heap.slice_bytes (Heap.key l') = Heap.slice_bytes (Heap.key l) ∧
    Heap.val l' = Heap.val l.
Proof.
  intros Hok Hl. pose proof Hok as [Hn Hlf].
  assert (Heap.next_addr h ≠ lp) as Hne.
  { specialize (Hlf lp l Hl). lia. }
  destruct (HeapProofs.leaf_clone_run zero h lp l Hl Hne)
    as (h' & c & Hrun & Hleafs & En & Ea & Er & Ec & _).
  eexists h', _. split; [done|]. split_and!.
  - split_and!; try lia.
    + intros q n Hq. rewrite En. eauto.
    + intros q x Hq. rewrite Hleafs.
      destruct (decide (q = Heap.next_addr h)) as [->|_].
      { specialize (Hlf _ _ Hq). lia. }
      destruct (decide (q = lp)) as [->|_]; [|eauto].
      rewrite Hl in Hq. injection Hq as <-. eauto.
  - split.
    + intros a n. rewrite En. intros Ha. destruct (Hn a n Ha) as (? & Hc & Hs).
      split_and!; [lia| |].
      * intros c0 Hc0. specialize (Hc c0 Hc0). lia.
      * intros s0 Hs0. specialize (Hs s0 Hs0). lia.
    + intros a x. rewrite Hleafs.
      destruct (decide (a = Heap.next_addr h)) as [->|_]; [lia|].
      destruct (decide (a = lp)) as [->|_].
      * specialize (Hlf _ _ Hl). lia.
      * intros Ha. specialize (Hlf _ _ Ha). lia.
  - rewrite Hleafs. by rewrite decide_True.
  - done.
  - done.
Qed.

Lemma new_node_le h :
  Heap.heap_ok h →
  ∃ h', Heap.new_node h = Returns (Heap.next_addr h, h') ∧
        heap_le h h' ∧ Heap.nodes h !! Heap.next_addr h = None ∧
        cloning (Heap.next_addr h) h' h' None None [].
Proof.
  intros [Hn Hl].
  assert (Heap.nodes h !! Heap.next_addr h = None) as Hnone.
  { destruct (Heap.nodes h !! Heap.next_addr h) as [x|] eqn:Hx; [|done].
    destruct (Hn _ _ Hx). lia. }
  eexists. split; [reflexivity|]. split_and!; [|done|].
  - split_and!; simpl; try lia.
    + intros q n Hq. rewrite lookup_insert_ne by (intros <-; congruence). eauto.
    + eauto.
  - split_and!; [apply heap_le_but_refl| |].
    + split; simpl.
      * intros a n [[<- <-]|[_ Ha]]%lookup_insert_Some.
        { simpl. split_and!; [lia|done..]. }
        destruct (Hn a n Ha) as (? & ? & ?). split_and!; [lia|done..].
      * intros a l Ha. specialize (Hl a l Ha). lia.
    + eexists. simpl. rewrite lookup_insert_eq. by split_and!.
Qed.

Lemma new_arr_le h :
  Heap.heap_ok h →
  ∃ h', Heap.new_arr h = Returns (Heap.next_arr h, h') ∧
        heap_le h h' ∧ Heap.heap_ok h' ∧ Heap.next_arr h < Heap.next_arr h'.
Proof.
  intros [Hn Hl]. eexists. split; [reflexivity|]. simpl. split_and!; [| |lia].
  - split_and!; simpl; try lia; eauto.
  - split; simpl; [|done].
    intros a n Ha. destruct (Hn a n Ha) as (? & ? & Hs). split_and!; [done..|].
    intros s0 Hs0. specialize (Hs s0 Hs0). lia.
Qed.

Lemma same_edge_strip (es es' : list (edge (@Node T))) :
  Forall2 same_edge es es' →
  map (λ e, mkEdge (label e) (strip (node e))) es'
  = map (λ e, mkEdge (label e) (strip (node e))) es.
Proof.
  induction 1 as [|e e' es es' [Hl Hs] _ IH]; [done|].
  simpl. by rewrite Hl, Hs, IH.
Qed.

(** *** The deep [clone] of a tree *)

Lemma deep_clone_all t : ∀ fuel, deep_clone_ok zero fuel t.
Proof.
  induction t as [a lf p es IH] using Node_ind'.
  intros fuel h Hok Hrepr Hh.
  destruct fuel as [|fuel']; [rewrite height_unfold in Hh; lia|].
  pose proof Hrepr as Hrepr0. rewrite repr_unfold in Hrepr0.
  destruct Hrepr0 as (n & Hn & Hpre & Hlf & Hes). simpl in Hn, Hpre, Hlf, Hes.
  cbn [Heap.clone addr].
  (* n.processLazyRefCount() *)
  destruct (processLazyRefCount_le h a n Hok Hn (repr_node_ok h _ n Hrepr Hn))
    as (h0 & Hu0 & Hle0 & Hok0 & Ea0).
  go Hu0.
  (* nn := new(Node[T]) *)
  destruct (new_node_le h0 Hok0) as (h1 & Hu1 & Hle1 & Hnone0 & Hc1).
  go Hu1. set (nn := Heap.next_addr h0) in *.
  assert (heap_le h h1) as Hbase by (by eapply heap_le_trans).
  assert (Heap.nodes h !! nn = None) as Hnone.
  { destruct (Heap.nodes h !! nn) as [x|] eqn:Hx; [|done].
    destruct Hok as [Hnodes _]. destruct (Hnodes _ _ Hx). unfold nn in *. lia. }
  assert (∀ hc L P E, cloning nn h1 hc L P E →
            heap_le h hc ∧ Heap.heap_ok hc ∧
            ∃ nk, Heap.nodes hc !! a = Some nk ∧ Heap.leaf nk = Heap.leaf n ∧
                  Heap.prefix nk = Heap.prefix n ∧ Heap.edges nk = Heap.edges n)
    as Hsrc.
  { intros hc L P E (Hle & Hokc & _).
    assert (heap_le h hc) as Hlec by (by eapply heap_le_close).
    split_and!; [done..|]. destruct Hlec as (_ & _ & _ & Hnodes & _).
    destruct (Hnodes a n Hn) as (nk & ? & ? & ? & ?). by exists nk. }
  (* nn.refCount = n.refCount *)
  destruct (Hsrc _ _ _ _ Hc1) as (_ & _ & n1 & Hn1 & _).
  go (CloneProofs.load_node_Some h1 a n1 Hn1).
  destruct (cloning_upd nn h1 h1 None None [] (Heap.set_refCount (Heap.refCount n1))
              None None [] Hc1) as (h2 & Hu2 & Hc2 & _).
  { intros x _ HL HP HE. simpl. split_and!; [done..|by left|by left]. }
  go Hu2.
  (* n.getMutateCh(), twice *)
  destruct (Hsrc _ _ _ _ Hc2) as (_ & Hok2 & n2 & Hn2 & _).
  destruct (getMutateCh_le h2 a n2 Hok2 Hn2) as (c3 & h3 & Hg3 & Hle3 & Hok3 & _).
  go Hg3.
  pose proof (cloning_le _ _ _ _ _ _ _ Hc2 Hle3 Hok3) as Hc3.
  destruct (Hsrc _ _ _ _ Hc3) as (_ & _ & n3 & Hn3 & _).
  destruct (getMutateCh_le h3 a n3 Hok3 Hn3) as (ch & h4 & Hg4 & Hle4 & Hok4 & En4 & _).
  go Hg4.
  pose proof (cloning_le _ _ _ _ _ _ _ Hc3 Hle4 Hok4) as Hc4.
  assert (ch < Heap.next_chan h4) as Hch.
  { destruct Hok4 as [Hnodes _].
    destruct (Hnodes a (Heap.set_mutateCh (Some (Some ch)) n3)) as (_ & Hb & _).
    - by rewrite En4, lookup_insert_eq.
    - by apply Hb. }
  (* nn.setMutateCh(ch) *)
  unfold Heap.setMutateCh.
  destruct (cloning_upd nn h1 h4 None None [] (Heap.set_mutateCh (Some (Some ch)))
              None None [] Hc4) as (h5 & Hu5 & Hc5 & _).
  { intros x _ HL HP HE. simpl. split_and!; [done..| |by left].
    intros c [= <-]. by right. }
  go Hu5.
  (* the prefix *)
  destruct (Hsrc _ _ _ _ Hc5) as (_ & Hok5 & n5 & Hn5 & _ & Hp5 & _).
  go (CloneProofs.load_node_Some h5 a n5 Hn5). rewrite Hp5.
  assert (∃ h6 P6,
    (match Heap.prefix n with
     | Some s =>
         let* a := Heap.new_arr in
         Heap.update_node nn (Heap.set_prefix (Some (Heap.mkSlice a (Heap.bytes s))))
     | None => Heap.ret tt
     end) h5 = Returns (tt, h6) ∧
    cloning nn h1 h6 None P6 [] ∧
    Heap.slice_bytes P6 = Heap.slice_bytes (Heap.prefix n))
    as (h6 & P6 & Hu6 & Hc6 & HP6).
  { destruct (Heap.prefix n) as [s0|]; [|by exists h5, None].
    destruct (new_arr_le h5 Hok5) as (h5' & Hu5' & Hle5' & Hok5' & Harr).
    go Hu5'.
    pose proof (cloning_le _ _ _ _ _ _ _ Hc5 Hle5' Hok5') as Hc5'.
    destruct (cloning_upd nn h1 h5' None None []
                (Heap.set_prefix (Some (Heap.mkSlice (Heap.next_arr h5) (Heap.bytes s0))))
                None (Some (Heap.mkSlice (Heap.next_arr h5) (Heap.bytes s0))) [] Hc5')
      as (h6 & Hu6 & Hc6 & _).
    { intros x _ HL HP HE. simpl. split_and!; [done..|by left|].
      intros s1 [= <-]. by right. }
    by exists h6, (Some (Heap.mkSlice (Heap.next_arr h5) (Heap.bytes s0))). }
  go Hu6.
  (* the leaf *)
  destruct (Hsrc _ _ _ _ Hc6) as (Hle6 & Hok6 & n6 & Hn6 & Hl6 & _).
  go (CloneProofs.load_node_Some h6 a n6 Hn6). rewrite Hl6.
  assert (∃ h7 L7,
    (match Heap.leaf n with
     | Some lp =>
         if true then
           let* lp' := Heap.leaf_clone zero lp in
           Heap.update_node nn (Heap.set_leaf (Some lp'))
         else Heap.update_node nn (Heap.set_leaf (Some lp))
     | None => Heap.ret tt
     end) h6 = Returns (tt, h7) ∧
    cloning nn h1 h7 L7 P6 [] ∧ leaf_at h7 lf L7 ∧
    (∀ lp, L7 = Some lp → Heap.next_addr h ≤ lp))
    as (h7 & L7 & Hu7 & Hc7 & Hlf7 & HL7).
  { destruct (Heap.leaf n) as [lp|].
    2:{ exists h6, None. split_and!; [done|done| |done].
        by destruct lf. }
    destruct lf as [l|]; [|done]. destruct Hlf as (l0 & Hl0 & Hk0 & Hv0).
    pose proof Hle6 as (Ha6 & _ & _ & _ & Hleafs6).
    destruct (Hleafs6 lp l0 Hl0) as (l6 & Hlp6 & Hk6 & Hv6).
    destruct (leaf_clone_le h6 lp l6 Hok6 Hlp6)
      as (h6' & l' & Hrun & Hle6' & Hok6' & Hl' & Hk' & Hv').
    cbv iota. go Hrun.
    pose proof (cloning_le _ _ _ _ _ _ _ Hc6 Hle6' Hok6') as Hc6'.
    destruct (cloning_upd nn h1 h6' None P6 []
                (Heap.set_leaf (Some (Heap.next_addr h6)))
                (Some (Heap.next_addr h6)) P6 [] Hc6')
      as (h7 & Hu7 & Hc7 & _ & El7 & _).
    { intros x _ HL HP HE. simpl. split_and!; [done..|by left|by left]. }
    exists h7, (Some (Heap.next_addr h6)). split_and!; [done|done| |].
    - exists l'. rewrite El7. split_and!; [done| |].
      + by rewrite Hk', Hk6.
      + by rewrite Hv', Hv6.
    - intros ? [= <-]. done. }
  go Hu7.
  (* the edges *)
  destruct (Hsrc _ _ _ _ Hc7) as (Hle7 & Hok7 & n7 & Hn7 & _ & _ & He7).
  go (CloneProofs.load_node_Some h7 a n7 Hn7). rewrite He7.
  assert (∀ e, e ∈ es → nn ∉ addrs (node e)) as Hold.
  { intros e He Hin.
    assert (nn < Heap.next_addr h); [|unfold nn in *; lia].
    apply (repr_addrs h (mkNode a lf p es)); [done..|].
    by eapply (addrs_child (mkNode a lf p es)). }
  assert (∃ h9 es',
    (if bool_decide (length (Heap.edges n) ≠ 0)
     then
       let* _ := Heap.update_node nn
                   (Heap.set_edges (replicate (length (Heap.edges n)) zero_edge)) in
       Heap.for_range (Heap.edges n) 0 (clone_edge fuel' nn)
     else Heap.ret tt) h7 = Returns (tt, h9) ∧
    cloning nn h1 h9 L7 P6 (edge_rec <$> es') ∧ heap_le_but nn h7 h9 ∧
    Forall2 same_edge es es' ∧
    Forall (λ e', repr h9 (node e') ∧ fresh_from (S nn) h9 (node e')) es')
    as (h9 & es' & Hu9 & Hc9 & Hle9 & Hsame & Hall).
  { case_bool_decide as Hlen.
    2:{ assert (Heap.edges n = []) as Hnil
          by (destruct (Heap.edges n); [done|simpl in Hlen; lia]).
        rewrite Hnil in Hes. apply Forall2_nil_inv_r in Hes as ->.
        exists h7, []. split_and!; [done|done|apply heap_le_but_refl|constructor..]. }
    destruct (cloning_upd nn h1 h7 L7 P6 []
                (Heap.set_edges (replicate (length (Heap.edges n)) zero_edge))
                L7 P6 (replicate (length (Heap.edges n)) zero_edge) Hc7)
      as (h8 & Hu8 & Hc8 & Hle8 & _).
    { intros x _ HL HP HE. simpl. split_and!; [done..|by left|by left]. }
    go Hu8.
    destruct (clone_edges_spec fuel' nn h1 L7 P6 es (Heap.edges n) [] h8)
      as (h9 & es' & Hloop & Hc9 & Hle9 & Hsame & Hall).
    - eapply Forall_impl; [exact IH|]. intros e He. apply He.
    - eapply (edges_at_le_but nn h); [|by apply Forall_forall|done].
      apply heap_le_but_of_le.
      by destruct (Hsrc _ _ _ _ Hc8) as (? & _).
    - apply Forall_forall. intros e He.
      pose proof (height_child (mkNode a lf p es) e He). lia.
    - by apply Forall_forall.
    - done.
    - constructor.
    - exists h9, es'. split_and!; [done|done|by eapply heap_le_but_trans|done..]. }
  go Hu9.
  destruct (Hsrc _ _ _ _ Hc9) as (Hle_all & Hok9 & _).
  destruct Hc9 as (_ & _ & x & Hx & HxL & HxP & HxE).
  exists nn, h9, (mkNode nn lf p es'). split_and!; [done|done|done| |done| |].
  - rewrite repr_unfold. exists x. simpl. split_and!; [done| | |].
    + by rewrite HxP, HP6.
    + rewrite HxL. by eapply leaf_at_le_but.
    + rewrite HxE. apply Forall2_fmap_r, Forall_Forall2_diag.
      eapply Forall_impl; [done|]. intros e' [Hr _]. by split_and!.
  - simpl. f_equal. by apply same_edge_strip.
  - intros a' Ha'. rewrite addrs_unfold in Ha'. simpl in Ha'.
    apply elem_of_cons in Ha' as [->|Ha'].
    + split; [unfold nn; lia|]. intros n' lp Hn' Hlp.
      rewrite Hx in Hn'. injection Hn' as <-. apply HL7. congruence.
    + apply elem_of_flat_map in Ha' as (e' & He' & Ha').
      eapply Forall_forall in Hall as [_ Hfr]; [|done].
      apply (fresh_from_weaken (S nn) (Heap.next_addr h) h9 (node e'));
        [unfold nn; lia|done..].
Qed.

(** X28. The deep [clone] of a tree in memory: given fuel for the height
    of the tree it returns, without panic, the root of a tree with the same
    prefixes, leaves, labels and shape as the original ([strip] drops the
    addresses only).  Every node and every leaf of the copy is a record made
    during the call, so the copy shares no record with the original; the
    original tree is still in memory as it was, and so is every other prefix,
    leaf pointer, edge list, key and value. *)
Theorem deep_clone_copies_the_tree h t fuel :
  Heap.heap_ok h → repr h t → height t ≤ fuel →
  ∃ nn h' t',
    Heap.clone zero fuel true (addr t) h = Returns (nn, h') ∧
    addr t' = nn ∧ repr h' t' ∧ strip t' = strip t ∧
    fresh_from (Heap.next_addr h) h' t' ∧
    (∀ a, a ∈ addrs t' → a ∉ addrs t) ∧
    repr h' t ∧ heap_le h h' ∧ Heap.heap_ok h'.
Proof.
  intros Hok Hrepr Hh.
  destruct (deep_clone_all t fuel h Hok Hrepr Hh)
    as (nn & h' & t' & Hrun & Hle & Hok' & Hrepr' & Haddr & Hstrip & Hfresh).
  exists nn, h', t'. split_and!; try done.
  - intros a Ha Hin. destruct (Hfresh a Ha) as [? _].
    pose proof (repr_addrs h t a Hok Hrepr Hin). lia.
  - by eapply repr_le.
Qed.

End DeepCloneProofs.
End DeepCloneProofs.

(** ** Lookups in a copy *)

Section StripLookups.
Context {T : Type} (zero : T).
Implicit Types (t n : @Node T).

Lemma strip_unfold t :
  HeapTree.strip t
  = mkNode 0 (leaf t) (prefix t)
      (map (λ e, mkEdge (label e) (HeapTree.strip (node e))) (edges t)).
Proof. by destruct t. Qed.

Lemma height_strip t : height (HeapTree.strip t) = height t.
Proof.
  induction t as [a lf p es IH] using Node_ind'.
  rewrite strip_unfold, !height_unfold. simpl. f_equal.
  induction IH as [|e es He _ IHes]; [done|]. simpl. by rewrite He, IHes.
Qed.

Lemma leaves_strip t : leaves (HeapTree.strip t) = leaves t.
Proof.
  induction t as [a lf p es IH] using Node_ind'.
  rewrite strip_unfold. simpl. f_equal.
  induction IH as [|e es He _ IHes]; [done|]. simpl. by rewrite He, IHes.
Qed.

Lemma getEdge_strip n b :
  (getEdge (HeapTree.strip n) b).2 = HeapTree.strip <$> (getEdge n b).2.
Proof.
  rewrite strip_unfold. unfold getEdge. simpl.
  rewrite length_map.
  assert (∀ i, label_ge_at
                 (map (λ e, mkEdge (label e) (HeapTree.strip (node e))) (edges n)) b i
               = label_ge_at (edges n) b i) as Hge.
  { intros i. unfold label_ge_at.
    change (map ?f ?l) with (f <$> l). rewrite list_lookup_fmap.
    by destruct (edges n !! i). }
  unfold sort_Search. rewrite (sort_Search_loop_ext _ _ _ _ _ Hge).
  set (idx := sort_Search_loop _ _ _ _).
  change (map ?f ?l) with (f <$> l). rewrite list_lookup_fmap.
  destruct (edges n !! idx) as [e|]; [|done]. simpl.
  by destruct (Byte.eqb (label e) b).
Qed.

Lemma GetWatch_loop_strip fuel n search :
  GetWatch_loop zero fuel (HeapTree.strip n) search = GetWatch_loop zero fuel n search.
Proof.
  revert n search. induction fuel as [|fuel IH]; intros n search; [done|].
  cbn [GetWatch_loop]. destruct search as [|b search].
  { by rewrite strip_unfold. }
  rewrite getEdge_strip. destruct (getEdge n b).2 as [n'|]; [|done]. simpl.
  rewrite IH. by rewrite (strip_unfold n').
Qed.

(** A lookup does not read addresses. *)
Lemma Get_same_strip t t' k :
  HeapTree.strip t' = HeapTree.strip t → Get zero t' k = Get zero t k.
Proof.
  intros Hs. unfold Get.
  rewrite <- (height_strip t'), <- (height_strip t), Hs.
  rewrite <- (GetWatch_loop_strip _ t'), <- (GetWatch_loop_strip _ t). by rewrite Hs.
Qed.

Lemma leaves_same_strip t t' :
  HeapTree.strip t' = HeapTree.strip t → leaves t' = leaves t.
Proof. intros Hs. by rewrite <- (leaves_strip t'), <- (leaves_strip t), Hs. Qed.

Lemma height_same_strip t t' :
  HeapTree.strip t' = HeapTree.strip t → height t' = height t.
Proof. intros Hs. by rewrite <- (height_strip t'), <- (height_strip t), Hs. Qed.

(** X29. A deep [clone] followed by lookups: the copy holds the keys and
    values of the original in the same order, and [GetWatch] from the root
    of the copy finds for every key the value that [Get] finds in the
    original, whatever the state of the original's channels. *)
Theorem deep_clone_then_GetWatch h t fuel :
  Heap.heap_ok h → HeapTree.repr h t → height t ≤ fuel →
  ∃ nn h' t',
    Heap.clone zero fuel true (addr t) h = Returns (nn, h') ∧
    addr t' = nn ∧ HeapTree.repr h' t' ∧
    leaves t' = leaves t ∧
    ∀ k, ∃ c h'',
      HeapTree.GetWatch zero fuel nn k h'
        = Returns ((c, (Get zero t k).1, (Get zero t k).2), h'') ∧
      HeapTree.repr h'' t' ∧ HeapTree.repr h'' t.
Proof.
  intros Hok Hrepr Hh.
  destruct (DeepCloneProofs.deep_clone_all zero t fuel h Hok Hrepr Hh)
    as (nn & h' & t' & Hrun & Hle & Hok' & Hrepr' & Haddr & Hstrip & _).
  exists nn, h', t'. split_and!; [done..|by apply leaves_same_strip|].
  intros k.
  destruct (GetWatchProofs.GetWatch_run zero h' t' k fuel Hok' Hrepr')
    as (c & h'' & Hget & Hle' & _ & Hrepr'' & _).
  { by rewrite (height_same_strip t t'). }
  rewrite Haddr, (Get_same_strip t t' k Hstrip) in Hget.
  exists c, h''. split_and!; [done..|].
  eapply HeapTreeProofs.repr_le; [done|]. by eapply HeapTreeProofs.repr_le.
Qed.

End StripLookups.

(** ** [SeekReverseLowerBound] on an iterator in use *)


(** ** The further properties at work *)

Import Examples MoreExamples.

Ltac solve_heap_ex_ok :=
  split;
  [ intros a n Ha; unfold heap_ex in Ha; simpl in Ha;
    apply lookup_insert_Some in Ha as [[<- <-]|[_ Ha]];
    [ simpl; split_and!; [lia| |]; intros ? [= <-]; simpl; lia
    | apply lookup_singleton_Some in Ha as [<- <-];
      simpl; split_and!; [lia| |]; intros ? [=]; subst; simpl; lia ]
  | intros a l Ha; unfold heap_ex in Ha; simpl in Ha;
    apply lookup_singleton_Some in Ha as [<- <-]; simpl; lia ].

Ltac solve_repr_ex :=
  simpl; eexists; split; [reflexivity|];
  split; [reflexivity|];
  split; [eexists; split; [reflexivity|]; by split|];
  split; [|done];
  split; [reflexivity|]; split; [reflexivity|];
  eexists; split; [reflexivity|]; by split_and!.

Lemma getEdge_finds_the_label_witness :
  (sorted_edges (edges tree_mixed)) ∧
  ((∀ i c, getEdge tree_mixed "b"%byte = (Z.of_nat i, Some c) ↔ edges tree_mixed !! i = Some (mkEdge "b"%byte c)) ∧
  (getEdge tree_mixed "b"%byte = ((-1)%Z, None) ↔ ∀ e, e ∈ edges tree_mixed → label e ≠ "b"%byte) ∧
  ((∃ i c, getEdge tree_mixed "b"%byte = (Z.of_nat i, Some c)) ∨ getEdge tree_mixed "b"%byte = ((-1)%Z, None))).
Proof.
  assert (sorted_edges (edges tree_mixed)) as W1.
  { solve_sorted. }
  split; [exact W1|].
  apply getEdge_finds_the_label; assumption.
Defined.

Lemma getLowerBoundEdge_first_not_below_witness :
  (sorted_edges (edges tree_mixed)) ∧
  ((∀ i c, getLowerBoundEdge tree_mixed "a"%byte = (Z.of_nat i, Some c) ↔
     ∃ e, edges tree_mixed !! i = Some e ∧ node e = c ∧ ¬ byte_lt (label e) "a"%byte ∧
          ∀ j e', j < i → edges tree_mixed !! j = Some e' → byte_lt (label e') "a"%byte) ∧
  (getLowerBoundEdge tree_mixed "a"%byte = ((-1)%Z, None) ↔
     ∀ e, e ∈ edges tree_mixed → byte_lt (label e) "a"%byte) ∧
  ((∃ i c, getLowerBoundEdge tree_mixed "a"%byte = (Z.of_nat i, Some c)) ∨
   getLowerBoundEdge tree_mixed "a"%byte = ((-1)%Z, None))).
Proof.
  assert (sorted_edges (edges tree_mixed)) as W1.
  { solve_sorted. }
  split; [exact W1|].
  apply getLowerBoundEdge_first_not_below; assumption.
Defined.

Lemma getEdge_after_addEdge_witness :
  (sorted_edges (edges tree_mixed)) ∧
  ((∀ e', e' ∈ edges tree_mixed → label e' ≠ label edge_c)) ∧
  ((∃ i, getEdge (addEdge tree_mixed edge_c) (label edge_c) = (Z.of_nat i, Some (node edge_c)) ∧
        edges (addEdge tree_mixed edge_c) !! i = Some edge_c) ∧
  (∀ l : byte, l ≠ label edge_c → (getEdge (addEdge tree_mixed edge_c) l).2 = (getEdge tree_mixed l).2)).
Proof.
  assert (sorted_edges (edges tree_mixed)) as W1.
  { solve_sorted. }
  assert ((∀ e', e' ∈ edges tree_mixed → label e' ≠ label edge_c)) as W2.
  { simpl. intros e' He'. repeat (apply elem_of_cons in He' as [->|He']); try done. by apply elem_of_nil in He'. }
  split; [exact W1|].
  split; [exact W2|].
  apply getEdge_after_addEdge; assumption.
Defined.

Lemma getEdge_after_delEdge_witness :
  (sorted_edges (edges tree_mixed)) ∧
  (getEdge (delEdge tree_mixed "a"%byte) "a"%byte = ((-1)%Z, None) ∧
  (∀ l' : byte, l' ≠ "a"%byte → (getEdge (delEdge tree_mixed "a"%byte) l').2 = (getEdge tree_mixed l').2)).
Proof.
  assert (sorted_edges (edges tree_mixed)) as W1.
  { solve_sorted. }
  split; [exact W1|].
  apply getEdge_after_delEdge; assumption.
Defined.

Lemma addEdge_delEdge_inverse_witness :
  (sorted_edges (edges tree_mixed)) ∧
  (((∀ e', e' ∈ edges tree_mixed → label e' ≠ label edge_c) →
     delEdge (addEdge tree_mixed edge_c) (label edge_c) = tree_mixed) ∧
  (edge_c ∈ edges tree_mixed → addEdge (delEdge tree_mixed (label edge_c)) edge_c = tree_mixed)).
Proof.
  assert (sorted_edges (edges tree_mixed)) as W1.
  { solve_sorted. }
  split; [exact W1|].
  apply addEdge_delEdge_inverse; assumption.
Defined.

Lemma getEdge_after_replaceEdge_witness :
  (sorted_edges (edges tree_mixed)) ∧
  (replaceEdge tree_mixed edge_b9 = Returns tree_mixed_b9) ∧
  (sorted_edges (edges tree_mixed_b9) ∧
  getEdge tree_mixed_b9 (label edge_b9) = ((getEdge tree_mixed (label edge_b9)).1, Some (node edge_b9)) ∧
  (∀ l : byte, l ≠ label edge_b9 → getEdge tree_mixed_b9 l = getEdge tree_mixed l)).
Proof.
  assert (sorted_edges (edges tree_mixed)) as W1.
  { solve_sorted. }
  assert (replaceEdge tree_mixed edge_b9 = Returns tree_mixed_b9) as W2.
  { by vm_compute. }
  split; [exact W1|].
  split; [exact W2|].
  apply getEdge_after_replaceEdge; assumption.
Defined.

Lemma addEdge_keeps_duplicate_witness :
  (sorted_edges (edges tree_tips)) ∧
  (edge_x ∈ edges tree_tips) ∧
  (label edge_x = label edge_x9) ∧
  (∃ (l1 l2 : list (edge (@Node nat))),
    edges tree_tips = l1 ++ edge_x :: l2 ∧
    edges (addEdge tree_tips edge_x9) = l1 ++ edge_x9 :: edge_x :: l2 ∧
    ¬ sorted_edges (edges (addEdge tree_tips edge_x9))).
Proof.
  assert (sorted_edges (edges tree_tips)) as W1.
  { solve_sorted. }
  assert (edge_x ∈ edges tree_tips) as W2.
  { simpl. set_solver. }
  assert (label edge_x = label edge_x9) as W3.
  { done. }
  split; [exact W1|].
  split; [exact W2|].
  split; [exact W3|].
  apply addEdge_keeps_duplicate; assumption.
Defined.

Lemma WalkPrefix_visits_keys_under_prefix_witness :
  (wf_node [] tree_mixed) ∧
  (WalkPrefix tree_mixed (bytes_of "a") stop_at_ab = (visit_until stop_at_ab (under_prefix (bytes_of "a") (Walk tree_mixed never_stop))).1 ∧
  WalkPrefix tree_mixed (bytes_of "a") never_stop = under_prefix (bytes_of "a") (Walk tree_mixed never_stop) ∧
  (∀ k v, (k, v) ∈ WalkPrefix tree_mixed (bytes_of "a") never_stop ↔ has_leaf tree_mixed k v ∧ (bytes_of "a") `prefix_of` k) ∧
  StronglySorted key_lt ((WalkPrefix tree_mixed (bytes_of "a") never_stop).*1) ∧
  WalkPrefix tree_mixed [] stop_at_ab = Walk tree_mixed stop_at_ab).
Proof.
  assert (wf_node [] tree_mixed) as W1.
  { simpl; solve_wf. }
  split; [exact W1|].
  apply WalkPrefix_visits_keys_under_prefix; assumption.
Defined.

Lemma SeekPrefix_then_Next_witness :
  (wf_node [] tree_mixed) ∧
  (∃ i out,
    SeekPrefix (mkIterator (Some tree_mixed) None) (bytes_of "ac") = Returns i ∧
    (∀ calls, size tree_mixed < calls → drain 0 calls i = (out, true)) ∧
    out = WalkPrefix tree_mixed (bytes_of "ac") never_stop ∧
    (∀ k v, (k, v) ∈ out ↔ has_leaf tree_mixed k v ∧ (bytes_of "ac") `prefix_of` k) ∧
    StronglySorted key_lt (out.*1)).
Proof.
  assert (wf_node [] tree_mixed) as W1.
  { simpl; solve_wf. }
  split; [exact W1|].
  apply SeekPrefix_then_Next; assumption.
Defined.

Lemma ReverseIterator_SeekPrefix_then_Previous_witness :
  (wf_node [] tree_mixed) ∧
  (distinct_nodes tree_mixed) ∧
  (∃ ri out,
    ReverseIterator_SeekPrefix (NewReverseIterator tree_mixed) (bytes_of "a") = Returns ri ∧
    (∀ calls, size tree_mixed < calls → rdrain 0 calls ri = (out, true)) ∧
    out = reverse (WalkPrefix tree_mixed (bytes_of "a") never_stop) ∧
    (∀ k v, (k, v) ∈ out ↔ has_leaf tree_mixed k v ∧ (bytes_of "a") `prefix_of` k) ∧
    StronglySorted (flip key_lt) (out.*1)).
Proof.
  assert (wf_node [] tree_mixed) as W1.
  { simpl; solve_wf. }
  assert (distinct_nodes tree_mixed) as W2.
  { unfold distinct_nodes; by refine (bool_decide_unpack _ _). }
  split; [exact W1|].
  split; [exact W2|].
  apply ReverseIterator_SeekPrefix_then_Previous; assumption.
Defined.

Lemma SeekLowerBound_first_Next_witness :
  (valid_tree tree_mixed) ∧
  (∃ i i' r,
    SeekLowerBound (mkIterator (Some tree_mixed) None) (bytes_of "aca") = Returns i ∧
    Next 0 i = Returns (i', r) ∧
    (∀ k' v, r = (k', v, true) ↔
       has_leaf tree_mixed k' v ∧ key_le (bytes_of "aca") k' ∧
       ∀ k'' v'', has_leaf tree_mixed k'' v'' → key_le (bytes_of "aca") k'' → key_le k' k'') ∧
    (r = ([], 0, false) ↔ ∀ k' v, has_leaf tree_mixed k' v → key_lt k' (bytes_of "aca"))).
Proof.
  assert (valid_tree tree_mixed) as W1.
  { solve_valid. }
  split; [exact W1|].
  apply SeekLowerBound_first_Next; assumption.
Defined.

Lemma SeekReverseLowerBound_first_Previous_witness :
  (valid_tree tree_mixed) ∧
  (distinct_nodes tree_mixed) ∧
  (∃ ri ri' r,
    SeekReverseLowerBound (NewReverseIterator tree_mixed) (bytes_of "aca") = Returns ri ∧
    Previous 0 ri = Returns (ri', r) ∧
    (∀ k' v, r = (k', v, true) ↔
       has_leaf tree_mixed k' v ∧ key_le k' (bytes_of "aca") ∧
       ∀ k'' v'', has_leaf tree_mixed k'' v'' → key_le k'' (bytes_of "aca") → key_le k'' k') ∧
    (r = ([], 0, false) ↔ ∀ k' v, has_leaf tree_mixed k' v → key_lt (bytes_of "aca") k')).
Proof.
  assert (valid_tree tree_mixed) as W1.
  { solve_valid. }
  assert (distinct_nodes tree_mixed) as W2.
  { unfold distinct_nodes; by refine (bool_decide_unpack _ _). }
  split; [exact W1|].
  split; [exact W2|].
  apply SeekReverseLowerBound_first_Previous; assumption.
Defined.

Lemma Get_agrees_with_LongestPrefix_witness :
  (valid_tree tree_mixed) ∧
  ((∀ v, Get 0 tree_mixed (bytes_of "ac") = (v, true) → LongestPrefix 0 tree_mixed (bytes_of "ac") = ((bytes_of "ac"), v, true)) ∧
  (∀ k' v, LongestPrefix 0 tree_mixed (bytes_of "ac") = (k', v, true) →
     Get 0 tree_mixed k' = (v, true) ∧ k' `prefix_of` (bytes_of "ac"))).
Proof.
  assert (valid_tree tree_mixed) as W1.
  { solve_valid. }
  split; [exact W1|].
  apply Get_agrees_with_LongestPrefix; assumption.
Defined.

Lemma Minimum_Maximum_ends_of_Walk_witness :
  (no_dead_end tree_foo) ∧
  (Minimum 0 tree_foo = pair_result 0 (head (Walk tree_foo never_stop)) ∧
  Maximum 0 tree_foo = pair_result 0 (last (Walk tree_foo never_stop)) ∧
  ∃ i', Next 0 (mkIterator (Some tree_foo) None) = Returns (i', Minimum 0 tree_foo)).
Proof.
  assert (no_dead_end tree_foo) as W1.
  { unfold no_dead_end. simpl. repeat constructor; eauto. }
  split; [exact W1|].
  apply Minimum_Maximum_ends_of_Walk; assumption.
Defined.

Lemma walks_stop_at_first_true_witness :
  Forall (λ kv', stop_at_ab kv'.1 kv'.2 = false) [(bytes_of "a", 1)] ∧
  stop_at_ab (bytes_of "ab") 2 = true ∧
  recursiveWalk tree_mixed stop_at_ab
    = ([(bytes_of "a", 1); (bytes_of "ab", 2)], true) ∧
  reverseRecursiveWalk tree_mixed stop_at_ab
    = visit_until stop_at_ab (WalkBackwards tree_mixed never_stop).
Proof.
  assert (Forall (λ kv', stop_at_ab kv'.1 kv'.2 = false) [(bytes_of "a", 1)]) as W1
    by (by repeat constructor).
  assert (stop_at_ab (bytes_of "ab") 2 = true) as W2 by done.
  destruct (walks_stop_at_first_true tree_mixed stop_at_ab)
    as (_ & Hback & _ & Hstop & _).
  split; [exact W1|]. split; [exact W2|]. split; [|exact Hback].
  apply (Hstop [(bytes_of "a", 1)] (bytes_of "ab", 2)
           [(bytes_of "ac", 3); (bytes_of "acd", 7); (bytes_of "b", 4);
            (bytes_of "bab", 5)]); [by vm_compute|exact W1|exact W2].
Defined.

Lemma fresh_reverse_iteration_descending_witness :
  distinct_nodes tree_mixed ∧ valid_tree tree_mixed ∧
  rdrain 0 8 (NewReverseIterator tree_mixed)
    = (reverse (Walk tree_mixed never_stop), true) ∧
  StronglySorted (flip key_lt) ((reverse (Walk tree_mixed never_stop)).*1).
Proof.
  assert (distinct_nodes tree_mixed) as W1
    by (unfold distinct_nodes; by refine (bool_decide_unpack _ _)).
  assert (valid_tree tree_mixed) as W2 by solve_valid.
  destruct (fresh_reverse_iteration_descending 0 tree_mixed W1) as [Hdrain Hsorted].
  split; [exact W1|]. split; [exact W2|]. split; [|exact (Hsorted W2)].
  rewrite (Hdrain 8). by vm_compute.
Defined.

Lemma Next_stays_exhausted_witness :
  Next 0 (mkIterator (Some tree_empty) None)
    = Returns (mkIterator (Some tree_empty) (Some []), ([], 0, false)) ∧
  Next 0 (mkIterator (Some tree_empty) (Some []))
    = Returns (mkIterator (Some tree_empty) (Some []), ([], 0, false)).
Proof.
  assert (Next 0 (mkIterator (Some tree_empty) None)
          = Returns (mkIterator (Some tree_empty) (Some []), ([], 0, false))) as W1
    by reflexivity.
  split; [exact W1|].
  by destruct (Next_stays_exhausted 0 _ _ _ _ W1) as (_ & H & _).
Defined.

Lemma Previous_stays_exhausted_witness :
  ∃ ri',
    Previous 0 (NewReverseIterator tree_empty) = Returns (ri', ([], 0, false)) ∧
    Previous 0 ri' = Returns (ri', ([], 0, false)).
Proof.
  eexists.
  assert (Previous 0 (NewReverseIterator tree_empty) = Returns (_, ([], 0, false)))
    as W1 by reflexivity.
  split; [exact W1|].
  by destruct (Previous_stays_exhausted 0 _ _ _ _ W1) as (_ & H & _).
Defined.

Lemma getMutateCh_makes_the_channel_once_witness :
  Heap.heap_ok heap_ex ∧
  ∃ c h',
    Heap.getMutateCh 1 heap_ex = Returns (c, h') ∧
    Heap.getMutateCh 1 h' = Returns (c, h') ∧
    Heap.next_chan h' = S (Heap.next_chan heap_ex).
Proof.
  assert (Heap.heap_ok heap_ex) as W1 by solve_heap_ex_ok.
  split; [exact W1|].
  pose proof (HeapProofs.getMutateCh_makes_the_channel_once heap_ex 1 W1) as H.
  change (Heap.nodes heap_ex !! 1)
    with (Some (Heap.mkNode 1 0 None None
                  (Some (Heap.mkSlice 1 (bytes_of "b"))) [])) in H.
  destruct H as (c & h' & Hg & _ & Hagain & _ & Hnew & _).
  exists c, h'. split; [exact Hg|]. split; [exact Hagain|].
  by apply Hnew.
Defined.

Lemma setMutateCh_then_getMutateCh_witness :
  Heap.nodes heap_ex !! 0 = Some node_ex ∧
  ∃ h1,
    Heap.setMutateCh 0 (Some 9) heap_ex = Returns (tt, h1) ∧
    Heap.getMutateCh 0 h1 = Returns (9, h1).
Proof.
  assert (Heap.nodes heap_ex !! 0 = Some node_ex) as W1 by (by vm_compute).
  split; [exact W1|].
  destruct (HeapProofs.setMutateCh_then_getMutateCh heap_ex 0 node_ex (Some 9) W1)
    as (h1 & Hs & _ & Hg & _).
  exists h1. split; [exact Hs|]. by apply Hg.
Defined.

Lemma processLazyRefCount_pushes_one_level_witness :
  Heap.nodes heap_ex !! 0 = Some node_ex ∧ Heap.node_ok heap_ex node_ex ∧
  NoDup (node <$> Heap.edges node_ex) ∧ Some 0 ∉ node <$> Heap.edges node_ex ∧
  ∃ h',
    Heap.processLazyRefCount 0 heap_ex = Returns (tt, h') ∧
    Heap.refCount <$> (Heap.nodes h' !! 0) = Some 3%Z ∧
    Heap.lazyRefCount <$> (Heap.nodes h' !! 0) = Some 0%Z ∧
    Heap.lazyRefCount <$> (Heap.nodes h' !! 1) = Some 2%Z ∧
    Heap.l_refCount <$> (Heap.leafs h' !! 2) = Some 3%Z ∧
    Heap.processLazyRefCount 0 h' = Returns (tt, h').
Proof.
  assert (Heap.nodes heap_ex !! 0 = Some node_ex) as W1 by (by vm_compute).
  assert (Heap.node_ok heap_ex node_ex) as W2.
  { split.
    - intros lp [= <-]. eexists. reflexivity.
    - repeat constructor. exists 1. split; [done|]. eexists. reflexivity. }
  assert (NoDup (node <$> Heap.edges node_ex)) as W3
    by (simpl; repeat constructor; set_solver).
  assert (Some 0 ∉ node <$> Heap.edges node_ex) as W4 by (simpl; set_solver).
  split; [exact W1|]. split; [exact W2|]. split; [exact W3|]. split; [exact W4|].
  destruct (HeapProofs.processLazyRefCount_pushes_one_level heap_ex 0 node_ex
              W1 W2 W3 W4) as (h' & Hrun & _ & Hpush & _ & _ & _ & Hagain).
  destruct Hpush as [Hnodes Hleafs]; [done|].
  exists h'. split; [exact Hrun|].
  rewrite (Hnodes 0), (Hnodes 1), (Hleafs 2). by split_and!.
Defined.

Lemma leaf_clone_copies_key_shares_watch_witness :
  Heap.heap_ok heap_ex ∧ Heap.leaf_keys_ok heap_ex ∧
  Heap.leafs heap_ex !! 2 = Some leaf_ex ∧
  ∃ nn h' c,
    Heap.leaf_clone 0 2 heap_ex = Returns (nn, h') ∧
    Heap.leafs heap_ex !! nn = None ∧
    Heap.leafs h' !! nn =
      Some (Heap.mkLeaf (Some (Some c)) (Some (Heap.mkSlice 3 (bytes_of "a"))) 7 1) ∧
    Heap.leafs h' !! 2 = Some (Heap.set_l_mutateCh (Some (Some c)) leaf_ex) ∧
    (∀ s, Heap.key leaf_ex = Some s → Heap.arr s ≠ 3) ∧
    Heap.heap_ok h' ∧ Heap.leaf_keys_ok h'.
Proof.
  assert (Heap.heap_ok heap_ex) as W1 by solve_heap_ex_ok.
  assert (Heap.leaf_keys_ok heap_ex) as W2.
  { intros a l s Ha. unfold heap_ex in Ha. simpl in Ha.
    apply lookup_singleton_Some in Ha as [<- <-]. simpl. intros [= <-]. simpl. lia. }
  assert (Heap.leafs heap_ex !! 2 = Some leaf_ex) as W3 by (by vm_compute).
  split; [exact W1|]. split; [exact W2|]. split; [exact W3|].
  destruct (HeapProofs.leaf_clone_copies_key_shares_watch 0 heap_ex 2 leaf_ex W1 W2 W3)
    as (nn & h' & c & Hrun & Hfresh & _ & _ & Hnn & Hp & _ & Hkey & _ & _ & _ & _ &
        Hok & Hkeys).
  exists nn, h', c. by split_and!.
Defined.

Lemma recurseMin_finds_Minimum_witness :
  slices_nonempty (default [] (None : option (list (list (@Node nat))))) ∧
  ∃ m, (recurseMin None tree_mixed).2 = Some m ∧
       Minimum 0 tree_mixed = leaf_result 0 (leaf m) ∧
       flat_map leaves [m] ++ stack_leaves (default [] (recurseMin None tree_mixed).1)
       = leaves tree_mixed ++ stack_leaves (default [] None).
Proof.
  assert (slices_nonempty (default [] (None : option (list (list (@Node nat))))))
    as W1 by constructor.
  split; [exact W1|].
  destruct (recurseMin_finds_Minimum 0 None tree_mixed) as [Hmin Hleaves].
  specialize (Hleaves W1).
  destruct (recurseMin None tree_mixed).2 as [m|] eqn:Hm; [|by vm_compute in Hm].
  destruct Hmin as (_ & _ & Hmin). exists m. by split_and!.
Defined.

Lemma seeks_panic_without_a_node_witness :
  ∃ i',
    SeekLowerBound (mkIterator (Some tree_mixed) None) (bytes_of "a") = Returns i' ∧
    SeekLowerBound i' (bytes_of "b") = Panics ∧ SeekPrefix i' (bytes_of "b") = Panics.
Proof.
  eexists.
  assert (SeekLowerBound (mkIterator (Some tree_mixed) None) (bytes_of "a")
          = Returns _) as W1 by reflexivity.
  split; [exact W1|].
  destruct (seeks_panic_without_a_node
              (mkIterator (Some tree_mixed) None) (NewReverseIterator tree_mixed)
              (bytes_of "a") (bytes_of "b")) as (H & _).
  by destruct (H _ W1) as (_ & ? & ?).
Defined.

Lemma ReverseIterator_SeekPrefix_keeps_marks_witness :
  Previous 0 (NewReverseIterator tree_mixed)
    = Returns (ri_after_one, (bytes_of "bab", 5, true)) ∧
  ReverseIterator_SeekPrefix ri_after_one [] = Returns ri_reseeked ∧
  i_node (ri_i ri_reseeked) = Some tree_mixed ∧
  addr tree_mixed ∈ expanded_of ri_after_one ∧
  rdrain 0 8 ri_reseeked = ([], true) ∧
  rdrain 0 8 (NewReverseIterator tree_mixed)
    = (reverse (Walk tree_mixed never_stop), true).
Proof.
  assert (ReverseIterator_SeekPrefix ri_after_one [] = Returns ri_reseeked) as W1
    by (by vm_compute).
  assert (i_node (ri_i ri_reseeked) = Some tree_mixed) as W2 by (by vm_compute).
  assert (addr tree_mixed ∈ expanded_of ri_after_one) as W3
    by (by refine (bool_decide_unpack _ _)).
  split; [by vm_compute|]. split; [exact W1|]. split; [exact W2|].
  split; [exact W3|]. split; [|by vm_compute].
  destruct (ReverseIterator_SeekPrefix_keeps_marks 0 _ _ _ _ W1 W2 W3)
    as (_ & _ & Hdrain).
  apply (Hdrain 8). lia.
Defined.

Lemma GetWatch_returns_Get_and_the_watch_witness :
  Heap.heap_ok heap_ex ∧ HeapTree.repr heap_ex tree_in_heap_ex ∧
  height tree_in_heap_ex ≤ 2 ∧
  ∃ c h', HeapTree.GetWatch 0 2 0 [] heap_ex = Returns ((c, 7, true), h') ∧
          Heap.heap_ok h' ∧ HeapTree.repr h' tree_in_heap_ex.
Proof.
  assert (Heap.heap_ok heap_ex) as W1 by solve_heap_ex_ok.
  assert (HeapTree.repr heap_ex tree_in_heap_ex) as W2 by solve_repr_ex.
  assert (height tree_in_heap_ex ≤ 2) as W3 by (vm_compute; lia).
  split; [exact W1|]. split; [exact W2|]. split; [exact W3|].
  destruct (GetWatchProofs.GetWatch_returns_Get_and_the_watch 0 heap_ex
              tree_in_heap_ex [] 2 W1 W2 W3) as (c & h' & Hrun & _ & Hok & Hrepr & _).
  exists c, h'. split; [exact Hrun|]. by split.
Defined.

Lemma deep_clone_copies_the_tree_witness :
  Heap.heap_ok heap_ex ∧ HeapTree.repr heap_ex tree_in_heap_ex ∧
  height tree_in_heap_ex ≤ 2 ∧
  ∃ nn h' t',
    Heap.clone 0 2 true 0 heap_ex = Returns (nn, h') ∧
    addr t' = nn ∧ HeapTree.repr h' t' ∧
    HeapTree.strip t' = HeapTree.strip tree_in_heap_ex ∧
    HeapTree.repr h' tree_in_heap_ex.
Proof.
  assert (Heap.heap_ok heap_ex) as W1 by solve_heap_ex_ok.
  assert (HeapTree.repr heap_ex tree_in_heap_ex) as W2 by solve_repr_ex.
  assert (height tree_in_heap_ex ≤ 2) as W3 by (vm_compute; lia).
  split; [exact W1|]. split; [exact W2|]. split; [exact W3|].
  destruct (DeepCloneProofs.deep_clone_copies_the_tree 0 heap_ex
              tree_in_heap_ex 2 W1 W2 W3)
    as (nn & h' & t' & Hrun & Haddr & Hrepr' & Hstrip & _ & _ & Hrepr & _).
  exists nn, h', t'. by split_and!.
Defined.

Lemma deep_clone_then_GetWatch_witness :
  Heap.heap_ok heap_ex ∧ HeapTree.repr heap_ex tree_in_heap_ex ∧
  height tree_in_heap_ex ≤ 2 ∧
  ∃ nn h' t',
    Heap.clone 0 2 true 0 heap_ex = Returns (nn, h') ∧
    leaves t' = leaves tree_in_heap_ex ∧
    ∃ c h'', HeapTree.GetWatch 0 2 nn [] h' = Returns ((c, 7, true), h'').
Proof.
  assert (Heap.heap_ok heap_ex) as W1 by solve_heap_ex_ok.
  assert (HeapTree.repr heap_ex tree_in_heap_ex) as W2 by solve_repr_ex.
  assert (height tree_in_heap_ex ≤ 2) as W3 by (vm_compute; lia).
  split; [exact W1|]. split; [exact W2|]. split; [exact W3|].
  destruct (deep_clone_then_GetWatch 0 heap_ex tree_in_heap_ex 2 W1 W2 W3)
    as (nn & h' & t' & Hrun & _ & _ & Hleaves & Hget).
  destruct (Hget []) as (c & h'' & Hg & _).
  exists nn, h', t'. split; [exact Hrun|]. split; [exact Hleaves|].
  exists c, h''. exact Hg.
Defined.

